(** * Template-based text extraction for bills of lading

    A shallow embedding of the extraction engine of the repository
    ([template_extractor.py]) and of the grid builder of the template
    authoring tool ([template_creator.py]), together with the properties
    of the specification that concern them.

    Modelling conventions.
    - Coordinates are Python floats in the source.  They are modelled as
      exact rationals [Q]: every comparison, midpoint and average is the
      real-number one, without rounding, overflow or NaN.  The one
      exception is the fallback pass of the table cells, which compares
      square roots: there the operations are those of binary64 floats,
      rounded to the nearest.
    - Python [str] values are modelled as lists of 8-bit characters; the
      character classes, [upper] and [strip] follow Python on the ASCII
      range, and the characters above 127 are treated as neither word
      characters nor white space and are left unchanged by [upper].
      [normalize_text] is also modelled on strings of Unicode code
      points, in the module [Unicode], with the tables of the Unicode
      database as parameters.
    - A Python [dict] is an association list in insertion order, updated
      in place, as the insertion order of a [dict] is observable.
    - JSON records loaded from a template are records whose optional keys
      are [option] fields; [d.get(k, v)] is the field with default [v]. *)

From Stdlib Require Import List Ascii String QArith ZArith Lia Bool Arith.
From Stdlib Require Import Permutation Sorted DecimalString.
Import ListNotations.

Set Implicit Arguments.

(** ** Text *)

Definition str := list ascii.

Definition txt (s : string) : str := list_ascii_of_string s.

Definition ascii_eqb (a b : ascii) : bool := Ascii.eqb a b.

Fixpoint str_eqb (s t : str) : bool :=
  match s, t with
  | [], [] => true
  | a :: s', b :: t' => ascii_eqb a b && str_eqb s' t'
  | _, _ => false
  end.

(** ** Dictionaries: association lists in insertion order *)

Section Dict.
Variables K V : Type.
Variable keq : K -> K -> bool.

Definition dict := list (K * V).

Fixpoint dict_get (d : dict) (k : K) : option V :=
  match d with
  | [] => None
  | (k', v) :: r => if keq k k' then Some v else dict_get r k
  end.

(** [d[k] = v]: an existing key keeps its position. *)
Fixpoint dict_set (d : dict) (k : K) (v : V) : dict :=
  match d with
  | [] => [(k, v)]
  | (k', v') :: r =>
      if keq k k' then (k', v) :: r else (k', v') :: dict_set r k v
  end.

Definition dict_keys (d : dict) : list K := map fst d.
End Dict.

(** ** Geometry *)

Open Scope Q_scope.

Definition Qltb (a b : Q) : bool := negb (Qle_bool b a).
Definition Qeqb (a b : Q) : bool := Qeq_bool a b.
Definition Qabs' (a : Q) : Q := if Qle_bool 0 a then a else - a.
Definition Qmid (a b : Q) : Q := (a + b) / 2.

(** A stable sort, as Python's [sorted] and [list.sort]: [le x y] is
    [key(x) <= key(y)]. *)
Section Sort.
Variable A : Type.
Variable le : A -> A -> bool.

Fixpoint insert_by (x : A) (l : list A) : list A :=
  match l with
  | [] => [x]
  | y :: r => if le x y then x :: l else y :: insert_by x r
  end.

Fixpoint sort_by (l : list A) : list A :=
  match l with
  | [] => []
  | x :: r => insert_by x (sort_by r)
  end.
End Sort.

(** ** Data model *)

(** [TextElement] of the source. *)
Record TextElement := mkTextElement {
  text : str;
  x0 : Q; y0 : Q; x1 : Q; y1 : Q;
  center_x : Q; center_y : Q;
  box_assignment : option str
}.

Inductive BoxType := general | paragraph | table.

(** A cell of a table grid, as [_generate_table_cells] emits it. *)
Record Cell := mkCell {
  cell_id : Z;
  row : Z;
  col : Z;
  cell_coordinates : Q * Q * Q * Q
}.

(** A box descriptor of a template page. *)
Record Box := mkBox {
  label : option str;
  coordinates : option (list Q);
  extraction_order : option Z;
  box_type : option BoxType;
  table_cells : option (list Cell)
}.

(** [box.get('label', 'Unknown')] *)
Definition box_label (b : Box) : str :=
  match label b with Some l => l | None => txt "Unknown" end.

Definition UNBOXED : str := txt "_UNBOXED_".

(** ** ZoneAssigner: [_assign_text_to_boxes] *)

(** [x0_box <= element.center_x <= x1_box and
     y0_box <= element.center_y <= y1_box] *)
Definition center_in_rect (element : TextElement) (x0_box y0_box x1_box y1_box : Q) : bool :=
  Qle_bool x0_box (center_x element) && Qle_bool (center_x element) x1_box &&
  Qle_bool y0_box (center_y element) && Qle_bool (center_y element) y1_box.

(** The test of one box in the inner loop: [None] is the [continue] on
    absent or malformed coordinates. *)
Definition box_contains (element : TextElement) (box : Box) : bool :=
  match coordinates box with
  | Some [x0_box; y0_box; x1_box; y1_box] =>
      center_in_rect element x0_box y0_box x1_box y1_box
  | _ => false
  end.

(** The inner loop [for box in boxes: ... break]: the label of the box
    at which the loop breaks, if it does. *)
Fixpoint assign_element (element : TextElement) (boxes : list Box) : option str :=
  match boxes with
  | [] => None
  | box :: rest =>
      match coordinates box with
      | Some [x0_box; y0_box; x1_box; y1_box] =>
          if center_in_rect element x0_box y0_box x1_box y1_box
          then Some (box_label box)
          else assign_element element rest
      | _ => assign_element element rest
      end
  end.

Definition set_box_assignment (element : TextElement) (l : str) : TextElement :=
  mkTextElement (text element) (x0 element) (y0 element) (x1 element) (y1 element)
    (center_x element) (center_y element) (Some l).

Definition assignments := dict str (list TextElement).

(** [box_assignments[box_label].append(element)]; the key is always
    present, every label having been initialised. *)
Definition bucket_append (d : assignments) (k : str) (e : TextElement) : assignments :=
  match dict_get str_eqb d k with
  | Some l => dict_set str_eqb d k (l ++ [e])
  | None => d
  end.

(** One iteration of the loop over the text elements; the state is
    [(box_assignments, unboxed_elements)]. *)
Definition assign_step (boxes : list Box)
    (st : assignments * list TextElement) (element : TextElement)
    : assignments * list TextElement :=
  match assign_element element boxes with
  | Some l => (bucket_append (fst st) l (set_box_assignment element l), snd st)
  | None => (fst st, snd st ++ [element])
  end.

Definition init_assignments (boxes : list Box) : assignments :=
  fold_left (fun d box => dict_set str_eqb d (box_label box) []) boxes [].

Definition _assign_text_to_boxes (text_elements : list TextElement) (boxes : list Box)
    : assignments :=
  let '(box_assignments, unboxed_elements) :=
    fold_left (assign_step boxes) text_elements (init_assignments boxes, []) in
  match unboxed_elements with
  | [] => box_assignments
  | _ => dict_set str_eqb box_assignments UNBOXED unboxed_elements
  end.

(** ** Python string helpers *)

(** White space as [str.isspace] and the regular expression class [\s]
    see it on the ASCII range: TAB, LF, VT, FF, CR, FS, GS, RS, US and
    the space. *)
Definition is_space (c : ascii) : bool :=
  let n := nat_of_ascii c in
  ((9 <=? n) && (n <=? 13) || (28 <=? n) && (n <=? 32))%nat.

Fixpoint lstrip (s : str) : str :=
  match s with
  | c :: r => if is_space c then lstrip r else s
  | [] => []
  end.

Definition rstrip (s : str) : str := rev (lstrip (rev s)).

(** [s.strip()] *)
Definition strip (s : str) : str := rstrip (lstrip s).

(** [sep.join(parts)] *)
Fixpoint join (sep : str) (parts : list str) : str :=
  match parts with
  | [] => []
  | [p] => p
  | p :: r => p ++ sep ++ join sep r
  end.

(** [s.replace(c, new)] for a one-character needle [c]. *)
Fixpoint replace_char (c : ascii) (new : str) (s : str) : str :=
  match s with
  | [] => []
  | a :: r => (if ascii_eqb a c then new else [a]) ++ replace_char c new r
  end.

Definition NL : ascii := ascii_of_nat 10.
Definition SP : ascii := ascii_of_nat 32.
Definition PIPE : ascii := ascii_of_nat 124.
Definition BACKSLASH : ascii := ascii_of_nat 92.

(** A string is truthy when it is not empty. *)
Definition truthy (s : str) : bool := match s with [] => false | _ => true end.

(** ** Line grouping: [_group_words_into_lines] *)

(** A word in the list format [[x0, y0, x1, y1, text]]. *)
Definition Word := (Q * Q * Q * Q * str)%type.

Definition word_x0 (w : Word) : Q := let '(a, _, _, _, _) := w in a.
Definition word_y0 (w : Word) : Q := let '(_, b, _, _, _) := w in b.
Definition word_y1 (w : Word) : Q := let '(_, _, _, d, _) := w in d.
Definition word_text (w : Word) : str := let '(_, _, _, _, t) := w in t.

(** [(y0 + y1) / 2] *)
Definition word_center_y (w : Word) : Q := Qmid (word_y0 w) (word_y1 w).

Definition element_word (e : TextElement) : Word :=
  (x0 e, y0 e, x1 e, y1 e, text e).

Record Line := mkLine {
  line_center_y : Q;
  line_words : list Word;
  line_text : str
}.

(** [sum(all_centers) / len(all_centers)] *)
Definition average (l : list Q) : Q :=
  fold_left Qplus l 0 / inject_Z (Z.of_nat (List.length l)).

Definition line_tolerance : Q := 8.

(** The body of [for word in words]: the word joins the first line whose
    current centre is within the tolerance, and that line's centre
    becomes the average of its words' centres; otherwise the word opens
    a new line at the end. *)
Fixpoint place_word (word : Word) (lines : list Line) : list Line :=
  match lines with
  | [] => [mkLine (word_center_y word) [word] []]
  | line :: rest =>
      if Qle_bool (Qabs' (word_center_y word - line_center_y line)) line_tolerance
      then
        let ws := line_words line ++ [word] in
        mkLine (average (map word_center_y ws)) ws [] :: rest
      else line :: place_word word rest
  end.

Definition finish_line (line : Line) : Line :=
  let ws := sort_by (fun a b => Qle_bool (word_x0 a) (word_x0 b)) (line_words line) in
  mkLine (line_center_y line) ws (strip (join [SP] (map word_text ws))).

Definition _group_words_into_lines (words : list Word) : list Line :=
  let lines := fold_left (fun ls w => place_word w ls) words [] in
  let lines := sort_by (fun a b => Qle_bool (line_center_y a) (line_center_y b)) lines in
  filter (fun line => truthy (line_text line)) (map finish_line lines).

(** The loop shared by [_extract_with_layout_detection] and
    [_extract_paragraph_from_words]: a blank line is inserted when the
    centre of a line lies more than [threshold] below the previous one. *)
Fixpoint break_lines (threshold : Q) (prev : option Line) (lines : list Line) : list str :=
  match lines with
  | [] => []
  | line :: rest =>
      (match prev with
       | Some prev_line =>
           if Qltb threshold (line_center_y line - line_center_y prev_line)
           then [[]] else []
       | None => []
       end) ++ line_text line :: break_lines threshold (Some line) rest
  end.

Definition _extract_with_layout_detection (words : list Word) : str :=
  match words with
  | [] => []
  | _ => join [NL] (break_lines 25 None (_group_words_into_lines words))
  end.

Definition _extract_paragraph_from_words (words : list Word) : str :=
  match words with
  | [] => []
  | _ => join [NL] (break_lines 20 None (_group_words_into_lines words))
  end.

(** ** TableReconstructor: [_extract_table_text_from_elements] *)

(** The value stored in [cell_text_map] under a cell id. *)
Record CellInfo := mkCellInfo {
  ci_text : str;
  ci_row : Z;
  ci_col : Z;
  ci_elements : list TextElement
}.

Definition cell_map := dict Z CellInfo.

Definition cell_tolerance : Q := 2.

(** [cx0 - tolerance <= element.center_x <= cx1 + tolerance and
     cy0 - tolerance <= element.center_y <= cy1 + tolerance] *)
Definition cell_contains (element : TextElement) (cell : Cell) : bool :=
  let '(cx0, cy0, cx1, cy1) := cell_coordinates cell in
  Qle_bool (cx0 - cell_tolerance) (center_x element) &&
  Qle_bool (center_x element) (cx1 + cell_tolerance) &&
  Qle_bool (cy0 - cell_tolerance) (center_y element) &&
  Qle_bool (center_y element) (cy1 + cell_tolerance).

(** [sorted(cells, key=lambda c: c['cell_id'])] *)
Definition order_cells (cells : list Cell) : list Cell :=
  sort_by (fun a b => Z.leb (cell_id a) (cell_id b)) cells.

(** [max(f(cell) for cell in cells)] on a list that is not empty. *)
Definition max_of (f : Cell -> Z) (cells : list Cell) : Z :=
  match cells with
  | [] => 0%Z
  | c :: r => fold_left (fun m c' => Z.max m (f c')) r (f c)
  end.

Definition init_cell_map (ordered_cells : list Cell) : cell_map :=
  fold_left
    (fun d cell => dict_set Z.eqb d (cell_id cell) (mkCellInfo [] (row cell) (col cell) []))
    ordered_cells [].

(** [cell_text_map[id]['elements'].append(element)] *)
Definition cell_append (d : cell_map) (id : Z) (element : TextElement) : cell_map :=
  match dict_get Z.eqb d id with
  | Some ci =>
      dict_set Z.eqb d id
        (mkCellInfo (ci_text ci) (ci_row ci) (ci_col ci) (ci_elements ci ++ [element]))
  | None => d
  end.

(** The primary pass for one element: the id of the cell at which the
    loop over [ordered_cells] breaks. *)
Fixpoint primary_cell (element : TextElement) (ordered_cells : list Cell) : option Z :=
  match ordered_cells with
  | [] => None
  | cell :: rest =>
      if cell_contains element cell then Some (cell_id cell)
      else primary_cell element rest
  end.

Definition primary_step (ordered_cells : list Cell)
    (st : cell_map * list TextElement) (element : TextElement)
    : cell_map * list TextElement :=
  match primary_cell element ordered_cells with
  | Some id => (cell_append (fst st) id element, snd st)
  | None => (fst st, snd st ++ [element])
  end.

(** *** The arithmetic of floats in the fallback pass

    The fallback pass compares square roots, which have no exact value
    among the rationals: here the numbers are those of Python's
    [float], binary64 with rounding to the nearest number, ties to the
    even one.  The range of the exponent is not modelled: no overflow
    and no subnormal numbers, which coordinates of a page do not
    reach. *)

(** [2 ^ e] for an exponent of either sign. *)
Definition pow2 (e : Z) : Q :=
  if (0 <=? e)%Z then inject_Z (2 ^ e) else 1 / inject_Z (2 ^ (- e)).

(** The integer nearest to [n / d], the even one on a tie ([0 < d]). *)
Definition round_half_even (n d : Z) : Z :=
  let q := (n / d)%Z in
  let r := (n mod d)%Z in
  match (2 * r ?= d)%Z with
  | Lt => q
  | Gt => (q + 1)%Z
  | Eq => if Z.even q then q else (q + 1)%Z
  end.

(** The exponent [e] with [2 ^ e <= n / d < 2 ^ (e + 1)] ([0 < n],
    [0 < d]). *)
Definition exponent (n d : Z) : Z :=
  let e := (Z.log2 n - Z.log2 d)%Z in
  if (0 <=? e)%Z
  then (if (n <? d * 2 ^ e)%Z then e - 1 else e)%Z
  else (if (n * 2 ^ (- e) <? d)%Z then e - 1 else e)%Z.

(** The float nearest to [x]: 53 significant binary digits. *)
Definition round64 (x : Q) : Q :=
  let n := Z.abs (Qnum x) in
  let d := Zpos (Qden x) in
  if (n =? 0)%Z then 0
  else
    let s := (52 - exponent n d)%Z in
    let m := if (0 <=? s)%Z then round_half_even (n * 2 ^ s) d
             else round_half_even n (d * 2 ^ (- s)) in
    Qred ((if (Qnum x <? 0)%Z then - inject_Z m else inject_Z m) * pow2 (- s)).

Definition float_add (a b : Q) : Q := round64 (a + b).
Definition float_sub (a b : Q) : Q := round64 (a - b).
Definition float_mul (a b : Q) : Q := round64 (a * b).
Definition float_div (a b : Q) : Q := round64 (a / b).

(** [x ** 0.5]: the float nearest to the square root of [x].  With
    [y = x * 4 ^ s] and [fl] the integer part of the root of [y], the
    root is rounded up when [y] exceeds [(fl + 1/2) ^ 2]. *)
Definition pow_half (x : Q) : Q :=
  let n := Qnum x in
  let d := Zpos (Qden x) in
  if (n <=? 0)%Z then 0
  else
    let s := (52 - exponent n d / 2)%Z in
    let yn := if (0 <=? s)%Z then (n * 4 ^ s)%Z else n in
    let yd := if (0 <=? s)%Z then d else (d * 4 ^ (- s))%Z in
    let fl := Z.sqrt (yn / yd) in
    let m :=
      match (4 * yn ?= (4 * fl * fl + 4 * fl + 1) * yd)%Z with
      | Lt => fl
      | Gt => (fl + 1)%Z
      | Eq => if Z.even fl then fl else (fl + 1)%Z
      end in
    Qred (inject_Z m * pow2 (- s)).

(** The distance from the centre of the element to the centre of the
    cell, as the source computes it:
    [cell_center_x = (cx0 + cx1) / 2], [cell_center_y = (cy0 + cy1) / 2],
    [((element.center_x - cell_center_x) ** 2 +
      (element.center_y - cell_center_y) ** 2) ** 0.5]. *)
Definition cell_distance (element : TextElement) (cell : Cell) : Q :=
  let '(cx0, cy0, cx1, cy1) := cell_coordinates cell in
  let cell_center_x := float_div (float_add cx0 cx1) 2 in
  let cell_center_y := float_div (float_add cy0 cy1) 2 in
  let dx := float_sub (center_x element) cell_center_x in
  let dy := float_sub (center_y element) cell_center_y in
  pow_half (float_add (float_mul dx dx) (float_mul dy dy)).

(** One iteration of the fallback loop; the state is
    [(min_distance, closest_cell_id)], with [None] for [float('inf')]
    and for Python's [None]. *)
Definition closest_step (element : TextElement)
    (st : option Q * option Z) (cell : Cell) : option Q * option Z :=
  let distance := cell_distance element cell in
  let smaller :=
    match fst st with
    | None => true
    | Some min_distance => Qltb distance min_distance
    end in
  if smaller then (Some distance, Some (cell_id cell)) else st.

Definition closest_cell (element : TextElement) (ordered_cells : list Cell) : option Z :=
  snd (fold_left (closest_step element) ordered_cells (None, None)).

Definition fallback_step (ordered_cells : list Cell)
    (d : cell_map) (element : TextElement) : cell_map :=
  match closest_cell element ordered_cells with
  | Some id => cell_append d id element
  | None => d
  end.

(** The two passes that distribute the elements over the cells. *)
Definition assign_cells (elements : list TextElement) (ordered_cells : list Cell) : cell_map :=
  let '(d, unassigned_elements) :=
    fold_left (primary_step ordered_cells) elements (init_cell_map ordered_cells, []) in
  fold_left (fallback_step ordered_cells) unassigned_elements d.

(** [cell_info['text'] = "\n".join(line['text'] for line in lines)] for
    the cells that received elements. *)
Definition fill_cell_text (ci : CellInfo) : CellInfo :=
  match ci_elements ci with
  | [] => ci
  | _ =>
      let lines := _group_words_into_lines (map element_word (ci_elements ci)) in
      mkCellInfo (join [NL] (map line_text lines)) (ci_row ci) (ci_col ci) (ci_elements ci)
  end.

(** [cell_info['text'].replace("\n", " ").replace("|", "\\|").strip()] *)
Definition render_cell_text (ci : CellInfo) : str :=
  strip (replace_char PIPE [BACKSLASH; PIPE] (replace_char NL [SP] (ci_text ci))).

(** ["| " + " | ".join(row_cells) + " |"] *)
Definition row_line (row_cells : list str) : str :=
  txt "| " ++ join (txt " | ") row_cells ++ txt " |".

(** The separator row, [["---"] * (max_col + 1)] joined as a row. *)
Definition separator_line (max_col : Z) : str :=
  row_line (repeat (txt "---") (Z.to_nat (max_col + 1))).

(** One iteration of the rendering loop; the state is
    [(markdown_lines, row_cells, current_row)]. *)
Definition render_step (max_row max_col : Z) (d : cell_map)
    (st : list str * list str * Z) (id : Z) : list str * list str * Z :=
  let '(markdown_lines, row_cells, current_row) := st in
  match dict_get Z.eqb d id with
  | None => st
  | Some cell_info =>
      let cell_text := render_cell_text cell_info in
      if (ci_row cell_info >? current_row)%Z then
        let markdown_lines :=
          match row_cells with
          | [] => markdown_lines
          | _ =>
              markdown_lines ++ [row_line row_cells] ++
              (if (current_row =? 0)%Z && (max_row >? 0)%Z
               then [separator_line max_col] else [])
          end in
        (markdown_lines, [cell_text], ci_row cell_info)
      else (markdown_lines, row_cells ++ [cell_text], current_row)
  end.

(** The markdown table of a filled cell map. *)
Definition render_table (max_row max_col : Z) (d : cell_map) : str :=
  match d with
  | [] => []
  | _ =>
      let ids := sort_by Z.leb (dict_keys d) in
      let '(markdown_lines, row_cells, _) :=
        fold_left (render_step max_row max_col d) ids ([], [], 0%Z) in
      let markdown_lines :=
        match row_cells with
        | [] => markdown_lines
        | _ => markdown_lines ++ [row_line row_cells]
        end in
      join [NL] markdown_lines
  end.

Definition _extract_table_text_from_elements (elements : list TextElement) (box_data : Box) : str :=
  match table_cells box_data with
  | None | Some [] =>
      _extract_with_layout_detection (map element_word elements)
  | Some cells =>
      let ordered_cells := order_cells cells in
      let max_row := max_of row cells in
      let max_col := max_of col cells in
      let cell_text_map := assign_cells elements ordered_cells in
      let cell_text_map := map (fun kv => (fst kv, fill_cell_text (snd kv))) cell_text_map in
      render_table max_row max_col cell_text_map
  end.

(** ** [_process_box_elements] *)

Definition _process_box_elements (elements : list TextElement) (box_data : Box) : str :=
  match elements with
  | [] => []
  | _ =>
      match box_type box_data with
      | Some table => _extract_table_text_from_elements elements box_data
      | Some paragraph => _extract_paragraph_from_words (map element_word elements)
      | _ => _extract_with_layout_detection (map element_word elements)
      end
  end.

(** ** Unassigned content: [_group_unboxed_into_blocks] *)

(** A content block of a page: its text and its anchor. *)
Record Block := mkBlock {
  content : str;
  y_pos : Q;
  x_pos : Q
}.

Definition _process_unboxed_block (elements : list TextElement) : str :=
  match elements with
  | [] => []
  | _ => _extract_with_layout_detection (map element_word elements)
  end.

(** [min(f(e) for e in elements)] on a list that is not empty. *)
Definition min_of (f : TextElement -> Q) (elements : list TextElement) : Q :=
  match elements with
  | [] => 0
  | e :: r => fold_left (fun m e' => if Qltb (f e') m then f e' else m) r (f e)
  end.

(** "Process current block": the block is kept when its text is not
    blank. *)
Definition close_block (current_block_elements : list TextElement) : list Block :=
  match current_block_elements with
  | [] => []
  | _ =>
      let block_content := _process_unboxed_block current_block_elements in
      if truthy (strip block_content)
      then [mkBlock block_content (min_of y0 current_block_elements)
                    (min_of x0 current_block_elements)]
      else []
  end.

Definition vertical_threshold : Q := 20.

(** One iteration over the sorted elements; the state is
    [(blocks, current_block_elements)]. *)
Definition unboxed_step (st : list Block * list TextElement) (element : TextElement)
    : list Block * list TextElement :=
  let '(blocks, current_block_elements) := st in
  match rev current_block_elements with
  | last :: _ =>
      if Qltb vertical_threshold (y0 element - y1 last)
      then (blocks ++ close_block current_block_elements, [element])
      else (blocks, current_block_elements ++ [element])
  | [] => (blocks, current_block_elements ++ [element])
  end.

(** Lexicographic order on the keys [(top, left)]. *)
Definition lex_le (a b : Q * Q) : bool :=
  Qltb (fst a) (fst b) || (Qeqb (fst a) (fst b) && Qle_bool (snd a) (snd b)).

Definition _group_unboxed_into_blocks (elements : list TextElement) : list Block :=
  match elements with
  | [] => []
  | _ =>
      let sorted_elements :=
        sort_by (fun a b => lex_le (y0 a, x0 a) (y0 b, x0 b)) elements in
      let '(blocks, current_block_elements) :=
        fold_left unboxed_step sorted_elements ([], []) in
      blocks ++ close_block current_block_elements
  end.

(** ** Regular expressions

    The fragment of Python's [re] that the source uses: character
    classes, sequencing, greedy repetition with a lower bound, capture
    groups, the word boundary and one-character look-around.  Matching
    is by backtracking, written in continuation-passing style as in the
    [sre] engine: a repetition first tries one more iteration and falls
    back to the continuation. *)

Inductive regex :=
| Chr (p : ascii -> bool)
| Seq (r1 r2 : regex)
| Rep (min : nat) (r : regex)
| Grp (n : nat) (r : regex)
| WordB
| Ahead (p : ascii -> bool)
| Behind (p : ascii -> bool).

(** The position of the matcher: the characters before it, nearest
    first, the characters after it, and the groups captured so far. *)
Record mstate := mkMstate {
  before : str;
  after : str;
  groups : list (nat * str)
}.

Definition in_range (lo hi : nat) (c : ascii) : bool :=
  let n := nat_of_ascii c in ((lo <=? n) && (n <=? hi))%nat.

Definition is_upper (c : ascii) : bool := in_range 65 90 c.
Definition is_lower (c : ascii) : bool := in_range 97 122 c.
Definition is_letter (c : ascii) : bool := is_upper c || is_lower c.
Definition is_digit (c : ascii) : bool := in_range 48 57 c.
Definition is_char (n : nat) (c : ascii) : bool := (nat_of_ascii c =? n)%nat.

(** [\w] *)
Definition is_word (c : ascii) : bool := is_letter c || is_digit c || is_char 95 c.

Definition head_is (p : ascii -> bool) (s : str) : bool :=
  match s with c :: _ => p c | [] => false end.

(** [\b]: exactly one side of the position is a word character. *)
Definition at_boundary (st : mstate) : bool :=
  xorb (head_is is_word (before st)) (head_is is_word (after st)).

(** A greedy repetition of [body], at least [min] times: one more
    iteration is tried first, and the continuation [k] only when that
    fails and [count] iterations suffice.  Every repeated pattern of the
    source consumes a character, so that one more than the number of
    characters left is fuel enough. *)
Fixpoint iterate (body : mstate -> (mstate -> option mstate) -> option mstate)
    (min : nat) (k : mstate -> option mstate) (fuel count : nat) (st : mstate)
    {struct fuel} : option mstate :=
  match fuel with
  | O => None
  | S fuel' =>
      match body st (fun st' => iterate body min k fuel' (S count) st') with
      | Some res => Some res
      | None => if (min <=? count)%nat then k st else None
      end
  end.

Fixpoint rmatch (r : regex) (st : mstate) (k : mstate -> option mstate) {struct r}
    : option mstate :=
  match r with
  | Chr p =>
      match after st with
      | c :: rest => if p c then k (mkMstate (c :: before st) rest (groups st)) else None
      | [] => None
      end
  | Seq r1 r2 => rmatch r1 st (fun st' => rmatch r2 st' k)
  | Rep min r1 => iterate (rmatch r1) min k (S (List.length (after st))) O st
  | Grp n r1 =>
      rmatch r1 st (fun st' =>
        let taken := firstn (List.length (after st) - List.length (after st')) (after st) in
        k (mkMstate (before st') (after st') ((n, taken) :: groups st')))
  | WordB => if at_boundary st then k st else None
  | Ahead p => if head_is p (after st) then k st else None
  | Behind p => if head_is p (before st) then k st else None
  end.

(** A match found at a position: the number of characters it spans and
    its groups. *)
Definition match_at (r : regex) (pre s : str) : option (nat * list (nat * str)) :=
  match rmatch r (mkMstate pre s []) (fun st => Some st) with
  | Some st' => Some ((List.length s - List.length (after st'))%nat, groups st')
  | None => None
  end.

(** [match.group(n)] *)
Fixpoint group (n : nat) (gs : list (nat * str)) : str :=
  match gs with
  | [] => []
  | (m, s) :: r => if (n =? m)%nat then s else group n r
  end.

(** [re.sub(pattern, repl, s)]: the matches are the leftmost ones, they
    do not overlap, and the text between them is kept.  [skip] counts
    the characters of the current match still to pass over.  No pattern
    of the source matches the empty string, so an empty match counts as
    none. *)
Fixpoint sub_from (r : regex) (repl : str -> list (nat * str) -> str)
    (pre s : str) (skip : nat) : str :=
  match s with
  | [] => []
  | c :: rest =>
      match skip with
      | S n => sub_from r repl (c :: pre) rest n
      | O =>
          match match_at r pre s with
          | Some (S n, gs) => repl (firstn (S n) s) gs ++ sub_from r repl (c :: pre) rest n
          | _ => c :: sub_from r repl (c :: pre) rest O
          end
      end
  end.

Definition re_sub (r : regex) (repl : str -> list (nat * str) -> str) (s : str) : str :=
  sub_from r repl [] s O.

(** Replacement by a constant string. *)
Definition const_repl (t : str) : str -> list (nat * str) -> str := fun _ _ => t.

(** ** TextNormalizer of the matcher: [normalize_text] *)

Definition upper_char (c : ascii) : ascii :=
  if is_lower c then ascii_of_nat (nat_of_ascii c - 32) else c.

(** [text.upper()] *)
Definition upper (s : str) : str := map upper_char s.

(** The characters [- . , ( ) /] *)
Definition is_kept_punct (c : ascii) : bool :=
  is_char 45 c || is_char 46 c || is_char 44 c || is_char 40 c || is_char 41 c || is_char 47 c.

(** [[^\w\s\-\.\,\(\)\/]] *)
Definition re_artifact : regex :=
  Chr (fun c => negb (is_word c || is_space c || is_kept_punct c)).

(** [\s+] *)
Definition re_spaces : regex := Rep 1 (Chr is_space).

Definition normalize_text (text : str) : str :=
  match text with
  | [] => []
  | _ =>
      let normalized := upper text in
      let normalized := re_sub re_spaces (const_repl [SP]) normalized in
      let normalized := re_sub re_artifact (const_repl []) normalized in
      strip normalized
  end.

(** ** [normalize_text] on text of any script

    A Python string is a sequence of Unicode code points, and
    [str.upper], [str.strip] and the classes [\s] and [\w] follow the
    Unicode database of the interpreter, which is no part of this
    repository: its tables are parameters here.  The two substitutions
    are written as the functions they compute: [\s+] stands for the
    longest runs of white space, and the class of the deletion matches
    one character at a time. *)

Module Unicode.
Section Tables.

(** [c.isspace()], which is also the class [\s]. *)
Variable isspace : N -> bool.

(** The class [\w]: [c.isalnum() or c == '_']. *)
Variable isword : N -> bool.

(** The upper case of one character: one to three characters. *)
Variable toupper : N -> list N.

(** [text.upper()] *)
Definition upper (s : list N) : list N := flat_map toupper s.

Fixpoint lstrip (s : list N) : list N :=
  match s with
  | c :: r => if isspace c then lstrip r else s
  | [] => []
  end.

(** [s.strip()] *)
Definition strip (s : list N) : list N := rev (lstrip (rev (lstrip s))).

(** [re.sub(r'\s+', ' ', s)]; [in_run] tells that the character before
    was white space. *)
Fixpoint collapse_spaces (in_run : bool) (s : list N) : list N :=
  match s with
  | [] => []
  | c :: r =>
      if isspace c
      then (if in_run then [] else [32%N]) ++ collapse_spaces true r
      else c :: collapse_spaces false r
  end.

(** The characters [- . , ( ) /] *)
Definition is_kept_punct (c : N) : bool :=
  (c =? 45)%N || (c =? 46)%N || (c =? 44)%N || (c =? 40)%N || (c =? 41)%N || (c =? 47)%N.

(** [[^\w\s\-\.\,\(\)\/]] *)
Definition is_artifact (c : N) : bool :=
  negb (isword c || isspace c || is_kept_punct c).

Definition normalize_text (text : list N) : list N :=
  match text with
  | [] => []
  | _ =>
      let normalized := upper text in
      let normalized := collapse_spaces false normalized in
      let normalized := filter (fun c => negb (is_artifact c)) normalized in
      strip normalized
  end.

End Tables.
End Unicode.

(** ** TextNormalizer of the composed text: [_post_process_text] *)

(** The pattern [\b([A-Za-z])\s+([A-Za-z])\s+(G)\b], whose third group
    [G] is [[A-Za-z]+] followed by any number of [\s+[A-Za-z]]. *)
Definition re_spaced_words : regex :=
  Seq WordB
   (Seq (Grp 1 (Chr is_letter))
   (Seq re_spaces
   (Seq (Grp 2 (Chr is_letter))
   (Seq re_spaces
   (Seq (Grp 3 (Seq (Rep 1 (Chr is_letter))
                    (Rep 0 (Seq re_spaces (Chr is_letter)))))
        WordB))))).

(** [collapse_spaced]: [re.sub(r'\s+', '', match.group(0))] *)
Definition collapse_spaced : str -> list (nat * str) -> str :=
  fun group0 _ => re_sub re_spaces (const_repl []) group0.

Definition _fix_spaced_words (text : str) : str :=
  re_sub re_spaced_words collapse_spaced text.

Definition _normalize_whitespace (text : str) : str :=
  (* r' {2,}' -> ' ' *)
  let text := re_sub (Rep 2 (Chr (is_char 32))) (const_repl [SP]) text in
  (* r'\n{3,}' -> '\n\n' *)
  let text := re_sub (Rep 3 (Chr (is_char 10))) (const_repl [NL; NL]) text in
  (* r' +\n' -> '\n' *)
  let text := re_sub (Seq (Rep 1 (Chr (is_char 32))) (Chr (is_char 10))) (const_repl [NL]) text in
  strip text.

(** The characters [, ; :] *)
Definition is_sep_punct (c : ascii) : bool :=
  is_char 44 c || is_char 59 c || is_char 58 c.

Definition _fix_punctuation (text : str) : str :=
  (* r'([,;:])([A-Za-z])' -> r'\1 \2' *)
  let text :=
    re_sub (Seq (Grp 1 (Chr is_sep_punct)) (Grp 2 (Chr is_letter)))
      (fun _ gs => group 1 gs ++ [SP] ++ group 2 gs) text in
  (* r'\s+([,;:.])' -> r'\1' *)
  re_sub (Seq re_spaces (Grp 1 (Chr (fun c => is_sep_punct c || is_char 46 c))))
    (fun _ gs => group 1 gs) text.

(** The table [ocr_fixes], in the order of its keys. *)
Definition ocr_fixes : list (regex * str) :=
  [ (* r'\b0(?=[A-Za-z])' -> 'O' *)
    (Seq WordB (Seq (Chr (is_char 48)) (Ahead is_letter)), txt "O");
    (* r'(?<=[A-Za-z])0\b' -> 'O' *)
    (Seq (Behind is_letter) (Seq (Chr (is_char 48)) WordB), txt "O");
    (* r'\bl(?=[0-9])' -> '1' *)
    (Seq WordB (Seq (Chr (is_char 108)) (Ahead is_digit)), txt "1");
    (* r'\brn\b' -> 'm' *)
    (Seq WordB (Seq (Chr (is_char 114)) (Seq (Chr (is_char 110)) WordB)), txt "m");
    (* r'\bvv\b' -> 'w' *)
    (Seq WordB (Seq (Chr (is_char 118)) (Seq (Chr (is_char 118)) WordB)), txt "w");
    (* r'(?<=[a-z])I(?=[a-z])' -> 'l' *)
    (Seq (Behind is_lower) (Seq (Chr (is_char 73)) (Ahead is_lower)), txt "l") ].

Definition _fix_ocr_errors (text : str) : str :=
  fold_left (fun text fix_ => re_sub (fst fix_) (const_repl (snd fix_)) text) ocr_fixes text.

Definition _post_process_text (text : str) : str :=
  match text with
  | [] => text
  | _ =>
      let text := _fix_spaced_words text in
      let text := _normalize_whitespace text in
      let text := _fix_punctuation text in
      let text := _fix_ocr_errors text in
      text
  end.

(** ** [difflib.SequenceMatcher], as [calculate_fuzzy_similarity] uses it

    The matcher is built with [isjunk = None] and the default
    [autojunk = True]; the set [bjunk] is therefore empty. *)

Definition index_map := dict ascii (list nat).

(** [indices = b2j.setdefault(elt, []); indices.append(i)] *)
Definition b2j_add (b2j : index_map) (elt : ascii) (i : nat) : index_map :=
  match dict_get ascii_eqb b2j elt with
  | Some indices => dict_set ascii_eqb b2j elt (indices ++ [i])
  | None => dict_set ascii_eqb b2j elt [i]
  end.

Fixpoint b2j_fill (b : str) (i : nat) (b2j : index_map) : index_map :=
  match b with
  | [] => b2j
  | elt :: rest => b2j_fill rest (S i) (b2j_add b2j elt i)
  end.

(** [__chain_b]: the index of [b], without the popular elements when [b]
    has 200 elements or more. *)
Definition chain_b (b : str) : index_map :=
  let b2j := b2j_fill b O [] in
  let n := List.length b in
  if (200 <=? n)%nat then
    let ntest := (n / 100 + 1)%nat in
    filter (fun kv => negb (ntest <? List.length (snd kv))%nat) b2j
  else b2j.

(** [b2j.get(elt, nothing)] *)
Definition b2j_get (b2j : index_map) (elt : ascii) : list nat :=
  match dict_get ascii_eqb b2j elt with Some l => l | None => [] end.

(** [j2len.get(j-1, 0)]; the key [-1] is never present. *)
Definition j2len_prev (j2len : dict nat nat) (j : nat) : nat :=
  match j with
  | O => O
  | S j' => match dict_get Nat.eqb j2len j' with Some k => k | None => O end
  end.

Definition Match := (nat * nat * nat)%type.

(** [a[i]]; every index used below is in range. *)
Definition char_at (s : str) (i : nat) : ascii := nth i s Ascii.zero.

(** The loop [for j in b2j.get(a[i], nothing)] of [find_longest_match];
    the state is [(newj2len, (besti, bestj, bestsize))]. *)
Fixpoint scan_row (i blo bhi : nat) (j2len : dict nat nat) (js : list nat)
    (newj2len : dict nat nat) (best : Match) : dict nat nat * Match :=
  match js with
  | [] => (newj2len, best)
  | j :: rest =>
      if (j <? blo)%nat then scan_row i blo bhi j2len rest newj2len best
      else if (bhi <=? j)%nat then (newj2len, best)
      else
        let k := (j2len_prev j2len j + 1)%nat in
        let newj2len := dict_set Nat.eqb newj2len j k in
        let '(_, _, bestsize) := best in
        let best := if (bestsize <? k)%nat then ((i + 1 - k)%nat, (j + 1 - k)%nat, k) else best in
        scan_row i blo bhi j2len rest newj2len best
  end.

(** The loop [for i in range(alo, ahi)]; the state is [(j2len, best)]. *)
Definition scan_rows (a : str) (b2j : index_map) (alo ahi blo bhi : nat) : Match :=
  snd (fold_left
         (fun (st : dict nat nat * Match) i =>
            scan_row i blo bhi (fst st) (b2j_get b2j (char_at a i)) [] (snd st))
         (seq alo (ahi - alo)) ([], (alo, blo, O))).

(** [while besti > alo and bestj > blo and P(b[bestj-1]) and
     a[besti-1] == b[bestj-1]]: the block grows at its front. *)
Fixpoint extend_front (a b : str) (P : ascii -> bool) (alo blo : nat)
    (besti bestj bestsize : nat) {struct besti} : Match :=
  match besti, bestj with
  | S i', S j' =>
      if (alo <? besti)%nat && (blo <? bestj)%nat && P (char_at b j') &&
         ascii_eqb (char_at a i') (char_at b j')
      then extend_front a b P alo blo i' j' (S bestsize)
      else (besti, bestj, bestsize)
  | _, _ => (besti, bestj, bestsize)
  end.

(** [while besti+bestsize < ahi and bestj+bestsize < bhi and
     P(b[bestj+bestsize]) and a[besti+bestsize] == b[bestj+bestsize]]:
    the block grows at its end; [fuel] bounds the iterations by the
    room left in [a]. *)
Fixpoint extend_back (a b : str) (P : ascii -> bool) (ahi bhi : nat)
    (besti bestj : nat) (fuel bestsize : nat) : nat :=
  match fuel with
  | O => bestsize
  | S fuel' =>
      if (besti + bestsize <? ahi)%nat && (bestj + bestsize <? bhi)%nat &&
         P (char_at b (bestj + bestsize)) &&
         ascii_eqb (char_at a (besti + bestsize)) (char_at b (bestj + bestsize))
      then extend_back a b P ahi bhi besti bestj fuel' (S bestsize)
      else bestsize
  end.

Definition extend (a b : str) (P : ascii -> bool) (alo ahi blo bhi : nat) (m : Match) : Match :=
  let '(besti, bestj, bestsize) := m in
  let '(besti, bestj, bestsize) := extend_front a b P alo blo besti bestj bestsize in
  (besti, bestj, extend_back a b P ahi bhi besti bestj (ahi - (besti + bestsize)) bestsize).

(** [self.bjunk.__contains__] *)
Definition isbjunk (c : ascii) : bool := false.

Definition find_longest_match (a b : str) (b2j : index_map) (alo ahi blo bhi : nat) : Match :=
  let m := scan_rows a b2j alo ahi blo bhi in
  let m := extend a b (fun c => negb (isbjunk c)) alo ahi blo bhi m in
  extend a b isbjunk alo ahi blo bhi m.

Definition Region := (nat * nat * nat * nat)%type.

(** The loop [while queue] of [get_matching_blocks].  The head of the
    list is the end of the Python list, from which [pop] takes.  The
    result is [None] when the fuel does not suffice to empty the
    queue. *)
Fixpoint blocks_loop (a b : str) (b2j : index_map) (fuel : nat)
    (queue : list Region) (matching_blocks : list Match) : option (list Match) :=
  match queue with
  | [] => Some matching_blocks
  | (alo, ahi, blo, bhi) :: queue' =>
      match fuel with
      | O => None
      | S fuel' =>
          let '(i, j, k) := find_longest_match a b b2j alo ahi blo bhi in
          match k with
          | O => blocks_loop a b b2j fuel' queue' matching_blocks
          | _ =>
              let left : list Region :=
                if (alo <? i)%nat && (blo <? j)%nat then [(alo, i, blo, j)] else [] in
              let right : list Region :=
                if (i + k <? ahi)%nat && (j + k <? bhi)%nat
                then [((i + k)%nat, ahi, (j + k)%nat, bhi)] else [] in
              blocks_loop a b b2j fuel' (right ++ left ++ queue') (matching_blocks ++ [(i, j, k)])
          end
      end
  end.

(** The order of tuples of three integers. *)
Definition match_le (x y : Match) : bool :=
  let '(i1, j1, k1) := x in
  let '(i2, j2, k2) := y in
  (i1 <? i2)%nat ||
  ((i1 =? i2)%nat && ((j1 <? j2)%nat || ((j1 =? j2)%nat && (k1 <=? k2)%nat))).

(** The loop that merges adjacent blocks; the state is
    [((i1, j1, k1), non_adjacent)]. *)
Definition merge_step (st : Match * list Match) (x : Match) : Match * list Match :=
  let '((i1, j1, k1), non_adjacent) := st in
  let '(i2, j2, k2) := x in
  if ((i1 + k1 =? i2) && (j1 + k1 =? j2))%nat
  then ((i1, j1, (k1 + k2)%nat), non_adjacent)
  else ((i2, j2, k2),
        match k1 with O => non_adjacent | _ => non_adjacent ++ [(i1, j1, k1)] end).

Definition get_matching_blocks (a b : str) : list Match :=
  let la := List.length a in
  let lb := List.length b in
  let matching_blocks :=
    match blocks_loop a b (chain_b b) (2 * la + 1) [(O, la, O, lb)] [] with
    | Some l => l
    | None => []
    end in
  let matching_blocks := sort_by match_le matching_blocks in
  let '((i1, j1, k1), non_adjacent) := fold_left merge_step matching_blocks ((O, O, O), []) in
  let non_adjacent :=
    match k1 with O => non_adjacent | _ => non_adjacent ++ [(i1, j1, k1)] end in
  non_adjacent ++ [(la, lb, O)].

(** [_calculate_ratio] *)
Definition _calculate_ratio (matches length : nat) : Q :=
  match length with
  | O => 1
  | _ => 2 * inject_Z (Z.of_nat matches) / inject_Z (Z.of_nat length)
  end.

(** [SequenceMatcher(None, a, b).ratio()] *)
Definition ratio (a b : str) : Q :=
  let matches := fold_left (fun s (triple : Match) => (s + snd triple)%nat) (get_matching_blocks a b) O in
  _calculate_ratio matches (List.length a + List.length b).

Definition calculate_fuzzy_similarity (template_phrase pdf_text : str) : Q :=
  match template_phrase, pdf_text with
  | [], _ | _, [] => 0
  | _, _ =>
      let norm_template := normalize_text template_phrase in
      let norm_pdf := normalize_text pdf_text in
      ratio norm_template norm_pdf
  end.

(** ** Templates and documents *)

(** The record under a page key of a template. *)
Record PageData := mkPageData {
  page_raw_text : option str;
  boxes : option (list Box)
}.

(** A template record as loaded from its file.  [pages] is [None] when
    the key is absent or is not a [dict]: the template is then of the
    legacy single-page form, with its boxes at the top level. *)
Record Template := mkTemplate {
  template_name : option str;
  template_raw_text : option str;
  include_unboxed_content : option bool;
  pages : option (dict str PageData);
  legacy_boxes : option (list Box)
}.

(** ** Effects: exceptions and the trace of document handles

    A computation either returns a value or raises an exception, which
    carries its message; it also extends the trace of the calls made to
    the document-parsing collaborator. *)

Inductive result (A : Type) :=
| Return (a : A)
| Raise (e : str).

Arguments Return {A} a.
Arguments Raise {A} e.

Inductive event :=
| Opened (path : str)
| Closed (path : str)
| Written (path : str) (data : str).

Definition M (A : Type) : Type := list event -> result A * list event.

Definition ret {A} (a : A) : M A := fun tr => (Return a, tr).

Definition bind {A B} (m : M A) (f : A -> M B) : M B :=
  fun tr =>
    match m tr with
    | (Return a, tr') => f a tr'
    | (Raise e, tr') => (Raise e, tr')
    end.

(** [try: body  except Exception as e: handler(e)] *)
Definition try_except {A} (body : M A) (handler : str -> M A) : M A :=
  fun tr =>
    match body tr with
    | (Return a, tr') => (Return a, tr')
    | (Raise e, tr') => handler e tr'
    end.

Definition lift {A} (r : result A) : M A := fun tr => (r, tr).

Definition emit (ev : event) : M unit := fun tr => (Return tt, tr ++ [ev]).

Notation "x <- m ;; f" := (bind m (fun x => f))
  (at level 61, m at next level, right associativity).

Fixpoint mapM {A B} (f : A -> M B) (l : list A) : M (list B) :=
  match l with
  | [] => ret []
  | x :: r => y <- f x ;; ys <- mapM f r ;; ret (y :: ys)
  end.

(** A page of an opened document: what [page.get_text()] and
    [page.get_text("words")] yield; either call may fail. *)
Record Page := mkPage {
  get_text : result str;
  get_text_words : result (list Word)
}.

Definition Document := list Page.

(** [str(n)] *)
Definition str_of_nat (n : nat) : str :=
  list_ascii_of_string (NilZero.string_of_uint (Nat.to_uint n)).

(** ** ContentComposer: one page of [_extract_with_template] *)

(** [_extract_all_text_elements] *)
Definition _extract_all_text_elements (words : list Word) : list TextElement :=
  map (fun word_data =>
         let '(x0, y0, x1, y1, text) := word_data in
         mkTextElement text x0 y0 x1 y1 (Qmid x0 x1) (Qmid y0 y1) None)
      words.

(** [b.get('extraction_order', 999)] *)
Definition box_order (b : Box) : Z :=
  match extraction_order b with Some n => n | None => 999%Z end.

Definition sorted_boxes (template_page_data : option PageData) : list Box :=
  let bs :=
    match template_page_data with
    | Some pd => match boxes pd with Some l => l | None => [] end
    | None => []
    end in
  sort_by (fun a b => Z.leb (box_order a) (box_order b)) bs.

(** The anchor [(y_pos, x_pos)] of a box:
    [coords = box.get('coordinates', [0, 0, 0, 0])],
    [coords[1] if len(coords) >= 2 else 0] and
    [coords[0] if len(coords) >= 1 else 0]. *)
Definition box_anchor (box : Box) : Q * Q :=
  let coords := match coordinates box with Some c => c | None => [0; 0; 0; 0] end in
  (match coords with _ :: y :: _ => y | _ => 0 end,
   match coords with x :: _ => x | _ => 0 end).

(** "Add box content blocks" *)
Definition box_blocks (box_assignments : assignments) (boxes : list Box) : list Block :=
  flat_map
    (fun box =>
       match dict_get str_eqb box_assignments (box_label box) with
       | Some (e :: es) =>
           let box_text := _process_box_elements (e :: es) box in
           let box_text := _post_process_text box_text in
           [mkBlock box_text (fst (box_anchor box)) (snd (box_anchor box))]
       | _ => []
       end)
    boxes.

(** "Add unboxed content blocks (only if template allows it)" *)
Definition unboxed_blocks (template_data : Template) (box_assignments : assignments) : list Block :=
  let include_unboxed :=
    match include_unboxed_content template_data with Some v => v | None => true end in
  if include_unboxed then
    match dict_get str_eqb box_assignments UNBOXED with
    | Some unboxed_elements => _group_unboxed_into_blocks unboxed_elements
    | None => []
    end
  else [].

(** Steps 1 to 4 for one page: the content blocks in reading order. *)
Definition page_content_blocks (template_data : Template) (boxes : list Box)
    (words : list Word) : list Block :=
  let all_text_elements := _extract_all_text_elements words in
  let box_assignments := _assign_text_to_boxes all_text_elements boxes in
  let content_blocks :=
    box_blocks box_assignments boxes ++ unboxed_blocks template_data box_assignments in
  sort_by (fun a b => lex_le (y_pos a, x_pos a) (y_pos b, x_pos b)) content_blocks.

(** Step 5: each block is followed by an empty part. *)
Definition page_parts (template_data : Template) (boxes : list Box)
    (words : list Word) : list str :=
  flat_map (fun block => [content block; []])
    (page_content_blocks template_data boxes words).

(** The standardised pages of a template and their number. *)
Definition unified_pages (template_data : Template) : dict str PageData * nat :=
  match pages template_data with
  | Some ps => (ps, List.length ps)
  | None =>
      ([(txt "1",
         mkPageData
           (Some (match template_raw_text template_data with Some t => t | None => [] end))
           (Some (match legacy_boxes template_data with Some l => l | None => [] end)))],
       1%nat)
  end.

(** ** The extractor *)

Section Extractor.

(** What [fitz.open] yields for a path. *)
Variable fitz : str -> result Document.

(** The rendering [f"{x:.2f}"] of a float. *)
Variable format_2f : Q -> str.

(** [self.templates] and [self.confidence_threshold] *)
Variable templates : dict str Template.
Variable confidence_threshold : Q.

Definition fitz_open (pdf_path : str) : M Document :=
  _ <- emit (Opened pdf_path) ;; lift (fitz pdf_path).

Definition doc_close (pdf_path : str) : M unit := emit (Closed pdf_path).

(** The body of the loop over the pages of the document. *)
Definition extract_page (template_data : Template) (total_template_pages : nat)
    (page_num : nat) (page : Page) : M (list str) :=
  let template_page_key := str_of_nat (Nat.min page_num total_template_pages) in
  let template_page_data :=
    dict_get str_eqb (fst (unified_pages template_data)) template_page_key in
  let boxes := sorted_boxes template_page_data in
  words <- lift (get_text_words page) ;;
  ret ((([NL] ++ txt "---" ++ [NL] ++ txt "**Page " ++ str_of_nat page_num ++ txt "**" ++
         [NL] ++ txt "---" ++ [NL]) : str)
       :: page_parts template_data boxes words).

Fixpoint extract_pages (template_data : Template) (total_template_pages : nat)
    (page_num : nat) (doc : list Page) : M (list str) :=
  match doc with
  | [] => ret []
  | page :: rest =>
      parts <- extract_page template_data total_template_pages page_num page ;;
      more <- extract_pages template_data total_template_pages (S page_num) rest ;;
      ret (parts ++ more)
  end.

(** The body of the [try] of [_extract_with_template]. *)
Definition extract_document (pdf_path : str) (template_data : Template) : M str :=
  doc <- fitz_open pdf_path ;;
  let template_name :=
    match template_name template_data with Some n => n | None => txt "Unknown" end in
  let total_doc_pages := List.length doc in
  let total_template_pages := snd (unified_pages template_data) in
  let output_parts :=
    [ txt "## BOL Extraction Results";
      txt "**Template Used:** " ++ template_name;
      txt "**Document Pages:** " ++ str_of_nat total_doc_pages;
      txt "**Template Pages:** " ++ str_of_nat total_template_pages ++ [NL] ] in
  parts <- extract_pages template_data total_template_pages 1 doc ;;
  _ <- doc_close pdf_path ;;
  ret (join [NL] (output_parts ++ parts)).

Definition _extract_with_template (pdf_path : str) (template_data : Template) : M str :=
  try_except
    (extract_document pdf_path template_data)
    (fun e => ret (txt "ERROR: Template extraction failed: " ++ e)).

(** [TemplateMatch] *)
Record TemplateMatch := mkTemplateMatch {
  tm_template_name : str;
  confidence : Q;
  tm_template_data : Template
}.

Definition _calculate_template_confidence (sample_text : str) (template_data : Template) : Q :=
  match template_raw_text template_data with
  | None | Some [] => 0
  | Some template_fingerprint =>
      calculate_fuzzy_similarity template_fingerprint sample_text
  end.

(** One iteration over [self.templates.items()]; the state is
    [(best_match, best_confidence)]. *)
Definition best_step (combined_text : str)
    (st : option TemplateMatch * Q) (item : str * Template) : option TemplateMatch * Q :=
  let '(template_name, template_data) := item in
  let confidence := _calculate_template_confidence combined_text template_data in
  if Qltb (snd st) confidence
  then (Some (mkTemplateMatch template_name confidence template_data), confidence)
  else st.

Definition find_best_template (pdf_path : str) : M (option TemplateMatch) :=
  doc <- fitz_open pdf_path ;;
  all_pages_text <- mapM (fun page => lift (get_text page)) doc ;;
  _ <- doc_close pdf_path ;;
  let combined_text := upper (join [SP] all_pages_text) in
  ret (fst (fold_left (best_step combined_text) templates (None, 0))).

Definition no_template_message (best_match : option TemplateMatch) : str :=
  txt "ERROR: No suitable template found (best match: " ++
  (match best_match with Some m => tm_template_name m | None => txt "None" end) ++
  txt " with confidence " ++
  format_2f (match best_match with Some m => confidence m | None => 0 end) ++
  txt ")".

(** The body of the [try] of [extract_bol_text]. *)
Definition match_and_extract (pdf_path : str) : M str :=
  best_match <- find_best_template pdf_path ;;
  match best_match with
  | None => ret (no_template_message best_match)
  | Some m =>
      if Qltb (confidence m) confidence_threshold
      then ret (no_template_message best_match)
      else _extract_with_template pdf_path (tm_template_data m)
  end.

Definition extract_bol_text (pdf_path : str) : M str :=
  try_except
    (match_and_extract pdf_path)
    (fun e => ret (txt "ERROR: Failed to process BOL: " ++ e)).

(** The file system as [main.py] uses it: [Path.write_text], which may
    fail, [Path(document).stem] and the [/] of [pathlib]. *)
Variable write_text : str -> str -> result unit.
Variable stem : str -> str.
Variable path_join : str -> str -> str.

(** [processed_docs_folder_path] *)
Variable processed_docs_folder_path : str.




End Extractor.

(** ** Grid building: [_generate_table_cells] of the template creator *)

(** A detected line segment [[x1, y1, x2, y2]]. *)
Definition Segment := (Q * Q * Q * Q)%type.

Definition seg_x1 (l : Segment) : Q := let '(a, _, _, _) := l in a.
Definition seg_y1 (l : Segment) : Q := let '(_, b, _, _) := l in b.
Definition seg_x2 (l : Segment) : Q := let '(_, _, c, _) := l in c.
Definition seg_y2 (l : Segment) : Q := let '(_, _, _, d) := l in d.

(** [self.detected_lines] *)
Record DetectedLines := mkDetectedLines {
  horizontal : list Segment;
  vertical : list Segment
}.

(** [dedup_lines] of the line detection: the lines sorted by [l[1]], a
    line being dropped when it lies within 5 units of the last one
    kept. *)
Definition dedup_step (deduped : list Segment) (l : Segment) : list Segment :=
  match rev deduped with
  | [] => deduped ++ [l]
  | last :: _ =>
      if Qltb 5 (Qabs' (seg_y1 l - seg_y1 last)) then deduped ++ [l] else deduped
  end.

Definition dedup_lines (lines : list Segment) : list Segment :=
  fold_left dedup_step (sort_by (fun a b => Qle_bool (seg_y1 a) (seg_y1 b)) lines) [].

(** [s.add(x)] on a set of numbers, kept as a list without repetition. *)
Definition set_add (s : list Q) (x : Q) : list Q :=
  if existsb (Qeqb x) s then s else s ++ [x].

(** [sorted(s)] of the set of the values of [l]. *)
Definition sorted_set (l : list Q) : list Q :=
  sort_by Qle_bool (fold_left set_add l []).

(** [h_positions] *)
Definition h_positions (detected_lines : DetectedLines) : list Q :=
  sorted_set (map (fun line => Qmid (seg_y1 line) (seg_y2 line)) (horizontal detected_lines)).

Definition Qmin' (a b : Q) : Q := if Qle_bool a b then a else b.
Definition Qmax' (a b : Q) : Q := if Qle_bool a b then b else a.

Definition grid_tolerance : Q := 5.

(** The vertical line spans the row band from [seg_top] to
    [seg_bottom]. *)
Definition covers_band (line : Segment) (seg_top seg_bottom : Q) : bool :=
  let line_top := Qmin' (seg_y1 line) (seg_y2 line) in
  let line_bottom := Qmax' (seg_y1 line) (seg_y2 line) in
  Qle_bool line_top (seg_top + grid_tolerance) &&
  Qle_bool (seg_bottom - grid_tolerance) line_bottom.

(** [sorted(vertical_segments.get((top, bottom), set()))]: the sorted
    positions of the vertical lines that span the band. *)
Definition v_positions (detected_lines : DetectedLines) (top bottom : Q) : list Q :=
  sorted_set
    (map (fun line => Qmid (seg_x1 line) (seg_x2 line))
       (filter (fun line => covers_band line top bottom) (vertical detected_lines))).

(** The cells between consecutive vertical positions, columns numbered
    from [j]. *)
Fixpoint band_cells (cell_id i j : Z) (top bottom : Q) (vs : list Q) : list Cell :=
  match vs with
  | lft :: ((rgt :: _) as rest) =>
      mkCell cell_id i j (lft, top, rgt, bottom)
      :: band_cells (cell_id + 1) i (j + 1) top bottom rest
  | _ => []
  end.

(** The row-major iteration over the bands between consecutive
    horizontal positions, rows numbered from [i]. *)
Fixpoint grid_rows (box_coords : Q * Q * Q * Q) (detected_lines : DetectedLines)
    (cell_id i : Z) (hs : list Q) : list Cell :=
  match hs with
  | top :: ((bottom :: _) as rest) =>
      let '(x1, y1, x2, y2) := box_coords in
      let vs := v_positions detected_lines top bottom in
      let cells :=
        if (List.length vs <? 2)%nat
        then [mkCell cell_id i 0 (x1, top, x2, bottom)]
        else band_cells cell_id i 0 top bottom vs in
      cells ++ grid_rows box_coords detected_lines
                 (cell_id + Z.of_nat (List.length cells)) (i + 1) rest
  | _ => []
  end.

Definition _generate_table_cells (box_coords : Q * Q * Q * Q)
    (detected_lines : DetectedLines) : list Cell :=
  let hs := h_positions detected_lines in
  if (List.length hs <? 2)%nat then []
  else grid_rows box_coords detected_lines 0 0 hs.

(** * Properties *)

(** ** Strings and dictionaries *)

Lemma str_eqb_eq (s t : str) : str_eqb s t = true <-> s = t.
Proof.
  revert t; induction s as [|a s IH]; intros [|b t]; simpl; split; try congruence; auto.
  - rewrite andb_true_iff. intros [H1 H2].
    apply Ascii.eqb_eq in H1. apply IH in H2. congruence.
  - intros H; inversion H; subst. rewrite andb_true_iff. split.
    + apply Ascii.eqb_refl.
    + now apply IH.
Qed.

Lemma str_eqb_refl (s : str) : str_eqb s s = true.
Proof. now apply str_eqb_eq. Qed.

Lemma str_eqb_neq (s t : str) : s <> t -> str_eqb s t = false.
Proof.
  intros H. destruct (str_eqb s t) eqn:E; auto. apply str_eqb_eq in E. contradiction.
Qed.

Section DictFacts.
Variables K V : Type.
Variable keq : K -> K -> bool.
Hypothesis keq_eq : forall a b, keq a b = true <-> a = b.

Lemma keq_refl (a : K) : keq a a = true.
Proof. now apply keq_eq. Qed.

Lemma keq_false (a b : K) : a <> b -> keq a b = false.
Proof.
  intros H. destruct (keq a b) eqn:E; auto. apply keq_eq in E. contradiction.
Qed.

Lemma dict_get_set_same (d : dict K V) k v :
  dict_get keq (dict_set keq d k v) k = Some v.
Proof.
  induction d as [|[k' v'] d IH]; simpl.
  - now rewrite keq_refl.
  - destruct (keq k k') eqn:E; simpl; rewrite E; auto.
Qed.

Lemma dict_get_set_other (d : dict K V) k k' v :
  k <> k' -> dict_get keq (dict_set keq d k v) k' = dict_get keq d k'.
Proof.
  intros Hn. induction d as [|[k2 v2] d IH]; simpl.
  - rewrite keq_false; auto.
  - destruct (keq k k2) eqn:E; simpl.
    + apply keq_eq in E. subst k2. rewrite keq_false; auto.
    + now rewrite IH.
Qed.


Lemma dict_get_in_keys (d : dict K V) k v :
  dict_get keq d k = Some v -> In k (dict_keys d).
Proof.
  unfold dict_keys. induction d as [|[k2 v2] d IH]; simpl; [discriminate|].
  destruct (keq k k2) eqn:E; auto.
  apply keq_eq in E. auto.
Qed.
End DictFacts.

(** ** Zone assignment *)

(** The centre of the element lies in the rectangle of the box,
    boundaries included. *)
Definition zone_contains (e : TextElement) (b : Box) : Prop :=
  exists bx0 by0 bx1 by1,
    coordinates b = Some [bx0; by0; bx1; by1] /\
    bx0 <= center_x e /\ center_x e <= bx1 /\
    by0 <= center_y e /\ center_y e <= by1.

(** [b] is the first box of [boxes], in their order, that contains the
    centre of [e]. *)
Definition first_zone (e : TextElement) (boxes : list Box) (b : Box) : Prop :=
  exists pre post,
    boxes = pre ++ b :: post /\ zone_contains e b /\
    Forall (fun b' => ~ zone_contains e b') pre.

Lemma center_in_rect_spec e a b c d :
  center_in_rect e a b c d = true <->
  a <= center_x e /\ center_x e <= c /\ b <= center_y e /\ center_y e <= d.
Proof.
  unfold center_in_rect. rewrite !andb_true_iff, !Qle_bool_iff. tauto.
Qed.

Lemma box_contains_spec e b : box_contains e b = true <-> zone_contains e b.
Proof.
  unfold box_contains, zone_contains.
  destruct (coordinates b) as [[|a [|b0 [|c [|d [|? ?]]]]]|]; split;
    try discriminate; try (intros (? & ? & ? & ? & H & _); discriminate).
  - intros H. apply center_in_rect_spec in H. exists a, b0, c, d. tauto.
  - intros (? & ? & ? & ? & H & H'). inversion H; subst. now apply center_in_rect_spec.
Qed.

Lemma assign_element_cons e box rest :
  assign_element e (box :: rest) =
  if box_contains e box then Some (box_label box) else assign_element e rest.
Proof.
  unfold box_contains. simpl.
  destruct (coordinates box) as [[|a [|b0 [|c [|d [|? ?]]]]]|]; reflexivity.
Qed.

Lemma assign_element_some e boxes L :
  assign_element e boxes = Some L <->
  exists b, first_zone e boxes b /\ box_label b = L.
Proof.
  induction boxes as [|box rest IH].
  - simpl. split; [discriminate|].
    intros (b & (pre & post & H & _) & _). destruct pre; discriminate.
  - rewrite assign_element_cons. destruct (box_contains e box) eqn:E.
    + split.
      * intros H. inversion H; subst. exists box. split; auto.
        exists [], rest. repeat split; auto. now apply box_contains_spec.
      * intros (b & (pre & post & H & Hc & Hpre) & Hl).
        destruct pre as [|p pre]; simpl in H; inversion H; subst; auto.
        inversion Hpre; subst. exfalso. apply H2. now apply box_contains_spec.
    + rewrite IH. split.
      * intros (b & (pre & post & H & Hc & Hpre) & Hl). exists b. split; auto.
        exists (box :: pre), post. subst rest. repeat split; auto.
        constructor; auto. intros Hz. apply box_contains_spec in Hz. congruence.
      * intros (b & (pre & post & H & Hc & Hpre) & Hl).
        destruct pre as [|p pre]; simpl in H; inversion H; subst.
        -- apply box_contains_spec in Hc. congruence.
        -- exists b. split; auto. exists pre, post. inversion Hpre; subst. auto.
Qed.

Lemma assign_element_none e boxes :
  assign_element e boxes = None <-> Forall (fun b => ~ zone_contains e b) boxes.
Proof.
  induction boxes as [|box rest IH].
  - simpl. split; auto.
  - rewrite assign_element_cons. destruct (box_contains e box) eqn:E.
    + split; [discriminate|]. intros H. inversion H; subst.
      exfalso. apply H2. now apply box_contains_spec.
    + rewrite IH. split.
      * intros H. constructor; auto. intros Hz. apply box_contains_spec in Hz. congruence.
      * intros H. now inversion H.
Qed.

Lemma first_zone_unique e boxes b1 b2 :
  first_zone e boxes b1 -> first_zone e boxes b2 -> b1 = b2.
Proof.
  intros (pre1 & post1 & H1 & Hc1 & Hp1). revert pre1 post1 H1 Hp1.
  induction boxes as [|box rest IH]; intros pre1 post1 H1 Hp1 (pre2 & post2 & H2 & Hc2 & Hp2).
  - destruct pre1; discriminate.
  - destruct pre1 as [|p1 pre1], pre2 as [|p2 pre2]; simpl in *;
      inversion H1; inversion H2; subst.
    + congruence.
    + inversion Hp2; subst. contradiction.
    + inversion Hp1; subst. congruence.
    + inversion Hp1; inversion Hp2; subst.
      apply (IH pre1 post1); auto. exists pre2, post2. inversion H2. auto.
Qed.

(** The label under which an element is filed, as a test. *)
Definition filed_under (boxes : list Box) (L : str) (e : TextElement) : bool :=
  match assign_element e boxes with
  | Some l => str_eqb l L
  | None => false
  end.

Definition bucket (d : assignments) (L : str) : list TextElement :=
  match dict_get str_eqb d L with Some l => l | None => [] end.

Lemma init_assignments_get boxes0 L :
  forall d : assignments,
    (In L (map box_label boxes0) \/ dict_get str_eqb d L = Some []) ->
    (forall k v, dict_get str_eqb d k = Some v -> v = []) ->
    dict_get str_eqb
      (fold_left (fun d box => dict_set str_eqb d (box_label box) []) boxes0 d) L = Some [].
Proof.
  induction boxes0 as [|b rest IH]; intros d H Hall; simpl in *.
  - destruct H as [[]|H]; auto.
  - apply IH.
    + destruct (str_eqb (box_label b) L) eqn:E.
      * apply str_eqb_eq in E. subst. right. apply dict_get_set_same, str_eqb_eq.
      * assert (Hne : box_label b <> L).
        { intros Heq. rewrite Heq, str_eqb_refl in E. discriminate. }
        destruct H as [[H|H]|H]; auto; [contradiction|].
        right. rewrite dict_get_set_other; auto using str_eqb_eq.
    + intros k v. destruct (str_eqb (box_label b) k) eqn:E.
      * apply str_eqb_eq in E. subst.
        rewrite (dict_get_set_same str_eqb str_eqb_eq). congruence.
      * rewrite dict_get_set_other; [apply Hall | apply str_eqb_eq |].
        intros Heq. rewrite Heq, str_eqb_refl in E. discriminate.
Qed.

Lemma init_assignments_some boxes0 L :
  In L (map box_label boxes0) ->
  dict_get str_eqb (init_assignments boxes0) L = Some [].
Proof.
  intros H. unfold init_assignments. apply init_assignments_get; auto.
  simpl. discriminate.
Qed.

Lemma assign_element_label_in e boxes L :
  assign_element e boxes = Some L -> In L (map box_label boxes).
Proof.
  intros H. apply assign_element_some in H. destruct H as (b & (pre & post & H & _) & Hl).
  subst. rewrite map_app. apply in_or_app. right. now left.
Qed.

(** The loop over the elements: every label of a box keeps a bucket,
    which receives, in order, the elements filed under it. *)
Lemma assign_step_eq boxes d u e :
  assign_step boxes (d, u) e =
  match assign_element e boxes with
  | Some l => (bucket_append d l (set_box_assignment e l), u)
  | None => (d, u ++ [e])
  end.
Proof. reflexivity. Qed.

Lemma assign_loop boxes elements :
  forall d u,
    (forall L, In L (map box_label boxes) -> exists l, dict_get str_eqb d L = Some l) ->
    (forall L, In L (map box_label boxes) ->
       dict_get str_eqb (fst (fold_left (assign_step boxes) elements (d, u))) L =
       Some (bucket d L ++
             map (fun e => set_box_assignment e L) (filter (filed_under boxes L) elements))) /\
    (forall L, ~ In L (map box_label boxes) ->
       dict_get str_eqb (fst (fold_left (assign_step boxes) elements (d, u))) L =
       dict_get str_eqb d L) /\
    snd (fold_left (assign_step boxes) elements (d, u)) =
    u ++ filter (fun e => match assign_element e boxes with None => true | _ => false end)
           elements.
Proof.
  induction elements as [|e rest IH]; intros d u Hd.
  - simpl. repeat split.
    + intros L HL. destruct (Hd L HL) as [l Hl]. unfold bucket. rewrite Hl.
      now rewrite app_nil_r.
    + now rewrite app_nil_r.
  - cbn [fold_left filter]. rewrite assign_step_eq.
    destruct (assign_element e boxes) as [l|] eqn:E; cbv iota.
    + pose proof (assign_element_label_in _ _ E) as Hin.
      destruct (Hd l Hin) as [cur Hcur].
      assert (Hd' : forall L, In L (map box_label boxes) ->
                exists l0, dict_get str_eqb (bucket_append d l (set_box_assignment e l)) L = Some l0).
      { intros L HL. unfold bucket_append. rewrite Hcur.
        destruct (str_eqb l L) eqn:EL.
        - apply str_eqb_eq in EL. subst. rewrite (dict_get_set_same str_eqb str_eqb_eq). eauto.
        - rewrite dict_get_set_other; [auto | apply str_eqb_eq |].
          intros Heq. rewrite Heq, str_eqb_refl in EL. discriminate. }
      destruct (IH (bucket_append d l (set_box_assignment e l)) u Hd') as (I1 & I2 & I3).
      repeat split.
      * intros L HL. etransitivity; [exact (I1 L HL)|]. f_equal. unfold bucket, bucket_append. rewrite Hcur.
        unfold filed_under at 2. rewrite E.
        destruct (str_eqb l L) eqn:EL.
        -- apply str_eqb_eq in EL. subst.
           rewrite (dict_get_set_same str_eqb str_eqb_eq), Hcur. simpl.
           now rewrite <- app_assoc.
        -- rewrite dict_get_set_other; [auto | apply str_eqb_eq |].
           intros Heq. rewrite Heq, str_eqb_refl in EL. discriminate.
      * intros L HL. etransitivity; [exact (I2 L HL)|]. unfold bucket_append. rewrite Hcur.
        rewrite dict_get_set_other; [auto | apply str_eqb_eq |]. congruence.
      * exact I3.
    + destruct (IH d (u ++ [e]) Hd) as (I1 & I2 & I3). repeat split; auto.
      * intros L HL. etransitivity; [exact (I1 L HL)|]. unfold filed_under at 2. now rewrite E.
      * etransitivity; [exact I3|]. now rewrite <- app_assoc.
Qed.

Lemma dict_set_get_none (d : assignments) k v k' :
  k <> k' -> dict_get str_eqb d k' = None ->
  dict_get str_eqb (dict_set str_eqb d k v) k' = None.
Proof.
  intros Hne. induction d as [|[k0 v0] d IH]; simpl.
  - intros _. destruct (str_eqb k' k) eqn:E; [|reflexivity].
    apply str_eqb_eq in E. congruence.
  - destruct (str_eqb k k0) eqn:E; simpl.
    + destruct (str_eqb k' k0); [discriminate|auto].
    + destruct (str_eqb k' k0); [discriminate|auto].
Qed.

Lemma init_assignments_other boxes0 L :
  ~ In L (map box_label boxes0) ->
  forall d : assignments,
    dict_get str_eqb d L = None ->
    dict_get str_eqb
      (fold_left (fun d box => dict_set str_eqb d (box_label box) []) boxes0 d) L = None.
Proof.
  induction boxes0 as [|b bs IH]; simpl; intros Hn d Hd; [exact Hd|].
  apply IH; [tauto|]. apply dict_set_get_none; auto.
Qed.

(** The elements that no box receives. *)
Definition left_over (boxes : list Box) (elements : list TextElement) : list TextElement :=
  filter (fun e => match assign_element e boxes with None => true | _ => false end) elements.

(** The assignment, key by key. *)
Lemma assign_result elements boxes :
  (left_over boxes elements <> [] ->
   dict_get str_eqb (_assign_text_to_boxes elements boxes) UNBOXED =
   Some (left_over boxes elements)) /\
  (forall L, L <> UNBOXED \/ left_over boxes elements = [] ->
     In L (map box_label boxes) ->
     dict_get str_eqb (_assign_text_to_boxes elements boxes) L =
     Some (map (fun e => set_box_assignment e L) (filter (filed_under boxes L) elements))) /\
  (forall L, L <> UNBOXED \/ left_over boxes elements = [] ->
     ~ In L (map box_label boxes) ->
     dict_get str_eqb (_assign_text_to_boxes elements boxes) L = None).
Proof.
  unfold _assign_text_to_boxes.
  assert (Hinit : forall L0, In L0 (map box_label boxes) ->
            exists l, dict_get str_eqb (init_assignments boxes) L0 = Some l).
  { intros L0 H0. exists []. now apply init_assignments_some. }
  pose proof (assign_loop boxes elements (init_assignments boxes) [] Hinit) as H3.
  match goal with
  | |- context [fold_left ?f ?l ?i] =>
      change (fold_left (assign_step boxes) elements (init_assignments boxes, []))
        with (fold_left f l i) in H3;
      destruct (fold_left f l i) as [d u]
  end.
  destruct H3 as (H1 & H2 & H4). cbn [fst snd app] in H1, H2, H4.
  fold (left_over boxes elements) in H4. rewrite <- H4.
  split; [|split].
  - intros Hu. destruct u as [|e0 u]; [congruence|].
    apply dict_get_set_same, str_eqb_eq.
  - intros L HL Hin. specialize (H1 L Hin).
    assert (Hb : bucket (init_assignments boxes) L = []).
    { unfold bucket. now rewrite init_assignments_some. }
    rewrite Hb in H1. cbn [app] in H1.
    destruct u as [|e0 u]; [exact H1|].
    destruct HL as [HL|HL]; [|discriminate].
    etransitivity; [|exact H1].
    apply dict_get_set_other; [apply str_eqb_eq|]. congruence.
  - intros L HL Hin. specialize (H2 L Hin).
    assert (Hn : dict_get str_eqb (init_assignments boxes) L = None).
    { unfold init_assignments. apply init_assignments_other; auto. }
    destruct u as [|e0 u]; [congruence|].
    destruct HL as [HL|HL]; [|discriminate].
    etransitivity; [|etransitivity; [exact H2|exact Hn]].
    apply dict_get_set_other; [apply str_eqb_eq|]. congruence.
Qed.

Lemma filed_under_true boxes L e :
  filed_under boxes L e = true <-> assign_element e boxes = Some L.
Proof.
  unfold filed_under. destruct (assign_element e boxes) as [l|]; [|split; discriminate].
  split.
  - intros H. apply str_eqb_eq in H. now subst.
  - intros H. inversion H. apply str_eqb_refl.
Qed.

(** ** C1 *)

Definition zoneA : Box := mkBox (Some (txt "A")) (Some [0; 0; 10; 10]) None None None.
Definition zoneB : Box := mkBox (Some (txt "B")) (Some [5; 5; 15; 15]) None None None.

(** A token whose centre is [(cx, cy)]. *)
Definition token_at (t : str) (cx cy : Q) : TextElement :=
  mkTextElement t (cx - 1) (cy - 1) (cx + 1) (cy + 1) cx cy None.

(** C1, as amended.  Zone assignment files every token under the label
    of the first zone, in the order of the list of zones, whose
    rectangle contains the centre of the token, boundaries included: the
    inner loop breaks with label [L] exactly when [L] labels that first
    zone, which is unique.  The bucket of a zone label is, in order, the
    list of the tokens filed under it, with one exception: the key
    [_UNBOXED_] is reserved for the tokens that lie outside every zone,
    and when there is such a token the list of those tokens replaces
    the bucket of that key.  With A = [0,0,10,10] and B = [5,5,15,15] in
    this order, a token centred at (7,7) is in the bucket of A and not
    in that of B. *)
Theorem C1_first_zone_assignment :
  forall (text_elements : list TextElement) (zones : list Box),
    (forall e L,
       assign_element e zones = Some L <->
       exists b, first_zone e zones b /\ box_label b = L) /\
    (forall e b1 b2, first_zone e zones b1 -> first_zone e zones b2 -> b1 = b2) /\
    (forall L, In L (map box_label zones) ->
       L <> UNBOXED \/ left_over zones text_elements = [] ->
       dict_get str_eqb (_assign_text_to_boxes text_elements zones) L =
       Some (map (fun e => set_box_assignment e L)
               (filter (filed_under zones L) text_elements))) /\
    (left_over zones text_elements <> [] ->
     dict_get str_eqb (_assign_text_to_boxes text_elements zones) UNBOXED =
     Some (left_over zones text_elements)) /\
    (forall t,
       let r := _assign_text_to_boxes [token_at t 7 7] [zoneA; zoneB] in
       bucket r (txt "A") = [set_box_assignment (token_at t 7 7) (txt "A")] /\
       bucket r (txt "B") = []).
Proof.
  intros text_elements zones.
  destruct (assign_result text_elements zones) as (R1 & R2 & _).
  split; [|split; [|split; [|split]]].
  - intros e L. apply assign_element_some.
  - intros e b1 b2. apply first_zone_unique.
  - intros L HL HU. now apply R2.
  - exact R1.
  - intros t. split; reflexivity.
Qed.

(** The hypotheses of C1 at the zones A and B and a token at (7,7). *)
Lemma C1_first_zone_assignment_witness :
  dict_get str_eqb (_assign_text_to_boxes [token_at (txt "x") 7 7] [zoneA; zoneB]) (txt "A") =
  Some (map (fun e => set_box_assignment e (txt "A"))
          (filter (filed_under [zoneA; zoneB] (txt "A")) [token_at (txt "x") 7 7])).
Proof.
  apply (proj1 (proj2 (proj2
    (C1_first_zone_assignment [token_at (txt "x") 7 7] [zoneA; zoneB])))).
  - simpl. left. reflexivity.
  - left. unfold UNBOXED. intros H. discriminate H.
Defined.

(** A zone that bears the reserved label. *)
Definition zoneU : Box := mkBox (Some UNBOXED) (Some [0; 0; 10; 10]) None None None.

(** The claim C1 as stated, for every ordered list of zones, fails when
    a zone bears the label [_UNBOXED_]: with that zone and two tokens,
    one centred at (5,5) inside it and one at (50,50) outside, the zone
    is the first zone that contains the first token, yet the result
    holds the second token alone and the first token is in no bucket. *)
Lemma C1_reserved_label_drops_token :
  first_zone (token_at (txt "in") 5 5) [zoneU] zoneU /\
  _assign_text_to_boxes [token_at (txt "in") 5 5; token_at (txt "out") 50 50] [zoneU] =
  [(UNBOXED, [token_at (txt "out") 50 50])] /\
  ~ (exists L l,
       dict_get str_eqb
         (_assign_text_to_boxes [token_at (txt "in") 5 5; token_at (txt "out") 50 50] [zoneU])
         L = Some l /\
       (In (token_at (txt "in") 5 5) l \/
        In (set_box_assignment (token_at (txt "in") 5 5) UNBOXED) l)).
Proof.
  split; [|split].
  - exists [], []. split; [reflexivity|]. split; [|constructor].
    exists 0, 0, 10, 10. repeat split; simpl; try reflexivity; discriminate.
  - reflexivity.
  - intros (L & l & Hget & Hin).
    change (_assign_text_to_boxes [token_at (txt "in") 5 5; token_at (txt "out") 50 50] [zoneU])
      with [(UNBOXED, [token_at (txt "out") 50 50])] in Hget.
    cbn [dict_get] in Hget. destruct (str_eqb L UNBOXED); [|discriminate].
    inversion Hget; subst l.
    destruct Hin as [[H|[]]|[H|[]]]; discriminate H.
Qed.

(** ** Sorting *)

Section SortFacts.
Variable A : Type.
Variable le : A -> A -> bool.

Lemma insert_by_perm x (l : list A) : Permutation (insert_by le x l) (x :: l).
Proof.
  induction l as [|y r IH]; simpl; auto.
  destruct (le x y); auto.
  rewrite IH. apply perm_swap.
Qed.

Lemma sort_by_perm (l : list A) : Permutation (sort_by le l) l.
Proof.
  induction l as [|x r IH]; simpl; auto.
  rewrite insert_by_perm. now constructor.
Qed.

Lemma sort_by_length (l : list A) : List.length (sort_by le l) = List.length l.
Proof. apply Permutation_length, sort_by_perm. Qed.

Lemma sort_by_in (l : list A) x : In x (sort_by le l) <-> In x l.
Proof.
  split; apply Permutation_in; [|symmetry]; apply sort_by_perm.
Qed.

Hypothesis le_total : forall a b, le a b = true \/ le b a = true.
Lemma insert_by_sorted x (l : list A) :
  Sorted (fun a b => le a b = true) l ->
  Sorted (fun a b => le a b = true) (insert_by le x l).
Proof.
  induction l as [|y r IH]; simpl; intros H.
  - constructor; auto.
  - destruct (le x y) eqn:E.
    + constructor; auto.
    + inversion H; subst. constructor; auto.
      destruct r as [|z r']; simpl.
      * constructor. destruct (le_total x y); congruence.
      * destruct (le x z).
        -- constructor. destruct (le_total x y); congruence.
        -- inversion H3; subst. now constructor.
Qed.

Lemma sort_by_sorted (l : list A) : Sorted (fun a b => le a b = true) (sort_by le l).
Proof.
  induction l as [|x r IH]; simpl.
  - constructor.
  - now apply insert_by_sorted.
Qed.
End SortFacts.

(** ** Strings: trimming and joining *)

Lemma lstrip_suffix s : exists pre, s = pre ++ lstrip s.
Proof.
  induction s as [|c s [pre IH]]; simpl; [exists []; reflexivity|].
  destruct (is_space c); [|exists []; reflexivity].
  exists (c :: pre). simpl. now rewrite <- IH.
Qed.

Lemma strip_substring s : exists pre post, s = pre ++ strip s ++ post.
Proof.
  unfold strip, rstrip.
  destruct (lstrip_suffix s) as [pre Hpre].
  destruct (lstrip_suffix (rev (lstrip s))) as [post Hpost].
  exists pre, (rev post).
  rewrite <- rev_app_distr, <- Hpost, rev_involutive. exact Hpre.
Qed.

Lemma lstrip_head s : head_is is_space (lstrip s) = false.
Proof.
  induction s as [|c s IH]; simpl; [reflexivity|].
  destruct (is_space c) eqn:E; [exact IH|]. simpl. exact E.
Qed.

Lemma lstrip_keeps_last l h :
  is_space h = false -> exists l', lstrip (l ++ [h]) = l' ++ [h].
Proof.
  intros H. induction l as [|c l [l' IH]]; simpl.
  - rewrite H. exists []. reflexivity.
  - destruct (is_space c); [exists l'; exact IH|].
    exists (c :: l). reflexivity.
Qed.

Lemma strip_ends s :
  head_is is_space (strip s) = false /\ head_is is_space (rev (strip s)) = false.
Proof.
  unfold strip, rstrip. split.
  - pose proof (lstrip_head s) as H. destruct (lstrip s) as [|h t]; [reflexivity|].
    simpl in H. cbn [rev].
    destruct (lstrip_keeps_last (rev t) h H) as [l' ->].
    rewrite rev_app_distr. simpl. exact H.
  - rewrite rev_involutive. apply lstrip_head.
Qed.

(** ** Line grouping keeps the words *)

(** The word [w] is on one of the lines. *)
Definition on_a_line (w : Word) (lines : list Line) : Prop :=
  exists line, In line lines /\ In w (line_words line).

Lemma place_word_on_a_line w lines w' :
  on_a_line w' (place_word w lines) <-> w' = w \/ on_a_line w' lines.
Proof.
  induction lines as [|l lines IH]; simpl.
  - split.
    + intros (line & [<-|[]] & Hw). simpl in Hw. destruct Hw as [<-|[]]. now left.
    + intros [->|(line & [] & _)]. eexists. split; [now left|]. now left.
  - destruct (Qle_bool (Qabs' (word_center_y w - line_center_y l)) line_tolerance).
    + split.
      * intros (line & [<-|Hl] & Hw).
        -- simpl in Hw. apply in_app_or in Hw. destruct Hw as [Hw|[->|[]]].
           ++ right. exists l. split; [now left|exact Hw].
           ++ now left.
        -- right. exists line. split; [now right|exact Hw].
      * intros [->|(line & [<-|Hl] & Hw)].
        -- eexists. split; [now left|]. simpl. apply in_or_app. right. now left.
        -- eexists. split; [now left|]. simpl. apply in_or_app. now left.
        -- exists line. split; [now right|exact Hw].
    + split.
      * intros (line & [<-|Hl] & Hw).
        -- right. exists l. split; [now left|exact Hw].
        -- assert (H : on_a_line w' (place_word w lines)) by (exists line; auto).
           apply IH in H. destruct H as [->|(line' & Hl' & Hw')]; [now left|].
           right. exists line'. split; [now right|exact Hw'].
      * intros [->|(line & [<-|Hl] & Hw)].
        -- assert (H : on_a_line w (place_word w lines)) by (apply IH; now left).
           destruct H as (line' & Hl' & Hw'). exists line'. split; [now right|exact Hw'].
        -- exists l. split; [now left|exact Hw].
        -- assert (H : on_a_line w' (place_word w lines)).
           { apply IH. right. exists line. auto. }
           destruct H as (line' & Hl' & Hw'). exists line'. split; [now right|exact Hw'].
Qed.

Lemma placed_words_on_lines words :
  forall lines w,
    on_a_line w (fold_left (fun ls w => place_word w ls) words lines) <->
    In w words \/ on_a_line w lines.
Proof.
  induction words as [|x words IH]; intros lines w; simpl.
  - tauto.
  - rewrite IH, place_word_on_a_line. split.
    + intros [H|[->|H]]; auto.
    + intros [[<-|H]|H]; auto.
Qed.

Lemma lstrip_keeps c s : In c s -> is_space c = false -> In c (lstrip s).
Proof.
  induction s as [|a s IH]; simpl; [tauto|]. intros [->|H] Hc.
  - rewrite Hc. now left.
  - destruct (is_space a); [auto|now right].
Qed.

Lemma strip_keeps c s : In c s -> is_space c = false -> In c (strip s).
Proof.
  intros H Hc. unfold strip, rstrip. apply in_rev. rewrite rev_involutive.
  apply lstrip_keeps; [|exact Hc]. apply -> in_rev. now apply lstrip_keeps.
Qed.

Lemma lstrip_blank s : lstrip s = [] -> Forall (fun c => is_space c = true) s.
Proof.
  induction s as [|a s IH]; simpl; [constructor|].
  destruct (is_space a) eqn:E; [|discriminate]. intros H. constructor; auto.
Qed.

Lemma not_blank_has_char s :
  strip s <> [] -> exists c, In c s /\ is_space c = false.
Proof.
  intros H. induction s as [|a s IH]; [now elim H|].
  destruct (is_space a) eqn:E.
  - destruct IH as (c & Hc & Hs).
    + intros Hs. apply H. unfold strip, rstrip in *. simpl. rewrite E. exact Hs.
    + exists c. split; [now right|exact Hs].
  - exists a. split; [now left|exact E].
Qed.

Lemma join_has_char c (t : str) (parts : list str) :
  In t parts -> In c t -> In c (join [SP] parts).
Proof.
  induction parts as [|p parts IH]; simpl; [tauto|].
  intros [->|H] Hc.
  - destruct parts; [exact Hc|]. apply in_or_app. now left.
  - destruct parts as [|q parts]; [destruct H|].
    apply in_or_app. right. right. now apply IH.
Qed.

Lemma words_stay_on_lines :
  forall (words : list Word),
    (forall w, In w words -> strip (word_text w) <> [] ->
               on_a_line w (_group_words_into_lines words)) /\
    (forall w, on_a_line w (_group_words_into_lines words) -> In w words).
Proof.
  intros words. unfold _group_words_into_lines.
  set (placed := fold_left (fun ls w => place_word w ls) words []).
  set (sorted := sort_by _ placed).
  assert (Hplaced : forall w, on_a_line w placed <-> In w words).
  { intros w. unfold placed. rewrite placed_words_on_lines. split; [|now left].
    intros [H|(line & [] & _)]. exact H. }
  assert (Hsorted : forall w, on_a_line w sorted <-> In w words).
  { intros w. rewrite <- Hplaced. unfold sorted. split.
    - intros (line & Hl & Hw). exists line. split; [|exact Hw].
      now apply (sort_by_in (fun a b => Qle_bool (line_center_y a) (line_center_y b)) placed).
    - intros (line & Hl & Hw). exists line. split; [|exact Hw].
      now apply (sort_by_in (fun a b => Qle_bool (line_center_y a) (line_center_y b)) placed). }
  split.
  - intros w Hw Hblank. apply Hsorted in Hw. destruct Hw as (line & Hl & Hw).
    exists (finish_line line). split.
    + apply filter_In. split; [apply in_map; exact Hl|].
      unfold finish_line. cbn [line_text].
      destruct (not_blank_has_char _ Hblank) as (c & Hc & Hs).
      assert (Hin : In c (strip (join [SP]
                (map word_text
                   (sort_by (fun a b => Qle_bool (word_x0 a) (word_x0 b)) (line_words line)))))).
      { apply strip_keeps; [|exact Hs].
        apply (join_has_char c (word_text w)); [|exact Hc].
        apply in_map.
        now apply (sort_by_in (fun a b => Qle_bool (word_x0 a) (word_x0 b)) (line_words line)). }
      revert Hin. generalize (strip (join [SP]
                (map word_text
                   (sort_by (fun a b => Qle_bool (word_x0 a) (word_x0 b)) (line_words line))))).
      intros [|a s] Hin; [destruct Hin|reflexivity].
    + unfold finish_line. cbn [line_words].
      now apply (sort_by_in (fun a b => Qle_bool (word_x0 a) (word_x0 b)) (line_words line)).
  - intros w (line & Hl & Hw). apply filter_In in Hl. destruct Hl as [Hl _].
    apply in_map_iff in Hl. destruct Hl as (line0 & <- & Hl0).
    unfold finish_line in Hw. cbn [line_words] in Hw.
    apply (sort_by_in (fun a b => Qle_bool (word_x0 a) (word_x0 b)) (line_words line0)) in Hw.
    apply Hsorted. exists line0. auto.
Qed.

(** ** A text that occurs in a text *)

(** [a] occurs in [b]: Python's [a in b]. *)
Definition occurs_in (a b : str) : Prop := exists pre post, b = pre ++ a ++ post.

Lemma occurs_in_refl a : occurs_in a a.
Proof. exists [], []. now rewrite app_nil_r. Qed.

Lemma occurs_in_trans a b c : occurs_in a b -> occurs_in b c -> occurs_in a c.
Proof.
  intros (p1 & q1 & ->) (p2 & q2 & ->). exists (p2 ++ p1), (q1 ++ q2).
  now rewrite <- !app_assoc.
Qed.

Lemma occurs_in_app_l a b c : occurs_in a b -> occurs_in a (c ++ b).
Proof. intros (p & q & ->). exists (c ++ p), q. now rewrite <- app_assoc. Qed.

Lemma occurs_in_app_r a b c : occurs_in a b -> occurs_in a (b ++ c).
Proof. intros (p & q & ->). exists p, (q ++ c). now rewrite <- !app_assoc. Qed.

Lemma occurs_in_join sep t parts : In t parts -> occurs_in t (join sep parts).
Proof.
  induction parts as [|p parts IH]; [intros []|]. intros [->|H].
  - destruct parts as [|q parts]; [apply occurs_in_refl|].
    cbn [join]. apply occurs_in_app_r, occurs_in_refl.
  - destruct parts as [|q parts]; [destruct H|].
    cbn [join]. apply occurs_in_app_l, occurs_in_app_l, IH, H.
Qed.

Lemma occurs_in_strip_of s : occurs_in (strip s) s.
Proof. apply strip_substring. Qed.

Lemma lstrip_keeps_from pre c x :
  is_space c = false -> exists pre', lstrip (pre ++ c :: x) = pre' ++ c :: x.
Proof.
  intros Hc. induction pre as [|a pre [pre' IH]]; simpl.
  - rewrite Hc. exists []. reflexivity.
  - destruct (is_space a); [exists pre'; exact IH|]. exists (a :: pre). reflexivity.
Qed.

(** A text that is not empty and has no white space at its ends still
    occurs in a text after that text is trimmed. *)
Lemma occurs_in_strip a b :
  occurs_in a b -> a <> [] ->
  head_is is_space a = false -> head_is is_space (rev a) = false ->
  occurs_in a (strip b).
Proof.
  intros (pre & post & ->) Hne Hh Hl.
  destruct a as [|c a]; [congruence|]. simpl in Hh.
  destruct (@lstrip_keeps_from pre c (a ++ post) Hh) as [pre' Hpre].
  change (pre ++ (c :: a) ++ post) with (pre ++ c :: (a ++ post)).
  unfold strip, rstrip. rewrite Hpre.
  change (pre' ++ c :: a ++ post) with (pre' ++ (c :: a) ++ post).
  rewrite !rev_app_distr.
  destruct (rev (c :: a)) as [|d r] eqn:Er.
  { apply (f_equal (@List.length ascii)) in Er. rewrite length_rev in Er. discriminate. }
  simpl in Hl. rewrite <- app_assoc. cbn [app].
  destruct (@lstrip_keeps_from (rev post) d (r ++ rev pre') Hl) as [post' Hpost].
  rewrite Hpost. rewrite rev_app_distr. cbn [rev]. rewrite rev_app_distr, rev_involutive.
  exists pre', (rev post').
  assert (Hca : c :: a = rev r ++ [d]).
  { rewrite <- (rev_involutive (c :: a)), Er. reflexivity. }
  rewrite Hca, <- !app_assoc. reflexivity.
Qed.

(** The trimmed text of a word occurs in every trimmed text in which
    the text of the word occurs. *)
Lemma stripped_occurs t b :
  strip t <> [] -> occurs_in t b -> occurs_in (strip t) (strip b).
Proof.
  intros Hne H. destruct (strip_ends t) as [H1 H2].
  apply occurs_in_strip; auto.
  eapply occurs_in_trans; [apply occurs_in_strip_of|exact H].
Qed.


(** The text of a word that is on a line occurs in the text of the
    line, and so in the text of the lines taken together. *)
Lemma word_in_line_text words line w :
  In line (_group_words_into_lines words) -> In w (line_words line) ->
  strip (word_text w) <> [] ->
  occurs_in (strip (word_text w)) (line_text line).
Proof.
  unfold _group_words_into_lines. intros H Hw Hne.
  apply filter_In in H. destruct H as (H & _).
  apply in_map_iff in H. destruct H as (l0 & <- & _).
  unfold finish_line in *. cbn [line_words line_text] in *.
  apply stripped_occurs; [exact Hne|]. apply occurs_in_join. now apply in_map.
Qed.

Lemma line_text_in_break threshold lines :
  forall prev line, In line lines -> In (line_text line) (break_lines threshold prev lines).
Proof.
  induction lines as [|l lines IH]; intros prev line; [intros []|].
  intros [->|H]; cbn [break_lines]; apply in_or_app; right.
  - now left.
  - right. now apply IH.
Qed.

Lemma word_in_lines_text threshold words w :
  In w words -> strip (word_text w) <> [] ->
  occurs_in (strip (word_text w))
    (join [NL] (break_lines threshold None (_group_words_into_lines words))).
Proof.
  intros Hw Hne.
  destruct (proj1 (words_stay_on_lines words) w Hw Hne) as (line & Hl & Hwl).
  eapply occurs_in_trans; [exact (word_in_line_text words line w Hl Hwl Hne)|].
  apply occurs_in_join. now apply line_text_in_break.
Qed.


Lemma word_in_paragraph words w :
  In w words -> strip (word_text w) <> [] ->
  occurs_in (strip (word_text w)) (_extract_paragraph_from_words words).
Proof.
  intros Hw Hne. unfold _extract_paragraph_from_words.
  destruct words as [|w0 ws]; [destruct Hw|]. now apply word_in_lines_text.
Qed.

(** ** The blocks of the text outside the zones *)









(** ** C5 *)

Lemma set_add_length (s : list Q) x :
  (List.length (set_add s x) <= S (List.length s))%nat.
Proof.
  unfold set_add. destruct (existsb (Qeqb x) s); auto.
  rewrite length_app. simpl. lia.
Qed.

Lemma fold_set_add_length (l : list Q) :
  forall s, (List.length (fold_left set_add l s) <= List.length s + List.length l)%nat.
Proof.
  induction l as [|x r IH]; intros s; simpl; [lia|].
  specialize (IH (set_add s x)). pose proof (set_add_length s x). lia.
Qed.

Lemma sorted_set_length (l : list Q) :
  (List.length (sorted_set l) <= List.length l)%nat.
Proof.
  unfold sorted_set. rewrite sort_by_length.
  pose proof (fold_set_add_length l []). simpl in *. lia.
Qed.

(** C5.  When fewer than two distinct horizontal positions remain, grid
    building returns the empty grid; this is the case of a single
    detected horizontal line, and of the lines that the detection keeps
    after its own deduplication when fewer than two remain.  A table
    zone without cells, whether the list is empty or absent, is
    extracted by the general layout logic applied to its tokens. *)
Theorem C5_empty_grid_and_fallback :
  forall (box_coords : Q * Q * Q * Q),
    (forall detected_lines,
       (List.length (h_positions detected_lines) < 2)%nat ->
       _generate_table_cells box_coords detected_lines = []) /\
    (forall line verticals,
       _generate_table_cells box_coords (mkDetectedLines [line] verticals) = []) /\
    (forall raw_lines verticals,
       (List.length (dedup_lines raw_lines) < 2)%nat ->
       _generate_table_cells box_coords
         (mkDetectedLines (dedup_lines raw_lines) verticals) = []) /\
    (forall elements box_data,
       box_type box_data = Some table ->
       table_cells box_data = Some [] \/ table_cells box_data = None ->
       _process_box_elements elements box_data =
       _extract_with_layout_detection (map element_word elements)).
Proof.
  intros box_coords.
  assert (H1 : forall detected_lines,
             (List.length (h_positions detected_lines) < 2)%nat ->
             _generate_table_cells box_coords detected_lines = []).
  { intros dl H. unfold _generate_table_cells.
    apply Nat.ltb_lt in H. now rewrite H. }
  assert (H2 : forall dl, (List.length (horizontal dl) < 2)%nat ->
             _generate_table_cells box_coords dl = []).
  { intros dl H. apply H1. unfold h_positions.
    eapply Nat.le_lt_trans; [apply sorted_set_length|]. now rewrite length_map. }
  split; [exact H1|]. split; [|split].
  - intros line verticals. apply H2. simpl. lia.
  - intros raw_lines verticals H. now apply H2.
  - intros elements box_data Ht Hc. unfold _process_box_elements.
    destruct elements as [|e es]; [reflexivity|].
    rewrite Ht. unfold _extract_table_text_from_elements.
    destruct Hc as [Hc|Hc]; now rewrite Hc.
Qed.

(** The hypotheses of C5 at a zone with one detected horizontal line and
    at a table zone whose cell list is empty. *)
Lemma C5_empty_grid_and_fallback_witness :
  _generate_table_cells (0, 0, 100, 100)
    (mkDetectedLines [(0, 10, 100, 10)] [(0, 0, 0, 100); (50, 0, 50, 100)]) = [] /\
  _process_box_elements [token_at (txt "x") 7 7]
    (mkBox (Some (txt "T")) (Some [0; 0; 100; 100]) None (Some table) (Some [])) =
  _extract_with_layout_detection (map element_word [token_at (txt "x") 7 7]).
Proof.
  split.
  - apply (proj1 (C5_empty_grid_and_fallback (0, 0, 100, 100))).
    vm_compute. lia.
  - apply (proj2 (proj2 (proj2 (C5_empty_grid_and_fallback (0, 0, 100, 100))))).
    + reflexivity.
    + left. reflexivity.
Defined.

(** ** C10 *)






(** ** C2 *)



Section ExtractorFacts.
Variable fitz : str -> result Document.
Variable format_2f : Q -> str.
Variable templates : dict str Template.
Variable confidence_threshold : Q.



Lemma extract_with_template_total pdf_path t tr :
  exists s tr',
    _extract_with_template fitz pdf_path t tr = (Return s, tr').
Proof.
  unfold _extract_with_template, try_except.
  destruct (extract_document fitz pdf_path t tr) as [[s|e] tr']; unfold ret; eauto.
Qed.


End ExtractorFacts.











Section BatchFacts.
Variable fitz : str -> result Document.
Variable format_2f : Q -> str.
Variable templates : dict str Template.
Variable confidence_threshold : Q.
Variable write_text : str -> str -> result unit.
Variable stem : str -> str.
Variable path_join : str -> str -> str.
Variable processed_docs_folder_path : str.









End BatchFacts.









(** ** Table cells: assignment of the tokens *)

Lemma Z_eqb_iff (a b : Z) : Z.eqb a b = true <-> a = b.
Proof. apply Z.eqb_eq. Qed.

(** The centre of the element lies in the rectangle of the cell widened
    by the tolerance of 2 units on every side. *)
Definition cell_within (e : TextElement) (c : Cell) : Prop :=
  let '(cx0, cy0, cx1, cy1) := cell_coordinates c in
  cx0 - 2 <= center_x e /\ center_x e <= cx1 + 2 /\
  cy0 - 2 <= center_y e /\ center_y e <= cy1 + 2.

Lemma cell_contains_spec e c : cell_contains e c = true <-> cell_within e c.
Proof.
  unfold cell_contains, cell_within, cell_tolerance.
  destruct (cell_coordinates c) as [[[cx0 cy0] cx1] cy1].
  rewrite !andb_true_iff, !Qle_bool_iff. tauto.
Qed.



Lemma primary_cell_none e cells :
  primary_cell e cells = None <-> Forall (fun c => ~ cell_within e c) cells.
Proof.
  induction cells as [|c0 rest IH]; simpl.
  - split; auto.
  - destruct (cell_contains e c0) eqn:E.
    + split; [discriminate|]. intros H. inversion H; subst.
      exfalso. apply H2. now apply cell_contains_spec.
    + rewrite IH. split.
      * intros H. constructor; auto. intros Hz. apply cell_contains_spec in Hz. congruence.
      * intros H. now inversion H.
Qed.


(** [c] is the first cell of [cells] at which the distance that the
    source computes from the centre of [e] is least. *)
Definition nearest_cell (e : TextElement) (cells : list Cell) (c : Cell) : Prop :=
  exists pre post,
    cells = pre ++ c :: post /\
    Forall (fun c' => cell_distance e c < cell_distance e c') pre /\
    Forall (fun c' => cell_distance e c <= cell_distance e c') post.

Lemma Qltb_true a b : Qltb a b = true <-> a < b.
Proof.
  unfold Qltb. rewrite negb_true_iff. split.
  - intros H. apply Qnot_le_lt. intros Hle. apply Qle_bool_iff in Hle. congruence.
  - intros H. destruct (Qle_bool b a) eqn:E; auto.
    apply Qle_bool_iff in E. exfalso. eapply Qlt_not_le; eauto.
Qed.

Lemma Qltb_false a b : Qltb a b = false <-> b <= a.
Proof.
  unfold Qltb. rewrite negb_false_iff. apply Qle_bool_iff.
Qed.

(** The state of the fallback loop after the cells [seen]: nothing yet,
    or the first cell of least computed distance among them and that
    distance. *)
Definition closest_inv (e : TextElement) (seen : list Cell) (st : option Q * option Z) : Prop :=
  match seen with
  | [] => st = (None, None)
  | _ =>
      exists c, nearest_cell e seen c /\
                st = (Some (cell_distance e c), Some (cell_id c))
  end.

Lemma closest_step_inv e seen st c :
  closest_inv e seen st -> closest_inv e (seen ++ [c]) (closest_step e st c).
Proof.
  unfold closest_inv. destruct seen as [|s0 seen'].
  - intros ->. simpl. exists c. split; auto.
    exists [], []. repeat split; constructor.
  - intros (c0 & (pre & post & Hs & Hpre & Hpost) & ->).
    assert (Hne : (s0 :: seen') ++ [c] <> []) by (simpl; discriminate).
    destruct ((s0 :: seen') ++ [c]) as [|x xs] eqn:Ex; [congruence|]. rewrite <- Ex.
    unfold closest_step. cbn [fst].
    destruct (Qltb (cell_distance e c) (cell_distance e c0)) eqn:E.
    + apply Qltb_true in E. exists c. split; auto.
      exists (s0 :: seen'), []. repeat split; [|constructor].
      rewrite Hs. apply Forall_app. split.
      * eapply Forall_impl; [|exact Hpre]. intros a Ha. simpl in Ha.
        eapply Qlt_trans; eauto.
      * constructor; auto.
        eapply Forall_impl; [|exact Hpost]. intros a Ha. simpl in Ha.
        eapply Qlt_le_trans; eauto.
    + apply Qltb_false in E. exists c0. split; auto.
      exists pre, (post ++ [c]). repeat split; auto.
      * rewrite Hs. now rewrite <- app_assoc.
      * apply Forall_app. split; auto.
Qed.

Lemma closest_fold_inv e cells :
  forall seen st,
    closest_inv e seen st ->
    closest_inv e (seen ++ cells) (fold_left (closest_step e) cells st).
Proof.
  induction cells as [|c rest IH]; intros seen st H; simpl.
  - now rewrite app_nil_r.
  - replace (seen ++ c :: rest) with ((seen ++ [c]) ++ rest)
      by (rewrite <- app_assoc; reflexivity).
    apply IH. now apply closest_step_inv.
Qed.

Lemma closest_cell_nearest e cells :
  cells <> [] ->
  exists c, nearest_cell e cells c /\ closest_cell e cells = Some (cell_id c).
Proof.
  intros Hne. unfold closest_cell.
  pose proof (@closest_fold_inv e cells [] (None, None) eq_refl) as H.
  simpl in H. unfold closest_inv in H.
  destruct cells as [|c0 rest]; [congruence|].
  destruct H as (c & Hc & Hst). exists c. split; auto. now rewrite Hst.
Qed.

Lemma nearest_cell_in e cells c : nearest_cell e cells c -> In c cells.
Proof.
  intros (pre & post & H & _). subst. apply in_or_app. right. now left.
Qed.



Definition cell_elements (d : cell_map) (id : Z) : list TextElement :=
  match dict_get Z.eqb d id with Some ci => ci_elements ci | None => [] end.
















Lemma closest_cell_in e cells id :
  closest_cell e cells = Some id -> In id (map cell_id cells).
Proof.
  destruct cells as [|c0 rest] eqn:Ec; [discriminate|]. rewrite <- Ec.
  assert (Hne : cells <> []) by (rewrite Ec; discriminate).
  destruct (closest_cell_nearest e Hne) as (c & Hc & Hcl).
  rewrite Hcl. intros H. inversion H; subst.
  apply in_map. eapply nearest_cell_in; eauto.
Qed.


(** ** C6 *)







(** ** Table rendering *)

Lemma sort_by_sorted_id (A : Type) (le : A -> A -> bool) (l : list A) :
  Sorted (fun a b => le a b = true) l -> sort_by le l = l.
Proof.
  induction 1 as [|x r Hs IH Hhd]; simpl; auto.
  rewrite IH. destruct Hhd as [|y r' Hxy]; simpl; auto. now rewrite Hxy.
Qed.

















(** ** Lines of a cell *)












(** ** Escaping of the row delimiter *)







(** ** The cell map, entry by entry *)










(** The entry of a cell once its text is filled in. *)
Definition filled_entry (d : cell_map) (c : Cell) : Z * CellInfo :=
  (cell_id c,
   fill_cell_text (mkCellInfo [] (row c) (col c) (cell_elements d (cell_id c)))).




(** ** The table of a grid in row-major form *)




(** The text of a cell as the table shows it. *)
Definition cell_text (d : cell_map) (c : Cell) : str :=
  render_cell_text (snd (filled_entry d c)).








(** ** C7 *)










(** ** Regular expressions: the matcher *)

Definition advance (c : ascii) (st : mstate) (rest : str) : mstate :=
  mkMstate (c :: before st) rest (groups st).

Lemma rmatch_chr P st k :
  rmatch (Chr P) st k =
  match after st with
  | c :: rest => if P c then k (advance c st rest) else None
  | [] => None
  end.
Proof. reflexivity. Qed.

Lemma rmatch_seq r1 r2 st k :
  rmatch (Seq r1 r2) st k = rmatch r1 st (fun st' => rmatch r2 st' k).
Proof. reflexivity. Qed.

Lemma rmatch_rep min r1 st k :
  rmatch (Rep min r1) st k =
  iterate (rmatch r1) min k (S (List.length (after st))) O st.
Proof. reflexivity. Qed.

(** A pattern that starts with a character class fails where the text
    does not start with a character of the class. *)
Lemma chr_fails P st k : head_is P (after st) = false -> rmatch (Chr P) st k = None.
Proof.
  rewrite rmatch_chr. destruct (after st) as [|c rest]; simpl; auto.
  now intros ->.
Qed.

Lemma iterate_fails_at_once body min k fuel count st :
  (forall k', body st k' = None) -> (count < min)%nat ->
  iterate body min k fuel count st = None.
Proof.
  intros Hb Hc. destruct fuel; simpl; auto.
  rewrite Hb. destruct (min <=? count)%nat eqn:E; auto.
  apply Nat.leb_le in E. lia.
Qed.

Lemma rep_chr_fails P m st k :
  head_is P (after st) = false -> rmatch (Rep (S m) (Chr P)) st k = None.
Proof.
  intros H. rewrite rmatch_rep. apply iterate_fails_at_once; [|lia].
  intros k'. now apply chr_fails.
Qed.

(** The state after the characters of [run], read from [st]. *)
Definition after_run (run rest : str) (pre : str) (gs : list (nat * str)) : mstate :=
  mkMstate (rev run ++ pre) rest gs.

(** A greedy repetition of a character class over a run of the class
    that ends before [rest]: when the continuation succeeds after the
    whole run, that is the result. *)
Lemma iterate_run_success P min k run :
  forall rest pre gs count fuel res,
    Forall (fun c => P c = true) run ->
    head_is P rest = false ->
    (min <= count + List.length run)%nat ->
    (List.length run < fuel)%nat ->
    k (after_run run rest pre gs) = Some res ->
    iterate (rmatch (Chr P)) min k fuel count (mkMstate pre (run ++ rest) gs) = Some res.
Proof.
  induction run as [|c run IH]; intros rest pre gs count fuel res Hrun Hrest Hmin Hfuel Hk.
  - destruct fuel as [|fuel]; [simpl in Hfuel; lia|]. cbn [iterate].
    rewrite chr_fails by exact Hrest.
    simpl in Hmin. rewrite Nat.add_0_r in Hmin.
    apply Nat.leb_le in Hmin. rewrite Hmin. exact Hk.
  - destruct fuel as [|fuel]; [simpl in Hfuel; lia|]. cbn [iterate].
    rewrite rmatch_chr. cbn [after app]. inversion Hrun; subst. rewrite H1.
    unfold advance. cbn [before groups].
    rewrite (IH rest (c :: pre) gs (S count) fuel res); auto.
    + simpl in Hmin. lia.
    + simpl in Hfuel. lia.
    + unfold after_run in *. cbn [rev] in Hk. rewrite <- app_assoc in Hk. exact Hk.
Qed.

(** The same repetition fails when the continuation fails after every
    part of the run. *)
Lemma iterate_run_failure P min k run :
  forall rest pre gs count fuel,
    Forall (fun c => P c = true) run ->
    head_is P rest = false ->
    (forall n, (n <= List.length run)%nat ->
       k (after_run (firstn n run) (skipn n run ++ rest) pre gs) = None) ->
    iterate (rmatch (Chr P)) min k fuel count (mkMstate pre (run ++ rest) gs) = None.
Proof.
  induction run as [|c run IH]; intros rest pre gs count fuel Hrun Hrest Hk.
  - destruct fuel as [|fuel]; [reflexivity|]. cbn [iterate].
    rewrite chr_fails by exact Hrest.
    destruct (min <=? count)%nat; auto. apply (Hk O). simpl. lia.
  - destruct fuel as [|fuel]; [reflexivity|]. cbn [iterate].
    rewrite rmatch_chr. cbn [after app]. inversion Hrun; subst. rewrite H1.
    unfold advance. cbn [before groups].
    rewrite (IH rest (c :: pre) gs (S count) fuel); auto.
    + destruct (min <=? count)%nat; auto. apply (Hk O). simpl. lia.
    + intros n Hn. specialize (Hk (S n)).
      unfold after_run in *. cbn [firstn skipn rev] in Hk.
      rewrite <- app_assoc in Hk. apply Hk. simpl. lia.
Qed.

(** ** Regular expressions: substitution *)

Lemma sub_from_skip_all r repl s :
  forall pre, sub_from r repl pre s (List.length s) = [].
Proof.
  induction s as [|c s IH]; intros pre; simpl; auto.
Qed.

Lemma sub_from_skip r repl run :
  forall pre rest,
    sub_from r repl pre (run ++ rest) (List.length run) =
    sub_from r repl (rev run ++ pre) rest O.
Proof.
  induction run as [|c run IH]; intros pre rest; simpl; auto.
  rewrite IH. now rewrite <- app_assoc.
Qed.

(** Where the pattern matches at no position, the text is unchanged. *)
Lemma sub_from_unchanged r repl (Q : str -> str -> Prop) :
  (forall pre c s, Q pre (c :: s) -> Q (c :: pre) s) ->
  (forall pre c s, Q pre (c :: s) -> match_at r pre (c :: s) = None) ->
  forall s pre, Q pre s -> sub_from r repl pre s O = s.
Proof.
  intros Hstep Hnone. induction s as [|c s IH]; intros pre HQ; simpl; auto.
  rewrite (Hnone pre c s HQ). f_equal. apply IH. now apply Hstep.
Qed.

Lemma match_at_none r pre s :
  rmatch r (mkMstate pre s []) (fun st => Some st) = None -> match_at r pre s = None.
Proof. unfold match_at. now intros ->. Qed.

(** Substitution of a constant for the single characters of a class. *)
Lemma sub_from_chr P t s :
  forall pre,
    sub_from (Chr P) (const_repl t) pre s O =
    flat_map (fun c => if P c then t else [c]) s.
Proof.
  induction s as [|c s IH]; intros pre; simpl; auto.
  unfold match_at. rewrite rmatch_chr. cbn [after].
  destruct (P c) eqn:E.
  - unfold advance. cbn [after]. simpl List.length.
    replace (S (List.length s) - List.length s)%nat with 1%nat by lia.
    unfold const_repl. now rewrite IH.
  - now rewrite IH.
Qed.

(** The length of the run of characters of a class at the head of a
    string. *)
Fixpoint run_length (P : ascii -> bool) (s : str) : nat :=
  match s with
  | c :: r => if P c then S (run_length P r) else O
  | [] => O
  end.

Lemma run_split P s :
  s = firstn (run_length P s) s ++ skipn (run_length P s) s /\
  Forall (fun c => P c = true) (firstn (run_length P s) s) /\
  head_is P (skipn (run_length P s) s) = false /\
  List.length (firstn (run_length P s) s) = run_length P s.
Proof.
  induction s as [|c s (I1 & I2 & I3 & I4)]; simpl.
  - repeat split; auto.
  - destruct (P c) eqn:E; simpl.
    + repeat split; auto. now f_equal.
    + repeat split; auto.
Qed.

(** [\s+]-like patterns: the match at a position spans the run. *)
Lemma match_at_rep_chr P m pre s :
  match_at (Rep (S m) (Chr P)) pre s =
  if (S m <=? run_length P s)%nat then Some (run_length P s, []) else None.
Proof.
  unfold match_at. rewrite rmatch_rep. cbn [after].
  destruct (run_split P s) as (Hs & Hall & Hhd & Hlen).
  set (n := run_length P s) in *.
  pose proof (f_equal (@List.length ascii) Hs) as HL. rewrite length_app, Hlen in HL.
  destruct (S m <=? n)%nat eqn:E.
  - apply Nat.leb_le in E.
    rewrite Hs at 2.
    rewrite (@iterate_run_success P (S m) (fun st => Some st) (firstn n s) (skipn n s) pre []
               O (S (List.length s)) (after_run (firstn n s) (skipn n s) pre [])); auto.
    + cbn [after_run after groups]. f_equal. f_equal. lia.
    + rewrite Hlen. lia.
    + rewrite Hlen. lia.
  - apply Nat.leb_gt in E.
    assert (Hn : iterate (rmatch (Chr P)) (S m) (fun st => Some st) (S (List.length s)) O
                   (mkMstate pre s []) = None).
    { clear Hs Hall Hhd Hlen HL. revert E. generalize (S m) as mn. unfold n. clear n.
      generalize (S (List.length s)) as fuel. generalize (@nil (nat * str)) as gs.
      intros gs fuel mn. replace (run_length P s) with (O + run_length P s)%nat by lia.
      generalize O as count. revert pre fuel.
      induction s as [|c s IH]; intros pre fuel count E.
      - destruct fuel; simpl; auto. simpl in E.
        destruct (mn <=? count)%nat eqn:E2; auto. apply Nat.leb_le in E2. lia.
      - destruct fuel; [reflexivity|]. cbn [iterate]. rewrite rmatch_chr. cbn [after].
        simpl in E. destruct (P c) eqn:Ec.
        + unfold advance. cbn [before groups]. rewrite (IH (c :: pre) fuel (S count)) by lia.
          destruct (mn <=? count)%nat eqn:E2; auto. apply Nat.leb_le in E2. lia.
        + destruct (mn <=? count)%nat eqn:E2; auto. apply Nat.leb_le in E2. lia. }
    now rewrite Hn.
Qed.

(** ** Normalization of the matcher *)

(** Every maximal run of white space replaced by [t]; [in_run] tells
    that the previous character was white space. *)
Fixpoint collapse_with (t : str) (in_run : bool) (s : str) : str :=
  match s with
  | [] => []
  | c :: r =>
      if is_space c then (if in_run then [] else t) ++ collapse_with t true r
      else c :: collapse_with t false r
  end.

(** "Collapse all whitespace runs to a single space". *)
Definition collapse_whitespace (s : str) : str := collapse_with [SP] false s.

Lemma sub_spaces_collapse t s :
  forall pre,
    sub_from re_spaces (const_repl t) pre s (run_length is_space s) = collapse_with t true s /\
    sub_from re_spaces (const_repl t) pre s O = collapse_with t false s.
Proof.
  unfold re_spaces. induction s as [|c s IH]; intros pre; [split; reflexivity|].
  cbn [sub_from collapse_with run_length]. rewrite match_at_rep_chr.
  cbn [run_length]. destruct (is_space c) eqn:E.
  - destruct (IH (c :: pre)) as (I1 & I2). split.
    + exact I1.
    + cbn [Nat.leb]. unfold const_repl at 1. now rewrite I1.
  - destruct (IH (c :: pre)) as (I1 & I2). cbn [Nat.leb]. split; now rewrite I2.
Qed.

Lemma re_sub_spaces t s : re_sub re_spaces (const_repl t) s = collapse_with t false s.
Proof. unfold re_sub. apply sub_spaces_collapse. Qed.

Lemma collapse_empty b s : collapse_with [] b s = filter (fun c => negb (is_space c)) s.
Proof.
  revert b. induction s as [|c s IH]; intros b; simpl; auto.
  destruct (is_space c); simpl.
  - destruct b; simpl; apply IH.
  - now rewrite IH.
Qed.

Lemma re_sub_chr_delete P s :
  re_sub (Chr P) (const_repl []) s = filter (fun c => negb (P c)) s.
Proof.
  unfold re_sub. rewrite sub_from_chr.
  induction s as [|c s IH]; simpl; auto.
  destruct (P c); simpl; now rewrite IH.
Qed.

(** The characters that the deletion step keeps: [\w], [\s] and
    [- . , ( ) /]. *)
Definition kept (c : ascii) : bool := is_word c || is_space c || is_kept_punct c.

(** The allow-set of the specification: letters, digits, the space and
    [- . , ( ) /]. *)
Definition in_allow_set (c : ascii) : bool :=
  is_letter c || is_digit c || is_char 32 c || is_kept_punct c.

Definition UNDERSCORE : ascii := ascii_of_nat 95.

Lemma lstrip_in c s : In c (lstrip s) -> In c s.
Proof.
  induction s as [|a s IH]; simpl; auto.
  destruct (is_space a); simpl; auto.
Qed.

Lemma strip_in c s : In c (strip s) -> In c s.
Proof.
  unfold strip, rstrip. intros H. apply in_rev in H. apply lstrip_in in H.
  apply in_rev in H. now apply lstrip_in.
Qed.

Lemma collapse_in c b s :
  In c (collapse_with [SP] b s) -> c = SP \/ (In c s /\ is_space c = false).
Proof.
  revert b. induction s as [|a s IH]; intros b; simpl; [tauto|].
  destruct (is_space a) eqn:E.
  - intros H. apply in_app_or in H. destruct H as [H|H].
    + destruct b; simpl in H; [tauto|]. destruct H as [H|[]]. now left.
    + destruct (IH true H) as [H1|[H1 H2]]; auto.
  - intros [H|H].
    + subst. right. auto.
    + destruct (IH false H) as [H1|[H1 H2]]; auto.
Qed.

Lemma upper_char_not_lower c : is_lower (upper_char c) = false.
Proof. destruct c as [[] [] [] [] [] [] [] []]; reflexivity. Qed.

Lemma upper_in c s : In c (upper s) -> is_lower c = false.
Proof.
  unfold upper. intros H. apply in_map_iff in H. destruct H as (a & <- & _).
  apply upper_char_not_lower.
Qed.

Lemma normalize_text_refines text :
  normalize_text text = strip (filter kept (collapse_whitespace (upper text))).
Proof.
  destruct text as [|c text]; [reflexivity|].
  unfold normalize_text. rewrite re_sub_spaces.
  unfold re_artifact. rewrite re_sub_chr_delete.
  unfold collapse_whitespace. f_equal. apply filter_ext.
  intros a. unfold kept. now rewrite negb_involutive.
Qed.

(** On the 8-bit model.  Normalization is: uppercase, every white-space run
    collapsed to one space, every character outside the class of the
    deletion step removed, ends trimmed.  That class is the allow-set of
    the specification together with the underscore (which [\w]
    matches): every character of the output is a letter, a digit, the
    space, one of [- . , ( ) /], or the underscore, and none is a
    lowercase letter. *)
Lemma normalize_text_ascii_allow_set :
  forall (text : str),
    normalize_text text = strip (filter kept (collapse_whitespace (upper text))) /\
    Forall (fun c => in_allow_set c = true \/ c = UNDERSCORE) (normalize_text text) /\
    Forall (fun c => is_lower c = false) (normalize_text text).
Proof.
  intros text. split; [apply normalize_text_refines|].
  rewrite normalize_text_refines.
  assert (H : forall c, In c (strip (filter kept (collapse_whitespace (upper text)))) ->
            (in_allow_set c = true \/ c = UNDERSCORE) /\ is_lower c = false).
  { intros c Hc. apply strip_in in Hc. apply filter_In in Hc. destruct Hc as (Hc & Hk).
    apply collapse_in in Hc. destruct Hc as [->|[Hc Hs]].
    - split; [left|]; reflexivity.
    - apply upper_in in Hc. split; auto.
      unfold kept in Hk. rewrite Hs in Hk. unfold in_allow_set.
      unfold is_word in Hk.
      destruct (is_letter c); [now left|]. destruct (is_digit c); [now left|].
      destruct (is_kept_punct c); [left; now rewrite orb_true_r|].
      simpl in Hk. rewrite orb_false_r in Hk. right.
      destruct c as [[] [] [] [] [] [] [] []]; try discriminate Hk; reflexivity. }
  split; apply Forall_forall; intros c Hc; now apply H.
Qed.


(** *** Text of any script *)

Ltac ascii_cases c := destruct c as [[] [] [] [] [] [] [] []].

(** The code point of an 8-bit character, and the characters of the
    ASCII range. *)
Definition code (c : ascii) : N := N_of_ascii c.
Definition codes (s : str) : list N := map code s.
Definition is_ascii (c : ascii) : bool := (nat_of_ascii c <? 128)%nat.

(** The tables agree, on the ASCII range, with the classes of the
    8-bit model: white space is TAB to CR, FS to US and the space; the
    word characters are the letters, the digits and the underscore; the
    upper case of a letter [a] to [z] is the letter [A] to [Z], and
    every other character is its own upper case. *)
Definition agree_on_ascii (isspace isword : N -> bool) (toupper : N -> list N) : Prop :=
  forall c, is_ascii c = true ->
    isspace (code c) = is_space c /\
    isword (code c) = is_word c /\
    toupper (code c) = [code (upper_char c)].

(** The tables of the ASCII range alone: beyond it, no white space, no
    word character and no change of case. *)
Definition ascii_isspace (n : N) : bool := (n <? 128)%N && is_space (ascii_of_N n).
Definition ascii_isword (n : N) : bool := (n <? 128)%N && is_word (ascii_of_N n).
Definition ascii_toupper (n : N) : list N :=
  if (n <? 128)%N then [code (upper_char (ascii_of_N n))] else [n].

Lemma ascii_tables_agree : agree_on_ascii ascii_isspace ascii_isword ascii_toupper.
Proof.
  intros c Hc. unfold ascii_isspace, ascii_isword, ascii_toupper, code.
  rewrite ascii_N_embedding.
  assert (H : (N_of_ascii c <? 128)%N = true).
  { revert Hc. ascii_cases c; intros Hc; try reflexivity; discriminate Hc. }
  rewrite H. auto.
Qed.

Section UnicodeFacts.
Variable isspace isword : N -> bool.
Variable toupper : N -> list N.

Local Abbreviation ulstrip := (Unicode.lstrip isspace).
Local Abbreviation ustrip := (Unicode.strip isspace).
Local Abbreviation ucollapse := (Unicode.collapse_spaces isspace).
Local Abbreviation unormalize := (Unicode.normalize_text isspace isword toupper).

Lemma ulstrip_in c s : In c (ulstrip s) -> In c s.
Proof.
  induction s as [|a s IH]; simpl; auto.
  destruct (isspace a); simpl; auto.
Qed.

Lemma ustrip_in c s : In c (ustrip s) -> In c s.
Proof.
  unfold Unicode.strip. intros H. apply in_rev in H.
  apply ulstrip_in in H. apply in_rev in H. now apply ulstrip_in.
Qed.

Lemma ulstrip_head s : forall c r, ulstrip s = c :: r -> isspace c = false.
Proof.
  induction s as [|a s IH]; simpl; [discriminate|].
  destruct (isspace a) eqn:E; auto. intros c r H. inversion H; subst. exact E.
Qed.

Lemma ulstrip_suffix s : exists pre, s = pre ++ ulstrip s.
Proof.
  induction s as [|c s [pre IH]]; simpl; [exists []; reflexivity|].
  destruct (isspace c); [|exists []; reflexivity].
  exists (c :: pre). simpl. now rewrite <- IH.
Qed.

(** A trimmed text neither starts nor ends with white space. *)
Lemma ustrip_ends s :
  (forall c r, ustrip s = c :: r -> isspace c = false) /\
  (forall c r, ustrip s = r ++ [c] -> isspace c = false).
Proof.
  unfold Unicode.strip.
  set (a := Unicode.lstrip isspace s).
  set (b := Unicode.lstrip isspace (rev a)). split.
  - intros c r H.
    destruct (ulstrip_suffix (rev a)) as [pre Hpre]. change (rev a = pre ++ b) in Hpre.
    assert (Hb : b = rev r ++ [c]).
    { rewrite <- (rev_involutive b), H. reflexivity. }
    rewrite Hb in Hpre.
    assert (Ha : a = c :: r ++ rev pre).
    { rewrite <- (rev_involutive a), Hpre, !rev_app_distr, rev_involutive.
      reflexivity. }
    exact (ulstrip_head _ Ha).
  - intros c r H.
    assert (Hb : b = c :: rev r).
    { rewrite <- (rev_involutive b), H, rev_app_distr. reflexivity. }
    exact (ulstrip_head _ Hb).
Qed.

Lemma ucollapse_in c b s :
  In c (ucollapse b s) -> c = 32%N \/ (In c s /\ isspace c = false).
Proof.
  revert b. induction s as [|a s IH]; intros b; simpl; [tauto|].
  destruct (isspace a) eqn:E.
  - intros H. apply in_app_or in H. destruct H as [H|H].
    + destruct b; [destruct H|]. destruct H as [<-|[]]. now left.
    + apply IH in H. destruct H as [H|[H1 H2]]; auto.
  - intros [<-|H]; auto. apply IH in H. destruct H as [H|[H1 H2]]; auto.
Qed.

(** What survives: a character of the upper-cased text that is a word
    character or one of [- . , ( ) /], or the space. *)
Lemma unormalize_in c text :
  In c (unormalize text) ->
  (isword c = true \/ c = 32%N \/ Unicode.is_kept_punct c = true) /\
  (c = 32%N \/ In c (Unicode.upper toupper text)) /\
  (isspace c = true -> c = 32%N).
Proof.
  unfold Unicode.normalize_text.
  destruct text as [|a text]; [intros []|]. intros H.
  apply ustrip_in in H. apply filter_In in H. destruct H as [H Hk].
  apply ucollapse_in in H. unfold Unicode.is_artifact in Hk.
  rewrite negb_involutive in Hk.
  destruct H as [->|[H Hs]].
  - split; [auto|]. split; auto.
  - rewrite Hs in Hk. split; [|split].
    + destruct (isword c); [now left|]. right. right. exact Hk.
    + now right.
    + intros Hc. congruence.
Qed.

(** On text of the ASCII range, under tables that agree with the 8-bit
    classes there, the two models give the same result. *)
Hypothesis agree : agree_on_ascii isspace isword toupper.

Lemma code_space : code SP = 32%N.
Proof. reflexivity. Qed.

Lemma upper_char_ascii c : is_ascii c = true -> is_ascii (upper_char c) = true.
Proof. ascii_cases c; intros H; try reflexivity; discriminate H. Qed.

Lemma space_ascii c : is_space c = true -> is_ascii c = true.
Proof. ascii_cases c; intros H; try reflexivity; discriminate H. Qed.

Lemma kept_punct_code c : Unicode.is_kept_punct (code c) = is_kept_punct c.
Proof. ascii_cases c; reflexivity. Qed.

Lemma upper_codes s :
  Forall (fun c => is_ascii c = true) s ->
  Unicode.upper toupper (codes s) = codes (upper s) /\
  Forall (fun c => is_ascii c = true) (upper s).
Proof.
  induction 1 as [|c s Hc _ [IH1 IH2]]; [split; [reflexivity|constructor]|].
  destruct (agree c Hc) as (_ & _ & Hu). split.
  - change (Unicode.upper toupper (codes (c :: s)))
      with (toupper (code c) ++ Unicode.upper toupper (codes s)).
    rewrite Hu, IH1. reflexivity.
  - cbn [upper map]. constructor; [now apply upper_char_ascii|exact IH2].
Qed.

Lemma collapse_codes s :
  Forall (fun c => is_ascii c = true) s ->
  forall b,
    ucollapse b (codes s) = codes (collapse_with [SP] b s) /\
    Forall (fun c => is_ascii c = true) (collapse_with [SP] b s).
Proof.
  induction 1 as [|c s Hc _ IH]; intros b; [split; [reflexivity|constructor]|].
  destruct (agree c Hc) as (Hs & _ & _).
  cbn [codes map Unicode.collapse_spaces collapse_with]. rewrite Hs.
  destruct (is_space c).
  - destruct (IH true) as [I1 I2]. fold (codes s). rewrite I1. split.
    + unfold codes. rewrite map_app. destruct b; reflexivity.
    + apply Forall_app. split; [|exact I2]. destruct b; repeat constructor.
  - destruct (IH false) as [I1 I2]. fold (codes s). rewrite I1. split; [reflexivity|].
    constructor; auto.
Qed.

Lemma filter_codes s :
  Forall (fun c => is_ascii c = true) s ->
  filter (fun c => negb (Unicode.is_artifact isspace isword c)) (codes s) =
  codes (filter kept s) /\
  Forall (fun c => is_ascii c = true) (filter kept s).
Proof.
  induction 1 as [|c s Hc _ [IH1 IH2]]; [split; [reflexivity|constructor]|].
  destruct (agree c Hc) as (Hs & Hw & _).
  cbn [codes map filter]. fold (codes s). rewrite IH1.
  unfold Unicode.is_artifact.
  rewrite negb_involutive, Hs, Hw, kept_punct_code. fold (kept c).
  destruct (kept c); split; auto.
Qed.

Lemma lstrip_codes s :
  Forall (fun c => is_ascii c = true) s ->
  ulstrip (codes s) = codes (lstrip s) /\
  Forall (fun c => is_ascii c = true) (lstrip s).
Proof.
  induction 1 as [|c s Hc Hrest [IH1 IH2]]; [split; [reflexivity|constructor]|].
  destruct (agree c Hc) as (Hs & _ & _).
  cbn [codes map Unicode.lstrip lstrip]. rewrite Hs.
  destruct (is_space c); [split; assumption|]. split; [reflexivity|]. constructor; auto.
Qed.

Lemma strip_codes s :
  Forall (fun c => is_ascii c = true) s ->
  ustrip (codes s) = codes (strip s) /\
  Forall (fun c => is_ascii c = true) (strip s).
Proof.
  intros H. unfold Unicode.strip, strip, rstrip.
  destruct (lstrip_codes H) as [L1 L2]. rewrite L1.
  assert (Hr : Forall (fun c => is_ascii c = true) (rev (lstrip s))) by now apply Forall_rev.
  destruct (lstrip_codes Hr) as [R1 R2].
  unfold codes in *. rewrite <- map_rev, R1, map_rev. split; [reflexivity|].
  now apply Forall_rev.
Qed.

Lemma normalize_codes s :
  Forall (fun c => is_ascii c = true) s ->
  unormalize (codes s) = codes (normalize_text s).
Proof.
  intros H. rewrite normalize_text_refines.
  destruct (upper_codes H) as [U1 U2].
  destruct (collapse_codes U2 false) as [C1 C2].
  destruct (filter_codes C2) as [F1 F2].
  destruct (strip_codes F2) as [S1 _].
  destruct s as [|c s0]; [reflexivity|].
  unfold Unicode.normalize_text. cbn [codes map].
  change (code c :: map code s0) with (codes (c :: s0)).
  rewrite U1, C1, F1, S1. reflexivity.
Qed.
End UnicodeFacts.

(** C4, as amended.  On every string, of any script, normalization is:
    upper case, every run of white space collapsed to one space, every
    character deleted that is neither a word character of the
    regular-expression engine, nor white space, nor one of
    [- . , ( ) /], ends trimmed.  Every character of the output is a
    word character, the space, or one of [- . , ( ) /]; it is the space
    or a character of the upper-cased text; the only white space left
    is the space; and the output neither starts nor ends with white
    space.  On the ASCII range the word characters are the letters, the
    digits and the underscore: there the output is that of the 8-bit
    model, whose characters are letters, digits, the space, one of
    [- . , ( ) /] or the underscore, none of them a lowercase letter. *)
Theorem C4_normalize_text_allow_set :
  forall (isspace isword : N -> bool) (toupper : N -> list N),
    (forall text : list N,
       let out := Unicode.normalize_text isspace isword toupper text in
       Forall (fun c => isword c = true \/ c = 32%N \/ Unicode.is_kept_punct c = true) out /\
       Forall (fun c => c = 32%N \/ In c (Unicode.upper toupper text)) out /\
       Forall (fun c => isspace c = true -> c = 32%N) out /\
       (forall c r, out = c :: r -> isspace c = false) /\
       (forall c r, out = r ++ [c] -> isspace c = false)) /\
    (agree_on_ascii isspace isword toupper ->
     forall s : str,
       Forall (fun c => is_ascii c = true) s ->
       Unicode.normalize_text isspace isword toupper (codes s) = codes (normalize_text s) /\
       normalize_text s = strip (filter kept (collapse_whitespace (upper s))) /\
       Forall (fun c => in_allow_set c = true \/ c = UNDERSCORE) (normalize_text s) /\
       Forall (fun c => is_lower c = false) (normalize_text s)).
Proof.
  intros isspace isword toupper. split.
  - intros text out.
    assert (H : forall c, In c out ->
              (isword c = true \/ c = 32%N \/ Unicode.is_kept_punct c = true) /\
              (c = 32%N \/ In c (Unicode.upper toupper text)) /\
              (isspace c = true -> c = 32%N))
      by (intros c; apply unormalize_in).
    split; [apply Forall_forall; intros c Hc; now apply H|].
    split; [apply Forall_forall; intros c Hc; now apply H|].
    split; [apply Forall_forall; intros c Hc; now apply H|].
    assert (Hends := fun s => ustrip_ends isspace s).
    split.
    + unfold out, Unicode.normalize_text. destruct text as [|a text]; [discriminate|].
      apply Hends.
    + unfold out, Unicode.normalize_text. destruct text as [|a text].
      * intros c r Hr. destruct r; discriminate.
      * apply Hends.
  - intros Hagree s Hs. split; [now apply normalize_codes|].
    apply normalize_text_ascii_allow_set.
Qed.

(** The hypotheses of C4 at the tables of the ASCII range and the text
    ["a_b c"]. *)
Lemma C4_normalize_text_allow_set_witness :
  Unicode.normalize_text ascii_isspace ascii_isword ascii_toupper (codes (txt "a_b c")) =
  codes (normalize_text (txt "a_b c")).
Proof.
  apply (proj2 (C4_normalize_text_allow_set ascii_isspace ascii_isword ascii_toupper)
           ascii_tables_agree (txt "a_b c")).
  repeat constructor.
Defined.

(** The claim C4 as stated, that no character outside the allow-set of
    letters, digits, space and [- . , ( ) /] survives, fails on
    ["a_b"], whose normal form ["A_B"] keeps the underscore, a word
    character for the class [\w]. *)
Lemma C4_underscore_survives :
  normalize_text (txt "a_b") = txt "A_B" /\
  ~ Forall (fun c => in_allow_set c = true) (normalize_text (txt "a_b")) /\
  Unicode.normalize_text ascii_isspace ascii_isword ascii_toupper (codes (txt "a_b")) =
  codes (txt "A_B").
Proof.
  split; [reflexivity|]. split; [|reflexivity].
  intros H. change (normalize_text (txt "a_b")) with (txt "A_B") in H.
  inversion H as [|? ? _ H1]; subst. inversion H1 as [|? ? H2 _]; subst.
  discriminate H2.
Qed.

(** ** The spaced-letter pass *)

Lemma letter_is_word c : is_letter c = true -> is_word c = true.
Proof. unfold is_word. now intros ->. Qed.

Lemma space_not_letter c : is_space c = true -> is_letter c = false.
Proof. ascii_cases c; intros H; try reflexivity; discriminate H. Qed.

Lemma letter_not_space c : is_letter c = true -> is_space c = false.
Proof. ascii_cases c; intros H; try reflexivity; discriminate H. Qed.

Lemma rmatch_grp n r st k :
  rmatch (Grp n r) st k =
  rmatch r st (fun st' =>
    k (mkMstate (before st') (after st')
         ((n, firstn (List.length (after st) - List.length (after st')) (after st))
          :: groups st'))).
Proof. reflexivity. Qed.

Lemma rmatch_wordb st k : rmatch WordB st k = if at_boundary st then k st else None.
Proof. reflexivity. Qed.

(** *** Letters separated by white space *)

(** A gap and the letter after it, and the text they spell. *)
Definition gap_ok (p : str * ascii) : Prop :=
  fst p <> [] /\ Forall (fun c => is_space c = true) (fst p) /\ is_letter (snd p) = true.

Definition spaced_tail (pairs : list (str * ascii)) : str :=
  flat_map (fun p => fst p ++ [snd p]) pairs.

(** The run of the letter [c1] and the pairs (gap, letter). *)
Definition spaced_run (c1 : ascii) (pairs : list (str * ascii)) : str :=
  c1 :: spaced_tail pairs.

Lemma spaced_tail_app ps qs : spaced_tail (ps ++ qs) = spaced_tail ps ++ spaced_tail qs.
Proof. unfold spaced_tail. apply flat_map_app. Qed.

Lemma spaced_tail_last pairs c rest :
  Forall gap_ok pairs -> is_letter c = true ->
  head_is is_word (rev (spaced_tail pairs) ++ c :: rest) = true.
Proof.
  intros Hp Hc. destruct pairs as [|p pairs] using rev_ind.
  - simpl. now apply letter_is_word.
  - rewrite spaced_tail_app. cbn [spaced_tail flat_map]. rewrite app_nil_r.
    rewrite !rev_app_distr. cbn [rev app head_is].
    apply Forall_app in Hp. destruct Hp as (_ & Hp). inversion Hp as [|? ? (_ & _ & Hl) _]; subst.
    now apply letter_is_word.
Qed.

Lemma filter_spaced_tail pairs :
  Forall gap_ok pairs ->
  filter (fun c => negb (is_space c)) (spaced_tail pairs) = map snd pairs.
Proof.
  induction 1 as [|[w c] pairs (Hne & Hw & Hc) Hp IH]; [reflexivity|].
  change (spaced_tail ((w, c) :: pairs)) with ((w ++ [c]) ++ spaced_tail pairs).
  rewrite !filter_app, IH. simpl in *.
  rewrite (letter_not_space _ Hc). simpl.
  replace (filter (fun c0 => negb (is_space c0)) w) with (@nil ascii); [reflexivity|].
  clear -Hw. induction Hw as [|a w Ha Hw IH]; simpl; auto. now rewrite Ha.
Qed.

(** ** The runs of single letters *)

(** The text after the run of white space at the head of [s], when
    there is one. *)
Definition after_gap (s : str) : option str :=
  if head_is is_space s then Some (lstrip s) else None.

(** A single letter at the head of [s], a letter that no word character
    follows, and the text after it. *)
Definition single_letter (s : str) : option (ascii * str) :=
  match s with
  | c :: r => if is_letter c && negb (head_is is_word r) then Some (c, r) else None
  | [] => None
  end.

(** The single letters that follow one another from the head of [s],
    each after a run of white space, as many as there are; and the text
    after the last of them. *)
Fixpoint following_letters_upto (fuel : nat) (s : str) : list ascii * str :=
  match fuel with
  | O => ([], s)
  | S fuel' =>
      match after_gap s with
      | Some s1 =>
          match single_letter s1 with
          | Some (c, r) =>
              let '(letters, rest) := following_letters_upto fuel' r in
              (c :: letters, rest)
          | None => ([], s)
          end
      | None => ([], s)
      end
  end.

Definition following_letters (s : str) : list ascii * str :=
  following_letters_upto (List.length s) s.

(** A run of three or more single letters from the head of [s]: its
    letters, and the text after it. *)
Definition spaced_run_at (s : str) : option (list ascii * str) :=
  match single_letter s with
  | Some (c, r) =>
      let '(letters, rest) := following_letters r in
      if (2 <=? List.length letters)%nat then Some (c :: letters, rest) else None
  | None => None
  end.

(** The text read from left to right, every run of three or more single
    letters replaced by its letters; [prev_word] tells that the
    character before is a word character, where no run starts. *)
Fixpoint collapse_runs (fuel : nat) (prev_word : bool) (s : str) : str :=
  match fuel, s with
  | S fuel', c :: r =>
      match (if prev_word then None else spaced_run_at s) with
      | Some (letters, rest) => letters ++ collapse_runs fuel' true rest
      | None => c :: collapse_runs fuel' (is_word c) r
      end
  | _, _ => s
  end.

Definition collapse_spaced_runs (s : str) : str :=
  collapse_runs (List.length s) false s.

(** Two single letters only, then a word of two letters or more, from
    the head of [s]. *)
Definition pair_then_word (s : str) : bool :=
  match single_letter s with
  | Some (_, r) =>
      match after_gap r with
      | Some s1 =>
          match single_letter s1 with
          | Some (_, r1) =>
              match after_gap r1 with
              | Some s2 =>
                  let n := run_length is_letter s2 in
                  (2 <=? n)%nat && negb (head_is is_word (skipn n s2))
              | None => false
              end
          | None => false
          end
      | None => false
      end
  | None => false
  end.

(** The same reading of the text, looking for such a pair outside the
    runs of three or more. *)
Fixpoint pairs_then_word (fuel : nat) (prev_word : bool) (s : str) : bool :=
  match fuel, s with
  | S fuel', c :: r =>
      match (if prev_word then None else spaced_run_at s) with
      | Some (_, rest) => pairs_then_word fuel' true rest
      | None => (negb prev_word && pair_then_word s) || pairs_then_word fuel' (is_word c) r
      end
  | _, _ => false
  end.

Definition no_pair_then_word (s : str) : Prop :=
  pairs_then_word (List.length s) false s = false.

(** *** White space and letters *)

Lemma word_not_space c : is_word c = true -> is_space c = false.
Proof. ascii_cases c; intros H; try reflexivity; discriminate H. Qed.

Lemma head_word_not_space s : head_is is_word s = true -> head_is is_space s = false.
Proof. destruct s as [|c r]; simpl; auto. apply word_not_space. Qed.

Lemma head_space_not_word s : head_is is_space s = true -> head_is is_word s = false.
Proof.
  destruct s as [|c r]; simpl; auto. intros H.
  destruct (is_word c) eqn:E; auto. apply word_not_space in E. congruence.
Qed.

Lemma head_space_not_letter s : head_is is_space s = true -> head_is is_letter s = false.
Proof. destruct s as [|c r]; simpl; auto. apply space_not_letter. Qed.

Lemma lstrip_run s : lstrip s = skipn (run_length is_space s) s.
Proof.
  induction s as [|c s IH]; simpl; auto. destruct (is_space c); auto.
Qed.

Lemma after_gap_split s s1 :
  after_gap s = Some s1 ->
  exists w, s = w ++ s1 /\ w <> [] /\ Forall (fun c => is_space c = true) w /\
            head_is is_space s1 = false.
Proof.
  unfold after_gap. destruct (head_is is_space s) eqn:E; [|discriminate].
  intros H. injection H as <-. rewrite lstrip_run.
  destruct (run_split is_space s) as (Hs & Hall & Hhd & Hlen).
  exists (firstn (run_length is_space s) s). repeat split; auto.
  destruct s as [|c r]; [discriminate|]. simpl in E. simpl. rewrite E. discriminate.
Qed.

(** *** The steps of the matcher *)

(** A greedy repetition of a character class over the run of the class
    at the head of the text: when the continuation fails after every
    shorter part of the run, the result is that of the continuation
    after the whole run. *)
Lemma iterate_run_last P min k run :
  forall rest pre gs count fuel,
    Forall (fun c => P c = true) run ->
    head_is P rest = false ->
    (List.length run < fuel)%nat ->
    (forall n, (n < List.length run)%nat -> (min <= count + n)%nat ->
       k (after_run (firstn n run) (skipn n run ++ rest) pre gs) = None) ->
    iterate (rmatch (Chr P)) min k fuel count (mkMstate pre (run ++ rest) gs) =
    if (min <=? count + List.length run)%nat then k (after_run run rest pre gs) else None.
Proof.
  induction run as [|c run IH]; intros rest pre gs count fuel Hrun Hrest Hfuel Hk.
  - destruct fuel as [|fuel]; [simpl in Hfuel; lia|]. cbn [iterate].
    rewrite chr_fails by exact Hrest. simpl. now rewrite Nat.add_0_r.
  - destruct fuel as [|fuel]; [simpl in Hfuel; lia|]. cbn [iterate].
    rewrite rmatch_chr. cbn [after app]. inversion Hrun; subst. rewrite H1.
    unfold advance. cbn [before groups].
    rewrite (IH rest (c :: pre) gs (S count) fuel); auto.
    + replace (S count + List.length run)%nat with (count + List.length (c :: run))%nat
        by (simpl; lia).
      replace (after_run run rest (c :: pre) gs) with (after_run (c :: run) rest pre gs)
        by (unfold after_run; cbn [rev]; now rewrite <- app_assoc).
      destruct (min <=? count + List.length (c :: run))%nat eqn:E1.
      * destruct (k (after_run (c :: run) rest pre gs)) eqn:E2; auto.
        destruct (min <=? count)%nat eqn:E3; auto.
        apply Nat.leb_le in E3. apply (Hk O); simpl; lia.
      * destruct (min <=? count)%nat eqn:E3; auto.
        apply Nat.leb_le in E3. apply (Hk O); simpl; lia.
    + simpl in Hfuel. lia.
    + intros n Hn Hc. specialize (Hk (S n)).
      unfold after_run in *. cbn [firstn skipn rev] in Hk.
      rewrite <- app_assoc in Hk. apply Hk; simpl; lia.
Qed.

(** [\s+] before a pattern that does not start with white space: the
    whole run of white space is passed over. *)
Lemma spaces_exact k pre s gs :
  (forall st, head_is is_space (after st) = true -> k st = None) ->
  rmatch re_spaces (mkMstate pre s gs) k =
  match after_gap s with
  | Some s1 => k (mkMstate (rev (firstn (run_length is_space s) s) ++ pre) s1 gs)
  | None => None
  end.
Proof.
  intros Hk. unfold re_spaces, after_gap. rewrite rmatch_rep. cbn [after].
  destruct (run_split is_space s) as (Hs & Hall & Hhd & Hlen).
  rewrite lstrip_run.
  set (n := run_length is_space s) in *.
  rewrite Hs at 2.
  rewrite iterate_run_last; auto.
  - rewrite Hlen. unfold after_run.
    destruct s as [|c r]; [reflexivity|]. unfold n. cbn [head_is run_length].
    destruct (is_space c); reflexivity.
  - rewrite Hlen. pose proof (f_equal (@List.length ascii) Hs) as HL.
    rewrite length_app, Hlen in HL. lia.
  - intros m Hm _. apply Hk. unfold after_run. cbn [after].
    rewrite Hlen in Hm.
    assert (Hin : Forall (fun c => is_space c = true) (skipn m (firstn n s))).
    { rewrite Forall_forall in *. intros c Hc. apply Hall.
      rewrite <- (firstn_skipn m (firstn n s)). apply in_or_app. now right. }
    destruct (skipn m (firstn n s)) as [|a t] eqn:E.
    + apply (f_equal (@List.length ascii)) in E. rewrite length_skipn, Hlen in E.
      simpl in E. lia.
    + simpl. now inversion Hin.
Qed.

(** *** The single letters that follow *)

Lemma following_letters_fuel :
  forall f1 f2 s, (List.length s <= f1)%nat -> (List.length s <= f2)%nat ->
    following_letters_upto f1 s = following_letters_upto f2 s.
Proof.
  induction f1 as [|f1 IH]; intros f2 s H1 H2.
  - destruct s; [|simpl in H1; lia]. destruct f2; reflexivity.
  - destruct f2 as [|f2].
    + destruct s; [|simpl in H2; lia]. reflexivity.
    + cbn [following_letters_upto].
      destruct (after_gap s) as [s1|] eqn:Eg; auto.
      destruct (single_letter s1) as [[c r]|] eqn:Es; auto.
      destruct (after_gap_split _ Eg) as (w & Hw & Hne & _ & _).
      assert (Hr : (List.length r < List.length s)%nat).
      { destruct s1 as [|c' r']; [discriminate|]. simpl in Es.
        destruct (is_letter c' && negb (head_is is_word r')); [|discriminate].
        injection Es as <- <-. subst s. rewrite length_app. simpl.
        destruct w; [congruence|]. simpl. lia. }
      rewrite (IH f2 r) by lia. reflexivity.
Qed.

Lemma following_letters_eq s :
  following_letters s =
  match after_gap s with
  | Some s1 =>
      match single_letter s1 with
      | Some (c, r) => let '(letters, rest) := following_letters r in (c :: letters, rest)
      | None => ([], s)
      end
  | None => ([], s)
  end.
Proof.
  unfold following_letters. destruct s as [|a s]; [reflexivity|].
  cbn [List.length following_letters_upto].
  destruct (after_gap (a :: s)) as [s1|] eqn:Eg; auto.
  destruct (single_letter s1) as [[c r]|] eqn:Es; auto.
  destruct (after_gap_split _ Eg) as (w & Hw & Hne & _ & _).
  assert (Hr : (List.length r <= List.length s)%nat).
  { destruct s1 as [|c' r']; [discriminate|]. simpl in Es.
    destruct (is_letter c' && negb (head_is is_word r')); [|discriminate].
    injection Es as <- <-. apply (f_equal (@List.length ascii)) in Hw.
    rewrite length_app in Hw. simpl in Hw.
    destruct w; [congruence|]. simpl in Hw. lia. }
  rewrite (@following_letters_fuel (List.length s) (List.length r) r) by lia.
  reflexivity.
Qed.

(** The last part of the pattern: any number of [\s+[A-Za-z]], then the
    word boundary. *)
Definition re_gap_letter : regex := Seq re_spaces (Chr is_letter).

Section Units.
Variable K : mstate -> option mstate.
Variable g : mstate -> mstate.
Hypothesis K_boundary : forall st, K st = if at_boundary st then Some (g st) else None.

Lemma gap_letter_needs_space st k :
  head_is is_space (after st) = false -> rmatch re_gap_letter st k = None.
Proof.
  intros H. unfold re_gap_letter. rewrite rmatch_seq. unfold re_spaces.
  now apply rep_chr_fails.
Qed.

(** Inside a word nothing more is matched. *)
Lemma units_inside_word fuel count pre s gs :
  head_is is_word pre = true -> head_is is_word s = true ->
  iterate (rmatch re_gap_letter) 0 K fuel count (mkMstate pre s gs) = None.
Proof.
  intros Hpre Hs. destruct fuel as [|fuel]; [reflexivity|]. cbn [iterate].
  rewrite gap_letter_needs_space by (now apply head_word_not_space).
  cbn [Nat.leb]. rewrite K_boundary. unfold at_boundary. cbn [before after].
  now rewrite Hpre, Hs.
Qed.

(** After a single letter the repetition runs over the single letters
    that follow. *)
Lemma units_run :
  forall fuel s pre gs count,
    (List.length s < fuel)%nat ->
    head_is is_word pre = true -> head_is is_word s = false ->
    exists st,
      iterate (rmatch re_gap_letter) 0 K fuel count (mkMstate pre s gs) = Some (g st) /\
      after st = snd (following_letters s).
Proof.
  induction fuel as [|fuel IH]; intros s pre gs count Hfuel Hpre Hs; [lia|].
  cbn [iterate]. rewrite following_letters_eq.
  assert (Hstop : K (mkMstate pre s gs) = Some (g (mkMstate pre s gs))).
  { rewrite K_boundary. unfold at_boundary. cbn [before after]. now rewrite Hpre, Hs. }
  unfold re_gap_letter at 1. rewrite rmatch_seq.
  rewrite spaces_exact.
  2:{ intros st H. apply chr_fails. now apply head_space_not_letter. }
  destruct (after_gap s) as [s1|] eqn:Eg.
  2:{ cbn [Nat.leb]. exists (mkMstate pre s gs). split; [exact Hstop|reflexivity]. }
  destruct (after_gap_split _ Eg) as (w & Hw & Hne & _ & _).
  rewrite rmatch_chr. cbn [after].
  destruct s1 as [|c r].
  { cbn [single_letter Nat.leb]. exists (mkMstate pre s gs). split; [exact Hstop|reflexivity]. }
  cbn [single_letter]. destruct (is_letter c) eqn:Ec.
  2:{ cbn [andb Nat.leb]. exists (mkMstate pre s gs). split; [exact Hstop|reflexivity]. }
  unfold advance. cbn [before groups andb].
  assert (Hlen : (List.length r < fuel)%nat).
  { subst s. rewrite length_app in Hfuel. simpl in Hfuel. lia. }
  destruct (head_is is_word r) eqn:Er.
  - cbn [negb]. rewrite units_inside_word; auto.
    + cbn [Nat.leb]. exists (mkMstate pre s gs). split; [exact Hstop|reflexivity].
    + simpl. now apply letter_is_word.
  - cbn [negb].
    destruct (IH r (c :: rev (firstn (run_length is_space s) s) ++ pre) gs (S count))
      as (st & Hst & Hafter); auto.
    + simpl. now apply letter_is_word.
    + rewrite Hst. exists st. split; [reflexivity|].
      rewrite Hafter. destruct (following_letters r); reflexivity.
Qed.
End Units.

(** *** The match at a position *)

(** What the pattern matches from the head of [s], written out: a
    letter, white space, a letter, white space, the letters of a word,
    and the single letters that follow; the result is the text after
    the match. *)
Definition spaced_match (s : str) : option str :=
  match s with
  | c1 :: r =>
      if is_letter c1 then
        match after_gap r with
        | Some (c2 :: r1) =>
            if is_letter c2 then
              match after_gap r1 with
              | Some s2 =>
                  let n := run_length is_letter s2 in
                  if (1 <=? n)%nat && negb (head_is is_word (skipn n s2))
                  then Some (snd (following_letters (skipn n s2)))
                  else None
              | None => None
              end
            else None
        | _ => None
        end
      else None
  | [] => None
  end.

Lemma match_inside_word pre s :
  head_is is_word pre = true -> match_at re_spaced_words pre s = None.
Proof.
  intros Hpre. apply match_at_none. unfold re_spaced_words.
  rewrite rmatch_seq, rmatch_wordb. unfold at_boundary. cbn [before after].
  rewrite Hpre. destruct (head_is is_word s) eqn:E; [reflexivity|]. cbn [xorb].
  rewrite rmatch_seq, rmatch_grp. apply chr_fails. cbn [after].
  destruct s as [|c r]; simpl in *; auto.
  destruct (is_letter c) eqn:Ec; auto. apply letter_is_word in Ec. congruence.
Qed.

Lemma run_letters_word n s :
  (n < run_length is_letter s)%nat -> head_is is_word (skipn n s) = true.
Proof.
  revert n. induction s as [|c s IH]; intros n H; simpl in H; [lia|].
  destruct (is_letter c) eqn:E; [|lia].
  destruct n as [|n]; simpl.
  - now apply letter_is_word.
  - apply IH. lia.
Qed.

Lemma match_spaced_words_state pre s :
  head_is is_word pre = false ->
  match spaced_match s with
  | Some rest =>
      exists st, rmatch re_spaced_words (mkMstate pre s []) (fun st => Some st) = Some st /\
                 after st = rest
  | None => rmatch re_spaced_words (mkMstate pre s []) (fun st => Some st) = None
  end.
Proof.
  intros Hpre. unfold re_spaced_words.
  rewrite rmatch_seq, rmatch_wordb. unfold at_boundary. cbn [before after].
  rewrite Hpre. cbn [xorb].
  destruct s as [|c1 r]; [reflexivity|]. cbn [head_is spaced_match].
  destruct (is_letter c1) eqn:Ec1.
  2:{ destruct (is_word c1); auto. rewrite rmatch_seq, rmatch_grp. apply chr_fails.
      simpl. exact Ec1. }
  rewrite (letter_is_word _ Ec1).
  rewrite rmatch_seq, rmatch_grp, rmatch_chr. cbn [after]. rewrite Ec1.
  unfold advance. cbn [before after groups]. rewrite rmatch_seq.
  rewrite spaces_exact.
  2:{ intros st H. rewrite rmatch_seq, rmatch_grp. apply chr_fails.
      now apply head_space_not_letter. }
  destruct (after_gap r) as [s1|] eqn:Eg1; [|reflexivity].
  rewrite rmatch_seq, rmatch_grp, rmatch_chr. cbn [after].
  destruct s1 as [|c2 r1]; [reflexivity|].
  destruct (is_letter c2) eqn:Ec2; [|reflexivity].
  unfold advance. cbn [before after groups]. rewrite rmatch_seq.
  rewrite spaces_exact.
  2:{ intros st H. rewrite rmatch_seq, rmatch_grp, rmatch_seq. apply rep_chr_fails.
      now apply head_space_not_letter. }
  destruct (after_gap r1) as [s2|] eqn:Eg2; [|reflexivity].
  rewrite rmatch_seq, rmatch_grp, rmatch_seq, rmatch_rep. cbn [before after groups].
  destruct (run_split is_letter s2) as (Hs & Hall & Hhd & Hlen).
  set (n := run_length is_letter s2) in *.
  set (pre4 := rev (firstn (run_length is_space r1) r1) ++ c2 ::
               rev (firstn (run_length is_space r) r) ++ [c1] ++ pre).
  match goal with
  | |- context [iterate (rmatch (Chr is_letter)) 1 ?k _ _ (mkMstate ?p _ ?gs)] =>
      set (k3 := k); set (gs4 := gs); change p with pre4
  end.
  assert (Hiter :
    iterate (rmatch (Chr is_letter)) 1 k3 (S (List.length s2)) 0 (mkMstate pre4 s2 gs4) =
    if (1 <=? n)%nat then k3 (after_run (firstn n s2) (skipn n s2) pre4 gs4) else None).
  { rewrite Hs at 2. rewrite iterate_run_last; auto.
    - now rewrite Hlen.
    - rewrite Hlen. pose proof (f_equal (@List.length ascii) Hs) as HL.
      rewrite length_app, Hlen in HL. lia.
    - intros m Hm Hmin. rewrite Hlen in Hm. unfold k3, after_run.
      rewrite rmatch_rep. cbn [after].
      apply units_inside_word with (g := fun st' =>
        mkMstate (before st') (after st')
          ((3%nat, firstn (List.length s2 - List.length (after st')) s2) :: groups st')).
      + intros st. reflexivity.
      + destruct (rev (firstn m (firstn n s2))) as [|a t] eqn:E.
        * apply (f_equal (@List.length ascii)) in E.
          rewrite length_rev, length_firstn, Hlen in E. simpl in E, Hmin. lia.
        * simpl. apply letter_is_word.
          assert (Hin : In a (firstn n s2)).
          { rewrite <- (firstn_skipn m (firstn n s2)). apply in_or_app. left.
            apply in_rev. rewrite E. now left. }
          rewrite Forall_forall in Hall. now apply Hall.
      + rewrite <- (firstn_skipn m (firstn n s2)) in Hs.
        assert (Hsk : skipn m (firstn n s2) ++ skipn n s2 = skipn m s2).
        { rewrite skipn_firstn_comm.
          rewrite <- (firstn_skipn (n - m) (skipn m s2)) at 2.
          f_equal. rewrite skipn_skipn. f_equal. lia. }
        rewrite Hsk. now apply run_letters_word. }
  rewrite Hiter. clear Hiter.
  destruct (1 <=? n)%nat eqn:En; [|reflexivity]. cbn [andb].
  apply Nat.leb_le in En.
  unfold k3, after_run. rewrite rmatch_rep. cbn [after].
  assert (Hlast : head_is is_word (rev (firstn n s2) ++ pre4) = true).
  { destruct (rev (firstn n s2)) as [|a t] eqn:E.
    - apply (f_equal (@List.length ascii)) in E. rewrite length_rev, Hlen in E.
      simpl in E. lia.
    - simpl. apply letter_is_word.
      assert (Hin : In a (firstn n s2)) by (apply in_rev; rewrite E; now left).
      rewrite Forall_forall in Hall. now apply Hall. }
  destruct (head_is is_word (skipn n s2)) eqn:Ew; cbn [negb].
  - apply units_inside_word with (g := fun st' =>
      mkMstate (before st') (after st')
        ((3%nat, firstn (List.length s2 - List.length (after st')) s2) :: groups st')); auto.
  - destruct (@units_run
        (fun st' => rmatch WordB
           (mkMstate (before st') (after st')
              ((3%nat, firstn (List.length s2 - List.length (after st')) s2) :: groups st'))
           (fun st => Some st))
        (fun st' =>
           mkMstate (before st') (after st')
             ((3%nat, firstn (List.length s2 - List.length (after st')) s2) :: groups st'))
        (fun st => eq_refl)
        (S (List.length (skipn n s2))) (skipn n s2) (rev (firstn n s2) ++ pre4) gs4 O)
      as (st & Hst & Hafter); auto.
    exists (mkMstate (before st) (after st)
         ((3%nat, firstn (List.length s2 - List.length (after st)) s2) :: groups st)).
    split; [exact Hst|]. exact Hafter.
Qed.

Lemma match_spaced_words pre s :
  head_is is_word pre = false ->
  match spaced_match s with
  | Some rest =>
      exists gs, match_at re_spaced_words pre s =
                 Some ((List.length s - List.length rest)%nat, gs)
  | None => match_at re_spaced_words pre s = None
  end.
Proof.
  intros Hpre. pose proof (@match_spaced_words_state pre s Hpre) as H.
  unfold match_at. destruct (spaced_match s) as [rest|].
  - destruct H as (st & -> & <-). now exists (groups st).
  - now rewrite H.
Qed.

(** *** The runs that are found *)

Lemma after_gap_not_word s s1 : after_gap s = Some s1 -> head_is is_word s = false.
Proof.
  unfold after_gap. destruct (head_is is_space s) eqn:E; [|discriminate].
  intros _. now apply head_space_not_word.
Qed.

(** The letters that follow are separated by runs of white space, and
    no word character follows the last of them. *)
Lemma following_letters_shape :
  forall fuel s letters rest,
    following_letters_upto fuel s = (letters, rest) ->
    exists pairs,
      s = spaced_tail pairs ++ rest /\ Forall gap_ok pairs /\ letters = map snd pairs /\
      (head_is is_word s = false -> head_is is_word rest = false).
Proof.
  induction fuel as [|fuel IH]; intros s letters rest H.
  - injection H as <- <-. exists []. repeat split; auto.
  - cbn [following_letters_upto] in H.
    destruct (after_gap s) as [s1|] eqn:Eg.
    2:{ injection H as <- <-. exists []. repeat split; auto. }
    destruct (single_letter s1) as [[c r]|] eqn:Es.
    2:{ injection H as <- <-. exists []. repeat split; auto. }
    destruct (following_letters_upto fuel r) as [ls rest'] eqn:Er.
    injection H as <- <-.
    destruct (after_gap_split _ Eg) as (w & Hw & Hne & Hall & _).
    destruct s1 as [|c' r']; [discriminate|]. cbn [single_letter] in Es.
    destruct (is_letter c') eqn:Ec; [|discriminate].
    destruct (head_is is_word r') eqn:Er'; [discriminate|].
    injection Es as <- <-.
    destruct (IH _ _ _ Er) as (pairs & Hr & Hp & Hls & Hrest).
    exists ((w, c') :: pairs). repeat split; auto.
    + change (spaced_tail ((w, c') :: pairs)) with ((w ++ [c']) ++ spaced_tail pairs).
      rewrite <- !app_assoc. cbn [app]. now rewrite <- Hr.
    + constructor; auto. repeat split; auto.
    + cbn [map snd]. now rewrite Hls.
Qed.

(** A run that is found is a run of three or more letters separated by
    runs of white space, with no word character after it; what replaces
    it is the word of its letters. *)
Lemma spaced_run_at_shape s letters rest :
  spaced_run_at s = Some (letters, rest) ->
  exists c1 pairs,
    s = spaced_run c1 pairs ++ rest /\
    is_letter c1 = true /\ Forall gap_ok pairs /\ (2 <= List.length pairs)%nat /\
    letters = c1 :: map snd pairs /\
    head_is is_word rest = false.
Proof.
  unfold spaced_run_at. destruct s as [|c1 r]; [discriminate|]. cbn [single_letter].
  destruct (is_letter c1) eqn:Ec1; [|discriminate].
  destruct (head_is is_word r) eqn:Er; [discriminate|]. cbn [andb negb].
  destruct (following_letters r) as [ls rest'] eqn:Ef.
  destruct (2 <=? List.length ls)%nat eqn:El; [|discriminate].
  intros H. injection H as <- <-.
  destruct (following_letters_shape _ _ Ef) as (pairs & Hr & Hp & Hls & Hrest).
  exists c1, pairs. apply Nat.leb_le in El. subst ls. rewrite length_map in El.
  repeat split; auto.
  unfold spaced_run. cbn [app]. now rewrite <- Hr.
Qed.

(** The pattern and the runs: where no pair of single letters stands
    before a word, the pattern matches the runs of three or more single
    letters, and nothing else. *)
Lemma spaced_match_run s :
  pair_then_word s = false -> spaced_match s = option_map snd (spaced_run_at s).
Proof.
  unfold pair_then_word, spaced_match, spaced_run_at.
  destruct s as [|c1 r]; [reflexivity|]. cbn [single_letter].
  destruct (is_letter c1) eqn:Ec1; [|reflexivity]. cbn [andb].
  destruct (after_gap r) as [s1|] eqn:Eg1.
  2:{ intros _. destruct (head_is is_word r); cbn [negb]; [reflexivity|].
      rewrite following_letters_eq, Eg1. reflexivity. }
  rewrite (after_gap_not_word _ Eg1). cbn [negb].
  rewrite (following_letters_eq r), Eg1.
  destruct s1 as [|c2 r1]; [reflexivity|]. cbn [single_letter].
  destruct (is_letter c2) eqn:Ec2; [|reflexivity]. cbn [andb].
  destruct (after_gap r1) as [s2|] eqn:Eg2.
  2:{ intros _. destruct (head_is is_word r1); cbn [negb]; [reflexivity|].
      rewrite following_letters_eq, Eg2. reflexivity. }
  rewrite (after_gap_not_word _ Eg2). cbn [negb].
  rewrite (following_letters_eq r1), Eg2.
  intros Hslip.
  destruct s2 as [|c3 r2]; [reflexivity|].
  cbn [run_length single_letter] in *.
  destruct (is_letter c3) eqn:Ec3; [|reflexivity].
  cbn [skipn andb] in *.
  destruct r2 as [|c4 r3].
  - cbn [run_length skipn head_is negb Nat.leb andb]. reflexivity.
  - cbn [run_length head_is] in *. destruct (is_letter c4) eqn:Ec4.
    + rewrite (letter_is_word _ Ec4). cbn [negb].
      cbn [Nat.leb andb] in *. rewrite Hslip. reflexivity.
    + cbn [skipn head_is Nat.leb andb].
      destruct (is_word c4); cbn [negb]; [reflexivity|].
      destruct (following_letters (c4 :: r3)) as [ls rest]. reflexivity.
Qed.

Lemma pair_then_word_no_run s : pair_then_word s = true -> spaced_run_at s = None.
Proof.
  unfold pair_then_word, spaced_run_at.
  destruct (single_letter s) as [[c1 r]|]; [|discriminate].
  rewrite (following_letters_eq r).
  destruct (after_gap r) as [s1|]; [|discriminate].
  destruct (single_letter s1) as [[c2 r1]|]; [|discriminate].
  rewrite (following_letters_eq r1).
  destruct (after_gap r1) as [s2|]; [|discriminate].
  intros H. apply andb_true_iff in H. destruct H as (H2 & _). apply Nat.leb_le in H2.
  destruct s2 as [|c3 r2]; [simpl in H2; lia|]. cbn [run_length] in H2.
  destruct (is_letter c3) eqn:Ec3; [|lia].
  destruct r2 as [|c4 r3]; [simpl in H2; lia|]. cbn [run_length] in H2.
  destruct (is_letter c4) eqn:Ec4; [|lia].
  cbn [single_letter head_is]. rewrite (letter_is_word _ Ec4), andb_false_r.
  reflexivity.
Qed.

(** *** The pass on a whole text *)

Lemma sub_spaced_runs :
  forall n s pre,
    (List.length s <= n)%nat ->
    pairs_then_word n (head_is is_word pre) s = false ->
    sub_from re_spaced_words collapse_spaced pre s O =
    collapse_runs n (head_is is_word pre) s.
Proof.
  induction n as [|n IH]; intros s pre Hlen Hno.
  - destruct s; [reflexivity|simpl in Hlen; lia].
  - destruct s as [|c s]; [reflexivity|].
    cbn [sub_from collapse_runs pairs_then_word] in *. simpl in Hlen.
    destruct (head_is is_word pre) eqn:Epre.
    + rewrite match_inside_word by exact Epre. cbn [negb andb orb] in Hno.
      f_equal. apply (IH s (c :: pre)); [lia|exact Hno].
    + cbn [negb andb] in Hno.
      destruct (spaced_run_at (c :: s)) as [[letters rest]|] eqn:Erun.
      * assert (Hslip : pair_then_word (c :: s) = false).
        { destruct (pair_then_word (c :: s)) eqn:E; auto.
          apply pair_then_word_no_run in E. congruence. }
        pose proof (@match_spaced_words pre (c :: s) Epre) as Hm.
        rewrite (spaced_match_run _ Hslip), Erun in Hm. cbn [option_map snd] in Hm.
        destruct Hm as (gs & Hm).
        destruct (spaced_run_at_shape _ Erun) as (c1 & pairs & Hs & Hc1 & Hp & _ & Hl & _).
        unfold spaced_run in Hs. cbn [app] in Hs. injection Hs as <- Hs.
        rewrite Hm. subst s.
        replace (List.length (c :: spaced_tail pairs ++ rest) - List.length rest)%nat
          with (S (List.length (spaced_tail pairs)))
          by (cbn [List.length]; rewrite length_app; lia).
        rewrite firstn_cons, firstn_app, firstn_all, Nat.sub_diag. cbn [firstn].
        rewrite app_nil_r, sub_from_skip.
        rewrite (IH rest (rev (spaced_tail pairs) ++ c :: pre)).
        -- rewrite (spaced_tail_last _ _ Hp Hc1). f_equal.
           unfold collapse_spaced. rewrite re_sub_spaces, collapse_empty.
           cbn [filter]. rewrite (letter_not_space _ Hc1). cbn [negb]. subst letters.
           f_equal. now apply filter_spaced_tail.
        -- rewrite length_app in Hlen. lia.
        -- rewrite (spaced_tail_last _ _ Hp Hc1). exact Hno.
      * apply orb_false_iff in Hno. destruct Hno as (Hslip & Hno).
        pose proof (@match_spaced_words pre (c :: s) Epre) as Hm.
        rewrite (spaced_match_run _ Hslip), Erun in Hm. cbn [option_map] in Hm.
        rewrite Hm. f_equal. apply (IH s (c :: pre)); [lia|exact Hno].
Qed.

Lemma fix_spaced_words_runs s :
  no_pair_then_word s -> _fix_spaced_words s = collapse_spaced_runs s.
Proof.
  intros H. unfold _fix_spaced_words, re_sub, collapse_spaced_runs.
  apply (@sub_spaced_runs (List.length s) s []); auto.
Qed.

(** A text in which no run and no pair before a word starts anywhere is
    left as it is. *)
Lemma fix_spaced_words_no_run s :
  (forall pre t, s = pre ++ t -> head_is is_word (rev pre) = false ->
     spaced_run_at t = None /\ pair_then_word t = false) ->
  _fix_spaced_words s = s.
Proof.
  intros H. unfold _fix_spaced_words, re_sub.
  apply (@sub_from_unchanged re_spaced_words collapse_spaced
           (fun pre0 s0 => forall p t, s0 = p ++ t ->
              head_is is_word (rev p ++ pre0) = false ->
              spaced_run_at t = None /\ pair_then_word t = false)).
  - intros pre0 c s0 HQ p t Hs Hb. apply (HQ (c :: p) t).
    + cbn [app]. now rewrite Hs.
    + cbn [rev]. now rewrite <- app_assoc.
  - intros pre0 c s0 HQ.
    destruct (head_is is_word pre0) eqn:Epre; [now apply match_inside_word|].
    destruct (HQ [] (c :: s0) eq_refl Epre) as (Hrun & Hslip).
    pose proof (@match_spaced_words pre0 (c :: s0) Epre) as Hm.
    rewrite (spaced_match_run _ Hslip), Hrun in Hm. exact Hm.
  - intros p t Hs Hb. apply (H p t Hs). now rewrite app_nil_r in Hb.
Qed.

(** *** Every run is found *)

Lemma after_gap_run w c x :
  w <> [] -> Forall (fun a => is_space a = true) w -> is_space c = false ->
  after_gap (w ++ c :: x) = Some (c :: x).
Proof.
  intros Hne Hw Hc. unfold after_gap.
  assert (Hl : lstrip (w ++ c :: x) = c :: x).
  { clear Hne. induction Hw as [|b v Hb Hv IH]; cbn [app lstrip].
    - now rewrite Hc.
    - now rewrite Hb. }
  rewrite Hl. destruct w as [|a v]; [congruence|]. inversion Hw as [|? ? Ha _]; subst.
  cbn [app head_is]. now rewrite Ha.
Qed.

Lemma spaced_tail_not_word pairs rest :
  Forall gap_ok pairs -> head_is is_word rest = false ->
  head_is is_word (spaced_tail pairs ++ rest) = false.
Proof.
  intros Hp Hrest. destruct pairs as [|[w c] pairs]; [exact Hrest|].
  inversion Hp as [|? ? (Hne & Hw & _) _]; subst. simpl in Hne, Hw.
  destruct w as [|a w]; [congruence|]. inversion Hw; subst.
  apply head_space_not_word. simpl. assumption.
Qed.

Lemma following_letters_pairs pairs rest :
  forall fuel,
    Forall gap_ok pairs -> head_is is_word rest = false ->
    (List.length (spaced_tail pairs ++ rest) <= fuel)%nat ->
    following_letters_upto fuel (spaced_tail pairs ++ rest) =
    (map snd pairs ++ fst (following_letters rest), snd (following_letters rest)).
Proof.
  induction pairs as [|[w c] pairs IH]; intros fuel Hp Hrest Hfuel.
  - cbn [spaced_tail flat_map app map] in *.
    rewrite (@following_letters_fuel fuel (List.length rest) rest) by lia.
    fold (following_letters rest). now destruct (following_letters rest).
  - inversion Hp as [|? ? (Hne & Hw & Hc) Hp']; subst. simpl in Hne, Hw, Hc.
    change (spaced_tail ((w, c) :: pairs)) with ((w ++ [c]) ++ spaced_tail pairs) in *.
    rewrite <- !app_assoc in *. cbn [app] in *.
    destruct fuel as [|fuel].
    { rewrite length_app in Hfuel. simpl in Hfuel. lia. }
    cbn [following_letters_upto].
    rewrite after_gap_run by (auto using letter_not_space).
    cbn [single_letter]. rewrite Hc, (spaced_tail_not_word _ Hp' Hrest). cbn [andb negb].
    rewrite IH; auto.
    rewrite length_app in Hfuel. simpl in Hfuel.
    destruct w; [congruence|]. simpl in Hfuel. lia.
Qed.

(** A run of three or more letters separated by runs of white space,
    before which a run may start and after which no word character
    comes, is found, with the single letters that follow it. *)
Lemma spaced_run_found c1 pairs rest :
  is_letter c1 = true -> Forall gap_ok pairs -> (2 <= List.length pairs)%nat ->
  head_is is_word rest = false ->
  spaced_run_at (spaced_run c1 pairs ++ rest) =
  Some (c1 :: map snd pairs ++ fst (following_letters rest), snd (following_letters rest)).
Proof.
  intros Hc1 Hp Hlen Hrest. unfold spaced_run_at, spaced_run. cbn [app single_letter].
  rewrite Hc1, (spaced_tail_not_word _ Hp Hrest). cbn [andb negb].
  unfold following_letters at 1. rewrite following_letters_pairs; auto.
  rewrite length_app, length_map.
  destruct (2 <=? List.length pairs + List.length (fst (following_letters rest)))%nat eqn:E.
  - reflexivity.
  - apply Nat.leb_gt in E. lia.
Qed.

(** ** C9 *)

(** The pass as the specification words it: a run of three or more
    single letters separated by single spaces, [\b[A-Za-z]( [A-Za-z]){2,}\b],
    is replaced by its letters. *)
Definition re_single_spaced : regex :=
  Seq WordB
    (Seq (Chr is_letter)
    (Seq (Rep 2 (Seq (Chr (is_char 32)) (Chr is_letter)))
         WordB)).

Definition spaced_letters_spec (text : str) : str :=
  re_sub re_single_spaced (fun group0 _ => filter (fun c => negb (is_char 32 c)) group0) text.

(** C9, as amended.  The spaced-letter pass turns ["B O L"] into
    ["BOL"].  In general it reads the text from left to right and
    replaces by the word of its letters every run of three or more
    single letters separated by runs of white space (one or more
    white-space characters each, not only single spaces), and it keeps
    all other text as it is: the result is [collapse_spaced_runs].  A
    single letter is a letter with no word character next to it, and a
    run is taken as long as it goes.  This holds of every text in which
    no run of two single letters only stands, after white space, before
    a word of two letters or more.  What is replaced is a run of three
    or more letters separated by runs of white space, by the word of
    its letters; every such run before which a run may start is found;
    and a text in which no run starts is unchanged. *)
Theorem C9_spaced_letters_collapse :
  _fix_spaced_words (txt "B O L") = txt "BOL" /\
  (forall s, no_pair_then_word s -> _fix_spaced_words s = collapse_spaced_runs s) /\
  (forall s letters rest,
     spaced_run_at s = Some (letters, rest) ->
     exists c1 pairs,
       s = spaced_run c1 pairs ++ rest /\
       is_letter c1 = true /\ Forall gap_ok pairs /\ (2 <= List.length pairs)%nat /\
       letters = c1 :: map snd pairs /\
       head_is is_word rest = false) /\
  (forall c1 pairs rest,
     is_letter c1 = true -> Forall gap_ok pairs -> (2 <= List.length pairs)%nat ->
     head_is is_word rest = false ->
     spaced_run_at (spaced_run c1 pairs ++ rest) =
     Some (c1 :: map snd pairs ++ fst (following_letters rest),
           snd (following_letters rest))) /\
  (forall s,
     (forall pre t, s = pre ++ t -> head_is is_word (rev pre) = false ->
        spaced_run_at t = None /\ pair_then_word t = false) ->
     _fix_spaced_words s = s).
Proof.
  split; [reflexivity|].
  split; [exact fix_spaced_words_runs|].
  split; [exact spaced_run_at_shape|].
  split; [exact spaced_run_found|].
  exact fix_spaced_words_no_run.
Qed.

Definition sample_pairs : list (str * ascii) :=
  [ ([SP; SP], ascii_of_nat 79); ([ascii_of_nat 9], ascii_of_nat 76) ].

(** The hypotheses of C9 at the texts ["ID: B O L"] and
    ["H E L L O world"], at the run B, two spaces, O, a tabulation, L
    before a dash, and at the text ["ab"]. *)
Lemma C9_spaced_letters_collapse_witness :
  _fix_spaced_words (txt "ID: B O L") = txt "ID: BOL" /\
  _fix_spaced_words (txt "H E L L O world") = txt "HELLO world" /\
  spaced_run_at (spaced_run (ascii_of_nat 66) sample_pairs ++ txt "-") =
    Some (txt "BOL", txt "-") /\
  _fix_spaced_words (txt "ab") = txt "ab".
Proof.
  split; [|split; [|split]].
  - rewrite (proj1 (proj2 C9_spaced_letters_collapse) (txt "ID: B O L")); reflexivity.
  - rewrite (proj1 (proj2 C9_spaced_letters_collapse) (txt "H E L L O world")); reflexivity.
  - rewrite (proj1 (proj2 (proj2 (proj2 C9_spaced_letters_collapse)))
               (ascii_of_nat 66) sample_pairs (txt "-")).
    + reflexivity.
    + reflexivity.
    + unfold sample_pairs, gap_ok. repeat constructor; simpl; discriminate.
    + simpl. lia.
    + reflexivity.
  - apply (proj2 (proj2 (proj2 (proj2 C9_spaced_letters_collapse)))).
    intros pre t Hs _.
    destruct pre as [|a [|b [|c pre]]]; cbn [app] in Hs.
    + subst t. split; reflexivity.
    + injection Hs as _ <-. split; reflexivity.
    + injection Hs as _ _ <-. split; reflexivity.
    + discriminate Hs.
Defined.

(** The claim C9 as stated fails on ["A  B  C"], whose letters are
    separated by two spaces: the pass of the source collapses it, the
    pass of the specification leaves it unchanged. *)
Lemma C9_double_spaces_collapsed :
  _fix_spaced_words (txt "A  B  C") = txt "ABC" /\
  spaced_letters_spec (txt "A  B  C") = txt "A  B  C" /\
  ~ (forall s, _fix_spaced_words s = spaced_letters_spec s).
Proof.
  split; [reflexivity|]. split; [reflexivity|].
  intros H. specialize (H (txt "A  B  C")). vm_compute in H. discriminate H.
Qed.

(** Two single letters before a word: the third group of the pattern,
    [[A-Za-z]+], takes the whole word, and the pass joins the letters
    to it, against the comment of the source, which speaks of single
    letters.  Such texts are the ones that [no_pair_then_word] leaves
    out. *)
Lemma pair_before_a_word_is_joined :
  _fix_spaced_words (txt "A B CAT") = txt "ABCAT" /\
  collapse_spaced_runs (txt "A B CAT") = txt "A B CAT" /\
  ~ no_pair_then_word (txt "A B CAT").
Proof.
  split; [reflexivity|]. split; [reflexivity|]. unfold no_pair_then_word.
  intros H. vm_compute in H. discriminate H.
Qed.

(** ** Texts on which the passes have nothing to do *)

Definition is_nl : ascii -> bool := is_char 10.
Definition is_sp : ascii -> bool := is_char 32.
Definition is_stop_punct (c : ascii) : bool := is_sep_punct c || is_char 46 c.

(** [re.search(r, s) is not None], for a pattern that does not match
    the empty string: the pattern matches at some position of [s], the
    text before the position being [pre], nearest first. *)
Fixpoint found_from (r : regex) (pre s : str) : bool :=
  match s with
  | [] => false
  | c :: rest =>
      match match_at r pre s with
      | Some (S _, _) => true
      | _ => false
      end || found_from r (c :: pre) rest
  end.

Definition found (r : regex) (s : str) : bool := found_from r [] s.

(** A substitution has nothing to do where its pattern is not found. *)
Lemma sub_from_not_found r repl s :
  forall pre, found_from r pre s = false -> sub_from r repl pre s O = s.
Proof.
  induction s as [|c s IH]; intros pre H; [reflexivity|].
  cbn [found_from] in H. apply orb_false_iff in H. destruct H as [Hm Hr].
  cbn [sub_from].
  destruct (match_at r pre (c :: s)) as [[[|n] gs]|]; try discriminate Hm;
    now rewrite IH.
Qed.

Lemma re_sub_not_found r repl s : found r s = false -> re_sub r repl s = s.
Proof. apply sub_from_not_found. Qed.

(** The patterns that the four passes rewrite, in the order of the
    pipeline: the run of spaced letters; two spaces or more, three
    newlines or more, spaces before a newline; one of [, ; :] before a
    letter, white space before one of [, ; : .]; the six patterns of
    the table of corrections. *)
Definition pass_patterns : list regex :=
  [ re_spaced_words;
    Rep 2 (Chr (is_char 32));
    Rep 3 (Chr (is_char 10));
    Seq (Rep 1 (Chr (is_char 32))) (Chr (is_char 10));
    Seq (Grp 1 (Chr is_sep_punct)) (Grp 2 (Chr is_letter));
    Seq re_spaces (Grp 1 (Chr (fun c => is_sep_punct c || is_char 46 c))) ] ++
  map fst ocr_fixes.

(** A settled text: none of the patterns of the passes is found in it,
    and it neither starts nor ends with white space. *)
Definition settled (s : str) : bool :=
  forallb (fun r => negb (found r s)) pass_patterns &&
  negb (head_is is_space s) && negb (head_is is_space (rev s)).

Lemma space_not_stop_punct c : is_space c = true -> is_stop_punct c = false.
Proof. ascii_cases c; intros H; try reflexivity; discriminate H. Qed.

Lemma strip_settled s :
  head_is is_space s = false -> head_is is_space (rev s) = false -> strip s = s.
Proof.
  intros H1 H2. unfold strip, rstrip.
  assert (L : forall t, head_is is_space t = false -> lstrip t = t).
  { intros [|a t]; simpl; auto. now intros ->. }
  rewrite (L s H1), (L (rev s) H2). apply rev_involutive.
Qed.

Lemma post_process_settled text : settled text = true -> _post_process_text text = text.
Proof.
  unfold settled. rewrite !andb_true_iff, !negb_true_iff. intros ((Hp & H1) & H2).
  unfold pass_patterns, ocr_fixes in Hp. cbn [app map fst forallb] in Hp.
  rewrite !andb_true_iff, !negb_true_iff in Hp.
  destruct Hp as (P1 & P2 & P3 & P4 & P5 & P6 & P7 & P8 & P9 & P10 & P11 & P12 & _).
  destruct text as [|c0 text0] eqn:Et; [reflexivity|]. rewrite <- Et in *.
  unfold _post_process_text. rewrite Et. rewrite <- Et.
  assert (E1 : _fix_spaced_words text = text).
  { unfold _fix_spaced_words. now apply re_sub_not_found. }
  assert (E2 : _normalize_whitespace text = text).
  { unfold _normalize_whitespace.
    rewrite (@re_sub_not_found _ _ _ P2), (@re_sub_not_found _ _ _ P3), (@re_sub_not_found _ _ _ P4).
    now apply strip_settled. }
  assert (E3 : _fix_punctuation text = text).
  { unfold _fix_punctuation.
    rewrite (@re_sub_not_found _ _ _ P5). now apply re_sub_not_found. }
  assert (E4 : _fix_ocr_errors text = text).
  { unfold _fix_ocr_errors, ocr_fixes. cbn [fold_left fst snd].
    rewrite (@re_sub_not_found _ _ _ P7), (@re_sub_not_found _ _ _ P8), (@re_sub_not_found _ _ _ P9),
      (@re_sub_not_found _ _ _ P10), (@re_sub_not_found _ _ _ P11).
    now apply re_sub_not_found. }
  now rewrite E1, E2, E3, E4.
Qed.

(** ** C8 *)

(** C8, as amended.  The pipeline is not idempotent on every text.  It
    leaves a settled text unchanged (a text in which none of the
    patterns that its passes rewrite is found and which has no white
    space at its ends), so that re-applying it to such a text, and to
    its own output whenever that output is settled, changes nothing. *)
Theorem C8_post_process_fixed_points :
  forall (text : str),
    (settled text = true ->
     _post_process_text text = text /\
     _post_process_text (_post_process_text text) = _post_process_text text) /\
    (settled (_post_process_text text) = true ->
     _post_process_text (_post_process_text text) = _post_process_text text).
Proof.
  intros text. split.
  - intros H. pose proof (post_process_settled text H) as E. split; auto.
    now rewrite !E.
  - intros H. now apply post_process_settled.
Qed.

(** The hypotheses of C8 at a settled text, and at a text whose output
    is settled. *)
Lemma C8_post_process_fixed_points_witness :
  _post_process_text (txt "a cat, corner x0x") = txt "a cat, corner x0x" /\
  _post_process_text (_post_process_text (txt "B O L ,x")) =
  _post_process_text (txt "B O L ,x").
Proof.
  split.
  - apply (proj1 (C8_post_process_fixed_points (txt "a cat, corner x0x"))).
    vm_compute. reflexivity.
  - apply (proj2 (C8_post_process_fixed_points (txt "B O L ,x"))).
    vm_compute. reflexivity.
Defined.

(** The claim C8 as stated fails on ["rn B C"]: the first application
    corrects the word [rn] into [m] and gives ["m B C"], a run of three
    spaced letters, which the second application collapses into
    ["mBC"]. *)
Lemma C8_not_idempotent :
  _post_process_text (txt "rn B C") = txt "m B C" /\
  _post_process_text (_post_process_text (txt "rn B C")) = txt "mBC" /\
  ~ (forall text,
       _post_process_text (_post_process_text text) = _post_process_text text).
Proof.
  split; [reflexivity|]. split; [reflexivity|].
  intros H. specialize (H (txt "rn B C")). vm_compute in H. discriminate H.
Qed.

(** The whitespace pass removes the spaces before a newline after it has
    capped the runs of newlines: on a text whose newlines are separated
    by spaces, three newlines in a row are left in the output, and a
    second application removes one. *)
Lemma normalize_whitespace_leaves_three_newlines :
  _post_process_text [ascii_of_nat 97; NL; SP; NL; SP; NL; ascii_of_nat 98] =
  [ascii_of_nat 97; NL; NL; NL; ascii_of_nat 98] /\
  _post_process_text [ascii_of_nat 97; NL; NL; NL; ascii_of_nat 98] =
  [ascii_of_nat 97; NL; NL; ascii_of_nat 98].
Proof. split; reflexivity. Qed.

(** ** The sequence matcher: bounds of the longest match *)

Lemma Nat_eqb_iff (a b : nat) : Nat.eqb a b = true <-> a = b.
Proof. apply Nat.eqb_eq. Qed.

(** The lengths stored in [j2len] after [rows] rows of the region that
    starts at column [blo]. *)
Definition j2len_ok (rows blo : nat) (d : dict nat nat) : Prop :=
  forall j k, dict_get Nat.eqb d j = Some k ->
    (k <= rows /\ k <= j + 1 - blo /\ blo <= j)%nat.

(** A block inside a region. *)
Definition inside (alo ahi blo bhi : nat) (m : Match) : Prop :=
  let '(i, j, k) := m in
  (alo <= i /\ i + k <= ahi /\ blo <= j /\ j + k <= bhi)%nat.

Lemma j2len_prev_bound rows blo d j :
  j2len_ok rows blo d -> (blo <= j)%nat ->
  (j2len_prev d j <= rows /\ j2len_prev d j <= j - blo)%nat.
Proof.
  intros Hd Hj. unfold j2len_prev. destruct j as [|j']; [lia|].
  destruct (dict_get Nat.eqb d j') as [k|] eqn:E; [|lia].
  destruct (Hd j' k E) as (H1 & H2 & H3). lia.
Qed.

Lemma scan_row_bounds i alo ahi blo bhi j2len js :
  (alo <= i < ahi)%nat -> j2len_ok (i - alo) blo j2len ->
  forall newj2len best,
    j2len_ok (S (i - alo)) blo newj2len -> inside alo ahi blo bhi best ->
    j2len_ok (S (i - alo)) blo (fst (scan_row i blo bhi j2len js newj2len best)) /\
    inside alo ahi blo bhi (snd (scan_row i blo bhi j2len js newj2len best)).
Proof.
  intros Hi Hprev. induction js as [|j js IH]; intros newj2len best Hnew Hbest; simpl; auto.
  destruct (j <? blo)%nat eqn:E1; [now apply IH|].
  destruct (bhi <=? j)%nat eqn:E2; [simpl; auto|].
  apply Nat.ltb_ge in E1. apply Nat.leb_gt in E2.
  destruct (@j2len_prev_bound _ _ _ j Hprev E1) as (P1 & P2).
  destruct best as [[bi bj] bk].
  apply IH.
  - intros j0 k0. destruct (Nat.eqb j j0) eqn:Ej.
    + apply Nat.eqb_eq in Ej. subst j0.
      rewrite (dict_get_set_same Nat.eqb Nat_eqb_iff). intros H. inversion H; subst. lia.
    + rewrite dict_get_set_other; [apply Hnew | apply Nat_eqb_iff |].
      intros ->. rewrite Nat.eqb_refl in Ej. discriminate.
  - destruct (bk <? j2len_prev j2len j + 1)%nat; [|exact Hbest].
    unfold inside. lia.
Qed.

Lemma fold_seq_inv (S0 : Type) (step : S0 -> nat -> S0) (P : nat -> S0 -> Prop) :
  forall len start st,
    P start st ->
    (forall i st', (start <= i < start + len)%nat -> P i st' -> P (S i) (step st' i)) ->
    P (start + len)%nat (fold_left step (seq start len) st).
Proof.
  induction len as [|len IH]; intros start st H0 Hstep; simpl.
  - now rewrite Nat.add_0_r.
  - replace (start + S len)%nat with (S start + len)%nat by lia.
    apply IH.
    + apply Hstep; auto. lia.
    + intros i st' Hi. apply Hstep. lia.
Qed.

Lemma scan_rows_bounds a b2j alo ahi blo bhi :
  (alo <= ahi)%nat -> (blo <= bhi)%nat ->
  inside alo ahi blo bhi (scan_rows a b2j alo ahi blo bhi).
Proof.
  intros Ha Hb. unfold scan_rows.
  pose (P := fun (i : nat) (st : dict nat nat * Match) =>
               j2len_ok (i - alo) blo (fst st) /\ inside alo ahi blo bhi (snd st)).
  assert (H : P (alo + (ahi - alo))%nat
                (fold_left
                   (fun (st : dict nat nat * Match) i =>
                      scan_row i blo bhi (fst st) (b2j_get b2j (char_at a i)) [] (snd st))
                   (seq alo (ahi - alo)) ([], (alo, blo, O)))).
  { apply fold_seq_inv.
    - split; [intros j k; simpl; discriminate | simpl; lia].
    - intros i st' Hi (H1 & H2). unfold P.
      replace (S i - alo)%nat with (S (i - alo)) by lia.
      apply scan_row_bounds; auto; [lia|].
      intros j k. simpl. discriminate. }
  apply H.
Qed.

Lemma extend_front_bounds a b P alo ahi blo bhi besti :
  forall bestj bestsize,
    inside alo ahi blo bhi (besti, bestj, bestsize) ->
    inside alo ahi blo bhi (extend_front a b P alo blo besti bestj bestsize).
Proof.
  induction besti as [|i' IH]; intros bestj bestsize H; simpl; auto.
  destruct bestj as [|j']; auto.
  destruct (_ && _ && _ && _) eqn:E; auto.
  rewrite !andb_true_iff in E. destruct E as (((E1 & E2) & _) & _).
  apply Nat.ltb_lt in E1, E2. apply IH. unfold inside in *. lia.
Qed.

Lemma extend_back_bounds a b P ahi bhi besti bestj fuel :
  forall bestsize,
    (besti + bestsize <= ahi /\ bestj + bestsize <= bhi)%nat ->
    let k := extend_back a b P ahi bhi besti bestj fuel bestsize in
    (bestsize <= k /\ besti + k <= ahi /\ bestj + k <= bhi)%nat.
Proof.
  induction fuel as [|fuel IH]; intros bestsize H; simpl; [lia|].
  destruct (_ && _ && _ && _) eqn:E; [|lia].
  rewrite !andb_true_iff in E. destruct E as (((E1 & E2) & _) & _).
  apply Nat.ltb_lt in E1, E2.
  specialize (IH (S bestsize)). simpl in IH. lia.
Qed.

Lemma extend_bounds a b P alo ahi blo bhi m :
  inside alo ahi blo bhi m -> inside alo ahi blo bhi (extend a b P alo ahi blo bhi m).
Proof.
  intros H. destruct m as [[bi bj] bk]. unfold extend.
  pose proof (@extend_front_bounds a b P alo ahi blo bhi bi bj bk H) as Hf.
  destruct (extend_front a b P alo blo bi bj bk) as [[bi' bj'] bk'].
  unfold inside in *.
  pose proof (@extend_back_bounds a b P ahi bhi bi' bj' (ahi - (bi' + bk')) bk') as Hb.
  simpl in Hb. lia.
Qed.

Lemma find_longest_match_bounds a b b2j alo ahi blo bhi :
  (alo <= ahi)%nat -> (blo <= bhi)%nat ->
  inside alo ahi blo bhi (find_longest_match a b b2j alo ahi blo bhi).
Proof.
  intros Ha Hb. unfold find_longest_match.
  apply extend_bounds, extend_bounds. now apply scan_rows_bounds.
Qed.

(** ** The sequence matcher: the matching blocks *)

Definition region_ok (r : Region) : Prop :=
  let '(alo, ahi, blo, bhi) := r in (alo <= ahi /\ blo <= bhi)%nat.

Definition width_a (r : Region) : nat := let '(alo, ahi, _, _) := r in (ahi - alo)%nat.
Definition width_b (r : Region) : nat := let '(_, _, blo, bhi) := r in (bhi - blo)%nat.

Definition widths_a (q : list Region) : nat := list_sum (map width_a q).
Definition widths_b (q : list Region) : nat := list_sum (map width_b q).

(** The fuel that empties a queue. *)
Definition queue_measure (q : list Region) : nat :=
  list_sum (map (fun r => 2 * width_a r + 1)%nat q).

Definition size_sum (l : list Match) : nat := list_sum (map (fun m : Match => snd m) l).

Lemma list_sum_cons x l : list_sum (x :: l) = (x + list_sum l)%nat.
Proof. reflexivity. Qed.

Lemma size_sum_app l1 l2 : size_sum (l1 ++ l2) = (size_sum l1 + size_sum l2)%nat.
Proof. unfold size_sum. now rewrite map_app, list_sum_app. Qed.

(** The loop empties the queue within the fuel of its measure, and the
    blocks it adds fit side by side in the regions of the queue. *)
Lemma blocks_loop_total a b b2j fuel :
  forall q acc,
    Forall region_ok q -> (queue_measure q <= fuel)%nat ->
    exists res,
      blocks_loop a b b2j fuel q acc = Some res /\
      (size_sum res <= size_sum acc + widths_a q)%nat /\
      (size_sum res <= size_sum acc + widths_b q)%nat.
Proof.
  induction fuel as [|fuel IH]; intros q acc Hq Hm.
  - destruct q as [|[[[alo ahi] blo] bhi] q].
    + exists acc. simpl. repeat split; lia.
    + unfold queue_measure in Hm. simpl in Hm. lia.
  - destruct q as [|[[[alo ahi] blo] bhi] q].
    + exists acc. simpl. repeat split; lia.
    + inversion Hq as [|? ? Hr0 Hq']; subst. simpl in Hr0. destruct Hr0 as (Ha & Hb).
      pose proof (find_longest_match_bounds a b b2j Ha Hb) as Hin.
      cbn [blocks_loop].
      destruct (find_longest_match a b b2j alo ahi blo bhi) as [[i j] k].
      unfold inside in Hin.
      unfold queue_measure, widths_a, widths_b in *. cbn [map width_a width_b] in *.
      rewrite !list_sum_cons in *.
      destruct k as [|k'].
      * destruct (IH q acc Hq') as (res & Hr & S1 & S2); [lia|].
        exists res. repeat split; auto; unfold widths_a, widths_b in *; lia.
      * destruct ((alo <? i)%nat && (blo <? j)%nat) eqn:EL;
          destruct ((i + S k' <? ahi)%nat && (j + S k' <? bhi)%nat) eqn:ER;
          (match goal with
           | |- context [blocks_loop _ _ _ _ ?qq ?aa] =>
               destruct (IH qq aa) as (res & Hr & S1 & S2)
           end;
           [ simpl; repeat (apply Forall_cons; [simpl; lia|]); exact Hq'
           | cbn [app map width_a]; rewrite ?list_sum_cons; lia
           | exists res; split; [exact Hr|];
             cbn [app map width_a width_b] in S1, S2;
             rewrite ?list_sum_cons, size_sum_app in *; unfold size_sum in *;
             cbn [map snd] in *; rewrite ?list_sum_cons in *; simpl list_sum in *; lia ]).
Qed.

Lemma blocks_found a b :
  exists raw,
    blocks_loop a b (chain_b b) (2 * List.length a + 1)
      [(O, List.length a, O, List.length b)] [] = Some raw /\
    (size_sum raw <= List.length a)%nat /\ (size_sum raw <= List.length b)%nat.
Proof.
  destruct (@blocks_loop_total a b (chain_b b) (2 * List.length a + 1)
              [(O, List.length a, O, List.length b)] []) as (raw & Hr & S1 & S2).
  - repeat constructor; lia.
  - unfold queue_measure. simpl. lia.
  - exists raw. unfold widths_a, widths_b, size_sum in *. simpl in *.
    repeat split; auto; lia.
Qed.

Lemma list_sum_perm (l1 l2 : list nat) : Permutation l1 l2 -> list_sum l1 = list_sum l2.
Proof.
  induction 1; simpl; auto; try lia.
Qed.

Lemma size_sum_sort le l : size_sum (sort_by le l) = size_sum l.
Proof.
  unfold size_sum. apply list_sum_perm. apply Permutation_map. apply sort_by_perm.
Qed.

Definition pending (st : Match * list Match) : nat :=
  (snd (fst st) + size_sum (snd st))%nat.

Lemma merge_step_sum st x : pending (merge_step st x) = (pending st + snd x)%nat.
Proof.
  destruct st as [[[i1 j1] k1] na]. destruct x as [[i2 j2] k2].
  unfold merge_step, pending.
  destruct ((i1 + k1 =? i2) && (j1 + k1 =? j2))%nat; cbn [fst snd]; [lia|].
  destruct k1; [simpl; lia|]. rewrite size_sum_app. unfold size_sum. simpl. lia.
Qed.

Lemma merge_fold_sum l :
  forall st, pending (fold_left merge_step l st) = (pending st + size_sum l)%nat.
Proof.
  induction l as [|x l IH]; intros st; simpl.
  - unfold size_sum. simpl. lia.
  - rewrite IH, merge_step_sum. unfold size_sum. simpl. lia.
Qed.

(** The matching blocks reported have the total size of the blocks that
    the loop found. *)
Lemma get_matching_blocks_sum a b raw :
  blocks_loop a b (chain_b b) (2 * List.length a + 1)
    [(O, List.length a, O, List.length b)] [] = Some raw ->
  size_sum (get_matching_blocks a b) = size_sum raw.
Proof.
  intros Hr. unfold get_matching_blocks. rewrite Hr.
  pose proof (merge_fold_sum (sort_by match_le raw) ((O, O, O), [])) as H.
  destruct (fold_left merge_step (sort_by match_le raw) ((O, O, O), []))
    as [[[i1 j1] k1] na].
  unfold pending in H. cbn [fst snd] in H. rewrite size_sum_sort in H.
  rewrite size_sum_app.
  assert (Hz : size_sum [(List.length a, List.length b, O)] = O) by reflexivity.
  rewrite Hz. destruct k1.
  - unfold size_sum in *. simpl in *. lia.
  - rewrite size_sum_app. unfold size_sum in *. simpl in *. lia.
Qed.

Lemma fold_sizes l : forall n,
  fold_left (fun s (triple : Match) => (s + snd triple)%nat) l n = (n + size_sum l)%nat.
Proof.
  induction l as [|x l IH]; intros n; simpl.
  - unfold size_sum. simpl. lia.
  - rewrite IH. unfold size_sum. simpl. lia.
Qed.

Lemma ratio_eq a b raw :
  blocks_loop a b (chain_b b) (2 * List.length a + 1)
    [(O, List.length a, O, List.length b)] [] = Some raw ->
  ratio a b = _calculate_ratio (size_sum raw) (List.length a + List.length b).
Proof.
  intros Hr. unfold ratio. rewrite fold_sizes. simpl.
  now rewrite (get_matching_blocks_sum a b Hr).
Qed.

Lemma calculate_ratio_range m t :
  (2 * m <= t)%nat -> 0 <= _calculate_ratio m t /\ _calculate_ratio m t <= 1.
Proof.
  intros H. unfold _calculate_ratio. destruct t as [|t'].
  - split; [discriminate|apply Qle_refl].
  - set (t := S t') in *.
    assert (Ht : 0 < inject_Z (Z.of_nat t)).
    { change 0 with (inject_Z 0). rewrite <- Zlt_Qlt. unfold t. lia. }
    assert (E : 2 * inject_Z (Z.of_nat m) == inject_Z (2 * Z.of_nat m)).
    { now rewrite inject_Z_mult. }
    split.
    + apply Qle_shift_div_l; auto. rewrite Qmult_0_l, E.
      change 0 with (inject_Z 0). rewrite <- Zle_Qle. lia.
    + apply Qle_shift_div_r; auto. rewrite Qmult_1_l, E. rewrite <- Zle_Qle. lia.
Qed.

Lemma ratio_range a b : 0 <= ratio a b /\ ratio a b <= 1.
Proof.
  destruct (blocks_found a b) as (raw & Hr & S1 & S2).
  rewrite (ratio_eq a b Hr). apply calculate_ratio_range. lia.
Qed.

(** ** The sequence matcher: the index of [b] *)

Lemma ascii_eqb_iff (a b : ascii) : ascii_eqb a b = true <-> a = b.
Proof. apply Ascii.eqb_eq. Qed.

Section DictFilter.
Variables K V : Type.
Variable keq : K -> K -> bool.
Hypothesis keq_eq : forall a b, keq a b = true <-> a = b.

Lemma dict_get_not_in (d : dict K V) k :
  ~ In k (dict_keys d) -> dict_get keq d k = None.
Proof.
  intros H. destruct (dict_get keq d k) as [v|] eqn:E; auto.
  exfalso. apply H. eapply dict_get_in_keys; eauto.
Qed.

Lemma dict_set_keys (d : dict K V) k v :
  dict_keys (dict_set keq d k v) = dict_keys d \/
  (~ In k (dict_keys d) /\ dict_keys (dict_set keq d k v) = dict_keys d ++ [k]).
Proof.
  unfold dict_keys. induction d as [|[k' v'] d IH]; simpl.
  - right. split; auto.
  - destruct (keq k k') eqn:E; simpl; [now left|].
    destruct IH as [IH|(Hn & IH)].
    + left. now rewrite IH.
    + right. split; [|now rewrite IH].
      intros [H|H]; auto. subst k'. rewrite (keq_refl keq keq_eq) in E. discriminate.
Qed.

Lemma dict_set_nodup (d : dict K V) k v :
  NoDup (dict_keys d) -> NoDup (dict_keys (dict_set keq d k v)).
Proof.
  intros H. destruct (dict_set_keys d k v) as [E|(Hn & E)]; rewrite E; auto.
  apply NoDup_app; auto.
  - constructor; [simpl; tauto|constructor].
  - intros x Hx [Hk|[]]. subst. contradiction.
Qed.

Lemma dict_get_filter (f : K * V -> bool) (d : dict K V) k :
  NoDup (dict_keys d) ->
  dict_get keq (filter f d) k =
  match dict_get keq d k with
  | Some v => if f (k, v) then Some v else None
  | None => None
  end.
Proof.
  unfold dict_keys. induction d as [|[k' v'] d IH]; simpl; auto.
  intros Hnd. inversion Hnd as [|? ? Hnin Hnd']; subst.
  destruct (keq k k') eqn:E.
  - apply keq_eq in E. subst k'.
    destruct (f (k, v')); simpl.
    + now rewrite (keq_refl keq keq_eq).
    + rewrite IH by assumption. now rewrite (@dict_get_not_in d k Hnin).
  - destruct (f (k', v')); simpl; [rewrite E|]; now apply IH.
Qed.
End DictFilter.

(** The positions of [c] in [b], counted from [i]. *)
Fixpoint positions_from (i : nat) (c : ascii) (b : str) : list nat :=
  match b with
  | [] => []
  | x :: r => (if ascii_eqb x c then [i] else []) ++ positions_from (S i) c r
  end.

Lemma b2j_add_get d elt i c :
  b2j_get (b2j_add d elt i) c = b2j_get d c ++ (if ascii_eqb elt c then [i] else []).
Proof.
  unfold b2j_get, b2j_add.
  destruct (ascii_eqb elt c) eqn:E.
  - apply ascii_eqb_iff in E. subst c.
    destruct (dict_get ascii_eqb d elt) as [l|] eqn:G;
      now rewrite (dict_get_set_same ascii_eqb ascii_eqb_iff).
  - assert (Hne : elt <> c).
    { intros ->. unfold ascii_eqb in E. rewrite Ascii.eqb_refl in E. discriminate. }
    destruct (dict_get ascii_eqb d elt) as [l|] eqn:G;
      rewrite (dict_get_set_other ascii_eqb ascii_eqb_iff) by exact Hne;
      now rewrite app_nil_r.
Qed.

Lemma b2j_add_nodup d elt i : NoDup (dict_keys d) -> NoDup (dict_keys (b2j_add d elt i)).
Proof.
  intros H. unfold b2j_add.
  destruct (dict_get ascii_eqb d elt); now apply (dict_set_nodup ascii_eqb ascii_eqb_iff).
Qed.

Lemma b2j_fill_get b :
  forall i d c, b2j_get (b2j_fill b i d) c = b2j_get d c ++ positions_from i c b.
Proof.
  induction b as [|x b IH]; intros i d c; simpl.
  - now rewrite app_nil_r.
  - rewrite IH, b2j_add_get. now rewrite <- app_assoc.
Qed.

Lemma b2j_fill_nodup b :
  forall i d, NoDup (dict_keys d) -> NoDup (dict_keys (b2j_fill b i d)).
Proof.
  induction b as [|x b IH]; intros i d H; simpl; auto.
  apply IH. now apply b2j_add_nodup.
Qed.

(** The index holds, for a character, all its positions in [b] or,
    when the character is absent or popular, none. *)
Lemma chain_b_get b c :
  b2j_get (chain_b b) c = [] \/ b2j_get (chain_b b) c = positions_from O c b.
Proof.
  assert (H0 : b2j_get (b2j_fill b O []) c = positions_from O c b).
  { rewrite b2j_fill_get. reflexivity. }
  unfold chain_b. destruct (200 <=? List.length b)%nat; [|now right].
  unfold b2j_get in *.
  rewrite (dict_get_filter ascii_eqb ascii_eqb_iff)
    by (apply b2j_fill_nodup; constructor).
  destruct (dict_get ascii_eqb (b2j_fill b O []) c) as [l|]; [|now left].
  destruct (negb _); auto.
Qed.

Lemma positions_from_spec c b :
  forall i j, In j (positions_from i c b) <->
              (i <= j < i + List.length b)%nat /\ char_at b (j - i) = c.
Proof.
  unfold char_at. induction b as [|x b IH]; intros i j; simpl.
  - split; [tauto|lia].
  - rewrite in_app_iff, IH. split.
    + intros [H|(H1 & H2)].
      * destruct (ascii_eqb x c) eqn:E; [|destruct H].
        destruct H as [<-|[]]. rewrite Nat.sub_diag. apply ascii_eqb_iff in E. split; [lia|auto].
      * split; [lia|]. replace (j - i)%nat with (S (j - S i)) by lia. exact H2.
    + intros (H1 & H2). destruct (Nat.eq_dec i j) as [<-|Hne].
      * left. rewrite Nat.sub_diag in H2. subst x.
        unfold ascii_eqb. rewrite Ascii.eqb_refl. now left.
      * right. split; [lia|]. replace (j - i)%nat with (S (j - S i)) in H2 by lia. exact H2.
Qed.

Lemma positions_from_sorted c b : forall i, StronglySorted lt (positions_from i c b).
Proof.
  induction b as [|x b IH]; intros i; simpl; [constructor|].
  destruct (ascii_eqb x c); simpl; [|apply IH].
  constructor; [apply IH|]. apply Forall_forall. intros j Hj.
  apply positions_from_spec in Hj. lia.
Qed.

(** ** The sequence matcher: texts without a common character *)

Lemma char_at_in (s : str) i : (i < List.length s)%nat -> In (char_at s i) s.
Proof. intros H. unfold char_at. now apply nth_In. Qed.

Lemma chain_b_absent b c : ~ In c b -> b2j_get (chain_b b) c = [].
Proof.
  intros Hn. destruct (chain_b_get b c) as [H|H]; auto. rewrite H.
  destruct (positions_from O c b) as [|j l] eqn:E; auto.
  exfalso. apply Hn.
  assert (Hj : In j (positions_from O c b)) by (rewrite E; now left).
  apply positions_from_spec in Hj. destruct Hj as (Hj & Hc).
  rewrite <- Hc. apply char_at_in. lia.
Qed.

Lemma scan_rows_nothing a b2j alo ahi blo bhi :
  (forall i, (alo <= i < ahi)%nat -> b2j_get b2j (char_at a i) = []) ->
  scan_rows a b2j alo ahi blo bhi = (alo, blo, O).
Proof.
  intros H. unfold scan_rows.
  apply (@fold_seq_inv (dict nat nat * Match)
           (fun st i => scan_row i blo bhi (fst st) (b2j_get b2j (char_at a i)) [] (snd st))
           (fun _ st => snd st = (alo, blo, O)) (ahi - alo) alo ([], (alo, blo, O))).
  - reflexivity.
  - intros i st' Hi Hst. rewrite H by lia. simpl. exact Hst.
Qed.

Definition disjoint (a b : str) : Prop := forall c, In c a -> ~ In c b.

Lemma find_longest_match_disjoint a b :
  disjoint a b ->
  find_longest_match a b (chain_b b) O (List.length a) O (List.length b) = (O, O, O).
Proof.
  intros Hd. unfold find_longest_match.
  rewrite scan_rows_nothing.
  - assert (Hb : forall P, extend a b P O (List.length a) O (List.length b) (O, O, O)
                           = (O, O, O)).
    { intros P. unfold extend. cbn [extend_front]. rewrite Nat.sub_0_r.
      destruct a as [|x a']; [reflexivity|]. cbn [List.length extend_back].
      destruct b as [|y b']; [reflexivity|].
      assert (Hxy : ascii_eqb (char_at (x :: a') 0) (char_at (y :: b') 0) = false).
      { simpl. destruct (ascii_eqb x y) eqn:E; auto. apply ascii_eqb_iff in E. subst y.
        exfalso. apply (Hd x); now left. }
      cbn [Nat.add]. rewrite Hxy. now rewrite andb_false_r. }
    now rewrite !Hb.
  - intros i Hi. apply chain_b_absent. apply Hd. apply char_at_in. lia.
Qed.

Lemma blocks_loop_done a b b2j fuel acc : blocks_loop a b b2j fuel [] acc = Some acc.
Proof. destruct fuel; reflexivity. Qed.

Lemma ratio_disjoint a b :
  disjoint a b -> (a <> [] \/ b <> []) -> ratio a b == 0.
Proof.
  intros Hd Hne.
  assert (Hr : blocks_loop a b (chain_b b) (2 * List.length a + 1)
                 [(O, List.length a, O, List.length b)] [] = Some []).
  { replace (2 * List.length a + 1)%nat with (S (2 * List.length a)) by lia.
    cbn [blocks_loop]. rewrite (find_longest_match_disjoint Hd). apply blocks_loop_done. }
  rewrite (ratio_eq a b Hr). unfold _calculate_ratio, size_sum. simpl list_sum.
  destruct (List.length a + List.length b)%nat eqn:E.
  - exfalso. destruct a, b; simpl in E; try lia. destruct Hne; congruence.
  - unfold Qdiv. rewrite Qmult_0_r. now rewrite Qmult_0_l.
Qed.

(** ** The sequence matcher: a text against itself *)

Lemma StronglySorted_app_r (A : Type) (R : A -> A -> Prop) (l1 l2 : list A) :
  StronglySorted R (l1 ++ l2) -> StronglySorted R l2.
Proof.
  induction l1 as [|x l1 IH]; simpl; auto.
  intros H. inversion H; subst. auto.
Qed.

Section SelfMatch.
Variable a : str.

(** The character has an entry in the index: it is not popular. *)
Definition nonpop (c : ascii) : bool :=
  match b2j_get (chain_b a) c with [] => false | _ => true end.

(** The length of the run of characters with an entry that ends at
    position [m]. *)
Fixpoint diag (m : nat) : nat :=
  if nonpop (char_at a m)
  then S (match m with O => O | S m' => diag m' end)
  else O.

Definition diag_before (i : nat) : nat :=
  match i with O => O | S i' => diag i' end.

Lemma diag_eq m : diag m = if nonpop (char_at a m) then S (diag_before m) else O.
Proof. destruct m; reflexivity. Qed.

Definition m_i (m : Match) : nat := fst (fst m).
Definition m_j (m : Match) : nat := snd (fst m).
Definition m_k (m : Match) : nat := snd m.

(** What the lengths of the previous row say, at row [i]. *)
Definition prev_row_ok (i : nat) (j2len : dict nat nat) : Prop :=
  (forall j k, dict_get Nat.eqb j2len j = Some k ->
     (k <= diag j /\ k <= diag_before i)%nat) /\
  j2len_prev j2len i = diag_before i.

(** The state of the loop over the columns of row [i], after the
    columns [done]. *)
Definition row_state_ok (i : nat) (done : list nat) (st : dict nat nat * Match) : Prop :=
  m_i (snd st) = m_j (snd st) /\
  (forall j k, dict_get Nat.eqb (fst st) j = Some k ->
     In j done /\ (k <= diag j /\ k <= diag i)%nat) /\
  (In i done -> dict_get Nat.eqb (fst st) i = Some (diag i)) /\
  (forall m, (m < i)%nat -> (diag m <= m_k (snd st))%nat) /\
  (In i done -> (diag i <= m_k (snd st))%nat).

Lemma prev_bound i j2len j :
  prev_row_ok i j2len ->
  (j2len_prev j2len j <= diag_before j /\ j2len_prev j2len j <= diag_before i)%nat.
Proof.
  intros (HB & _). unfold j2len_prev. destruct j as [|j']; [simpl; lia|].
  destruct (dict_get Nat.eqb j2len j') as [k|] eqn:E; [|simpl; lia].
  destruct (HB j' k E). simpl. lia.
Qed.

Lemma scan_row_diag i j2len (all_js : list nat) :
  prev_row_ok i j2len ->
  StronglySorted lt all_js ->
  (forall j, In j all_js -> (j < List.length a)%nat /\ char_at a j = char_at a i) ->
  In i all_js ->
  nonpop (char_at a i) = true ->
  forall rest done newj2len best,
    all_js = done ++ rest ->
    row_state_ok i done (newj2len, best) ->
    row_state_ok i all_js (scan_row i O (List.length a) j2len rest newj2len best).
Proof.
  intros Hprev Hsorted Hjs Hi Hnp.
  induction rest as [|j rest IH]; intros done newj2len best Hall Hst.
  - rewrite app_nil_r in Hall. subst done. exact Hst.
  - cbn [scan_row]. assert (Hj : In j all_js) by (rewrite Hall; apply in_or_app; right; now left).
    destruct (Hjs j Hj) as (Hjn & Hjc).
    replace (j <? 0)%nat with false by (symmetry; apply Nat.ltb_ge; lia).
    replace (List.length a <=? j)%nat with false by (symmetry; apply Nat.leb_gt; lia).
    destruct (prev_bound j Hprev) as (P1 & P2).
    set (k := (j2len_prev j2len j + 1)%nat) in *.
    assert (Hdj : diag j = S (diag_before j)) by (rewrite diag_eq, Hjc, Hnp; reflexivity).
    assert (Hdi : diag i = S (diag_before i)) by (rewrite diag_eq, Hnp; reflexivity).
    destruct best as [[bi bj] bk].
    destruct Hst as (R1 & R2 & R3 & R4 & R5). cbn [fst snd m_i m_j m_k] in *.
    assert (Hki : j = i -> k = diag i).
    { intros ->. unfold k. destruct Hprev as (_ & HC). rewrite HC. lia. }
    assert (Hdone : (j > i)%nat -> In i done).
    { intros Hgt. rewrite Hall in Hi. apply in_app_or in Hi. destruct Hi as [Hi|Hi]; auto.
      exfalso. rewrite Hall in Hsorted.
      apply StronglySorted_app_r in Hsorted. rename Hsorted into Hs.
      inversion Hs as [|? ? _ Hlt]; subst. destruct Hi as [Hi|Hi]; [lia|].
      rewrite Forall_forall in Hlt. apply Hlt in Hi. lia. }
    apply (IH (done ++ [j])); [rewrite <- app_assoc; exact Hall|].
    unfold row_state_ok. cbn [fst snd].
    assert (Hbest :
      let best' := if (bk <? k)%nat then ((i + 1 - k)%nat, (j + 1 - k)%nat, k) else (bi, bj, bk) in
      m_i best' = m_j best' /\ (bk <= m_k best')%nat /\ (j = i -> k <= m_k best')%nat).
    { cbn zeta. destruct (bk <? k)%nat eqn:E.
      - apply Nat.ltb_lt in E. cbn [m_i m_j m_k fst snd]. repeat split; try lia.
        destruct (Nat.lt_trichotomy j i) as [Hlt|[Heq|Hgt]].
        + specialize (R4 j Hlt). lia.
        + subst j. reflexivity.
        + specialize (R5 (Hdone Hgt)). lia.
      - apply Nat.ltb_ge in E. cbn [m_i m_j m_k fst snd]. repeat split; auto. }
    cbn zeta in Hbest. destruct Hbest as (B1 & B2 & B3).
    split; [exact B1|]. split; [|split; [|split]].
    + intros j0 k0. destruct (Nat.eqb j j0) eqn:Ej.
      * apply Nat.eqb_eq in Ej. subst j0.
        rewrite (dict_get_set_same Nat.eqb Nat_eqb_iff). intros H. inversion H; subst k0.
        split; [apply in_or_app; right; now left|]. unfold k. lia.
      * rewrite dict_get_set_other; [| apply Nat_eqb_iff |].
        -- intros H. destruct (R2 j0 k0 H) as (H1 & H2). split; auto.
           apply in_or_app. now left.
        -- intros ->. rewrite Nat.eqb_refl in Ej. discriminate.
    + intros Hin. apply in_app_or in Hin.
      destruct (Nat.eq_dec j i) as [->|Hne].
      * rewrite (dict_get_set_same Nat.eqb Nat_eqb_iff). f_equal. now apply Hki.
      * rewrite dict_get_set_other; [| apply Nat_eqb_iff | exact Hne].
        apply R3. destruct Hin as [Hin|[Hin|[]]]; auto. congruence.
    + intros m Hm. specialize (R4 m Hm). lia.
    + intros Hin. apply in_app_or in Hin.
      destruct (Nat.eq_dec j i) as [->|Hne].
      * rewrite <- (Hki eq_refl). now apply B3.
      * destruct Hin as [Hin|[Hin|[]]]; [|congruence]. specialize (R5 Hin). lia.
Qed.
End SelfMatch.

(** The best block of the row scan of a text against itself lies on the
    diagonal. *)
Lemma scan_rows_self a :
  let n := List.length a in
  m_i (scan_rows a (chain_b a) O n O n) = m_j (scan_rows a (chain_b a) O n O n).
Proof.
  intros n. unfold scan_rows. rewrite Nat.sub_0_r.
  pose (P := fun (i : nat) (st : dict nat nat * Match) =>
               m_i (snd st) = m_j (snd st) /\ prev_row_ok a i (fst st) /\
               (forall m, (m < i)%nat -> (diag a m <= m_k (snd st))%nat)).
  assert (H : P (O + n)%nat
                (fold_left
                   (fun (st : dict nat nat * Match) i =>
                      scan_row i O n (fst st) (b2j_get (chain_b a) (char_at a i)) [] (snd st))
                   (seq O n) ([], (O, O, O)))).
  { apply fold_seq_inv.
    - unfold P, prev_row_ok. cbn [fst snd m_i m_j]. repeat split; try (simpl; discriminate).
      intros m Hm. lia.
    - intros i [j2len best] Hi (H1 & H2 & H3). cbn [fst snd] in *. simpl in Hi.
      assert (Hin : (i < List.length a)%nat) by (unfold n in Hi; lia).
      destruct (b2j_get (chain_b a) (char_at a i)) as [|j0 js0] eqn:Ejs.
      + assert (Hd : diag a i = O) by (rewrite diag_eq; unfold nonpop; now rewrite Ejs).
        cbn [scan_row]. unfold P, prev_row_ok. cbn [fst snd].
        split; [exact H1|]. split; [split|].
        * intros j k Hg. simpl in Hg. discriminate.
        * simpl. now rewrite Hd.
        * intros m Hm. destruct (Nat.eq_dec m i) as [->|Hne]; [lia|]. apply H3. lia.
      + assert (Hnp : nonpop a (char_at a i) = true) by (unfold nonpop; now rewrite Ejs).
        assert (Hpos : j0 :: js0 = positions_from O (char_at a i) a).
        { destruct (chain_b_get a (char_at a i)) as [E|E]; rewrite Ejs in E;
            [discriminate|exact E]. }
        assert (Hst0 : row_state_ok a i [] ([], best)).
        { unfold row_state_ok. cbn [fst snd]. repeat split; auto;
            try (simpl; discriminate); try (intros []). }
        assert (Hsorted : StronglySorted lt (j0 :: js0))
          by (rewrite Hpos; apply positions_from_sorted).
        assert (Hall : forall j, In j (j0 :: js0) ->
                         (j < List.length a)%nat /\ char_at a j = char_at a i).
        { rewrite Hpos. intros j Hj. apply positions_from_spec in Hj.
          rewrite Nat.sub_0_r in Hj. split; [lia|tauto]. }
        assert (Hii : In i (j0 :: js0)).
        { rewrite Hpos. apply positions_from_spec. rewrite Nat.sub_0_r.
          split; [lia|reflexivity]. }
        pose proof (@scan_row_diag a i j2len (j0 :: js0) H2 Hsorted Hall Hii Hnp
                      (j0 :: js0) [] [] best eq_refl Hst0) as Hrow.
        unfold n. destruct (scan_row i O (List.length a) j2len (j0 :: js0) [] best)
          as [new best'].
        destruct Hrow as (R1 & R2 & R3 & R4 & R5). cbn [fst snd] in *.
        unfold P, prev_row_ok. cbn [fst snd].
        split; [exact R1|]. split; [split|].
        * intros j k Hg. destruct (R2 j k Hg) as (_ & Hk). simpl. exact Hk.
        * simpl. now rewrite (R3 Hii).
        * intros m Hm. destruct (Nat.eq_dec m i) as [->|Hne]; [now apply R5|]. apply R4. lia. }
  apply H.
Qed.

Lemma extend_front_self a P d :
  (forall c, P c = true) ->
  forall k, extend_front a a P O O d d k = (O, O, (k + d)%nat).
Proof.
  intros HP. induction d as [|d IH]; intros k; simpl.
  - now rewrite Nat.add_0_r.
  - rewrite HP. unfold ascii_eqb. rewrite Ascii.eqb_refl. simpl.
    rewrite IH. f_equal. lia.
Qed.

Lemma extend_back_self a P fuel :
  (forall c, P c = true) ->
  forall k, (k + fuel = List.length a)%nat ->
    extend_back a a P (List.length a) (List.length a) O O fuel k = List.length a.
Proof.
  intros HP. induction fuel as [|fuel IH]; intros k Hk; simpl.
  - lia.
  - rewrite HP. unfold ascii_eqb. rewrite Ascii.eqb_refl.
    replace (k <? List.length a)%nat with true by (symmetry; apply Nat.ltb_lt; lia).
    simpl. apply IH. lia.
Qed.

Lemma extend_back_never a b ahi bhi bi bj fuel k :
  extend_back a b isbjunk ahi bhi bi bj fuel k = k.
Proof.
  destruct fuel; simpl; auto. now rewrite andb_false_r.
Qed.

Lemma extend_front_never a b alo blo bi bj k :
  extend_front a b isbjunk alo blo bi bj k = (bi, bj, k).
Proof.
  destruct bi, bj; simpl; auto. now rewrite andb_false_r.
Qed.

Lemma find_longest_match_self a :
  find_longest_match a a (chain_b a) O (List.length a) O (List.length a) =
  (O, O, List.length a).
Proof.
  unfold find_longest_match.
  pose proof (scan_rows_self a) as Hd. cbn zeta in Hd.
  pose proof (@scan_rows_bounds a (chain_b a) O (List.length a) O (List.length a)
                (Nat.le_0_l _) (Nat.le_0_l _)) as Hb.
  destruct (scan_rows a (chain_b a) O (List.length a) O (List.length a)) as [[d d'] k].
  cbn [m_i m_j fst snd] in Hd. subst d'. unfold inside in Hb.
  unfold extend at 2.
  rewrite (@extend_front_self a (fun c => negb (isbjunk c)) d (fun _ => eq_refl)).
  rewrite (@extend_back_self a (fun c => negb (isbjunk c)) _ (fun _ => eq_refl)) by lia.
  unfold extend. rewrite extend_front_never. now rewrite extend_back_never.
Qed.

Lemma ratio_self a : a <> [] -> ratio a a == 1.
Proof.
  intros Hne.
  assert (Hn : (0 < List.length a)%nat) by (destruct a; [congruence|simpl; lia]).
  assert (Hr : blocks_loop a a (chain_b a) (2 * List.length a + 1)
                 [(O, List.length a, O, List.length a)] [] = Some [(O, O, List.length a)]).
  { replace (2 * List.length a + 1)%nat with (S (2 * List.length a)) by lia.
    cbn [blocks_loop]. rewrite find_longest_match_self.
    destruct (List.length a) as [|n'] eqn:E; [lia|].
    cbn [Nat.ltb Nat.leb andb app]. rewrite Nat.add_0_l.
    replace (S n' <=? n')%nat with false by (symmetry; apply Nat.leb_gt; lia).
    cbn [andb app]. apply blocks_loop_done. }
  rewrite (ratio_eq a a Hr). unfold _calculate_ratio, size_sum. simpl list_sum.
  rewrite Nat.add_0_r.
  destruct (List.length a + List.length a)%nat eqn:E; [lia|]. rewrite <- E.
  assert (Ht : ~ inject_Z (Z.of_nat (List.length a + List.length a)) == 0).
  { intros H. unfold Qeq in H. simpl in H. lia. }
  assert (E2 : 2 * inject_Z (Z.of_nat (List.length a)) ==
               inject_Z (Z.of_nat (List.length a + List.length a))).
  { rewrite Nat2Z.inj_add, inject_Z_plus. ring. }
  rewrite E2. now apply Qdiv_mult_l || (unfold Qdiv; now apply Qmult_inv_r).
Qed.

(** ** C3 *)

Lemma ratio_same a : ratio a a == 1.
Proof.
  destruct a as [|c a']; [reflexivity|]. apply ratio_self. discriminate.
Qed.

Lemma fuzzy_nonempty t p :
  t <> [] -> p <> [] ->
  calculate_fuzzy_similarity t p = ratio (normalize_text t) (normalize_text p).
Proof.
  intros Ht Hp. unfold calculate_fuzzy_similarity.
  destruct t; [congruence|]. destruct p; [congruence|]. reflexivity.
Qed.

(** C3, as amended.  The score lies in [0,1] for every pair of inputs.
    It is 0 whenever one of the two inputs is the empty string, before
    any normalization.  For two inputs that are not empty it is the
    ratio of the sequence matcher on the two normalized strings, hence a
    function of them: 1 when they are identical, 0 when they share no
    character and are not both empty. *)
Theorem C3_similarity_score :
  forall (template_phrase pdf_text : str),
    (0 <= calculate_fuzzy_similarity template_phrase pdf_text /\
     calculate_fuzzy_similarity template_phrase pdf_text <= 1) /\
    (template_phrase = [] \/ pdf_text = [] ->
     calculate_fuzzy_similarity template_phrase pdf_text = 0) /\
    (template_phrase <> [] -> pdf_text <> [] ->
     calculate_fuzzy_similarity template_phrase pdf_text =
     ratio (normalize_text template_phrase) (normalize_text pdf_text)) /\
    (template_phrase <> [] -> pdf_text <> [] ->
     normalize_text template_phrase = normalize_text pdf_text ->
     calculate_fuzzy_similarity template_phrase pdf_text == 1) /\
    (template_phrase <> [] -> pdf_text <> [] ->
     disjoint (normalize_text template_phrase) (normalize_text pdf_text) ->
     normalize_text template_phrase <> [] \/ normalize_text pdf_text <> [] ->
     calculate_fuzzy_similarity template_phrase pdf_text == 0).
Proof.
  intros t p. split; [|split; [|split; [|split]]].
  - unfold calculate_fuzzy_similarity.
    destruct t as [|c t']; [split; [apply Qle_refl|discriminate]|].
    destruct p as [|d p']; [split; [apply Qle_refl|discriminate]|].
    apply ratio_range.
  - intros [-> | ->]; [reflexivity|]. destruct t; reflexivity.
  - apply fuzzy_nonempty.
  - intros Ht Hp E. rewrite (fuzzy_nonempty Ht Hp), E. apply ratio_same.
  - intros Ht Hp Hd Hne. rewrite (fuzzy_nonempty Ht Hp). now apply ratio_disjoint.
Qed.

(** The hypotheses of C3 at two texts with the same normal form, and at
    two texts whose normal forms share no character. *)
Lemma C3_similarity_score_witness :
  calculate_fuzzy_similarity (txt "Bill of Lading") (txt "BILL  OF LADING!") == 1 /\
  calculate_fuzzy_similarity (txt "abc") (txt "xyz") == 0 /\
  calculate_fuzzy_similarity (txt "") (txt "xyz") = 0.
Proof.
  split; [|split].
  - apply (proj1 (proj2 (proj2 (proj2
      (C3_similarity_score (txt "Bill of Lading") (txt "BILL  OF LADING!")))))).
    + discriminate.
    + discriminate.
    + reflexivity.
  - apply (proj2 (proj2 (proj2 (proj2 (C3_similarity_score (txt "abc") (txt "xyz")))))).
    + discriminate.
    + discriminate.
    + intros c Hc Hc'. vm_compute in Hc, Hc'.
      repeat (destruct Hc as [Hc|Hc];
              [subst c; repeat (destruct Hc' as [Hc'|Hc']; [discriminate Hc'|]); exact Hc'|]).
      exact Hc.
    + left. discriminate.
  - apply (proj1 (proj2 (C3_similarity_score (txt "") (txt "xyz")))). left. reflexivity.
Defined.

(** The claim C3 as stated fails twice.  Two empty inputs normalize to
    identical strings and score 0, not 1.  The inputs ["!"] and ["?"]
    share no character and score 1, not 0: both normalize to the empty
    string. *)
Lemma C3_empty_inputs_score_zero :
  normalize_text (txt "") = normalize_text (txt "") /\
  calculate_fuzzy_similarity (txt "") (txt "") = 0 /\
  disjoint (txt "!") (txt "?") /\
  calculate_fuzzy_similarity (txt "!") (txt "?") == 1 /\
  ~ (forall t p, normalize_text t = normalize_text p ->
                 calculate_fuzzy_similarity t p == 1) /\
  ~ (forall t p, disjoint t p -> calculate_fuzzy_similarity t p == 0).
Proof.
  assert (Hd : disjoint (txt "!") (txt "?")).
  { intros c [<-|[]] [H|[]]. discriminate H. }
  split; [reflexivity|]. split; [reflexivity|]. split; [exact Hd|].
  split; [reflexivity|]. split.
  - intros H. specialize (H (txt "") (txt "") eq_refl). discriminate H.
  - intros H. specialize (H (txt "!") (txt "?") Hd). discriminate H.
Qed.

(** * Further properties of the extraction engine and of the template
    authoring tool *)

From Stdlib Require Import Lqa.

(** ** Zone assignment keeps every token *)

(** The element as it is filed: with the label of its zone when it has
    one. *)
Definition filed (boxes : list Box) (e : TextElement) : TextElement :=
  match assign_element e boxes with
  | Some l => set_box_assignment e l
  | None => e
  end.

(** All the elements held by the buckets of an assignment. *)
Definition all_buckets (d : assignments) : list TextElement :=
  List.concat (map snd d).

Lemma all_buckets_append (d : assignments) k l e :
  dict_get str_eqb d k = Some l ->
  Permutation (all_buckets (dict_set str_eqb d k (l ++ [e]))) (e :: all_buckets d).
Proof.
  unfold all_buckets. induction d as [|[k' v'] d IH]; simpl; [discriminate|].
  destruct (str_eqb k k') eqn:E.
  - intros H. inversion H; subst. simpl. rewrite <- app_assoc. simpl.
    apply Permutation_sym, Permutation_middle.
  - intros H. simpl. specialize (IH H).
    etransitivity; [apply Permutation_app_head; exact IH|].
    apply Permutation_sym, Permutation_middle.
Qed.

Lemma all_buckets_new (d : assignments) k u :
  dict_get str_eqb d k = None ->
  all_buckets (dict_set str_eqb d k u) = all_buckets d ++ u.
Proof.
  unfold all_buckets. induction d as [|[k' v'] d IH]; simpl.
  - intros _. now rewrite app_nil_r.
  - destruct (str_eqb k k'); [discriminate|]. intros H. simpl.
    now rewrite IH, app_assoc.
Qed.

Lemma assign_element_label e boxes l :
  assign_element e boxes = Some l -> In l (map box_label boxes).
Proof.
  induction boxes as [|b boxes IH]; simpl; [discriminate|].
  destruct (coordinates b) as [[|a [|b0 [|c [|d [|? ?]]]]]|]; auto.
  destruct (center_in_rect e a b0 c d); auto.
  intros H. inversion H. now left.
Qed.

Lemma dict_set_get_some (d : assignments) k v k' :
  (exists l, dict_get str_eqb d k' = Some l) ->
  exists l, dict_get str_eqb (dict_set str_eqb d k v) k' = Some l.
Proof.
  induction d as [|[k0 v0] d IH]; simpl.
  - intros [l H]. discriminate.
  - destruct (str_eqb k k0) eqn:E; simpl.
    + destruct (str_eqb k' k0); eauto.
    + destruct (str_eqb k' k0); eauto.
Qed.

Lemma assign_fold_buckets boxes elements :
  forall (d : assignments) u,
    (forall L, In L (map box_label boxes) -> exists l, dict_get str_eqb d L = Some l) ->
    dict_get str_eqb d UNBOXED = None ->
    let st := fold_left (assign_step boxes) elements (d, u) in
    Permutation (all_buckets (fst st) ++ snd st)
                (all_buckets d ++ u ++ map (filed boxes) elements) /\
    dict_get str_eqb (fst st) UNBOXED = None.
Proof.
  induction elements as [|e es IH]; intros d u Hd Hun; simpl.
  - rewrite app_nil_r. split; [apply Permutation_refl|exact Hun].
  - rewrite assign_step_eq.
    destruct (assign_element e boxes) as [l|] eqn:E.
    + assert (Hf : filed boxes e = set_box_assignment e l)
        by (unfold filed; now rewrite E).
      pose proof (assign_element_label _ _ E) as Hl.
      destruct (Hd _ Hl) as [b Hb]. unfold bucket_append. rewrite Hb.
      assert (Hne : l <> UNBOXED) by (intros ->; congruence).
      destruct (IH (dict_set str_eqb d l (b ++ [set_box_assignment e l])) u) as [P1 P2].
      * intros L HL. apply dict_set_get_some. auto.
      * apply dict_set_get_none; auto.
      * split; [|exact P2]. etransitivity; [exact P1|]. rewrite Hf.
        etransitivity;
          [apply Permutation_app_tail; apply all_buckets_append; exact Hb|].
        simpl. rewrite !app_assoc. apply Permutation_middle.
    + assert (Hf : filed boxes e = e) by (unfold filed; now rewrite E).
      destruct (IH d (u ++ [e])) as [P1 P2]; auto.
      split; [|exact P2]. etransitivity; [exact P1|]. rewrite Hf.
      rewrite <- app_assoc. reflexivity.
Qed.

Lemma init_assignments_empty boxes0 :
  forall d : assignments,
    all_buckets d = [] ->
    all_buckets (fold_left (fun d box => dict_set str_eqb d (box_label box) []) boxes0 d) = [].
Proof.
  induction boxes0 as [|b bs IH]; simpl; intros d Hd; [exact Hd|].
  apply IH. clear IH. revert Hd. unfold all_buckets.
  induction d as [|[k v] d IHd]; simpl; [reflexivity|].
  intros H. apply app_eq_nil in H. destruct H as [-> H].
  destruct (str_eqb (box_label b) k); simpl; auto.
Qed.

(** X2.  Zone assignment neither loses nor duplicates a token: when no
    zone bears the reserved label [_UNBOXED_], the buckets of the
    result hold, between them, each token of the page exactly once
    (with the label of its zone recorded on it when it has one). *)
Theorem assignment_keeps_every_token :
  forall (text_elements : list TextElement) (boxes : list Box),
    ~ In UNBOXED (map box_label boxes) ->
    Permutation (all_buckets (_assign_text_to_boxes text_elements boxes))
                (map (filed boxes) text_elements).
Proof.
  intros elements boxes Hun. unfold _assign_text_to_boxes.
  destruct (@assign_fold_buckets boxes elements (init_assignments boxes) []) as [P1 P2].
  - intros L HL. exists []. now apply init_assignments_some.
  - apply init_assignments_other; auto.
  - assert (H0 : all_buckets (init_assignments boxes) = [])
      by (apply init_assignments_empty; reflexivity).
    rewrite H0 in P1. simpl in P1.
    destruct (fold_left (assign_step boxes) elements (init_assignments boxes, []))
      as [d u] eqn:E.
    simpl in P1, P2. destruct u as [|e0 u].
    + now rewrite app_nil_r in P1.
    + now rewrite all_buckets_new.
Qed.

Definition sample_zone : Box :=
  mkBox (Some (txt "Shipper")) (Some [0; 0; 100; 50]) (Some 1%Z) (Some general) None.

Definition sample_words : list Word :=
  [ (10, 10, 30, 20, txt "ACME"); (200, 10, 230, 20, txt "PAGE") ].

(** The hypothesis of X2 at a page of one zone and two tokens, one
    inside the zone and one outside. *)
Lemma assignment_keeps_every_token_witness :
  Permutation
    (all_buckets (_assign_text_to_boxes (_extract_all_text_elements sample_words) [sample_zone]))
    (map (filed [sample_zone]) (_extract_all_text_elements sample_words)).
Proof.
  apply (@assignment_keeps_every_token (_extract_all_text_elements sample_words) [sample_zone]).
  simpl. intros [H|[]]. discriminate H.
Defined.

(** ** Paragraph boxes and general boxes *)




Definition sample_paragraph : list Word :=
  [ (10, 10, 30, 20, txt "SHIP"); (40, 11, 60, 21, txt "TO");
    (10, 60, 30, 70, txt "ACME") ].


(** ** Reading order of a page *)

(** The anchor of [a] comes before the anchor of [b]: higher on the
    page, or at the same height and not further right. *)
Definition reads_before (a b : Block) : Prop :=
  y_pos a < y_pos b \/ (y_pos a == y_pos b /\ x_pos a <= x_pos b).

Lemma lex_le_spec a b :
  lex_le a b = true <-> fst a < fst b \/ (fst a == fst b /\ snd a <= snd b).
Proof.
  unfold lex_le. rewrite orb_true_iff, andb_true_iff, Qltb_true.
  unfold Qeqb. rewrite Qeq_bool_iff, Qle_bool_iff. tauto.
Qed.

Lemma lex_le_total a b : lex_le a b = true \/ lex_le b a = true.
Proof.
  rewrite !lex_le_spec.
  destruct (Q_dec (fst a) (fst b)) as [[H|H]|H]; auto.
  destruct (Qlt_le_dec (snd b) (snd a)) as [H1|H1].
  - right. right. split; [now symmetry|]. now apply Qlt_le_weak.
  - left. right. tauto.
Qed.

Lemma reads_before_trans a b c : reads_before a b -> reads_before b c -> reads_before a c.
Proof.
  unfold reads_before. intros [H1|[H1 H1']] [H2|[H2 H2']].
  - left. lra.
  - left. lra.
  - left. lra.
  - right. split; lra.
Qed.

Lemma sorted_reads_before (l : list Block) :
  Sorted (fun a b => lex_le (y_pos a, x_pos a) (y_pos b, x_pos b) = true) l ->
  StronglySorted reads_before l.
Proof.
  intros H. apply Sorted_StronglySorted.
  - intros a b c. apply reads_before_trans.
  - induction H as [|x r Hs IH Hhd]; constructor; auto.
    destruct Hhd as [|y r Hy]; constructor.
    apply lex_le_spec in Hy. exact Hy.
Qed.

(** X4.  The content blocks of a page come out in reading order: every
    block is anchored before all the blocks that follow it, from top to
    bottom and, at equal height, from left to right.  They are the
    blocks of the zones and the blocks of the unassigned text, none
    lost and none added. *)
Theorem page_blocks_in_reading_order :
  forall (template_data : Template) (boxes : list Box) (words : list Word),
    let box_assignments :=
      _assign_text_to_boxes (_extract_all_text_elements words) boxes in
    StronglySorted reads_before (page_content_blocks template_data boxes words) /\
    Permutation (page_content_blocks template_data boxes words)
                (box_blocks box_assignments boxes ++
                 unboxed_blocks template_data box_assignments).
Proof.
  intros td boxes words ba. unfold page_content_blocks. fold ba. split.
  - apply sorted_reads_before. apply sort_by_sorted.
    intros a b. apply lex_le_total.
  - apply sort_by_perm.
Qed.

(** ** Matching ignores the case of the letters *)

Lemma upper_char_idem c : upper_char (upper_char c) = upper_char c.
Proof. destruct c as [[] [] [] [] [] [] [] []]; reflexivity. Qed.

Lemma upper_idem s : upper (upper s) = upper s.
Proof.
  unfold upper. rewrite map_map. apply map_ext. intros c. apply upper_char_idem.
Qed.

Lemma normalize_text_upper s : normalize_text (upper s) = normalize_text s.
Proof. now rewrite !normalize_text_refines, upper_idem. Qed.

(** X5.  The similarity score does not depend on the case of the
    letters of either text; in particular the confidence of a template
    is the same on the uppercased text of the document, which is what
    template selection passes, as on the text itself. *)
Theorem similarity_ignores_case :
  forall (template_phrase pdf_text : str) (template_data : Template),
    calculate_fuzzy_similarity (upper template_phrase) pdf_text =
    calculate_fuzzy_similarity template_phrase pdf_text /\
    calculate_fuzzy_similarity template_phrase (upper pdf_text) =
    calculate_fuzzy_similarity template_phrase pdf_text /\
    _calculate_template_confidence (upper pdf_text) template_data =
    _calculate_template_confidence pdf_text template_data.
Proof.
  assert (H2 : forall t p, calculate_fuzzy_similarity t (upper p) =
                           calculate_fuzzy_similarity t p).
  { intros t p. unfold calculate_fuzzy_similarity.
    destruct t as [|c t]; [reflexivity|]. destruct p as [|d p]; [reflexivity|].
    change (upper (d :: p)) with (upper_char d :: upper p).
    change (upper_char d :: upper p) with (upper (d :: p)).
    cbv zeta. rewrite normalize_text_upper.
    destruct (upper (d :: p)) eqn:E; [discriminate E|]. reflexivity. }
  intros t p td. split; [|split].
  - unfold calculate_fuzzy_similarity.
    destruct t as [|c t]; [reflexivity|]. destruct p as [|d p]; [reflexivity|].
    cbv zeta. rewrite normalize_text_upper.
    destruct (upper (c :: t)) eqn:E; [discriminate E|]. reflexivity.
  - apply H2.
  - unfold _calculate_template_confidence.
    destruct (template_raw_text td) as [[|c f]|]; try reflexivity. apply H2.
Qed.

(** ** Template selection *)

Lemma best_fold combined (l : list (str * Template)) :
  forall (bm : option TemplateMatch) (bc : Q),
    (fold_left (best_step combined) l (bm, bc) = (bm, bc) /\
     Forall (fun item => _calculate_template_confidence combined (snd item) <= bc) l) \/
    (exists pre name data post,
       l = pre ++ (name, data) :: post /\
       fold_left (best_step combined) l (bm, bc) =
       (Some (mkTemplateMatch name (_calculate_template_confidence combined data) data),
        _calculate_template_confidence combined data) /\
       bc < _calculate_template_confidence combined data /\
       Forall (fun item => _calculate_template_confidence combined (snd item) <
                           _calculate_template_confidence combined data) pre /\
       Forall (fun item => _calculate_template_confidence combined (snd item) <=
                           _calculate_template_confidence combined data) post).
Proof.
  induction l as [|[n d] l IH]; intros bm bc; simpl.
  - left. split; [reflexivity|constructor].
  - destruct (Qltb bc (_calculate_template_confidence combined d)) eqn:E.
    + apply Qltb_true in E. right.
      destruct (IH (Some (mkTemplateMatch n (_calculate_template_confidence combined d) d))
                   (_calculate_template_confidence combined d))
        as [[Hr Hall]|(pre & name & data & post & Hl & Hr & Hlt & Hpre & Hpost)].
      * exists [], n, d, l. simpl. repeat split; auto.
      * exists ((n, d) :: pre), name, data, post. subst l. simpl.
        split; [reflexivity|]. split; [exact Hr|].
        split; [lra|]. split; [|exact Hpost].
        constructor; [exact Hlt|exact Hpre].
    + apply Qltb_false in E.
      destruct (IH bm bc)
        as [[Hr Hall]|(pre & name & data & post & Hl & Hr & Hlt & Hpre & Hpost)].
      * left. split; [exact Hr|]. constructor; auto.
      * right. exists ((n, d) :: pre), name, data, post. subst l. simpl.
        split; [reflexivity|]. split; [exact Hr|]. split; [exact Hlt|].
        split; [|exact Hpost]. constructor; [simpl; lra|exact Hpre].
Qed.

Lemma mapM_get_text doc texts :
  Forall2 (fun page t => get_text page = Return t) doc texts ->
  forall tr, mapM (fun page => lift (get_text page)) doc tr = (Return texts, tr).
Proof.
  induction 1 as [|page t doc texts Hp _ IH]; intros tr; simpl; [reflexivity|].
  unfold bind, lift at 1. rewrite Hp, IH. reflexivity.
Qed.

(** X6.  Template selection, on a document whose pages can all be read,
    opens and closes the document once and returns the template of
    highest confidence against the uppercased text of the pages joined
    by spaces; among templates of equal confidence the first of the
    collection wins.  The confidence of the template returned is
    positive; no template is returned exactly when none has a positive
    confidence. *)
Theorem best_template_is_first_maximum :
  forall (fitz : str -> result Document) (templates : dict str Template)
         (pdf_path : str) (doc : Document) (texts : list str) (tr : list event),
    fitz pdf_path = Return doc ->
    Forall2 (fun page t => get_text page = Return t) doc texts ->
    let conf := _calculate_template_confidence (upper (join [SP] texts)) in
    exists best,
      find_best_template fitz templates pdf_path tr =
      (Return best, tr ++ [Opened pdf_path; Closed pdf_path]) /\
      match best with
      | None => Forall (fun item => conf (snd item) <= 0) templates
      | Some m =>
          exists pre post,
            templates = pre ++ (tm_template_name m, tm_template_data m) :: post /\
            confidence m = conf (tm_template_data m) /\
            0 < confidence m /\
            Forall (fun item => conf (snd item) < confidence m) pre /\
            Forall (fun item => conf (snd item) <= confidence m) post
      end.
Proof.
  intros fitz templates pdf_path doc texts tr Hopen Hread conf.
  exists (fst (fold_left (best_step (upper (join [SP] texts))) templates (None, 0))).
  split.
  - unfold find_best_template, fitz_open, doc_close, bind, emit, lift, ret.
    rewrite Hopen, (mapM_get_text Hread). rewrite <- app_assoc. reflexivity.
  - destruct (best_fold (upper (join [SP] texts)) templates None 0)
      as [[Hr Hall]|(pre & name & data & post & Hl & Hr & Hlt & Hpre & Hpost)].
    + rewrite Hr. exact Hall.
    + rewrite Hr. simpl. exists pre, post. auto.
Qed.

Definition sample_template : Template :=
  mkTemplate (Some (txt "acme")) (Some (txt "Bill of Lading")) None None
    (Some [sample_zone]).

Definition sample_document : Document :=
  [ mkPage (Return (txt "bill of lading")) (Return sample_words) ].

(** The hypotheses of X6 at a document of one page and a collection of
    one template. *)
Lemma best_template_is_first_maximum_witness :
  exists best,
    find_best_template (fun _ => Return sample_document)
      [(txt "acme", sample_template)] (txt "a.pdf") [] =
    (Return best, [Opened (txt "a.pdf"); Closed (txt "a.pdf")]) /\
    best <> None.
Proof.
  destruct (@best_template_is_first_maximum (fun _ => Return sample_document)
              [(txt "acme", sample_template)] (txt "a.pdf") sample_document
              [txt "bill of lading"] [] eq_refl)
    as (best & Hfind & Hbest).
  - repeat constructor.
  - exists best. split; [exact Hfind|].
    intros ->. inversion Hbest as [|x l Hx Hl]; subst.
    vm_compute in Hx. apply Hx. reflexivity.
Defined.

(** ** A document is closed only when all its pages were read *)

Lemma mapM_get_text_fails doc :
  Exists (fun page => exists e, get_text page = Raise e) doc ->
  forall tr, exists e, mapM (fun page => lift (get_text page)) doc tr = (Raise e, tr).
Proof.
  induction doc as [|page doc IH]; intros H tr; [inversion H|]. simpl.
  unfold bind, lift at 1. destruct (get_text page) as [t|e] eqn:E.
  - inversion H as [? ? [e He]|? ? Hrest]; subst; [congruence|].
    destruct (IH Hrest tr) as [e He]. exists e. now rewrite He.
  - exists e. reflexivity.
Qed.

Lemma extract_pages_reads td ttp doc :
  Forall (fun page => exists ws, get_text_words page = Return ws) doc ->
  forall n tr, exists parts, extract_pages td ttp n doc tr = (Return parts, tr).
Proof.
  induction doc as [|page doc IH]; intros H n tr; simpl.
  - exists []. reflexivity.
  - inversion H as [|? ? [ws Hws] Hrest]; subst.
    destruct (IH Hrest (S n) tr) as [more Hmore].
    unfold bind at 1. unfold extract_page, bind at 1, lift, ret. rewrite Hws.
    unfold bind. rewrite Hmore. eexists. reflexivity.
Qed.

Lemma extract_pages_fails td ttp doc :
  Exists (fun page => exists e, get_text_words page = Raise e) doc ->
  forall n tr, exists e, extract_pages td ttp n doc tr = (Raise e, tr).
Proof.
  induction doc as [|page doc IH]; intros H n tr; [inversion H|]. simpl.
  unfold bind at 1. unfold extract_page, bind at 1, lift, ret.
  destruct (get_text_words page) as [ws|e] eqn:E.
  - inversion H as [? ? [e He]|? ? Hrest]; subst; [congruence|].
    destruct (IH Hrest (S n) tr) as [e He]. exists e. unfold bind. now rewrite He.
  - exists e. reflexivity.
Qed.

(** X7.  The handle of a document is closed only when every page could
    be read.  When the text of a page cannot be read, template
    selection raises and leaves the document open; when the words of a
    page cannot be read, extraction returns a string that reports the
    fault and leaves the document open; when all the words can be
    read, extraction opens and closes the document once. *)
Theorem document_closed_only_on_success :
  forall (fitz : str -> result Document) (templates : dict str Template)
         (pdf_path : str) (doc : Document) (template_data : Template) (tr : list event),
    fitz pdf_path = Return doc ->
    (Exists (fun page => exists e, get_text page = Raise e) doc ->
     exists e, find_best_template fitz templates pdf_path tr =
               (Raise e, tr ++ [Opened pdf_path])) /\
    (Exists (fun page => exists e, get_text_words page = Raise e) doc ->
     exists e, _extract_with_template fitz pdf_path template_data tr =
               (Return (txt "ERROR: Template extraction failed: " ++ e),
                tr ++ [Opened pdf_path])) /\
    (Forall (fun page => exists ws, get_text_words page = Return ws) doc ->
     exists s, _extract_with_template fitz pdf_path template_data tr =
               (Return s, tr ++ [Opened pdf_path; Closed pdf_path])).
Proof.
  intros fitz templates pdf_path doc td tr Hopen. split; [|split].
  - intros H. destruct (mapM_get_text_fails H (tr ++ [Opened pdf_path])) as [e He].
    exists e. unfold lift in He.
    unfold find_best_template, fitz_open, bind, emit, lift.
    now rewrite Hopen, He.
  - intros H.
    destruct (extract_pages_fails td (snd (unified_pages td)) H 1 (tr ++ [Opened pdf_path]))
      as [e He].
    exists e. unfold _extract_with_template, try_except, extract_document,
      fitz_open, bind, emit, lift, ret.
    now rewrite Hopen, He.
  - intros H.
    destruct (extract_pages_reads td (snd (unified_pages td)) H 1 (tr ++ [Opened pdf_path]))
      as [parts Hparts].
    eexists. unfold _extract_with_template, try_except, extract_document,
      fitz_open, doc_close, bind, emit, lift, ret.
    rewrite Hopen, Hparts. rewrite <- app_assoc. reflexivity.
Qed.

Definition unreadable_document : Document :=
  [ mkPage (Raise (txt "damaged page")) (Raise (txt "damaged page")) ].

(** The hypotheses of X7 at a document whose only page cannot be read,
    and at one whose page can. *)
Lemma document_closed_only_on_success_witness :
  (exists e, find_best_template (fun _ => Return unreadable_document)
               [(txt "acme", sample_template)] (txt "a.pdf") [] =
             (Raise e, [Opened (txt "a.pdf")])) /\
  (exists e, _extract_with_template (fun _ => Return unreadable_document)
               (txt "a.pdf") sample_template [] =
             (Return (txt "ERROR: Template extraction failed: " ++ e),
              [Opened (txt "a.pdf")])) /\
  (exists s, _extract_with_template (fun _ => Return sample_document)
               (txt "a.pdf") sample_template [] =
             (Return s, [Opened (txt "a.pdf"); Closed (txt "a.pdf")])).
Proof.
  split; [|split].
  - apply (proj1 (@document_closed_only_on_success (fun _ => Return unreadable_document)
             [(txt "acme", sample_template)] (txt "a.pdf") unreadable_document
             sample_template [] eq_refl)).
    constructor. exists (txt "damaged page"). reflexivity.
  - apply (proj1 (proj2 (@document_closed_only_on_success
             (fun _ => Return unreadable_document)
             [(txt "acme", sample_template)] (txt "a.pdf") unreadable_document
             sample_template [] eq_refl))).
    constructor. exists (txt "damaged page"). reflexivity.
  - apply (proj2 (proj2 (@document_closed_only_on_success
             (fun _ => Return sample_document)
             [(txt "acme", sample_template)] (txt "a.pdf") sample_document
             sample_template [] eq_refl))).
    constructor; [|constructor]. exists sample_words. reflexivity.
Defined.

(** ** The blocks of the unassigned text *)

Lemma min_fold_le (f : TextElement -> Q) (l : list TextElement) :
  forall m,
    fold_left (fun m e' => if Qltb (f e') m then f e' else m) l m <= m /\
    forall x, In x l ->
      fold_left (fun m e' => if Qltb (f e') m then f e' else m) l m <= f x.
Proof.
  induction l as [|e l IH]; intros m; simpl.
  - split; [lra|tauto].
  - destruct (Qltb (f e) m) eqn:E.
    + apply Qltb_true in E. destruct (IH (f e)) as [H1 H2]. split; [lra|].
      intros x [<-|Hx]; auto.
    + apply Qltb_false in E. destruct (IH m) as [H1 H2]. split; [exact H1|].
      intros x [<-|Hx]; auto. lra.
Qed.

Lemma min_fold_in (f : TextElement -> Q) (l : list TextElement) :
  forall m,
    fold_left (fun m e' => if Qltb (f e') m then f e' else m) l m = m \/
    exists x, In x l /\
      fold_left (fun m e' => if Qltb (f e') m then f e' else m) l m = f x.
Proof.
  induction l as [|e l IH]; intros m; simpl; [now left|].
  destruct (Qltb (f e) m).
  - right. destruct (IH (f e)) as [H|(x & Hx & H)].
    + exists e. auto.
    + exists x. auto.
  - destruct (IH m) as [H|(x & Hx & H)]; [now left|].
    right. exists x. auto.
Qed.

Lemma min_of_le (f : TextElement -> Q) l x : In x l -> min_of f l <= f x.
Proof.
  destruct l as [|e l]; [intros []|]. simpl.
  destruct (min_fold_le f l (f e)) as [H1 H2].
  intros [<-|Hx]; auto.
Qed.

Lemma min_of_in (f : TextElement -> Q) l :
  l <> [] -> exists x, In x l /\ min_of f l = f x.
Proof.
  destruct l as [|e l]; [congruence|]. intros _. simpl.
  destruct (min_fold_in f l (f e)) as [H|(x & Hx & H)].
  - exists e. auto.
  - exists x. auto.
Qed.

Lemma StronglySorted_app (A : Type) (R : A -> A -> Prop) (l1 l2 : list A) :
  StronglySorted R l1 -> StronglySorted R l2 ->
  (forall a b, In a l1 -> In b l2 -> R a b) ->
  StronglySorted R (l1 ++ l2).
Proof.
  induction l1 as [|x l1 IH]; simpl; intros H1 H2 H; [exact H2|].
  inversion H1 as [|? ? Hs Hf]; subst. constructor.
  - apply IH; auto.
  - apply Forall_app. split; [exact Hf|].
    apply Forall_forall. intros b Hb. apply H; auto.
Qed.

Lemma StronglySorted_app_l (A : Type) (R : A -> A -> Prop) (l1 l2 : list A) :
  StronglySorted R (l1 ++ l2) ->
  StronglySorted R l2 /\ forall a b, In a l1 -> In b l2 -> R a b.
Proof.
  induction l1 as [|x l1 IH]; simpl; intros H.
  - split; [exact H|intros a b []].
  - inversion H as [|? ? Hs Hf]; subst. destruct (IH Hs) as [H2 H12].
    split; [exact H2|]. intros a b [<-|Ha] Hb; auto.
    rewrite Forall_forall in Hf. apply Hf. apply in_or_app. now right.
Qed.

(** The state of the grouping loop, before the elements [l] that are
    left: the blocks closed so far are top to bottom and not blank, and
    none is anchored below an element still to come. *)
Definition blocks_inv (st : list Block * list TextElement) (l : list TextElement) : Prop :=
  StronglySorted (fun a b => y_pos a <= y_pos b) (fst st) /\
  Forall (fun b => forall e, In e (snd st ++ l) -> y_pos b <= y0 e) (fst st) /\
  StronglySorted (fun a b => y0 a <= y0 b) (snd st ++ l) /\
  Forall (fun b => strip (content b) <> []) (fst st).

Lemma close_block_cases cur :
  close_block cur = [] \/
  (cur <> [] /\
   exists b, close_block cur = [b] /\ y_pos b = min_of y0 cur /\
             x_pos b = min_of x0 cur /\ strip (content b) <> []).
Proof.
  unfold close_block. destruct cur as [|e cur]; [now left|].
  destruct (truthy (strip (_process_unboxed_block (e :: cur)))) eqn:E; [|now left].
  right. split; [discriminate|]. eexists. split; [reflexivity|].
  cbn [y_pos x_pos content]. split; [reflexivity|]. split; [reflexivity|].
  intros H. rewrite H in E. discriminate E.
Qed.

Lemma blocks_inv_close blocks cur l :
  blocks_inv (blocks, cur) l ->
  blocks_inv (blocks ++ close_block cur, []) l.
Proof.
  intros (H1 & H2 & H3 & H4). simpl in *.
  apply StronglySorted_app_l in H3 as H3'. destruct H3' as [Hl Hcl].
  destruct (close_block_cases cur) as [->|(Hne & b & -> & Hy & _ & Hnb)].
  - rewrite app_nil_r. repeat split; auto.
    eapply Forall_impl; [|exact H2]. intros b Hb e He. apply Hb.
    apply in_or_app. now right.
  - destruct (min_of_in y0 Hne) as (x & Hx & Hmin).
    repeat split.
    + apply StronglySorted_app; auto.
      * repeat constructor.
      * intros a b' Ha [<-|[]]. rewrite Hy, Hmin.
        rewrite Forall_forall in H2. apply (H2 a Ha). apply in_or_app. now left.
    + apply Forall_app. split.
      * eapply Forall_impl; [|exact H2]. intros b' Hb e He. apply Hb.
        apply in_or_app. now right.
      * constructor; [|constructor]. intros e He. rewrite Hy, Hmin. now apply Hcl.
    + exact Hl.
    + apply Forall_app. split; auto.
Qed.

Lemma blocks_inv_step st e l :
  blocks_inv st (e :: l) -> blocks_inv (unboxed_step st e) l.
Proof.
  destruct st as [blocks cur]. intros H. unfold unboxed_step.
  assert (Hkeep : blocks_inv (blocks, cur ++ [e]) l).
  { destruct H as (H1 & H2 & H3 & H4). unfold blocks_inv. simpl in *.
    assert (Heq : (cur ++ [e]) ++ l = cur ++ e :: l) by (now rewrite <- app_assoc).
    rewrite Heq. tauto. }
  destruct (rev cur) as [|last r]; [exact Hkeep|].
  destruct (Qltb vertical_threshold (y0 e - y1 last)); [|exact Hkeep].
  apply blocks_inv_close in H. destruct H as (H1 & H2 & H3 & H4). simpl in *.
  repeat split; auto.
Qed.

Lemma blocks_inv_fold l :
  forall st, blocks_inv st l -> blocks_inv (fold_left unboxed_step l st) [].
Proof.
  induction l as [|e l IH]; intros st H; simpl; [exact H|].
  apply IH. now apply blocks_inv_step.
Qed.

Lemma unboxed_step_count st e :
  (List.length (fst (unboxed_step st e)) + List.length (snd (unboxed_step st e)) <=
   S (List.length (fst st) + List.length (snd st)))%nat.
Proof.
  destruct st as [blocks cur]. unfold unboxed_step.
  assert (Hkeep : (List.length (fst (blocks, cur ++ [e])) +
                   List.length (snd (blocks, cur ++ [e])) <=
                   S (List.length (fst (blocks, cur)) + List.length (snd (blocks, cur))))%nat).
  { simpl. rewrite length_app. simpl. lia. }
  destruct (rev cur) as [|last r] eqn:E; [exact Hkeep|].
  destruct (Qltb vertical_threshold (y0 e - y1 last)); [|exact Hkeep].
  simpl. rewrite length_app.
  assert (Hc : (1 <= List.length cur)%nat).
  { destruct cur; [discriminate E|simpl; lia]. }
  destruct (close_block_cases cur) as [->|(_ & b & -> & _)]; simpl; lia.
Qed.

Lemma unboxed_fold_count l :
  forall st,
    (List.length (fst (fold_left unboxed_step l st)) +
     List.length (snd (fold_left unboxed_step l st)) <=
     List.length l + (List.length (fst st) + List.length (snd st)))%nat.
Proof.
  induction l as [|e l IH]; intros st; simpl; [lia|].
  specialize (IH (unboxed_step st e)). pose proof (unboxed_step_count st e). lia.
Qed.

Lemma lex_sorted_first (A : Type) (k1 k2 : A -> Q) (l : list A) :
  Sorted (fun a b => lex_le (k1 a, k2 a) (k1 b, k2 b) = true) l ->
  StronglySorted (fun a b => k1 a <= k1 b) l.
Proof.
  intros H. apply Sorted_StronglySorted.
  - intros a b c H1 H2. lra.
  - induction H as [|x r Hs IH Hhd]; constructor; auto.
    destruct Hhd as [|y r Hy]; constructor.
    apply lex_le_spec in Hy. simpl in Hy. destruct Hy as [Hy|[Hy _]]; lra.
Qed.

(** X8.  The blocks of the unassigned text are listed from top to
    bottom: the anchor of a block is never below the anchor of a block
    that follows it.  No block has a blank text, and there are at most
    as many blocks as elements. *)
Theorem unboxed_blocks_top_to_bottom :
  forall (elements : list TextElement),
    let blocks := _group_unboxed_into_blocks elements in
    StronglySorted (fun a b => y_pos a <= y_pos b) blocks /\
    Forall (fun b => strip (content b) <> []) blocks /\
    (List.length blocks <= List.length elements)%nat.
Proof.
  intros elements. unfold _group_unboxed_into_blocks.
  destruct elements as [|e0 es]; [simpl; repeat split; constructor|].
  set (sorted_elements := sort_by _ (e0 :: es)).
  assert (Hl : List.length sorted_elements = S (List.length es)).
  { unfold sorted_elements. now rewrite sort_by_length. }
  assert (Hs : StronglySorted (fun a b => y0 a <= y0 b) sorted_elements).
  { apply (@lex_sorted_first TextElement y0 x0). apply sort_by_sorted.
    intros a b. apply lex_le_total. }
  assert (Hinv : blocks_inv ([], []) sorted_elements).
  { repeat split; simpl; auto; constructor. }
  apply blocks_inv_fold in Hinv.
  pose proof (unboxed_fold_count sorted_elements ([], [])) as Hc.
  destruct (fold_left unboxed_step sorted_elements ([], [])) as [blocks cur].
  apply blocks_inv_close in Hinv. destruct Hinv as (H1 & _ & _ & H4).
  simpl in *. split; [exact H1|]. split; [exact H4|].
  rewrite length_app.
  assert (Hcl : (List.length (close_block cur) <= List.length cur)%nat).
  { destruct (close_block_cases cur) as [->|(Hne & b & -> & _)]; simpl; [lia|].
    destruct cur; [congruence|simpl; lia]. }
  lia.
Qed.

(** ** Deduplication of the detected lines *)







(** ** The grid of a table box *)

Open Scope Z_scope.

(** Row-major order: an earlier row, or the same row and an earlier
    column. *)
Definition row_major (a b : Cell) : Prop :=
  row a < row b \/ (row a = row b /\ col a < col b).

Lemma band_cells_spec i top bottom vs :
  forall id j,
    let cs := band_cells id i j top bottom vs in
    (forall n c, nth_error cs n = Some c -> cell_id c = id + Z.of_nat n) /\
    Forall (fun c => row c = i /\ j <= col c) cs /\
    StronglySorted row_major cs /\
    ((2 <= List.length vs)%nat -> exists c rest, cs = c :: rest /\ col c = j).
Proof.
  induction vs as [|lft vs IH]; intros id j; simpl.
  - split; [intros [|n] c H; discriminate H|]. split; [constructor|].
    split; [constructor|]. simpl. lia.
  - destruct vs as [|rgt rest].
    + split; [intros [|n] c H; discriminate H|]. split; [constructor|].
      split; [constructor|]. simpl. lia.
    + destruct (IH (id + 1) (j + 1)) as (H1 & H2 & H3 & _).
      split; [|split; [|split]].
      * intros [|n] c H; simpl in H.
        -- inversion H; subst. simpl. lia.
        -- rewrite (H1 n c H). lia.
      * constructor; [simpl; lia|].
        eapply Forall_impl; [|exact H2]. simpl. intros c [Hr Hc]. lia.
      * constructor; [exact H3|].
        eapply Forall_impl; [|exact H2]. simpl. intros c [Hr Hc].
        right. simpl. lia.
      * intros _. eexists. eexists. split; [reflexivity|reflexivity].
Qed.

Lemma grid_rows_spec box_coords detected_lines hs :
  forall id i,
    let cells := grid_rows box_coords detected_lines id i hs in
    (forall n c, nth_error cells n = Some c -> cell_id c = id + Z.of_nat n) /\
    Forall (fun c => i <= row c < i + Z.of_nat (List.length hs - 1) /\ 0 <= col c) cells /\
    StronglySorted row_major cells /\
    (forall k, i <= k < i + Z.of_nat (List.length hs - 1) ->
       exists c, In c cells /\ row c = k /\ col c = 0).
Proof.
  induction hs as [|top hs IH]; intros id i.
  - simpl. split; [intros [|n] c H; discriminate H|]. split; [constructor|].
    split; [constructor|]. intros k Hk. lia.
  - destruct hs as [|bottom rest].
    + simpl. split; [intros [|n] c H; discriminate H|]. split; [constructor|].
      split; [constructor|]. intros k Hk. lia.
    + cbn [grid_rows]. destruct box_coords as [[[bx1 by1] bx2] by2].
      set (vs := v_positions detected_lines top bottom).
      set (band := if (List.length vs <? 2)%nat
                   then [mkCell id i 0 (bx1, top, bx2, bottom)]
                   else band_cells id i 0 top bottom vs).
      assert (Hband :
        (forall n c, nth_error band n = Some c -> cell_id c = id + Z.of_nat n) /\
        Forall (fun c => row c = i /\ 0 <= col c) band /\
        StronglySorted row_major band /\
        exists c rest', band = c :: rest' /\ col c = 0).
      { unfold band. destruct (List.length vs <? 2)%nat eqn:E.
        - split; [|split; [|split]].
          + intros [|[|n]] c H; simpl in H; try discriminate H.
            inversion H; subst. simpl. lia.
          + constructor; [simpl; lia|constructor].
          + repeat constructor.
          + eexists. eexists. split; reflexivity.
        - apply Nat.ltb_ge in E.
          destruct (band_cells_spec i top bottom vs id 0) as (H1 & H2 & H3 & H4).
          split; [exact H1|]. split; [exact H2|]. split; [exact H3|]. now apply H4. }
      destruct Hband as (B1 & B2 & B3 & c0 & rest0 & B4 & B5).
      specialize (IH (id + Z.of_nat (List.length band)) (i + 1)).
      change (i + 1) with (i + 1) in IH.
      fold vs. fold band.
      set (more := grid_rows (bx1, by1, bx2, by2) detected_lines
                     (id + Z.of_nat (List.length band)) (i + 1) (bottom :: rest)) in *.
      destruct IH as (I1 & I2 & I3 & I4).
      assert (Hlen : Z.of_nat (List.length (top :: bottom :: rest) - 1) =
                     1 + Z.of_nat (List.length (bottom :: rest) - 1)).
      { cbn [List.length]. lia. }
      rewrite Hlen. split; [|split; [|split]].
      * intros n c H. destruct (Nat.lt_ge_cases n (List.length band)) as [Hn|Hn].
        -- rewrite nth_error_app1 in H by exact Hn. now apply B1.
        -- rewrite nth_error_app2 in H by exact Hn.
           rewrite (I1 _ _ H). lia.
      * apply Forall_app. split.
        -- eapply Forall_impl; [|exact B2]. cbv beta. intros c [Hr Hc]. lia.
        -- eapply Forall_impl; [|exact I2]. cbv beta. intros c [Hr Hc]. lia.
      * apply StronglySorted_app; auto.
        intros a b Ha Hb. left.
        rewrite Forall_forall in B2, I2.
        destruct (B2 a Ha) as [Hra _]. destruct (I2 b Hb) as [Hrb _]. lia.
      * intros k Hk. destruct (Z.eq_dec k i) as [->|Hne].
        -- exists c0. split; [apply in_or_app; left; rewrite B4; now left|].
           rewrite Forall_forall in B2.
           destruct (B2 c0) as [Hr _]; [rewrite B4; now left|]. auto.
        -- destruct (I4 k) as (c & Hc & Hr & Hcol); [lia|].
           exists c. split; [apply in_or_app; now right|]. auto.
Qed.

Lemma ids_in_order (l : list Cell) :
  forall id,
    (forall n c, nth_error l n = Some c -> cell_id c = id + Z.of_nat n) ->
    Sorted (fun a b => (cell_id a <=? cell_id b) = true) l.
Proof.
  induction l as [|a l IH]; intros id H; constructor.
  - apply (IH (id + 1)). intros n c Hn.
    rewrite (H (S n) c Hn). lia.
  - destruct l as [|b l]; constructor.
    rewrite (H 0%nat a eq_refl), (H 1%nat b eq_refl). apply Z.leb_le. lia.
Qed.

(** X10.  The grid of a table box is built in row-major order: the
    cell at position [n] of the list has the id [n]; the cells are
    ordered by row and, within a row, by column; every band between two
    consecutive horizontal positions has a cell of column 0 and no row
    index falls outside the bands.  Sorting the cells by id, as the
    extractor does, leaves the list as it was built. *)
Theorem grid_is_row_major :
  forall (box_coords : Q * Q * Q * Q) (detected_lines : DetectedLines),
    let cells := _generate_table_cells box_coords detected_lines in
    let bands := Z.of_nat (List.length (h_positions detected_lines) - 1) in
    (forall n c, nth_error cells n = Some c -> cell_id c = Z.of_nat n) /\
    StronglySorted row_major cells /\
    Forall (fun c => 0 <= row c < bands /\ 0 <= col c) cells /\
    ((2 <= List.length (h_positions detected_lines))%nat ->
     forall k, 0 <= k < bands -> exists c, In c cells /\ row c = k /\ col c = 0) /\
    order_cells cells = cells.
Proof.
  intros box_coords detected_lines. unfold _generate_table_cells.
  destruct (List.length (h_positions detected_lines) <? 2)%nat eqn:E.
  - apply Nat.ltb_lt in E. simpl.
    split; [intros [|n] c H; discriminate H|]. split; [constructor|].
    split; [constructor|]. split; [intros H; lia|reflexivity].
  - destruct (grid_rows_spec box_coords detected_lines (h_positions detected_lines) 0 0)
      as (H1 & H2 & H3 & H4).
    cbv zeta. split; [exact H1|]. split; [exact H3|]. split; [exact H2|].
    split; [intros _; exact H4|].
    unfold order_cells. apply sort_by_sorted_id. now apply (@ids_in_order _ 0).
Qed.

Definition sample_lines : DetectedLines :=
  mkDetectedLines
    [ (0, 10, 100, 10)%Q; (0, 40, 100, 40)%Q; (0, 70, 100, 70)%Q ]
    [ (0, 10, 0, 70)%Q; (50, 10, 50, 40)%Q; (100, 10, 100, 70)%Q ].

(** The hypotheses of X10 at a grid of two bands, the first of two
    cells and the second of one: the third cell has the id 2, and the
    second band has a cell of column 0. *)
Lemma grid_is_row_major_witness :
  (forall c, nth_error (_generate_table_cells (0, 10, 100, 70)%Q sample_lines) 2 = Some c ->
             cell_id c = 2) /\
  exists c, In c (_generate_table_cells (0, 10, 100, 70)%Q sample_lines) /\
            row c = 1 /\ col c = 0.
Proof.
  split.
  - intros c H.
    apply (proj1 (grid_is_row_major (0, 10, 100, 70)%Q sample_lines) 2%nat c H).
  - apply (proj1 (proj2 (proj2 (proj2 (grid_is_row_major (0, 10, 100, 70)%Q sample_lines))))).
    + vm_compute. lia.
    + vm_compute. split; [discriminate|reflexivity].
Defined.

Close Scope Z_scope.

(** ** The cells of a grid tile the bands *)

Definition cell_left (c : Cell) : Q := let '(l, _, _, _) := cell_coordinates c in l.
Definition cell_top (c : Cell) : Q := let '(_, t, _, _) := cell_coordinates c in t.
Definition cell_right (c : Cell) : Q := let '(_, _, r, _) := cell_coordinates c in r.
Definition cell_bottom (c : Cell) : Q := let '(_, _, _, b) := cell_coordinates c in b.

(** The cell [b] comes directly after [a]: to its right in the same
    band, sharing an edge, or first in the band directly below. *)
Definition adjoins (a b : Cell) : Prop :=
  (row b = row a /\ cell_top b = cell_top a /\ cell_bottom b = cell_bottom a /\
   cell_left b = cell_right a) \/
  (row b = (row a + 1)%Z /\ cell_top b = cell_bottom a).

Lemma distinct_app_end (s : list Q) x :
  ForallOrdPairs (fun a b => ~ a == b) s ->
  Forall (fun y => ~ y == x) s ->
  ForallOrdPairs (fun a b => ~ a == b) (s ++ [x]).
Proof.
  induction 1 as [|a s Ha Hs IH]; intros H; simpl.
  - constructor; constructor.
  - inversion H; subst. constructor; auto.
    apply Forall_app. split; auto.
Qed.

Lemma set_add_distinct (s : list Q) x :
  ForallOrdPairs (fun a b => ~ a == b) s ->
  ForallOrdPairs (fun a b => ~ a == b) (set_add s x).
Proof.
  intros H. unfold set_add. destruct (existsb (Qeqb x) s) eqn:E; [exact H|].
  apply distinct_app_end; auto. apply Forall_forall. intros y Hy Heq.
  assert (Ht : existsb (Qeqb x) s = true).
  { apply existsb_exists. exists y. split; [exact Hy|].
    unfold Qeqb. apply Qeq_bool_iff. now symmetry. }
  congruence.
Qed.

Lemma fold_set_add_distinct (l : list Q) :
  forall s,
    ForallOrdPairs (fun a b => ~ a == b) s ->
    ForallOrdPairs (fun a b => ~ a == b) (fold_left set_add l s).
Proof.
  induction l as [|x l IH]; intros s H; simpl; [exact H|].
  apply IH. now apply set_add_distinct.
Qed.

Lemma insert_strict x (s : list Q) :
  StronglySorted Qlt s -> Forall (fun y => ~ x == y) s ->
  StronglySorted Qlt (insert_by Qle_bool x s) /\
  forall z, In z (insert_by Qle_bool x s) -> z = x \/ In z s.
Proof.
  induction s as [|y s IH]; intros Hs Hx; simpl.
  - split; [repeat constructor|]. intros z [<-|[]]. now left.
  - inversion Hs as [|? ? Hs' Hy]; subst. inversion Hx as [|? ? Hxy Hx']; subst.
    destruct (Qle_bool x y) eqn:E.
    + apply Qle_bool_iff in E. split.
      * constructor; [exact Hs|].
        assert (Hlt : x < y).
        { destruct (Qle_lt_or_eq _ _ E); [assumption|contradiction]. }
        constructor; [exact Hlt|].
        eapply Forall_impl; [|exact Hy]. intros z Hz. simpl in Hz. lra.
      * intros z [<-|Hz]; auto.
    + assert (Hlt : y < x).
      { apply Qnot_le_lt. intros H. apply Qle_bool_iff in H. congruence. }
      destruct (IH Hs' Hx') as [I1 I2]. split.
      * constructor; [exact I1|]. apply Forall_forall. intros z Hz.
        destruct (I2 z Hz) as [->|Hz']; [exact Hlt|].
        rewrite Forall_forall in Hy. now apply Hy.
      * intros z [<-|Hz]; [right; now left|].
        destruct (I2 z Hz) as [->|Hz']; [now left|right; now right].
Qed.

Lemma sort_strict (l : list Q) :
  ForallOrdPairs (fun a b => ~ a == b) l -> StronglySorted Qlt (sort_by Qle_bool l).
Proof.
  induction 1 as [|x l Hx Hl IH]; simpl; [constructor|].
  apply insert_strict; [exact IH|].
  apply Forall_forall. intros y Hy. apply (sort_by_in Qle_bool l) in Hy.
  rewrite Forall_forall in Hx. now apply Hx.
Qed.

Lemma sorted_set_strict (l : list Q) : StronglySorted Qlt (sorted_set l).
Proof.
  unfold sorted_set. apply sort_strict. apply fold_set_add_distinct. constructor.
Qed.

Lemma Sorted_app_adjoins (l1 l2 : list Cell) :
  Sorted adjoins l1 -> Sorted adjoins l2 ->
  (forall a b rest1 rest2, l1 = rest1 ++ [a] -> l2 = b :: rest2 -> adjoins a b) ->
  Sorted adjoins (l1 ++ l2).
Proof.
  induction l1 as [|x l1 IH]; simpl; intros H1 H2 H; [exact H2|].
  inversion H1 as [|? ? Hs Hhd]; subst. constructor.
  - apply IH; auto. intros a b r1 r2 E1 E2. apply (H a b (x :: r1) r2); auto.
    now rewrite E1.
  - destruct l1 as [|y l1]; simpl.
    + destruct l2 as [|b l2]; constructor. apply (H x b [] l2); auto.
    + inversion Hhd; subst. now constructor.
Qed.

Lemma band_cells_geometry i top bottom vs :
  StronglySorted Qlt vs ->
  forall id j,
    let cs := band_cells id i j top bottom vs in
    Forall (fun c => row c = i /\ cell_top c = top /\ cell_bottom c = bottom /\
                     cell_left c < cell_right c) cs /\
    Sorted adjoins cs.
Proof.
  induction vs as [|lft vs IH]; intros Hs id j; simpl.
  - split; constructor.
  - destruct vs as [|rgt rest]; [split; constructor|].
    inversion Hs as [|? ? Hs' Hlt]; subst. inversion Hlt as [|? ? Hlr _]; subst.
    destruct (IH Hs' (id + 1)%Z (j + 1)%Z) as [H1 H2]. split.
    + constructor; [|exact H1]. unfold cell_top, cell_bottom, cell_left, cell_right.
      simpl. auto.
    + constructor; [exact H2|].
      simpl. destruct rest as [|r2 rest']; constructor.
      left. unfold cell_top, cell_bottom, cell_left, cell_right. simpl. auto.
Qed.

Lemma grid_rows_geometry box_coords detected_lines hs :
  StronglySorted Qlt hs ->
  forall id i,
    let cells := grid_rows box_coords detected_lines id i hs in
    let '(bx1, _, bx2, _) := box_coords in
    Forall (fun c => cell_top c < cell_bottom c /\
                     (cell_left c < cell_right c \/
                      (cell_left c = bx1 /\ cell_right c = bx2))) cells /\
    Sorted adjoins cells /\
    (forall c rest, cells = c :: rest -> row c = i /\ Some (cell_top c) = hd_error hs) /\
    Forall (fun c => (i <= row c)%Z) cells.
Proof.
  destruct box_coords as [[[bx1 by1] bx2] by2].
  induction hs as [|top hs IH]; intros Hs id i.
  - simpl. split; [constructor|]. split; [constructor|].
    split; [intros c0 r0 H; discriminate H|constructor].
  - destruct hs as [|bottom rest].
    + simpl. split; [constructor|]. split; [constructor|].
      split; [intros c0 r0 H; discriminate H|constructor].
    + inversion Hs as [|? ? Hs' Hlt]; subst. inversion Hlt as [|? ? Htb _]; subst.
      cbn [grid_rows].
      set (vs := v_positions detected_lines top bottom).
      set (band := if (List.length vs <? 2)%nat
                   then [mkCell id i 0 (bx1, top, bx2, bottom)]
                   else band_cells id i 0 top bottom vs).
      assert (Hband :
        Forall (fun c => row c = i /\ cell_top c = top /\ cell_bottom c = bottom /\
                         (cell_left c < cell_right c \/
                          (cell_left c = bx1 /\ cell_right c = bx2))) band /\
        Sorted adjoins band /\ band <> []).
      { unfold band. destruct (List.length vs <? 2)%nat eqn:E.
        - split; [|split; [|discriminate]].
          + constructor; [|constructor].
            unfold cell_top, cell_bottom, cell_left, cell_right. simpl. auto 6.
          + repeat constructor.
        - apply Nat.ltb_ge in E.
          destruct (@band_cells_geometry i top bottom vs (sorted_set_strict _) id 0%Z)
            as [H1 H2].
          split; [|split; [exact H2|]].
          + eapply Forall_impl; [|exact H1]. simpl. intros c (Hr & Ht & Hb & Hl). auto.
          + destruct vs as [|v1 [|v2 vs']]; simpl in E; try lia. simpl. discriminate. }
      destruct Hband as (B1 & B2 & B3).
      specialize (IH Hs' (id + Z.of_nat (List.length band))%Z (i + 1)%Z).
      cbv zeta in IH.
      set (more := grid_rows (bx1, by1, bx2, by2) detected_lines
                     (id + Z.of_nat (List.length band)) (i + 1) (bottom :: rest)) in *.
      destruct IH as (I1 & I2 & I3 & I4).
      split; [|split; [|split]].
      * apply Forall_app. split; [|exact I1].
        eapply Forall_impl; [|exact B1]. simpl. intros c (Hr & Ht & Hb & Hl).
        split; [rewrite Ht, Hb; exact Htb|exact Hl].
      * apply Sorted_app_adjoins; auto.
        intros a b r1 r2 E1 E2. right.
        destruct (I3 b r2 E2) as [Hrb Htop]. simpl in Htop.
        rewrite Forall_forall in B1.
        destruct (B1 a) as (Hra & _ & Hba & _).
        { rewrite E1. apply in_or_app. right. now left. }
        rewrite Hra, Hba. split; [exact Hrb|]. now inversion Htop.
      * intros c rest' E.
        destruct band as [|c0 band']; [congruence|].
        simpl in E. inversion E; subst c0.
        rewrite Forall_forall in B1.
        destruct (B1 c) as (Hr & Ht & _); [now left|].
        simpl. split; [exact Hr|]. now rewrite Ht.
      * apply Forall_app. split.
        -- eapply Forall_impl; [|exact B1]. simpl. intros c (Hr & _). lia.
        -- eapply Forall_impl; [|exact I4]. simpl. intros c Hc. lia.
Qed.

(** X11.  The cells of a grid tile its bands.  Every cell has a
    positive height; a cell made between two vertical lines has a
    positive width, and the other cells span the box from its left edge
    to its right edge.  Each cell is followed either by the cell to its
    right in the same band, which starts where it ends, or by the first
    cell of the next band, whose top is its bottom. *)
Theorem grid_cells_tile_the_bands :
  forall (bx1 by1 bx2 by2 : Q) (detected_lines : DetectedLines),
    let cells := _generate_table_cells (bx1, by1, bx2, by2) detected_lines in
    Forall (fun c => cell_top c < cell_bottom c /\
                     (cell_left c < cell_right c \/
                      (cell_left c = bx1 /\ cell_right c = bx2))) cells /\
    Sorted adjoins cells.
Proof.
  intros bx1 by1 bx2 by2 detected_lines. unfold _generate_table_cells.
  destruct (List.length (h_positions detected_lines) <? 2)%nat.
  - split; constructor.
  - destruct (@grid_rows_geometry (bx1, by1, bx2, by2) detected_lines
                (h_positions detected_lines) (sorted_set_strict _) 0%Z 0%Z)
      as (H1 & H2 & _).
    split; [exact H1|exact H2].
Qed.

(** * The template authoring tool

    The state of [TemplateCreator] that its handlers read and write:
    the boxes drawn on each page, the page shown, the scale of the
    canvas.  The widgets, the canvas items and the dialogs are left
    out; what a dialog returns is an argument of the handler. *)

(** [min(a, b)] and [max(a, b)] of Python: the first argument wins a
    tie. *)
Definition py_min (a b : Q) : Q := if Qltb b a then b else a.
Definition py_max (a b : Q) : Q := if Qltb a b then b else a.

(** The scale that [display_page] sets for an image [img_width] pixels
    wide on a canvas of 800 pixels. *)
Definition display_scale (img_width : Z) : Q :=
  if (800 <? img_width)%Z then 800 / inject_Z img_width else 1.

(** [screen_to_pdf_coords] *)
Definition screen_to_pdf_coords (scale_factor : Q) (x1 y1 x2 y2 : Q) : Q * Q * Q * Q :=
  let pdf_x1 := py_min x1 x2 / scale_factor / 2 in
  let pdf_y1 := py_min y1 y2 / scale_factor / 2 in
  let pdf_x2 := py_max x1 x2 / scale_factor / 2 in
  let pdf_y2 := py_max y1 y2 / scale_factor / 2 in
  (pdf_x1, pdf_y1, pdf_x2, pdf_y2).

(** [_pdf_to_screen_coords] *)
Definition _pdf_to_screen_coords (scale_factor : Q) (pdf_coords : Q * Q * Q * Q)
    : Q * Q * Q * Q :=
  let '(x1, y1, x2, y2) := pdf_coords in
  (x1 * scale_factor * 2, y1 * scale_factor * 2,
   x2 * scale_factor * 2, y2 * scale_factor * 2).

(** A box as the creator stores it. *)
Record CBox := mkCBox {
  cb_id : str;
  cb_label : str;
  cb_page : Z;
  cb_coordinates : Q * Q * Q * Q;
  cb_extraction_order : Z;
  cb_screen_coords : Q * Q * Q * Q;
  cb_box_type : BoxType;
  cb_table_cells : option (list Cell);
  cb_detected_lines : option DetectedLines
}.

(** An entry of [pages_data]. *)
Record PageStore := mkPageStore {
  pd_raw_text : str;
  pd_boxes : list CBox
}.

Record Creator := mkCreator {
  pages_data : dict Z PageStore;
  current_page_num : Z;
  total_pages : Z;
  scale_factor : Q;
  start_x : Q;
  start_y : Q;
  raw_text : str;
  include_unboxed : bool;
  cr_detected_lines : DetectedLines
}.

Definition with_pages (st : Creator) (pd : dict Z PageStore) : Creator :=
  mkCreator pd (current_page_num st) (total_pages st) (scale_factor st)
    (start_x st) (start_y st) (raw_text st) (include_unboxed st) (cr_detected_lines st).

Definition with_page_num (st : Creator) (n : Z) : Creator :=
  mkCreator (pages_data st) n (total_pages st) (scale_factor st)
    (start_x st) (start_y st) (raw_text st) (include_unboxed st) (cr_detected_lines st).

(** [get_current_page_boxes] *)
Definition get_current_page_boxes (st : Creator) : list CBox :=
  match dict_get Z.eqb (pages_data st) (current_page_num st) with
  | Some pd => pd_boxes pd
  | None => []
  end.

(** [prev_page], [next_page] and [goto_page]; the entry of the page
    field is [None] when it is not a number. *)
Definition prev_page (st : Creator) : Creator :=
  if (1 <? current_page_num st)%Z
  then with_page_num st (current_page_num st - 1)%Z else st.

Definition next_page (st : Creator) : Creator :=
  if (current_page_num st <? total_pages st)%Z
  then with_page_num st (current_page_num st + 1)%Z else st.

Definition goto_page (st : Creator) (entry : option Z) : Creator :=
  match entry with
  | Some page_num =>
      if ((1 <=? page_num) && (page_num <=? total_pages st))%Z
      then with_page_num st page_num else st
  | None => st
  end.

(** [str(n)] for an integer. *)
Definition str_of_Z (n : Z) : str :=
  if (n <? 0)%Z then txt "-" ++ str_of_nat (Z.to_nat (- n)) else str_of_nat (Z.to_nat n).

(** [self.pages_data[self.current_page_num]["boxes"].append(box_data)],
    after the entry of the page has been created when it was absent. *)
Definition append_box (st : Creator) (box_data : CBox) : Creator :=
  let pd :=
    match dict_get Z.eqb (pages_data st) (current_page_num st) with
    | Some pd => pd
    | None => mkPageStore [] []
    end in
  with_pages st
    (dict_set Z.eqb (pages_data st) (current_page_num st)
       (mkPageStore (pd_raw_text pd) (pd_boxes pd ++ [box_data]))).

(** [f"p{self.current_page_num}_box{len(current_page_boxes)+1}"] *)
Definition next_box_id (st : Creator) : str :=
  txt "p" ++ str_of_Z (current_page_num st) ++ txt "_box" ++
  str_of_nat (List.length (get_current_page_boxes st) + 1).

(** [_create_standard_box]; [label] is what the dialog returned. *)
Definition _create_standard_box (st : Creator) (pdf_coords : Q * Q * Q * Q)
    (end_x end_y : Q) (box_type : BoxType) (label : option str) : Creator :=
  match label with
  | None | Some [] => st
  | Some label =>
      let current_page_boxes := get_current_page_boxes st in
      append_box st
        (mkCBox (next_box_id st) label (current_page_num st) pdf_coords
           (Z.of_nat (List.length current_page_boxes) + 1)
           (start_x st, start_y st, end_x, end_y) box_type None None)
  end.

(** [_save_table_box] *)
Definition _save_table_box (st : Creator) (pdf_coords : Q * Q * Q * Q)
    (end_x end_y : Q) (label : str) : Creator :=
  let cells := _generate_table_cells pdf_coords (cr_detected_lines st) in
  let current_page_boxes := get_current_page_boxes st in
  append_box st
    (mkCBox (next_box_id st) label (current_page_num st) pdf_coords
       (Z.of_nat (List.length current_page_boxes) + 1)
       (start_x st, start_y st, end_x, end_y) table (Some cells)
       (Some (cr_detected_lines st))).

(** [x1 <= click_x <= x2 and y1 <= click_y <= y2] on the stored screen
    rectangle of a box. *)
Definition hit (click_x click_y : Q) (box : CBox) : bool :=
  let '(x1, y1, x2, y2) := cb_screen_coords box in
  Qle_bool x1 click_x && Qle_bool click_x x2 &&
  Qle_bool y1 click_y && Qle_bool click_y y2.

(** The loop of [delete_box]: the list without the first box hit. *)
Fixpoint remove_first_hit (click_x click_y : Q) (boxes : list CBox) : list CBox :=
  match boxes with
  | [] => []
  | box :: rest =>
      if hit click_x click_y box then rest
      else box :: remove_first_hit click_x click_y rest
  end.

(** [delete_box] *)
Definition delete_box (st : Creator) (click_x click_y : Q) : Creator :=
  match dict_get Z.eqb (pages_data st) (current_page_num st) with
  | Some pd =>
      with_pages st
        (dict_set Z.eqb (pages_data st) (current_page_num st)
           (mkPageStore (pd_raw_text pd) (remove_first_hit click_x click_y (pd_boxes pd))))
  | None => st
  end.

(** [clear_boxes]; [result] is the answer to the dialog: [Some true]
    for the current page, [Some false] for all pages, [None] to
    cancel. *)
Definition clear_boxes (st : Creator) (result : option bool) : Creator :=
  match result with
  | None => st
  | Some true =>
      match dict_get Z.eqb (pages_data st) (current_page_num st) with
      | Some pd =>
          with_pages st
            (dict_set Z.eqb (pages_data st) (current_page_num st)
               (mkPageStore (pd_raw_text pd) []))
      | None => st
      end
  | Some false =>
      with_pages st
        (map (fun kv => (fst kv, mkPageStore (pd_raw_text (snd kv)) [])) (pages_data st))
  end.

(** [get_total_box_count] *)
Definition get_total_box_count (st : Creator) : nat :=
  fold_left (fun total page_data => (total + List.length (pd_boxes (snd page_data)))%nat)
    (pages_data st) O.

(** The box as the extractor reads it from the saved template. *)
Definition saved_box (b : CBox) : Box :=
  let '(x1, y1, x2, y2) := cb_coordinates b in
  mkBox (Some (cb_label b)) (Some [x1; y1; x2; y2]) (Some (cb_extraction_order b))
    (Some (cb_box_type b)) (cb_table_cells b).

(** The entry of [template_data["pages"]] for a page number. *)
Definition saved_page (st : Creator) (page_num : nat) : str * PageData :=
  let page_data :=
    match dict_get Z.eqb (pages_data st) (Z.of_nat page_num) with
    | Some pd => pd
    | None => mkPageStore [] []
    end in
  (str_of_nat page_num,
   mkPageData (Some (pd_raw_text page_data)) (Some (map saved_box (pd_boxes page_data)))).

(** [save_template]: the template data written to the file, or [None]
    when nothing is saved.  [template_name] is what the name dialog
    returned and [confirm] the answer to the question asked when no
    box was drawn. *)
Definition save_template (st : Creator) (template_name : option str)
    (confirm : option bool) : option Template :=
  match raw_text st with
  | [] => None
  | _ =>
      match template_name with
      | None | Some [] => None
      | Some template_name =>
          let total_boxes := get_total_box_count st in
          let go :=
            match total_boxes with
            | O => match confirm with Some true => true | _ => false end
            | _ => true
            end in
          if go then
            Some (mkTemplate (Some template_name) (Some (raw_text st))
                    (Some (include_unboxed st))
                    (Some (fold_left
                             (fun pages page_num =>
                                dict_set str_eqb pages (fst (saved_page st page_num))
                                  (snd (saved_page st page_num)))
                             (seq 1 (Z.to_nat (total_pages st))) []))
                    None)
          else None
      end
  end.

(** [extract_raw_text]: the state after the texts of the pages of a
    loaded document have been read. *)
Definition extract_raw_text (st : Creator) (page_texts : list str) : Creator :=
  let pd :=
    fold_left
      (fun pages (it : nat * str) =>
         dict_set Z.eqb pages (Z.of_nat (fst it) + 1)%Z (mkPageStore (snd it) []))
      (combine (seq 0 (List.length page_texts)) page_texts) [] in
  mkCreator pd (current_page_num st) (total_pages st) (scale_factor st)
    (start_x st) (start_y st) (List.concat page_texts) (include_unboxed st)
    (cr_detected_lines st).

(** ** Screen and page coordinates *)

(** Two rectangles with equal coordinates. *)
Definition rect_eq (r s : Q * Q * Q * Q) : Prop :=
  let '(a, b, c, d) := r in
  let '(a', b', c', d') := s in
  a == a' /\ b == b' /\ c == c' /\ d == d'.

Lemma display_scale_pos img_width :
  0 < display_scale img_width /\ display_scale img_width <= 1.
Proof.
  unfold display_scale. destruct (800 <? img_width)%Z eqn:E; [|split; lra].
  apply Z.ltb_lt in E.
  assert (Hw : 800 < inject_Z img_width).
  { change 800 with (inject_Z 800). rewrite <- Zlt_Qlt. exact E. }
  split.
  - apply Qlt_shift_div_l; lra.
  - apply Qle_shift_div_r; lra.
Qed.

Lemma py_min_le_max a b : py_min a b <= py_max a b.
Proof.
  unfold py_min, py_max.
  destruct (Qltb b a) eqn:E1, (Qltb a b) eqn:E2;
    try apply Qltb_true in E1; try apply Qltb_true in E2;
    try apply Qltb_false in E1; try apply Qltb_false in E2; lra.
Qed.

Lemma scale_there_and_back s x : 0 < s -> x / s / 2 * s * 2 == x.
Proof. intros H. field. lra. Qed.

Lemma scale_back_and_there s x : 0 < s -> x * s * 2 / s / 2 == x.
Proof. intros H. field. lra. Qed.

Lemma div_scale_le s x y : 0 < s -> x <= y -> x / s / 2 <= y / s / 2.
Proof.
  intros Hs H. unfold Qdiv. apply Qmult_le_compat_r.
  - apply Qmult_le_compat_r; [exact H|]. apply Qlt_le_weak. now apply Qinv_lt_0_compat.
  - apply Qlt_le_weak. now apply Qinv_lt_0_compat.
Qed.

Lemma mul_scale_le s x y : 0 < s -> x <= y -> x * s * 2 <= y * s * 2.
Proof.
  intros Hs H. apply Qmult_le_compat_r; [|lra].
  apply Qmult_le_compat_r; [exact H|lra].
Qed.

(** X12.  With the scale that the display sets (which is positive and
    at most 1), the conversion from screen to page coordinates yields a
    rectangle whose first corner is not after its second, whichever
    way the rectangle was dragged; converting it back to the screen
    gives the dragged rectangle with its corners in order; and a page
    rectangle with its corners in order survives the way to the screen
    and back.  Coordinates are exact rationals here. *)
Theorem screen_pdf_round_trip :
  forall (img_width : Z) (x1 y1 x2 y2 : Q),
    let s := display_scale img_width in
    (let '(a, b, c, d) := screen_to_pdf_coords s x1 y1 x2 y2 in a <= c /\ b <= d) /\
    rect_eq (_pdf_to_screen_coords s (screen_to_pdf_coords s x1 y1 x2 y2))
            (py_min x1 x2, py_min y1 y2, py_max x1 x2, py_max y1 y2) /\
    (x1 <= x2 -> y1 <= y2 ->
     let '(sx1, sy1, sx2, sy2) := _pdf_to_screen_coords s (x1, y1, x2, y2) in
     rect_eq (screen_to_pdf_coords s sx1 sy1 sx2 sy2) (x1, y1, x2, y2)).
Proof.
  intros img_width x1 y1 x2 y2 s.
  destruct (display_scale_pos img_width) as [Hs _]. fold s in Hs.
  split; [|split].
  - unfold screen_to_pdf_coords. split; apply div_scale_le; auto; apply py_min_le_max.
  - unfold screen_to_pdf_coords, _pdf_to_screen_coords, rect_eq.
    repeat split; now apply scale_there_and_back.
  - intros Hx Hy. unfold screen_to_pdf_coords, _pdf_to_screen_coords, rect_eq.
    assert (Hmin : forall a b, a <= b -> py_min (a * s * 2) (b * s * 2) = a * s * 2).
    { intros a b Hab. unfold py_min.
      assert (E : Qltb (b * s * 2) (a * s * 2) = false)
        by (apply Qltb_false; now apply mul_scale_le).
      now rewrite E. }
    assert (Hmax : forall a b, a <= b -> py_max (a * s * 2) (b * s * 2) == b * s * 2).
    { intros a b Hab. unfold py_max.
      destruct (Qltb (a * s * 2) (b * s * 2)) eqn:E; [reflexivity|].
      apply Qltb_false in E. pose proof (mul_scale_le Hs Hab). lra. }
    rewrite (Hmin _ _ Hx), (Hmin _ _ Hy).
    repeat split.
    + now apply scale_back_and_there.
    + now apply scale_back_and_there.
    + rewrite (Hmax _ _ Hx). now apply scale_back_and_there.
    + rewrite (Hmax _ _ Hy). now apply scale_back_and_there.
Qed.

(** The hypotheses of X12 at a page rectangle on a canvas scaled by
    800/1200. *)
Lemma screen_pdf_round_trip_witness :
  let '(sx1, sy1, sx2, sy2) :=
    _pdf_to_screen_coords (display_scale 1200) (10, 20, 110, 70) in
  rect_eq (screen_to_pdf_coords (display_scale 1200) sx1 sy1 sx2 sy2) (10, 20, 110, 70).
Proof.
  apply (proj2 (proj2 (screen_pdf_round_trip 1200 10 20 110 70))).
  - vm_compute. discriminate.
  - vm_compute. discriminate.
Defined.

(** ** Page navigation *)

Inductive NavCommand :=
| Prev
| Next
| Goto (entry : option Z).

Definition navigate (st : Creator) (c : NavCommand) : Creator :=
  match c with
  | Prev => prev_page st
  | Next => next_page st
  | Goto entry => goto_page st entry
  end.

Lemma navigate_keeps st c :
  (1 <= current_page_num st <= total_pages st)%Z ->
  (1 <= current_page_num (navigate st c) <= total_pages (navigate st c))%Z /\
  total_pages (navigate st c) = total_pages st /\
  pages_data (navigate st c) = pages_data st.
Proof.
  intros H. destruct c as [| |[p|]]; simpl.
  - unfold prev_page. destruct (1 <? current_page_num st)%Z eqn:E; simpl; auto.
    apply Z.ltb_lt in E. repeat split; lia.
  - unfold next_page. destruct (current_page_num st <? total_pages st)%Z eqn:E; simpl; auto.
    apply Z.ltb_lt in E. repeat split; lia.
  - destruct ((1 <=? p) && (p <=? total_pages st))%Z eqn:E; simpl; auto.
    apply andb_prop in E. destruct E as [E1 E2].
    apply Z.leb_le in E1. apply Z.leb_le in E2. repeat split; lia.
  - auto.
Qed.

(** X13.  Page navigation never leaves the document: when the page
    shown is one of the pages 1 to [total_pages], it still is after any
    sequence of previous-page, next-page and go-to-page commands,
    whatever is typed in the page field; the boxes and the number of
    pages are not touched. *)
Theorem navigation_stays_in_range :
  forall (commands : list NavCommand) (st : Creator),
    (1 <= current_page_num st <= total_pages st)%Z ->
    let st' := fold_left navigate commands st in
    (1 <= current_page_num st' <= total_pages st)%Z /\
    total_pages st' = total_pages st /\
    pages_data st' = pages_data st.
Proof.
  induction commands as [|c cs IH]; intros st H; simpl; [auto|].
  destruct (navigate_keeps st c H) as (H1 & H2 & H3).
  destruct (IH (navigate st c) H1) as (I1 & I2 & I3).
  rewrite H2 in I1, I2. rewrite H3 in I3. auto.
Qed.

Definition sample_creator : Creator :=
  mkCreator [(1%Z, mkPageStore (txt "BILL OF LADING ") []);
             (2%Z, mkPageStore (txt "TERMS") [])]
    1 2 1 200 40 (txt "BILL OF LADING TERMS") true (mkDetectedLines [] []).

(** The hypothesis of X13 at a document of two pages and four
    commands, one of them out of range. *)
Lemma navigation_stays_in_range_witness :
  (1 <= current_page_num
          (fold_left navigate [Next; Next; Goto (Some 7%Z); Prev] sample_creator) <= 2)%Z.
Proof.
  apply (navigation_stays_in_range [Next; Next; Goto (Some 7%Z); Prev] sample_creator).
  simpl. lia.
Defined.

(** ** The boxes of the creator *)

Definition boxes_on (e : Z * PageStore) : nat := List.length (pd_boxes (snd e)).

Lemma count_fold (l : list (Z * PageStore)) :
  forall a,
    fold_left (fun total page_data => (total + List.length (pd_boxes (snd page_data)))%nat) l a =
    (a + list_sum (map boxes_on l))%nat.
Proof.
  induction l as [|e l IH]; intros a; simpl; [lia|].
  rewrite IH. unfold boxes_on at 2. lia.
Qed.

Lemma total_count_sum st :
  get_total_box_count st = list_sum (map boxes_on (pages_data st)).
Proof. unfold get_total_box_count. now rewrite count_fold. Qed.

Lemma count_dict_set (d : dict Z PageStore) k v :
  (list_sum (map boxes_on (dict_set Z.eqb d k v)) +
   match dict_get Z.eqb d k with Some old => List.length (pd_boxes old) | None => 0 end =
   list_sum (map boxes_on d) + List.length (pd_boxes v))%nat.
Proof.
  induction d as [|[k' v'] d IH]; simpl.
  - unfold boxes_on. simpl. lia.
  - destruct (Z.eqb k k') eqn:E; simpl.
    + unfold boxes_on at 1 3. simpl. lia.
    + unfold boxes_on at 1 3. simpl. lia.
Qed.

Lemma append_box_count st b :
  list_sum (map boxes_on (pages_data (append_box st b))) =
  S (list_sum (map boxes_on (pages_data st))).
Proof.
  unfold append_box. cbn [pages_data with_pages].
  destruct (dict_get Z.eqb (pages_data st) (current_page_num st)) as [pd|] eqn:E.
  - pose proof (count_dict_set (pages_data st) (current_page_num st)
                  (mkPageStore (pd_raw_text pd) (pd_boxes pd ++ [b]))) as H.
    rewrite E in H. cbn [pd_boxes] in H. rewrite length_app in H.
    cbn [List.length] in H. lia.
  - pose proof (count_dict_set (pages_data st) (current_page_num st)
                  (mkPageStore (pd_raw_text (mkPageStore [] []))
                     (pd_boxes (mkPageStore [] []) ++ [b]))) as H.
    rewrite E in H. cbn [pd_boxes app List.length] in H |- *. lia.
Qed.

Lemma append_box_spec st b :
  get_current_page_boxes (append_box st b) = get_current_page_boxes st ++ [b] /\
  get_total_box_count (append_box st b) = S (get_total_box_count st) /\
  (forall p, p <> current_page_num st ->
     dict_get Z.eqb (pages_data (append_box st b)) p = dict_get Z.eqb (pages_data st) p) /\
  current_page_num (append_box st b) = current_page_num st.
Proof.
  split; [|split; [|split]].
  - unfold append_box, get_current_page_boxes. simpl.
    rewrite (dict_get_set_same Z.eqb Z_eqb_iff). simpl.
    destruct (dict_get Z.eqb (pages_data st) (current_page_num st)); reflexivity.
  - rewrite !total_count_sum. apply append_box_count.
  - intros p Hp. unfold append_box. simpl.
    apply (dict_get_set_other Z.eqb Z_eqb_iff). congruence.
  - reflexivity.
Qed.

(** X14.  Drawing a box with a label adds exactly one box, at the end
    of the boxes of the page shown: it carries the label, the page
    number, the page rectangle and, as extraction order, one more than
    the number of boxes the page had; the total number of boxes grows
    by one and the other pages are not touched.  A table box carries
    in addition the grid built from the detected lines.  A dialog
    closed without a label changes nothing. *)
Theorem drawing_a_box_adds_one :
  forall (st : Creator) (pdf_coords : Q * Q * Q * Q) (end_x end_y : Q)
         (box_type : BoxType) (label : str),
    label <> [] ->
    let n := List.length (get_current_page_boxes st) in
    (forall st',
       st' = _create_standard_box st pdf_coords end_x end_y box_type (Some label) \/
       st' = _save_table_box st pdf_coords end_x end_y label ->
       (exists b,
          get_current_page_boxes st' = get_current_page_boxes st ++ [b] /\
          cb_label b = label /\ cb_page b = current_page_num st /\
          cb_coordinates b = pdf_coords /\
          cb_extraction_order b = (Z.of_nat n + 1)%Z /\
          (st' = _save_table_box st pdf_coords end_x end_y label ->
           cb_box_type b = table /\
           cb_table_cells b =
           Some (_generate_table_cells pdf_coords (cr_detected_lines st)))) /\
       get_total_box_count st' = S (get_total_box_count st) /\
       (forall p, p <> current_page_num st ->
          dict_get Z.eqb (pages_data st') p = dict_get Z.eqb (pages_data st) p)) /\
    _create_standard_box st pdf_coords end_x end_y box_type None = st /\
    _create_standard_box st pdf_coords end_x end_y box_type (Some []) = st.
Proof.
  intros st pdf_coords end_x end_y box_type label Hl n.
  split; [|split; reflexivity].
  intros st' [-> | ->].
  - unfold _create_standard_box. destruct label as [|c label]; [congruence|].
    match goal with |- context [append_box st ?b] =>
      destruct (append_box_spec st b) as (H1 & H2 & H3 & _); set (box := b) in * end.
    split; [|split; [exact H2|exact H3]].
    exists box. split; [exact H1|].
    split; [reflexivity|]. split; [reflexivity|]. split; [reflexivity|].
    split; [reflexivity|].
    intros Heq. exfalso. apply (f_equal get_current_page_boxes) in Heq.
    unfold _save_table_box in Heq. cbv zeta in Heq.
    match type of Heq with _ = get_current_page_boxes (append_box st ?b) =>
      destruct (append_box_spec st b) as (H1' & _) end.
    rewrite H1, H1' in Heq. apply app_inv_head in Heq.
    inversion Heq.
  - unfold _save_table_box.
    match goal with |- context [append_box st ?b] =>
      destruct (append_box_spec st b) as (H1 & H2 & H3 & _); set (box := b) in * end.
    split; [|split; [exact H2|exact H3]].
    exists box. split; [exact H1|].
    split; [reflexivity|]. split; [reflexivity|]. split; [reflexivity|].
    split; [reflexivity|]. intros _. split; reflexivity.
Qed.

(** The hypothesis of X14 at a general box drawn on the first page. *)
Lemma drawing_a_box_adds_one_witness :
  get_total_box_count
    (_create_standard_box sample_creator (10, 20, 110, 70) 220 140 general
       (Some (txt "Shipper"))) = 1%nat.
Proof.
  apply (proj1 (proj2 (proj1
           (@drawing_a_box_adds_one sample_creator (10, 20, 110, 70) 220 140 general
              (txt "Shipper") ltac:(discriminate)) _ (or_introl eq_refl)))).
Defined.

(** ** Deleting a box *)

Lemma remove_first_hit_spec cx cy boxes :
  (Forall (fun b => hit cx cy b = false) boxes /\
   remove_first_hit cx cy boxes = boxes) \/
  (exists pre b post,
     boxes = pre ++ b :: post /\ hit cx cy b = true /\
     Forall (fun b' => hit cx cy b' = false) pre /\
     remove_first_hit cx cy boxes = pre ++ post).
Proof.
  induction boxes as [|b boxes IH]; simpl.
  - left. split; [constructor|reflexivity].
  - destruct (hit cx cy b) eqn:E.
    + right. exists [], b, boxes. simpl. repeat split; auto.
    + destruct IH as [[H1 H2]|(pre & b' & post & H1 & H2 & H3 & H4)].
      * left. split; [constructor; auto|now rewrite H2].
      * right. exists (b :: pre), b', post. simpl. subst boxes.
        repeat split; auto. now rewrite H4.
Qed.

Lemma delete_box_boxes st cx cy :
  get_current_page_boxes (delete_box st cx cy) =
  remove_first_hit cx cy (get_current_page_boxes st).
Proof.
  unfold delete_box, get_current_page_boxes.
  destruct (dict_get Z.eqb (pages_data st) (current_page_num st)) as [pd|] eqn:E.
  - simpl. now rewrite (dict_get_set_same Z.eqb Z_eqb_iff).
  - now rewrite E.
Qed.

Lemma hit_backwards cx cy b :
  (let '(x1, y1, x2, y2) := cb_screen_coords b in x2 < x1 \/ y2 < y1) ->
  hit cx cy b = false.
Proof.
  unfold hit. destruct (cb_screen_coords b) as [[[x1 y1] x2] y2]. intros H.
  destruct (Qle_bool x1 cx) eqn:E1; [|reflexivity].
  destruct (Qle_bool cx x2) eqn:E2; [|reflexivity].
  destruct (Qle_bool y1 cy) eqn:E3; [|reflexivity].
  destruct (Qle_bool cy y2) eqn:E4; [|reflexivity].
  apply Qle_bool_iff in E1, E2, E3, E4. exfalso. destruct H; lra.
Qed.

Lemma remove_first_hit_keeps cx cy b boxes :
  hit cx cy b = false -> In b boxes -> In b (remove_first_hit cx cy boxes).
Proof.
  intros Hb. induction boxes as [|b' boxes IH]; simpl; [tauto|].
  intros [->|H].
  - rewrite Hb. now left.
  - destruct (hit cx cy b'); [exact H|]. right. auto.
Qed.

(** X15.  A right click deletes the first box of the page shown whose
    stored screen rectangle contains the click, and no other box; when
    no rectangle contains it nothing is deleted.  The rectangle is
    stored as it was dragged: a box dragged towards the left or
    upwards contains no point, so that no sequence of clicks deletes
    it. *)
Theorem delete_box_removes_first_hit :
  forall (st : Creator) (click_x click_y : Q),
    let boxes := get_current_page_boxes st in
    let boxes' := get_current_page_boxes (delete_box st click_x click_y) in
    ((Forall (fun b => hit click_x click_y b = false) boxes /\ boxes' = boxes) \/
     (exists pre b post,
        boxes = pre ++ b :: post /\ hit click_x click_y b = true /\
        Forall (fun b' => hit click_x click_y b' = false) pre /\
        boxes' = pre ++ post)) /\
    (forall b (clicks : list (Q * Q)),
       In b boxes ->
       (let '(x1, y1, x2, y2) := cb_screen_coords b in x2 < x1 \/ y2 < y1) ->
       In b (get_current_page_boxes
               (fold_left (fun st c => delete_box st (fst c) (snd c)) clicks st))).
Proof.
  intros st cx cy boxes boxes'. split.
  - unfold boxes'. rewrite delete_box_boxes. apply remove_first_hit_spec.
  - intros b clicks Hb Hback. unfold boxes in Hb. clear boxes boxes'.
    revert st Hb. induction clicks as [|[x y] clicks IH]; intros st Hb; simpl; [exact Hb|].
    apply IH. rewrite delete_box_boxes.
    apply remove_first_hit_keeps; [now apply hit_backwards|exact Hb].
Qed.

Definition backwards_creator : Creator :=
  _create_standard_box sample_creator (10, 20, 100, 70) 20 140 general
    (Some (txt "Shipper")).

(** The hypotheses of X15 at a box dragged from x = 200 back to
    x = 20, and two clicks inside the rectangle it shows. *)
Lemma delete_box_removes_first_hit_witness :
  exists b,
    cb_label b = txt "Shipper" /\
    In b (get_current_page_boxes
            (fold_left (fun st c => delete_box st (fst c) (snd c))
               [(100, 100); (50, 60)] backwards_creator)).
Proof.
  eexists. split; [|
    apply (proj2 (delete_box_removes_first_hit backwards_creator 0 0)
             (mkCBox (txt "p1_box1") (txt "Shipper") 1 (10, 20, 100, 70) 1
                (200, 40, 20, 140) general None None) [(100, 100); (50, 60)])].
  - reflexivity.
  - left. reflexivity.
  - left. reflexivity.
Defined.

(** ** Clearing the boxes *)

Lemma clear_all_count (d : dict Z PageStore) :
  list_sum (map boxes_on (map (fun kv => (fst kv, mkPageStore (pd_raw_text (snd kv)) [])) d)) = O.
Proof. induction d as [|e d IH]; simpl; auto. Qed.

(** X16.  Clearing the boxes of all pages leaves no box at all and
    keeps the pages and their texts; clearing the page shown empties
    that page, leaves the others as they are and lowers the total by
    the number of boxes the page had; cancelling changes nothing.
    Once every box is cleared, saving the template needs the
    confirmation that is asked for a template without boxes. *)
Theorem clearing_boxes :
  forall (st : Creator),
    (get_total_box_count (clear_boxes st (Some false)) = O /\
     map (fun kv => (fst kv, pd_raw_text (snd kv))) (pages_data (clear_boxes st (Some false))) =
     map (fun kv => (fst kv, pd_raw_text (snd kv))) (pages_data st)) /\
    (get_current_page_boxes (clear_boxes st (Some true)) = [] /\
     (get_total_box_count (clear_boxes st (Some true)) +
      List.length (get_current_page_boxes st) = get_total_box_count st)%nat /\
     forall p, p <> current_page_num st ->
       dict_get Z.eqb (pages_data (clear_boxes st (Some true))) p =
       dict_get Z.eqb (pages_data st) p) /\
    clear_boxes st None = st /\
    (forall template_name confirm,
       confirm <> Some true ->
       save_template (clear_boxes st (Some false)) template_name confirm = None).
Proof.
  intros st. split; [|split; [|split]].
  - split.
    + rewrite total_count_sum. simpl. apply clear_all_count.
    + simpl. rewrite map_map. reflexivity.
  - unfold clear_boxes, get_current_page_boxes.
    destruct (dict_get Z.eqb (pages_data st) (current_page_num st)) as [pd|] eqn:E.
    + simpl. rewrite (dict_get_set_same Z.eqb Z_eqb_iff). split; [reflexivity|].
      split.
      * rewrite !total_count_sum. simpl.
        pose proof (count_dict_set (pages_data st) (current_page_num st)
                      (mkPageStore (pd_raw_text pd) [])) as H.
        rewrite E in H. simpl in H. lia.
      * intros p Hp. apply (dict_get_set_other Z.eqb Z_eqb_iff). congruence.
    + rewrite E. simpl. split; [reflexivity|]. split; [lia|reflexivity].
  - reflexivity.
  - intros name confirm Hc. unfold save_template.
    assert (H0 : get_total_box_count (clear_boxes st (Some false)) = O).
    { rewrite total_count_sum. simpl. apply clear_all_count. }
    rewrite H0.
    destruct (raw_text (clear_boxes st (Some false))); [reflexivity|].
    destruct name as [[|c name]|]; try reflexivity.
    destruct confirm as [[|]|]; try reflexivity. congruence.
Qed.

(** The hypotheses of X16 at the sample document. *)
Lemma clearing_boxes_witness :
  save_template (clear_boxes sample_creator (Some false)) (Some (txt "acme")) None = None /\
  dict_get Z.eqb (pages_data (clear_boxes sample_creator (Some true))) 2%Z =
  dict_get Z.eqb (pages_data sample_creator) 2%Z.
Proof.
  split.
  - apply (proj2 (proj2 (proj2 (clearing_boxes sample_creator)))). discriminate.
  - apply (proj2 (proj2 (proj1 (proj2 (clearing_boxes sample_creator))))).
    simpl. discriminate.
Defined.

(** ** From the creator to the extractor: the pages of a saved template *)

From Stdlib Require Import DecimalNat.

Lemma to_uint_not_nil n : Nat.to_uint n <> Decimal.Nil.
Proof.
  intros H. pose proof (Unsigned.of_to n) as Hn. rewrite H in Hn. simpl in Hn.
  subst n. discriminate H.
Qed.

Lemma str_of_nat_inj a b : str_of_nat a = str_of_nat b -> a = b.
Proof.
  unfold str_of_nat. intros H.
  apply (f_equal string_of_list_ascii) in H.
  rewrite !string_of_list_ascii_of_string in H.
  apply (f_equal NilZero.uint_of_string) in H.
  rewrite !NilZero.usu in H by apply to_uint_not_nil.
  inversion H as [H1]. apply (f_equal Nat.of_uint) in H1.
  now rewrite !Unsigned.of_to in H1.
Qed.

Lemma dict_set_fresh (V : Type) (d : dict str V) k v :
  dict_get str_eqb d k = None -> dict_set str_eqb d k v = d ++ [(k, v)].
Proof.
  induction d as [|[k' v'] d IH]; simpl; [reflexivity|].
  destruct (str_eqb k k'); [discriminate|]. intros H. now rewrite IH.
Qed.

Lemma dict_get_app_none (V : Type) (d1 d2 : dict str V) k :
  dict_get str_eqb d1 k = None ->
  dict_get str_eqb (d1 ++ d2) k = dict_get str_eqb d2 k.
Proof.
  induction d1 as [|[k' v'] d1 IH]; simpl; [reflexivity|].
  destruct (str_eqb k k'); [discriminate|]. exact IH.
Qed.

Lemma pages_fold st (ks : list nat) :
  forall acc : dict str PageData,
    NoDup ks ->
    (forall k, In k ks -> dict_get str_eqb acc (str_of_nat k) = None) ->
    fold_left
      (fun pages page_num =>
         dict_set str_eqb pages (fst (saved_page st page_num)) (snd (saved_page st page_num)))
      ks acc = acc ++ map (saved_page st) ks.
Proof.
  induction ks as [|k ks IH]; intros acc Hnd Hacc; cbn [fold_left map].
  - now rewrite app_nil_r.
  - inversion Hnd as [|? ? Hk Hnd']; subst.
    change (fst (saved_page st k)) with (str_of_nat k).
    rewrite dict_set_fresh by (apply Hacc; now left).
    rewrite IH; auto.
    + rewrite <- app_assoc. reflexivity.
    + intros k' Hk'. rewrite dict_get_app_none by (apply Hacc; now right).
      simpl. destruct (str_eqb (str_of_nat k') (str_of_nat k)) eqn:E; [|reflexivity].
      apply str_eqb_eq, str_of_nat_inj in E. subst. contradiction.
Qed.

Lemma saved_pages_get st (ks : list nat) k :
  In k ks ->
  dict_get str_eqb (map (saved_page st) ks) (str_of_nat k) = Some (snd (saved_page st k)).
Proof.
  induction ks as [|k' ks IH]; simpl; [tauto|].
  destruct (str_eqb (str_of_nat k) (str_of_nat k')) eqn:E.
  - intros _. apply str_eqb_eq, str_of_nat_inj in E. now subst.
  - intros [->|H]; [|auto].
    rewrite str_eqb_refl in E. discriminate E.
Qed.

(** The boxes that the creator holds for a page, as the extractor
    reads them. *)
Definition drawn_on (st : Creator) (page_num : nat) : list Box :=
  match dict_get Z.eqb (pages_data st) (Z.of_nat page_num) with
  | Some pd => map saved_box (pd_boxes pd)
  | None => []
  end.

(** X17.  A template saved by the creator records its name, the text
    of the document and the choice made for the text outside the
    boxes, and has one page entry for each page 1 to [total_pages].
    The extractor therefore counts [total_pages] template pages and,
    for the page [p] of a document, finds the boxes drawn on the page
    [min p total_pages]: the last page of the template serves for the
    pages of the document beyond it. *)
Theorem saved_template_pages :
  forall (st : Creator) (chosen_name : option str) (confirm : option bool)
         (template_data : Template),
    save_template st chosen_name confirm = Some template_data ->
    let n := Z.to_nat (total_pages st) in
    template_name template_data = chosen_name /\
    template_raw_text template_data = Some (raw_text st) /\
    include_unboxed_content template_data = Some (include_unboxed st) /\
    snd (unified_pages template_data) = n /\
    forall p,
      (1 <= p)%nat -> (1 <= n)%nat ->
      sorted_boxes
        (dict_get str_eqb (fst (unified_pages template_data)) (str_of_nat (Nat.min p n))) =
      sort_by (fun a b => Z.leb (box_order a) (box_order b)) (drawn_on st (Nat.min p n)).
Proof.
  intros st name confirm td H n. unfold save_template in H.
  destruct (raw_text st) as [|c raw] eqn:Eraw; [discriminate H|].
  destruct name as [[|c' name]|]; try discriminate H.
  cbv zeta in H.
  match type of H with (if ?g then _ else _) = _ => destruct g; [|discriminate H] end.
  injection H as <-.
  fold n.
  match goal with |- context [fold_left ?f (seq 1 n) []] =>
    assert (Hpages : fold_left f (seq 1 n) [] = map (saved_page st) (seq 1 n))
      by (apply (@pages_fold st (seq 1 n) []); [apply seq_NoDup|reflexivity])
  end.
  rewrite Hpages. unfold unified_pages.
  cbn [template_name template_raw_text include_unboxed_content pages fst snd].
  split; [reflexivity|]. split; [reflexivity|]. split; [reflexivity|].
  split; [now rewrite length_map, length_seq|].
  intros p Hp Hn.
  rewrite saved_pages_get by (apply in_seq; lia).
  unfold sorted_boxes, saved_page, drawn_on. cbn [snd boxes].
  destruct (dict_get Z.eqb (pages_data st) (Z.of_nat (Nat.min p n))); reflexivity.
Qed.

Definition drawn_creator : Creator :=
  _create_standard_box sample_creator (10, 20, 100, 70) 220 140 general
    (Some (txt "Shipper")).

(** The hypotheses of X17 at the sample document with one box on its
    first page, for the fifth page of a document. *)
Lemma saved_template_pages_witness :
  exists template_data,
    save_template drawn_creator (Some (txt "acme")) None = Some template_data /\
    sorted_boxes
      (dict_get str_eqb (fst (unified_pages template_data)) (str_of_nat (Nat.min 5 2))) =
    sort_by (fun a b => Z.leb (box_order a) (box_order b)) (drawn_on drawn_creator (Nat.min 5 2)).
Proof.
  eexists. split; [reflexivity|].
  apply (proj2 (proj2 (proj2 (proj2
           (@saved_template_pages drawn_creator (Some (txt "acme")) None _ eq_refl))))).
  - lia.
  - simpl. lia.
Defined.

(** ** Boxes are extracted in the order in which they were drawn *)

(** What the user does between loading a document and saving the
    template. *)
Inductive Action :=
| Navigate (c : NavCommand)
| DrawBox (pdf_coords : Q * Q * Q * Q) (end_x end_y : Q) (box_type : BoxType)
          (label : option str)
| DrawTable (pdf_coords : Q * Q * Q * Q) (end_x end_y : Q) (label : str)
| Delete (click_x click_y : Q)
| Clear (result : option bool).

Definition perform (st : Creator) (a : Action) : Creator :=
  match a with
  | Navigate c => navigate st c
  | DrawBox pdf_coords end_x end_y box_type label =>
      _create_standard_box st pdf_coords end_x end_y box_type label
  | DrawTable pdf_coords end_x end_y label =>
      _save_table_box st pdf_coords end_x end_y label
  | Delete click_x click_y => delete_box st click_x click_y
  | Clear result => clear_boxes st result
  end.

Definition is_delete (a : Action) : bool :=
  match a with Delete _ _ => true | _ => false end.

(** The boxes held for a page. *)
Definition boxes_of (st : Creator) (p : Z) : list CBox :=
  match dict_get Z.eqb (pages_data st) p with
  | Some pd => pd_boxes pd
  | None => []
  end.

(** The box at position [i], counted from 0, has the extraction order
    [i + 1]. *)
Definition in_drawing_order (boxes : list CBox) : Prop :=
  forall i b, nth_error boxes i = Some b -> cb_extraction_order b = (Z.of_nat i + 1)%Z.

Lemma in_drawing_order_nil : in_drawing_order [].
Proof. intros [|i] b H; discriminate H. Qed.

Lemma in_drawing_order_app boxes b :
  in_drawing_order boxes ->
  cb_extraction_order b = (Z.of_nat (List.length boxes) + 1)%Z ->
  in_drawing_order (boxes ++ [b]).
Proof.
  intros H Hb i b' Hi.
  destruct (Nat.lt_ge_cases i (List.length boxes)) as [Hlt|Hge].
  - rewrite nth_error_app1 in Hi by exact Hlt. now apply H.
  - rewrite nth_error_app2 in Hi by exact Hge.
    destruct (i - List.length boxes)%nat as [|k] eqn:E; simpl in Hi.
    + inversion Hi; subst b'. rewrite Hb. f_equal. lia.
    + destruct k; discriminate Hi.
Qed.

Lemma boxes_of_append st b p :
  boxes_of (append_box st b) p =
  if Z.eqb p (current_page_num st) then boxes_of st p ++ [b] else boxes_of st p.
Proof.
  unfold boxes_of, append_box. cbn [pages_data with_pages].
  destruct (Z.eqb p (current_page_num st)) eqn:E.
  - apply Z.eqb_eq in E. subst p.
    rewrite (dict_get_set_same Z.eqb Z_eqb_iff). cbn [pd_boxes].
    destruct (dict_get Z.eqb (pages_data st) (current_page_num st)); reflexivity.
  - apply Z.eqb_neq in E.
    rewrite (dict_get_set_other Z.eqb Z_eqb_iff) by congruence. reflexivity.
Qed.

Lemma dict_get_map_clear (d : dict Z PageStore) p :
  dict_get Z.eqb (map (fun kv => (fst kv, mkPageStore (pd_raw_text (snd kv)) [])) d) p =
  match dict_get Z.eqb d p with
  | Some pd => Some (mkPageStore (pd_raw_text pd) [])
  | None => None
  end.
Proof.
  induction d as [|[k v] d IH]; simpl; [reflexivity|].
  destruct (Z.eqb p k); [reflexivity|exact IH].
Qed.

Lemma perform_keeps_order st a :
  is_delete a = false ->
  (forall p, in_drawing_order (boxes_of st p)) ->
  forall p, in_drawing_order (boxes_of (perform st a) p).
Proof.
  intros Ha H p. destruct a as [c|coords ex ey bt label|coords ex ey label|cx cy|result];
    simpl in *; try discriminate Ha.
  - unfold boxes_of. destruct c as [| |[q|]]; simpl;
      unfold prev_page, next_page, goto_page;
      repeat match goal with |- context [if ?g then _ else _] => destruct g end;
      apply H.
  - unfold _create_standard_box. destruct label as [[|c label]|]; try apply H.
    rewrite boxes_of_append. destruct (Z.eqb p (current_page_num st)) eqn:E; [|apply H].
    apply Z.eqb_eq in E. subst p. apply in_drawing_order_app; [apply H|reflexivity].
  - unfold _save_table_box. cbv zeta.
    rewrite boxes_of_append. destruct (Z.eqb p (current_page_num st)) eqn:E; [|apply H].
    apply Z.eqb_eq in E. subst p. apply in_drawing_order_app; [apply H|reflexivity].
  - unfold clear_boxes. destruct result as [[|]|]; [| |apply H].
    + destruct (dict_get Z.eqb (pages_data st) (current_page_num st)) as [pd|] eqn:E;
        [|apply H].
      unfold boxes_of. cbn [pages_data with_pages].
      destruct (Z.eq_dec p (current_page_num st)) as [->|Hne].
      * rewrite (dict_get_set_same Z.eqb Z_eqb_iff). apply in_drawing_order_nil.
      * rewrite (dict_get_set_other Z.eqb Z_eqb_iff) by congruence. apply H.
    + unfold boxes_of. cbn [pages_data with_pages]. rewrite dict_get_map_clear.
      destruct (dict_get Z.eqb (pages_data st) p); apply in_drawing_order_nil.
Qed.

Lemma box_order_saved b : box_order (saved_box b) = cb_extraction_order b.
Proof.
  unfold box_order, saved_box. destruct (cb_coordinates b) as [[[? ?] ?] ?]. reflexivity.
Qed.

Lemma order_from_sorted boxes :
  forall k,
    (forall i b, nth_error boxes i = Some b ->
                 cb_extraction_order b = (Z.of_nat i + k)%Z) ->
    Sorted (fun a b => Z.leb (box_order a) (box_order b) = true) (map saved_box boxes).
Proof.
  induction boxes as [|a boxes IH]; intros k H; simpl; constructor.
  - apply (IH (k + 1)%Z). intros i b Hi. rewrite (H (S i) b Hi). lia.
  - destruct boxes as [|b boxes]; constructor.
    rewrite !box_order_saved, (H 0%nat a eq_refl), (H 1%nat b eq_refl).
    apply Z.leb_le. lia.
Qed.

(** X18.  As long as no box is deleted, the boxes of every page carry
    the extraction orders 1, 2, 3, ... in the order in which they were
    drawn, whatever pages are visited and whatever is cleared in
    between; the extractor, which sorts the boxes of a page by
    extraction order, then takes them in the order of drawing. *)
Theorem boxes_extracted_in_drawing_order :
  forall (actions : list Action) (st : Creator),
    (forall p, in_drawing_order (boxes_of st p)) ->
    Forall (fun a => is_delete a = false) actions ->
    let st' := fold_left perform actions st in
    (forall p, in_drawing_order (boxes_of st' p)) /\
    (forall p,
       sort_by (fun a b => Z.leb (box_order a) (box_order b)) (drawn_on st' p) =
       drawn_on st' p).
Proof.
  induction actions as [|a actions IH]; intros st H Hd; simpl.
  - split; [exact H|]. intros p. apply sort_by_sorted_id.
    unfold drawn_on. specialize (H (Z.of_nat p)). unfold boxes_of in H.
    destruct (dict_get Z.eqb (pages_data st) (Z.of_nat p)); [|constructor].
    apply (@order_from_sorted _ 1%Z). exact H.
  - inversion Hd as [|? ? Ha Hd']; subst.
    apply IH; [|exact Hd']. now apply perform_keeps_order.
Qed.

Definition loaded_creator : Creator :=
  extract_raw_text (mkCreator [] 1 2 1 0 0 [] true (mkDetectedLines [] []))
    [txt "BILL OF LADING "; txt "TERMS"].

Definition sample_session : list Action :=
  [ DrawBox (10, 20, 100, 70) 220 140 general (Some (txt "Shipper"));
    Navigate Next;
    DrawBox (10, 20, 100, 70) 220 140 paragraph (Some (txt "Terms"));
    Navigate Prev;
    DrawBox (10, 80, 100, 120) 220 240 general (Some (txt "Consignee")) ].

(** The hypotheses of X18 at a session of three boxes on two pages. *)
Lemma boxes_extracted_in_drawing_order_witness :
  sort_by (fun a b => Z.leb (box_order a) (box_order b))
    (drawn_on (fold_left perform sample_session loaded_creator) 1) =
  drawn_on (fold_left perform sample_session loaded_creator) 1.
Proof.
  apply (proj2 (@boxes_extracted_in_drawing_order sample_session loaded_creator
                  ltac:(intros p i b H; unfold boxes_of in H; simpl in H;
                        repeat (destruct (Z.eqb p _) in H;
                                [destruct i; discriminate H|]);
                        destruct i; discriminate H)
                  ltac:(repeat constructor))).
Defined.

(** ** A template matches the document it was made from *)

(** Every text but the last ends with a white-space character. *)
Fixpoint pages_separated (page_texts : list str) : Prop :=
  match page_texts with
  | [] => True
  | t :: rest =>
      match rest with
      | [] => True
      | _ => head_is is_space (rev t) = true /\ pages_separated rest
      end
  end.

Lemma is_space_upper c : is_space (upper_char c) = is_space c.
Proof. destruct c as [[] [] [] [] [] [] [] []]; reflexivity. Qed.

Lemma collapse_after_space t s1 :
  forall b w s2,
    is_space w = true ->
    collapse_with t b (s1 ++ w :: SP :: s2) = collapse_with t b (s1 ++ w :: s2).
Proof.
  induction s1 as [|c s1 IH]; intros b w s2 Hw.
  - cbn [app collapse_with]. rewrite Hw.
    change (is_space SP) with true. cbn iota. reflexivity.
  - cbn [app collapse_with]. destruct (is_space c); now rewrite IH.
Qed.

Lemma collapse_congr t X Y :
  (forall b, collapse_with t b X = collapse_with t b Y) ->
  forall U b, collapse_with t b (U ++ X) = collapse_with t b (U ++ Y).
Proof.
  intros H U. induction U as [|c U IH]; intros b; simpl; [apply H|].
  destruct (is_space c); now rewrite IH.
Qed.

Lemma ends_with_space t :
  head_is is_space (rev t) = true -> exists t' w, t = t' ++ [w] /\ is_space w = true.
Proof.
  intros H. destruct (rev t) as [|w r] eqn:E; [discriminate H|].
  exists (rev r), w. split; [|exact H].
  apply (f_equal (@rev ascii)) in E. now rewrite rev_involutive in E.
Qed.

Lemma join_concat_collapse (l : list str) :
  pages_separated l ->
  forall b, collapse_with [SP] b (upper (join [SP] l)) =
            collapse_with [SP] b (upper (List.concat l)).
Proof.
  induction l as [|t l IH]; intros H b; [reflexivity|].
  destruct l as [|t2 r].
  - simpl. now rewrite app_nil_r.
  - destruct H as [Ht Hrest]. specialize (IH Hrest).
    destruct (ends_with_space t Ht) as (t' & w & -> & Hw).
    change (join [SP] ((t' ++ [w]) :: t2 :: r))
      with ((t' ++ [w]) ++ [SP] ++ join [SP] (t2 :: r)).
    change (List.concat ((t' ++ [w]) :: t2 :: r))
      with ((t' ++ [w]) ++ List.concat (t2 :: r)).
    unfold upper in *. rewrite !map_app. cbn [map app].
    rewrite <- !app_assoc. cbn [app].
    change (upper_char SP) with SP.
    rewrite collapse_after_space by (now rewrite is_space_upper).
    change (map upper_char t' ++ upper_char w :: map upper_char (join [SP] (t2 :: r)))
      with (map upper_char t' ++ [upper_char w] ++ map upper_char (join [SP] (t2 :: r))).
    change (map upper_char t' ++ upper_char w :: map upper_char (List.concat (t2 :: r)))
      with (map upper_char t' ++ [upper_char w] ++ map upper_char (List.concat (t2 :: r))).
    rewrite !app_assoc. apply collapse_congr. exact IH.
Qed.

Lemma join_not_shorter (sep : str) (l : list str) :
  (List.length (List.concat l) <= List.length (join sep l))%nat.
Proof.
  induction l as [|t l IH]; [simpl; lia|].
  destruct l as [|t2 r].
  - simpl. rewrite app_nil_r. lia.
  - change (join sep (t :: t2 :: r)) with (t ++ sep ++ join sep (t2 :: r)).
    change (List.concat (t :: t2 :: r)) with (t ++ List.concat (t2 :: r)).
    rewrite !length_app. lia.
Qed.

Lemma confidence_range combined td :
  0 <= _calculate_template_confidence combined td /\
  _calculate_template_confidence combined td <= 1.
Proof.
  unfold _calculate_template_confidence.
  destruct (template_raw_text td) as [[|c f]|]; try (split; lra).
  unfold calculate_fuzzy_similarity. destruct combined; [split; lra|].
  apply ratio_range.
Qed.

Lemma self_confidence st page_texts template_name confirm template_data :
  raw_text st = List.concat page_texts ->
  pages_separated page_texts ->
  save_template st template_name confirm = Some template_data ->
  _calculate_template_confidence (upper (join [SP] page_texts)) template_data == 1.
Proof.
  intros Hraw Hsep Hsave.
  assert (Hne : raw_text st <> []).
  { unfold save_template in Hsave. destruct (raw_text st); [discriminate Hsave|discriminate]. }
  assert (Ht : template_raw_text template_data = Some (raw_text st)).
  { unfold save_template in Hsave. destruct (raw_text st); [congruence|].
    destruct template_name as [[|c' name]|]; try discriminate Hsave.
    cbv zeta in Hsave.
    match type of Hsave with (if ?g then _ else _) = _ => destruct g; [|discriminate Hsave] end.
    injection Hsave as <-. reflexivity. }
  unfold _calculate_template_confidence. rewrite Ht.
  destruct (raw_text st) as [|c raw] eqn:E; [congruence|].
  unfold calculate_fuzzy_similarity.
  destruct (upper (join [SP] page_texts)) as [|d comb] eqn:Ec.
  - exfalso. apply (f_equal (@List.length ascii)) in Ec.
    unfold upper in Ec. rewrite length_map in Ec.
    pose proof (join_not_shorter [SP] page_texts) as Hlen.
    rewrite <- Hraw in Hlen. simpl in Ec, Hlen. lia.
  - rewrite <- Ec. cbv zeta.
    assert (Hn : normalize_text (upper (join [SP] page_texts)) = normalize_text (c :: raw)).
    { rewrite !normalize_text_refines, upper_idem. unfold collapse_whitespace.
      rewrite Hraw. now rewrite join_concat_collapse. }
    rewrite Hn. apply ratio_same.
Qed.

(** X19.  A template matches the document it was made from.  When the
    text of every page but the last ends with a white-space character,
    the template that the creator saves for a document has confidence
    1 on that document; template selection then returns a match of
    confidence 1, and with a threshold of at most 1 the extractor goes
    on to extract with the template selected instead of reporting that
    no template is suitable. *)
Theorem template_matches_its_document :
  forall (st : Creator) (page_texts : list str) (template_name : option str)
         (confirm : option bool) (template_data : Template)
         (fitz : str -> result Document) (format_2f : Q -> str)
         (templates : dict str Template) (confidence_threshold : Q)
         (pdf_path : str) (doc : Document) (key : str) (tr : list event),
    raw_text st = List.concat page_texts ->
    pages_separated page_texts ->
    save_template st template_name confirm = Some template_data ->
    fitz pdf_path = Return doc ->
    Forall2 (fun page t => get_text page = Return t) doc page_texts ->
    In (key, template_data) templates ->
    confidence_threshold <= 1 ->
    _calculate_template_confidence (upper (join [SP] page_texts)) template_data == 1 /\
    exists m,
      find_best_template fitz templates pdf_path tr =
      (Return (Some m), tr ++ [Opened pdf_path; Closed pdf_path]) /\
      confidence m == 1 /\
      extract_bol_text fitz format_2f templates confidence_threshold pdf_path tr =
      _extract_with_template fitz pdf_path (tm_template_data m)
        (tr ++ [Opened pdf_path; Closed pdf_path]).
Proof.
  intros st page_texts name confirm td fitz format_2f templates threshold
         pdf_path doc key tr Hraw Hsep Hsave Hopen Hread Hin Hth.
  pose proof (self_confidence st page_texts name confirm Hraw Hsep Hsave) as Hself.
  split; [exact Hself|].
  assert (Hfind :
    find_best_template fitz templates pdf_path tr =
    (Return (fst (fold_left (best_step (upper (join [SP] page_texts))) templates (None, 0))),
     tr ++ [Opened pdf_path; Closed pdf_path])).
  { unfold find_best_template, fitz_open, doc_close, bind, emit, lift, ret.
    rewrite Hopen, (mapM_get_text Hread). rewrite <- app_assoc. reflexivity. }
  destruct (best_fold (upper (join [SP] page_texts)) templates None 0)
    as [[Hr Hall]|(pre & k & data & post & Hl & Hr & Hlt & Hpre & Hpost)].
  - exfalso. rewrite Forall_forall in Hall. specialize (Hall _ Hin). simpl in Hall. lra.
  - rewrite Hr in Hfind. cbn [fst] in Hfind.
    set (m := mkTemplateMatch k
                (_calculate_template_confidence (upper (join [SP] page_texts)) data) data) in *.
    assert (Hm : confidence m == 1).
    { unfold m. cbn [confidence].
      destruct (confidence_range (upper (join [SP] page_texts)) data) as [_ Hle].
      assert (Hge : _calculate_template_confidence (upper (join [SP] page_texts)) td <=
                    _calculate_template_confidence (upper (join [SP] page_texts)) data).
      { rewrite Hl in Hin. apply in_app_or in Hin. destruct Hin as [Hin|[Hin|Hin]].
        - rewrite Forall_forall in Hpre. specialize (Hpre _ Hin). simpl in Hpre. lra.
        - inversion Hin; subst. lra.
        - rewrite Forall_forall in Hpost. specialize (Hpost _ Hin). simpl in Hpost. lra. }
      lra. }
    exists m. split; [exact Hfind|]. split; [exact Hm|].
    destruct (extract_with_template_total fitz pdf_path (tm_template_data m)
                (tr ++ [Opened pdf_path; Closed pdf_path])) as (s & tr' & Hs).
    unfold extract_bol_text, try_except, match_and_extract, bind.
    rewrite Hfind.
    assert (Hq : Qltb (confidence m) threshold = false) by (apply Qltb_false; lra).
    rewrite Hq, Hs. reflexivity.
Qed.

Definition saved_sample : Template :=
  match save_template drawn_creator (Some (txt "acme")) None with
  | Some t => t
  | None => sample_template
  end.

Definition two_page_document : Document :=
  [ mkPage (Return (txt "BILL OF LADING ")) (Return sample_words);
    mkPage (Return (txt "TERMS")) (Return []) ].

(** The hypotheses of X19 at the sample document of two pages and the
    template saved for it with one box. *)
Lemma template_matches_its_document_witness :
  exists m,
    find_best_template (fun _ => Return two_page_document)
      [(txt "acme", saved_sample)] (txt "a.pdf") [] =
    (Return (Some m), [Opened (txt "a.pdf"); Closed (txt "a.pdf")]) /\
    confidence m == 1.
Proof.
  destruct (@template_matches_its_document drawn_creator
              [txt "BILL OF LADING "; txt "TERMS"] (Some (txt "acme")) None saved_sample
              (fun _ => Return two_page_document) (fun _ => [])
              [(txt "acme", saved_sample)] (1 # 2) (txt "a.pdf") two_page_document
              (txt "acme") [])
    as (_ & m & Hfind & Hm & _).
  - reflexivity.
  - simpl. split; reflexivity.
  - reflexivity.
  - reflexivity.
  - repeat constructor.
  - left. reflexivity.
  - vm_compute. discriminate.
  - exists m. split; [exact Hfind|exact Hm].
Defined.

(** ** Templates that extract the boxes only *)

Lemma box_blocks_length (box_assignments : assignments) (boxes : list Box) :
  (List.length (box_blocks box_assignments boxes) <= List.length boxes)%nat.
Proof.
  unfold box_blocks. induction boxes as [|b boxes IH]; cbn [flat_map List.length]; [lia|].
  rewrite length_app.
  destruct (dict_get str_eqb box_assignments (box_label b)) as [[|e es]|];
    cbn [List.length]; lia.
Qed.

(** X20.  When the template sets [include_unboxed_content] to false and
    no box bears the reserved label [_UNBOXED_], the text outside the
    boxes is left out: every content block of a page is the block of a
    box, anchored at that box and rendered from the tokens filed under
    the label of the box, each of which has its centre in a box of that
    label; there is at most one block for each box, and a page without
    boxes yields no content at all, whatever words it has. *)
Theorem boxes_only_template :
  forall (template_data : Template) (boxes : list Box) (words : list Word),
    include_unboxed_content template_data = Some false ->
    ~ In UNBOXED (map box_label boxes) ->
    let tokens := _extract_all_text_elements words in
    let filed_under_label box :=
      map (fun e => set_box_assignment e (box_label box))
        (filter (filed_under boxes (box_label box)) tokens) in
    (forall block,
       In block (page_content_blocks template_data boxes words) ->
       exists box,
         In box boxes /\ filed_under_label box <> [] /\
         block = mkBlock (_post_process_text (_process_box_elements (filed_under_label box) box))
                         (fst (box_anchor box)) (snd (box_anchor box))) /\
    (forall box e,
       In e (filter (filed_under boxes (box_label box)) tokens) ->
       exists b, first_zone e boxes b /\ box_label b = box_label box) /\
    (List.length (page_content_blocks template_data boxes words) <= List.length boxes)%nat /\
    page_parts template_data [] words = [].
Proof.
  intros td boxes words H Hres tokens filed_under_label.
  assert (Hu : forall d, unboxed_blocks td d = []).
  { intros d. unfold unboxed_blocks. now rewrite H. }
  destruct (assign_result tokens boxes) as (_ & R2 & _).
  split; [|split; [|split]].
  - intros block Hb. unfold page_content_blocks in Hb. apply sort_by_in in Hb.
    fold tokens in Hb. rewrite Hu, app_nil_r in Hb.
    unfold box_blocks in Hb. apply in_flat_map in Hb. destruct Hb as (box & Hbox & Hb).
    exists box. split; [exact Hbox|].
    assert (HL : box_label box <> UNBOXED).
    { intros Heq. apply Hres. rewrite <- Heq. now apply in_map. }
    rewrite (R2 (box_label box) (or_introl HL) (in_map box_label _ _ Hbox)) in Hb.
    fold (filed_under_label box) in Hb.
    destruct (filed_under_label box) as [|e es]; [destruct Hb|].
    split; [discriminate|]. destruct Hb as [<-|[]]. reflexivity.
  - intros box e He. apply filter_In in He. destruct He as [_ He].
    apply filed_under_true in He. now apply assign_element_some.
  - unfold page_content_blocks. fold tokens. rewrite Hu, app_nil_r, sort_by_length.
    apply box_blocks_length.
  - unfold page_parts, page_content_blocks. rewrite Hu. reflexivity.
Qed.

Definition boxes_only_sample : Template :=
  mkTemplate (Some (txt "acme")) (Some (txt "Bill of Lading")) (Some false) None None.

(** The hypotheses of X20 at a page of two words, one in the only box
    and one outside: the page has one block at most. *)
Lemma boxes_only_template_witness :
  (List.length (page_content_blocks boxes_only_sample [sample_zone] sample_words) <= 1)%nat.
Proof.
  apply (@boxes_only_template boxes_only_sample [sample_zone] sample_words eq_refl).
  simpl. intros [H|[]]. discriminate H.
Defined.

(** ** The size of a grid *)

(** The number of cells that [_update_line_status] announces. *)
Definition expected_cells (detected_lines : DetectedLines) : nat :=
  let h_count := List.length (horizontal detected_lines) in
  let v_count := List.length (vertical detected_lines) in
  ((h_count + 1) * (v_count + 1))%nat.

Lemma band_cells_length i top bottom vs :
  forall id j, List.length (band_cells id i j top bottom vs) = (List.length vs - 1)%nat.
Proof.
  induction vs as [|lft vs IH]; intros id j; simpl; [reflexivity|].
  destruct vs as [|rgt rest]; [reflexivity|].
  cbn [List.length]. rewrite IH. cbn [List.length]. lia.
Qed.

Lemma v_positions_length detected_lines top bottom :
  (List.length (v_positions detected_lines top bottom) <=
   List.length (vertical detected_lines))%nat.
Proof.
  unfold v_positions.
  etransitivity; [apply sorted_set_length|].
  rewrite length_map. apply filter_length_le.
Qed.

Lemma grid_rows_length box_coords detected_lines hs :
  forall id i,
    let n := List.length (grid_rows box_coords detected_lines id i hs) in
    (List.length hs - 1 <= n /\
     n <= (List.length hs - 1) * Nat.max 1 (List.length (vertical detected_lines) - 1))%nat.
Proof.
  induction hs as [|top hs IH]; intros id i; [simpl; lia|].
  destruct hs as [|bottom rest]; [simpl; lia|].
  destruct box_coords as [[[bx1 by1] bx2] by2].
  pose (vs := v_positions detected_lines top bottom).
  pose (band := if (List.length vs <? 2)%nat
                then [mkCell id i 0 (bx1, top, bx2, bottom)]
                else band_cells id i 0 top bottom vs).
  assert (Heq :
    grid_rows (bx1, by1, bx2, by2) detected_lines id i (top :: bottom :: rest) =
    band ++ grid_rows (bx1, by1, bx2, by2) detected_lines
              (id + Z.of_nat (List.length band)) (i + 1) (bottom :: rest))
    by reflexivity.
  assert (Hband : (1 <= List.length band /\
                   List.length band <=
                   Nat.max 1 (List.length (vertical detected_lines) - 1))%nat).
  { unfold band. pose proof (v_positions_length detected_lines top bottom) as Hv.
    fold vs in Hv. destruct (List.length vs <? 2)%nat eqn:E.
    - cbn [List.length]. lia.
    - apply Nat.ltb_ge in E. rewrite band_cells_length. lia. }
  specialize (IH (id + Z.of_nat (List.length band))%Z (i + 1)%Z). cbv zeta in IH.
  destruct IH as [I1 I2]. cbv zeta. rewrite Heq, length_app.
  assert (E1 : (List.length (top :: bottom :: rest) - 1 = S (List.length rest))%nat)
    by (cbn [List.length]; lia).
  assert (E2 : (List.length (bottom :: rest) - 1 = List.length rest)%nat)
    by (cbn [List.length]; lia).
  rewrite E1. rewrite E2 in I1, I2.
  match type of I2 with (List.length ?g <= _)%nat => set (M := List.length g) in * end.
  set (B := List.length band) in *.
  set (m := Nat.max 1 (List.length (vertical detected_lines) - 1)) in *.
  set (r := List.length rest) in *.
  clearbody M B m r. destruct Hband as [B1 B2]. split; nia.
Qed.

(** X21.  A grid has at least one cell for each band between two
    consecutive horizontal positions, and at most [(h - 1) * max 1 (v - 1)]
    cells for [h] horizontal and [v] vertical detected lines; the
    number of cells that the status line of the table editor announces,
    [(h + 1) * (v + 1)], is always larger than the number of cells
    built. *)
Theorem grid_size_bounds :
  forall (box_coords : Q * Q * Q * Q) (detected_lines : DetectedLines),
    let cells := _generate_table_cells box_coords detected_lines in
    let h := List.length (horizontal detected_lines) in
    let v := List.length (vertical detected_lines) in
    ((2 <= List.length (h_positions detected_lines) ->
      List.length (h_positions detected_lines) - 1 <= List.length cells) /\
     List.length cells <= (h - 1) * Nat.max 1 (v - 1) /\
     List.length cells < expected_cells detected_lines)%nat.
Proof.
  intros box_coords detected_lines cells h v.
  assert (Hh : (List.length (h_positions detected_lines) <= h)%nat).
  { unfold h_positions. etransitivity; [apply sorted_set_length|].
    now rewrite length_map. }
  unfold cells, _generate_table_cells, expected_cells. fold h. fold v.
  destruct (List.length (h_positions detected_lines) <? 2)%nat eqn:E.
  - apply Nat.ltb_lt in E. cbn [List.length].
    split; [lia|]. split; [apply Nat.le_0_l|nia].
  - apply Nat.ltb_ge in E.
    destruct (grid_rows_length box_coords detected_lines (h_positions detected_lines) 0%Z 0%Z)
      as [H1 H2].
    fold v in H2. set (m := Nat.max 1 (v - 1)) in *.
    set (n := List.length (grid_rows box_coords detected_lines 0 0
                             (h_positions detected_lines))) in *.
    assert (Hm : (m <= v + 1)%nat) by (unfold m; lia).
    split; [intros _; exact H1|]. split; nia.
Qed.

(** The hypothesis of X21 at the sample grid of two bands. *)
Lemma grid_size_bounds_witness :
  (List.length (h_positions sample_lines) - 1 <=
   List.length (_generate_table_cells (0, 10, 100, 70)%Q sample_lines))%nat.
Proof.
  apply (proj1 (grid_size_bounds (0, 10, 100, 70) sample_lines)).
  vm_compute. lia.
Defined.

(** ** The smallest box that can be drawn *)

(** The test of [end_draw] on the rectangle dragged, and the page
    rectangle handed on to the creation of the box; [None] when the
    rectangle is dropped as too small. *)
Definition end_draw_coords (st : Creator) (end_x end_y : Q) : option (Q * Q * Q * Q) :=
  if Qltb (Qabs' (end_x - start_x st)) 10 || Qltb (Qabs' (end_y - start_y st)) 10
  then None
  else Some (screen_to_pdf_coords (scale_factor st) (start_x st) (start_y st) end_x end_y).

(** [end_draw] for the general and paragraph types; [drawing] is the
    flag set by [start_draw]. *)
Definition end_draw (st : Creator) (drawing : bool) (end_x end_y : Q)
    (box_type : BoxType) (label : option str) : Creator :=
  if drawing then
    match end_draw_coords st end_x end_y with
    | None => st
    | Some pdf_coords => _create_standard_box st pdf_coords end_x end_y box_type label
    end
  else st.

Lemma py_max_min_abs a b : py_max a b - py_min a b == Qabs' (b - a).
Proof.
  unfold py_max, py_min, Qabs'.
  destruct (Qltb a b) eqn:E1; destruct (Qltb b a) eqn:E2;
    destruct (Qle_bool 0 (b - a)) eqn:E3;
    try apply Qltb_true in E1; try apply Qltb_false in E1;
    try apply Qltb_true in E2; try apply Qltb_false in E2;
    try apply Qle_bool_iff in E3;
    try (assert (E3' : ~ 0 <= b - a)
           by (intros H; apply Qle_bool_iff in H; congruence));
    try lra.
Qed.

Lemma pdf_extent s a b :
  0 < s -> s <= 1 -> 10 <= Qabs' (b - a) ->
  5 <= py_max a b / s / 2 - py_min a b / s / 2.
Proof.
  intros Hs Hs1 Hab.
  assert (E : py_max a b / s / 2 - py_min a b / s / 2 == (py_max a b - py_min a b) / s / 2)
    by (field; lra).
  rewrite E, py_max_min_abs.
  set (d := Qabs' (b - a)) in *.
  assert (H1 : d <= d / s).
  { apply Qle_shift_div_l; [exact Hs|].
    setoid_replace d with (d * 1) at 2 by ring.
    apply Qmult_le_l; [lra|exact Hs1]. }
  assert (H2 : d / s / 2 == (d / s) * (1 # 2)) by (field; lra).
  rewrite H2. lra.
Qed.

(** X22.  No box smaller than 5 by 5 page units can be drawn: with the
    scale that the display sets, a rectangle dragged over less than 10
    screen units in either direction is dropped, and every box that
    [end_draw] adds has a page rectangle at least 5 units wide and 5
    units high. *)
Theorem drawn_boxes_are_not_tiny :
  forall (st : Creator) (img_width : Z) (drawing : bool) (end_x end_y : Q)
         (box_type : BoxType) (label : option str),
    scale_factor st = display_scale img_width ->
    let st' := end_draw st drawing end_x end_y box_type label in
    (end_draw_coords st end_x end_y = None -> st' = st) /\
    forall b,
      get_current_page_boxes st' = get_current_page_boxes st ++ [b] ->
      let '(x1, y1, x2, y2) := cb_coordinates b in
      5 <= x2 - x1 /\ 5 <= y2 - y1.
Proof.
  intros st img_width drawing end_x end_y box_type label Hscale st'.
  destruct (display_scale_pos img_width) as [Hs Hs1]. rewrite <- Hscale in Hs, Hs1.
  assert (Hnil : forall b, get_current_page_boxes st = get_current_page_boxes st ++ [b] -> False).
  { intros b H. apply (f_equal (@List.length CBox)) in H. rewrite length_app in H.
    simpl in H. lia. }
  unfold st', end_draw. split.
  - intros ->. now destruct drawing.
  - intros b Hb. destruct drawing; [|destruct (Hnil _ Hb)].
    unfold end_draw_coords in Hb.
    destruct (Qltb (Qabs' (end_x - start_x st)) 10) eqn:Ex; [destruct (Hnil _ Hb)|].
    destruct (Qltb (Qabs' (end_y - start_y st)) 10) eqn:Ey; [destruct (Hnil _ Hb)|].
    cbn [orb] in Hb. apply Qltb_false in Ex, Ey.
    unfold _create_standard_box in Hb.
    destruct label as [[|c label]|]; try destruct (Hnil _ Hb).
    match type of Hb with context [append_box st ?box] =>
      destruct (append_box_spec st box) as (H1 & _); rewrite H1 in Hb end.
    apply app_inv_head in Hb. inversion Hb; subst b. cbn [cb_coordinates].
    unfold screen_to_pdf_coords. split; now apply pdf_extent.
Qed.

(** The hypothesis of X22 at a rectangle dragged over 8 screen units. *)
Lemma drawn_boxes_are_not_tiny_witness :
  end_draw sample_creator true 208 140 general (Some (txt "Shipper")) = sample_creator.
Proof.
  apply (proj1 (@drawn_boxes_are_not_tiny sample_creator 600 true 208 140 general
                  (Some (txt "Shipper")) eq_refl)).
  reflexivity.
Defined.

(** ** Line grouping loses no word *)

(** X23.  Line grouping loses no word and invents none: every word of
    the input whose text is not blank is on a line of the result, and
    every word on a line of the result is a word of the input. *)
Theorem line_grouping_keeps_the_words :
  forall (words : list Word),
    (forall w, In w words -> strip (word_text w) <> [] ->
               on_a_line w (_group_words_into_lines words)) /\
    (forall w, on_a_line w (_group_words_into_lines words) -> In w words).
Proof. exact words_stay_on_lines. Qed.

(** The hypotheses of X23 at a paragraph of three words. *)
Lemma line_grouping_keeps_the_words_witness :
  on_a_line (40, 11, 60, 21, txt "TO") (_group_words_into_lines sample_paragraph).
Proof.
  apply (proj1 (line_grouping_keeps_the_words sample_paragraph)).
  - right. left. reflexivity.
  - vm_compute. discriminate.
Defined.

(** * Loading the templates: [load_templates] of the extractor *)

(** [s.startswith(prefix)] and [s.endswith(suffix)] *)
Fixpoint startswith (s prefix : str) : bool :=
  match prefix, s with
  | [], _ => true
  | a :: p, b :: r => ascii_eqb a b && startswith r p
  | _ :: _, [] => false
  end.

Definition endswith (s suffix : str) : bool := startswith (rev s) (rev suffix).

(** [s.replace(old, '')] for a needle [old] that is not empty: the
    occurrences are removed from left to right, and [skip] counts the
    characters of the current occurrence still to pass over. *)
Fixpoint remove_all (old s : str) (skip : nat) : str :=
  match s with
  | [] => []
  | c :: r =>
      match skip with
      | S n => remove_all old r n
      | O =>
          if startswith s old then remove_all old r (List.length old - 1)
          else c :: remove_all old r O
      end
  end.

Definition JSON_EXT : str := txt ".json".

(** [template_data.get('template_name', template_file.replace('.json', ''))] *)
Definition template_key (template_file : str) (template_data : Template) : str :=
  match template_name template_data with
  | Some n => n
  | None => remove_all JSON_EXT template_file O
  end.

(** One iteration over the files of the directory.  A file is the pair
    of its name and of what opening and parsing it yields; only the
    files whose name ends in [.json] are opened. *)
Definition load_step (templates : result (dict str Template))
    (file : str * result Template) : result (dict str Template) :=
  match templates with
  | Raise e => Raise e
  | Return d =>
      if endswith (fst file) JSON_EXT then
        match snd file with
        | Return template_data =>
            Return (dict_set str_eqb d (template_key (fst file) template_data) template_data)
        | Raise e => Raise e
        end
      else Return d
  end.

(** [load_templates], on the listing of the templates directory. *)
Definition load_templates (listing : list (str * result Template))
    : result (dict str Template) :=
  fold_left load_step listing (Return []).

(** The templates of the files that are opened, with their keys, in
    the order of the listing. *)
Definition loaded (listing : list (str * result Template)) : list (str * Template) :=
  flat_map
    (fun file =>
       if endswith (fst file) JSON_EXT then
         match snd file with
         | Return template_data => [(template_key (fst file) template_data, template_data)]
         | Raise _ => []
         end
       else [])
    listing.

Lemma find_over_app (A : Type) (f : A -> bool) (l1 l2 : list A) :
  find f (l1 ++ l2) = match find f l1 with Some x => Some x | None => find f l2 end.
Proof.
  induction l1 as [|a l1 IH]; simpl; [reflexivity|]. destruct (f a); auto.
Qed.

Lemma fold_dict_set_last (V : Type) (l : list (str * V)) :
  forall (d : dict str V) k,
    dict_get str_eqb (fold_left (fun d x => dict_set str_eqb d (fst x) (snd x)) l d) k =
    match find (fun x => str_eqb k (fst x)) (rev l) with
    | Some x => Some (snd x)
    | None => dict_get str_eqb d k
    end.
Proof.
  induction l as [|[k0 v0] l IH]; intros d k; simpl; [reflexivity|].
  rewrite IH, find_over_app.
  destruct (find (fun x => str_eqb k (fst x)) (rev l)); [reflexivity|].
  simpl. destruct (str_eqb k k0) eqn:E.
  - apply str_eqb_eq in E. subst. now rewrite (dict_get_set_same str_eqb str_eqb_eq).
  - rewrite (dict_get_set_other str_eqb str_eqb_eq); [reflexivity|].
    intros ->. now rewrite str_eqb_refl in E.
Qed.

Lemma load_fold_raise listing e :
  fold_left load_step listing (Raise e) = Raise e.
Proof. induction listing as [|f l IH]; simpl; auto. Qed.

Lemma load_fold_return listing :
  forall d,
    Forall (fun file => endswith (fst file) JSON_EXT = true ->
                        exists template_data, snd file = Return template_data) listing ->
    fold_left load_step listing (Return d) =
    Return (fold_left (fun d x => dict_set str_eqb d (fst x) (snd x)) (loaded listing) d).
Proof.
  induction listing as [|[name content] l IH]; intros d H; simpl; [reflexivity|].
  inversion H as [|? ? Hf Hl]; subst. simpl in Hf. unfold loaded. simpl.
  destruct (endswith name JSON_EXT) eqn:E.
  - destruct (Hf eq_refl) as [td ->]. simpl. now rewrite IH.
  - simpl. now rewrite IH.
Qed.

Lemma load_fold_filter listing :
  forall r,
    fold_left load_step listing r =
    fold_left load_step (filter (fun file => endswith (fst file) JSON_EXT) listing) r.
Proof.
  induction listing as [|[name content] l IH]; intros r; simpl; [reflexivity|].
  destruct (endswith name JSON_EXT) eqn:E; simpl.
  - apply IH.
  - rewrite <- IH. destruct r as [d|e]; simpl; now rewrite ?E.
Qed.

(** X24.  Loading the templates looks only at the files whose name
    ends in [.json].  When each of them can be read, a template is
    found under its own [template_name], or under the file name
    without [.json] when it has none, and of several files with the
    same key the last of the listing wins.  When one of them cannot
    be read, loading fails as a whole, whatever the other files
    hold. *)
Theorem load_templates_last_wins :
  forall (listing : list (str * result Template)),
    load_templates listing =
    load_templates (filter (fun file => endswith (fst file) JSON_EXT) listing) /\
    (Forall (fun file => endswith (fst file) JSON_EXT = true ->
                         exists template_data, snd file = Return template_data) listing ->
     exists d,
       load_templates listing = Return d /\
       forall k,
         dict_get str_eqb d k =
         match find (fun x => str_eqb k (fst x)) (rev (loaded listing)) with
         | Some x => Some (snd x)
         | None => None
         end) /\
    (forall pre name e post,
       listing = pre ++ (name, Raise e) :: post ->
       endswith name JSON_EXT = true ->
       exists e', load_templates listing = Raise e').
Proof.
  intros listing. split; [|split].
  - apply load_fold_filter.
  - intros H. eexists. split; [apply (load_fold_return [] H)|].
    intros k. apply fold_dict_set_last.
  - intros pre name e post -> Hname. unfold load_templates.
    rewrite fold_left_app. simpl.
    destruct (fold_left load_step pre (Return [])) as [d|e0]; simpl.
    + rewrite Hname. exists e. apply load_fold_raise.
    + exists e0. apply load_fold_raise.
Qed.

Definition sample_listing : list (str * result Template) :=
  [ (txt "acme.json", Return sample_template);
    (txt "notes.txt", Raise (txt "not a template"));
    (txt "acme_v2.json", Return boxes_only_sample) ].

(** The hypotheses of X24 at a directory of two templates with the
    same name and a text file, and at a directory with a damaged
    template file. *)
Lemma load_templates_last_wins_witness :
  (exists d, load_templates sample_listing = Return d /\
             dict_get str_eqb d (txt "acme") = Some boxes_only_sample) /\
  (exists e, load_templates
               (sample_listing ++ [(txt "bad.json", Raise (txt "damaged"))]) = Raise e).
Proof.
  split.
  - destruct (proj1 (proj2 (load_templates_last_wins sample_listing))) as (d & Hd & Hget).
    + repeat constructor; simpl; intros H; try discriminate H; eexists; reflexivity.
    + exists d. split; [exact Hd|]. rewrite Hget. reflexivity.
  - apply (proj2 (proj2 (load_templates_last_wins
             (sample_listing ++ [(txt "bad.json", Raise (txt "damaged"))])))
             sample_listing (txt "bad.json") (txt "damaged") []).
    + reflexivity.
    + reflexivity.
Defined.

(** * What the whitespace pass guarantees *)

(** Every run of spaces becomes one space. *)
Fixpoint squeeze_spaces (in_run : bool) (s : str) : str :=
  match s with
  | [] => []
  | c :: r =>
      if is_sp c then (if in_run then [] else [SP]) ++ squeeze_spaces true r
      else c :: squeeze_spaces false r
  end.

(** A run of three newlines or more keeps its first two; [k] newlines
    of the run have been seen. *)
Fixpoint cap_newlines (k : nat) (s : str) : str :=
  match s with
  | [] => []
  | c :: r =>
      if is_nl c then (if (k <? 2)%nat then c :: cap_newlines (S k) r
                       else cap_newlines (S k) r)
      else c :: cap_newlines O r
  end.

(** The spaces directly before a newline are dropped. *)
Definition drop_space (c : ascii) (acc : str) : str :=
  if is_sp c && head_is is_nl acc then acc else c :: acc.

Definition drop_trailing_spaces (s : str) : str := fold_right drop_space [] s.

(** No character that satisfies [p] is directly followed by one that
    satisfies [q]. *)
Fixpoint no_pair (p q : ascii -> bool) (s : str) : bool :=
  match s with
  | c :: r => negb (p c && head_is q r) && no_pair p q r
  | [] => true
  end.

Lemma is_char_eq n c : is_char n c = true -> c = ascii_of_nat n.
Proof.
  unfold is_char. intros H. apply Nat.eqb_eq in H. rewrite <- H.
  symmetry. apply ascii_nat_embedding.
Qed.

Lemma squeeze_no_run s :
  head_is is_sp s = false -> squeeze_spaces true s = squeeze_spaces false s.
Proof. destruct s as [|c s]; simpl; [reflexivity|]. now intros ->. Qed.

Lemma run_length_zero_head P s : run_length P s = O -> head_is P s = false.
Proof.
  destruct s as [|c s]; simpl; [reflexivity|].
  destruct (P c); [discriminate|reflexivity].
Qed.

Lemma sub_two_spaces s :
  forall pre,
    sub_from (Rep 2 (Chr is_sp)) (const_repl [SP]) pre s (run_length is_sp s) =
    squeeze_spaces true s /\
    sub_from (Rep 2 (Chr is_sp)) (const_repl [SP]) pre s O =
    squeeze_spaces false s.
Proof.
  induction s as [|c s IH]; intros pre; [split; reflexivity|].
  cbn [sub_from squeeze_spaces run_length]. rewrite match_at_rep_chr.
  cbn [run_length]. destruct (is_sp c) eqn:E.
  - destruct (IH (c :: pre)) as (I1 & I2). split; [exact I1|].
    destruct (run_length is_sp s) as [|n] eqn:En.
    + cbn [Nat.leb]. rewrite I2.
      rewrite (squeeze_no_run s (run_length_zero_head _ _ En)).
      unfold is_sp in E. now rewrite (is_char_eq _ _ E).
    + cbn [Nat.leb]. unfold const_repl at 1. now rewrite I1.
  - destruct (IH (c :: pre)) as (I1 & I2). cbn [Nat.leb]. split; now rewrite I2.
Qed.

Lemma cap_from_two s : forall k, (2 <= k)%nat -> cap_newlines k s = cap_newlines 2 s.
Proof.
  induction s as [|c s IH]; intros k Hk; simpl; [reflexivity|].
  destruct (is_nl c); [|reflexivity].
  assert (E : (k <? 2)%nat = false) by (apply Nat.ltb_ge; lia).
  rewrite E. rewrite (IH (S k)) by lia. symmetry. apply IH. lia.
Qed.

Lemma cap_short_run s :
  forall k, (k + run_length is_nl s <= 2)%nat -> cap_newlines k s = cap_newlines O s.
Proof.
  induction s as [|c s IH]; intros k Hk; simpl; [reflexivity|].
  simpl in Hk. destruct (is_nl c) eqn:E; [|reflexivity].
  assert (E1 : (k <? 2)%nat = true) by (apply Nat.ltb_lt; lia).
  rewrite E1. f_equal. rewrite (IH (S k)) by lia. symmetry. apply IH. lia.
Qed.

Lemma sub_three_newlines s :
  forall pre,
    sub_from (Rep 3 (Chr is_nl)) (const_repl [NL; NL]) pre s (run_length is_nl s) =
    cap_newlines 2 s /\
    sub_from (Rep 3 (Chr is_nl)) (const_repl [NL; NL]) pre s O =
    cap_newlines O s.
Proof.
  induction s as [|c s IH]; intros pre; [split; reflexivity|].
  cbn [sub_from cap_newlines run_length]. rewrite match_at_rep_chr.
  cbn [run_length]. destruct (is_nl c) eqn:E.
  - destruct (IH (c :: pre)) as (I1 & I2). split.
    + cbn [Nat.ltb Nat.leb]. rewrite I1. symmetry. apply cap_from_two. lia.
    + cbn [Nat.ltb Nat.leb].
      destruct (run_length is_nl s) as [|[|n]] eqn:En.
      * rewrite I2. f_equal. symmetry. apply cap_short_run. rewrite En. lia.
      * rewrite I2. f_equal. symmetry. apply cap_short_run. rewrite En. lia.
      * unfold const_repl at 1. rewrite I1.
        destruct s as [|d s']; [discriminate En|].
        simpl in En. destruct (is_nl d) eqn:Ed; [|discriminate En].
        cbn [cap_newlines]. rewrite Ed. cbn [Nat.ltb Nat.leb].
        unfold is_nl in E, Ed. rewrite (is_char_eq _ _ E), (is_char_eq _ _ Ed).
        cbn [app]. f_equal. f_equal. apply cap_from_two. lia.
  - destruct (IH (c :: pre)) as (I1 & I2). cbn [Nat.leb]. split; now rewrite I2.
Qed.

(** The pattern [ +\n] matches at a position exactly when the spaces
    that start there, at least one, are followed by a newline; the
    match is the spaces and the newline. *)
Lemma match_at_spaces_newline pre s :
  match_at (Seq (Rep 1 (Chr is_sp)) (Chr is_nl)) pre s =
  if (1 <=? run_length is_sp s)%nat && head_is is_nl (skipn (run_length is_sp s) s)
  then Some (S (run_length is_sp s), [])
  else None.
Proof.
  destruct (run_split is_sp s) as (Hs & Hall & Hhd & Hlen).
  set (n := run_length is_sp s) in *.
  set (run := firstn n s) in *. set (rest := skipn n s) in *.
  destruct ((1 <=? n)%nat && head_is is_nl rest) eqn:E.
  - apply andb_prop in E. destruct E as [E1 E2]. apply Nat.leb_le in E1.
    destruct rest as [|d rest'] eqn:Er; [discriminate E2|]. simpl in E2.
    unfold match_at. rewrite rmatch_seq, rmatch_rep. cbn [after].
    rewrite Hs at 2.
    rewrite (@iterate_run_success is_sp 1
               (fun st' => rmatch (Chr is_nl) st' (fun st => Some st))
               run (d :: rest') pre [] O (S (List.length s))
               (mkMstate (d :: rev run ++ pre) rest' [])); auto.
    + cbn [after groups]. f_equal. f_equal.
      apply (f_equal (@List.length ascii)) in Hs. rewrite length_app in Hs.
      cbn [List.length] in Hs. lia.
    + lia.
    + apply (f_equal (@List.length ascii)) in Hs. rewrite length_app in Hs. lia.
    + rewrite rmatch_chr. unfold after_run. cbn [after]. rewrite E2. reflexivity.
  - apply match_at_none. rewrite rmatch_seq, rmatch_rep. cbn [after].
    destruct (1 <=? n)%nat eqn:E1.
    + simpl in E. rewrite Hs at 2.
      apply iterate_run_failure; auto.
      intros m Hm. rewrite rmatch_chr. unfold after_run. cbn [after].
      destruct (skipn m run ++ rest) as [|d t] eqn:Et; [reflexivity|].
      assert (Hd : is_nl d = false).
      { destruct (skipn m run) as [|d' t'] eqn:Em.
        - simpl in Et. rewrite Et in E. exact E.
        - simpl in Et. inversion Et; subst d'.
          assert (Hin : In d run).
          { rewrite <- (firstn_skipn m run). apply in_or_app. right.
            rewrite Em. now left. }
          rewrite Forall_forall in Hall. specialize (Hall d Hin).
          unfold is_sp, is_nl, is_char in *. apply Nat.eqb_eq in Hall.
          rewrite Hall. reflexivity. }
      now rewrite Hd.
    + apply Nat.leb_gt in E1.
      assert (Hn : n = O) by lia.
      apply iterate_fails_at_once; [|lia].
      intros k'. apply chr_fails. cbn [after].
      apply run_length_zero_head. exact Hn.
Qed.

Lemma drop_head_newline s :
  head_is is_nl (drop_trailing_spaces s) = head_is is_nl (skipn (run_length is_sp s) s).
Proof.
  induction s as [|c s IH]; [reflexivity|].
  cbn [drop_trailing_spaces fold_right run_length]. fold (drop_trailing_spaces s).
  unfold drop_space. destruct (is_sp c) eqn:E.
  - cbn [skipn andb]. destruct (head_is is_nl (drop_trailing_spaces s)) eqn:H.
    + rewrite <- IH. exact H.
    + rewrite <- IH. cbn [head_is].
      unfold is_sp, is_nl, is_char in *. apply Nat.eqb_eq in E. rewrite E. reflexivity.
  - reflexivity.
Qed.

Lemma sub_spaces_newline s :
  forall pre,
    (head_is is_nl (skipn (run_length is_sp s) s) = true ->
     NL :: sub_from (Seq (Rep 1 (Chr is_sp)) (Chr is_nl)) (const_repl [NL]) pre s
             (S (run_length is_sp s)) =
     drop_trailing_spaces s) /\
    sub_from (Seq (Rep 1 (Chr is_sp)) (Chr is_nl)) (const_repl [NL]) pre s O =
    drop_trailing_spaces s.
Proof.
  induction s as [|c s IH]; intros pre; [split; [discriminate|reflexivity]|].
  destruct (IH (c :: pre)) as (I1 & I2).
  assert (Hstep : drop_trailing_spaces (c :: s) = drop_space c (drop_trailing_spaces s))
    by reflexivity.
  split.
  - cbn [run_length]. destruct (is_sp c) eqn:E.
    + cbn [skipn]. intros H. cbn [sub_from]. rewrite (I1 H), Hstep.
      unfold drop_space. rewrite E, drop_head_newline, H. reflexivity.
    + cbn [skipn head_is]. intros H. cbn [sub_from]. rewrite I2, Hstep.
      unfold drop_space. rewrite E. cbn [andb].
      unfold is_nl in H. now rewrite (is_char_eq _ _ H).
  - cbn [sub_from]. rewrite match_at_spaces_newline. rewrite Hstep.
    cbn [run_length]. unfold drop_space. destruct (is_sp c) eqn:E.
    + cbn [Nat.leb skipn andb]. rewrite drop_head_newline.
      destruct (head_is is_nl (skipn (run_length is_sp s) s)) eqn:H.
      * unfold const_repl at 1. cbn [app]. now apply I1.
      * cbn [andb]. now rewrite I2.
    + cbn [Nat.leb andb]. now rewrite I2.
Qed.

Lemma normalize_whitespace_refines text :
  _normalize_whitespace text =
  strip (drop_trailing_spaces (cap_newlines O (squeeze_spaces false text))).
Proof.
  unfold _normalize_whitespace, re_sub.
  change (Chr (is_char 32)) with (Chr is_sp). change (Chr (is_char 10)) with (Chr is_nl).
  rewrite (proj2 (sub_two_spaces text [])).
  rewrite (proj2 (sub_three_newlines _ [])).
  rewrite (proj2 (sub_spaces_newline _ [])). reflexivity.
Qed.

Lemma squeeze_no_pair s :
  forall b,
    no_pair is_sp is_sp (squeeze_spaces b s) = true /\
    (b = true -> head_is is_sp (squeeze_spaces b s) = false).
Proof.
  induction s as [|c s IH]; intros b; [split; reflexivity|].
  cbn [squeeze_spaces]. destruct (is_sp c) eqn:E.
  - destruct (IH true) as [H1 H2]. destruct b; cbn [app].
    + split; [exact H1|]. intros _. now apply H2.
    + split; [|discriminate]. cbn [no_pair]. rewrite (H2 eq_refl), H1.
      now rewrite andb_false_r.
  - destruct (IH false) as [H1 _]. split.
    + cbn [no_pair]. rewrite E, H1. reflexivity.
    + intros _. cbn [head_is]. exact E.
Qed.

Lemma no_pair_after p q c r :
  p c = false -> no_pair p q (c :: r) = no_pair p q r.
Proof. intros H. cbn [no_pair]. now rewrite H. Qed.

Lemma no_pair_cons p q c r :
  no_pair p q (c :: r) = negb (p c && head_is q r) && no_pair p q r.
Proof. reflexivity. Qed.

Lemma cap_no_pair s :
  forall k p,
    no_pair is_sp is_sp (p :: s) = true ->
    ((0 < k)%nat -> is_sp p = false) ->
    no_pair is_sp is_sp (p :: cap_newlines k s) = true.
Proof.
  induction s as [|c s IH]; intros k p H Hk; [exact H|].
  rewrite no_pair_cons in H. apply andb_prop in H. destruct H as [H1 H2].
  cbn [head_is] in H1.
  cbn [cap_newlines]. destruct (is_nl c) eqn:E.
  - assert (Hc : is_sp c = false).
    { unfold is_sp, is_nl, is_char in *. apply Nat.eqb_eq in E. now rewrite E. }
    destruct (k <? 2)%nat eqn:Ek.
    + rewrite no_pair_cons. cbn [head_is]. rewrite Hc, andb_false_r. cbn [negb andb].
      apply (IH (S k) c H2). intros _. exact Hc.
    + apply Nat.ltb_ge in Ek.
      assert (Hp : is_sp p = false) by (apply Hk; lia).
      apply (IH (S k) p); [|intros _; exact Hp].
      rewrite no_pair_after by exact Hp.
      now rewrite no_pair_after in H2 by exact Hc.
  - rewrite no_pair_cons. cbn [head_is]. rewrite H1. cbn [andb].
    apply (IH O c H2). intros Hlt. lia.
Qed.

Lemma drop_head_space s :
  head_is is_sp (drop_trailing_spaces s) = true -> head_is is_sp s = true.
Proof.
  destruct s as [|c s]; [discriminate|].
  change (drop_trailing_spaces (c :: s)) with (drop_space c (drop_trailing_spaces s)).
  unfold drop_space. cbn [head_is]. destruct (is_sp c) eqn:E; [reflexivity|].
  cbn [andb head_is]. now rewrite E.
Qed.

Lemma drop_no_pair s :
  (no_pair is_sp is_sp s = true -> no_pair is_sp is_sp (drop_trailing_spaces s) = true) /\
  no_pair is_sp is_nl (drop_trailing_spaces s) = true.
Proof.
  induction s as [|c s [IH1 IH2]]; [split; reflexivity|].
  change (drop_trailing_spaces (c :: s)) with (drop_space c (drop_trailing_spaces s)).
  unfold drop_space. split.
  - intros H. rewrite no_pair_cons in H. apply andb_prop in H. destruct H as [H1 H2].
    destruct (is_sp c && head_is is_nl (drop_trailing_spaces s)); [now apply IH1|].
    rewrite no_pair_cons, (IH1 H2), andb_true_r.
    destruct (is_sp c) eqn:E; [|reflexivity]. cbn [andb] in H1 |- *.
    destruct (head_is is_sp (drop_trailing_spaces s)) eqn:Hd; [|reflexivity].
    apply drop_head_space in Hd. now rewrite Hd in H1.
  - destruct (is_sp c && head_is is_nl (drop_trailing_spaces s)) eqn:E; [exact IH2|].
    now rewrite no_pair_cons, E, IH2.
Qed.

Lemma no_pair_app p q l1 l2 :
  no_pair p q (l1 ++ l2) = true -> no_pair p q l1 = true /\ no_pair p q l2 = true.
Proof.
  induction l1 as [|c l1 IH]; simpl; [auto|].
  intros H. apply andb_prop in H. destruct H as [H1 H2].
  destruct (IH H2) as [I1 I2]. split; [|exact I2]. rewrite I1, andb_true_r.
  destruct l1 as [|d l1]; [|exact H1].
  cbn [head_is]. now rewrite andb_false_r.
Qed.

(** X25.  The whitespace pass squeezes every run of spaces into one
    space, keeps the first two newlines of every run of three or more,
    then drops the spaces that stand directly before a newline, and
    trims the ends.  In its result no space is followed by a space, no
    space is followed by a newline, and neither end is a white-space
    character. *)
Theorem whitespace_pass_guarantees :
  forall (text : str),
    let out := _normalize_whitespace text in
    out = strip (drop_trailing_spaces (cap_newlines O (squeeze_spaces false text))) /\
    no_pair is_sp is_sp out = true /\
    no_pair is_sp is_nl out = true /\
    head_is is_space out = false /\
    head_is is_space (rev out) = false.
Proof.
  intros text out. unfold out. rewrite normalize_whitespace_refines.
  set (t1 := squeeze_spaces false text).
  set (t2 := cap_newlines O t1).
  set (t3 := drop_trailing_spaces t2).
  assert (H1 : no_pair is_sp is_sp t1 = true) by apply squeeze_no_pair.
  assert (H2 : no_pair is_sp is_sp t2 = true).
  { assert (H : no_pair is_sp is_sp (NL :: t2) = true).
    { apply cap_no_pair; [|intros Hlt; lia]. now rewrite no_pair_after. }
    now rewrite no_pair_after in H. }
  assert (H3 : no_pair is_sp is_sp t3 = true) by (now apply drop_no_pair).
  assert (H4 : no_pair is_sp is_nl t3 = true) by apply drop_no_pair.
  destruct (strip_substring t3) as (pre & post & Hsub).
  rewrite Hsub in H3, H4.
  apply no_pair_app in H3. destruct H3 as [_ H3]. apply no_pair_app in H3.
  apply no_pair_app in H4. destruct H4 as [_ H4]. apply no_pair_app in H4.
  split; [reflexivity|]. split; [apply H3|]. split; [apply H4|]. apply strip_ends.
Qed.

(** * What the punctuation pass guarantees *)

(** A space is put between one of [, ; :] and the letter that follows
    it. *)
Fixpoint space_after_punct (s : str) : str :=
  match s with
  | [] => []
  | c :: r =>
      if is_sep_punct c && head_is is_letter r then c :: SP :: space_after_punct r
      else c :: space_after_punct r
  end.

(** The characters that satisfy [P] and stand directly before one that
    satisfies [Q], or before dropped characters that do, are dropped. *)
Definition drop_before (P Q : ascii -> bool) (s : str) : str :=
  fold_right (fun c acc => if P c && head_is Q acc then acc else c :: acc) [] s.

Lemma drop_before_cons P Q c s :
  drop_before P Q (c :: s) =
  if P c && head_is Q (drop_before P Q s) then drop_before P Q s
  else c :: drop_before P Q s.
Proof. reflexivity. Qed.

Lemma sub_S_self n : (S n - n = 1)%nat.
Proof. lia. Qed.

Lemma match_at_punct_letter pre s :
  match_at (Seq (Grp 1 (Chr is_sep_punct)) (Grp 2 (Chr is_letter))) pre s =
  match s with
  | c :: d :: _ =>
      if is_sep_punct c && is_letter d then Some (2%nat, [(2%nat, [d]); (1%nat, [c])])
      else None
  | _ => None
  end.
Proof.
  unfold match_at. rewrite rmatch_seq, rmatch_grp, rmatch_chr. cbn [after].
  destruct s as [|c [|d r]]; [reflexivity| |].
  - destruct (is_sep_punct c); [|reflexivity].
    unfold advance. rewrite rmatch_grp, rmatch_chr. reflexivity.
  - destruct (is_sep_punct c); [|reflexivity].
    unfold advance. cbn [before after groups].
    rewrite rmatch_grp, rmatch_chr. cbn [after before groups].
    destruct (is_letter d); [|reflexivity].
    unfold advance. cbn [before after groups List.length].
    rewrite !sub_S_self. cbn [firstn].
    replace (S (S (List.length r)) - List.length r)%nat with 2%nat by lia.
    reflexivity.
Qed.

Lemma letter_not_sep d : is_letter d = true -> is_sep_punct d = false.
Proof. destruct d as [[] [] [] [] [] [] [] []]; intros H; try reflexivity; discriminate H. Qed.

Lemma sub_punct_letter s :
  forall pre,
    sub_from (Seq (Grp 1 (Chr is_sep_punct)) (Grp 2 (Chr is_letter)))
      (fun _ gs => group 1 gs ++ [SP] ++ group 2 gs) pre s O =
    space_after_punct s.
Proof.
  induction s as [|c s IH]; intros pre; [reflexivity|].
  cbn [sub_from space_after_punct]. rewrite match_at_punct_letter.
  destruct s as [|d r].
  - cbn [head_is]. rewrite andb_false_r. reflexivity.
  - cbn [head_is]. destruct (is_sep_punct c && is_letter d) eqn:E.
    + apply andb_prop in E. destruct E as [_ Ed].
      assert (Hd : d :: sub_from (Seq (Grp 1 (Chr is_sep_punct)) (Grp 2 (Chr is_letter)))
                          (fun _ gs => group 1 gs ++ [SP] ++ group 2 gs)
                          (d :: c :: pre) r O =
                   space_after_punct (d :: r)).
      { pose proof (IH (c :: pre)) as Hd.
        cbn [sub_from] in Hd. rewrite match_at_punct_letter in Hd.
        destruct r as [|e r']; [exact Hd|].
        rewrite (letter_not_sep d Ed) in Hd. exact Hd. }
      cbn [group Nat.eqb app sub_from]. rewrite <- Hd. reflexivity.
    + now rewrite IH.
Qed.

Lemma drop_before_head P Q s :
  (forall c, P c = true -> Q c = false) ->
  head_is Q (drop_before P Q s) = head_is Q (skipn (run_length P s) s).
Proof.
  intros HPQ. induction s as [|c s IH]; [reflexivity|].
  rewrite drop_before_cons. cbn [run_length]. destruct (P c) eqn:E.
  - cbn [skipn andb]. destruct (head_is Q (drop_before P Q s)) eqn:H.
    + rewrite <- IH. exact H.
    + rewrite <- IH. cbn [head_is]. now apply HPQ.
  - reflexivity.
Qed.

Lemma drop_before_no_pair P Q s : no_pair P Q (drop_before P Q s) = true.
Proof.
  induction s as [|c s IH]; [reflexivity|].
  rewrite drop_before_cons.
  destruct (P c && head_is Q (drop_before P Q s)) eqn:E; [exact IH|].
  now rewrite no_pair_cons, E, IH.
Qed.

Lemma drop_before_keeps A B P Q s :
  (forall c, Q c = true -> B c = false) ->
  no_pair A B s = true -> no_pair A B (drop_before P Q s) = true.
Proof.
  intros HQB.
  assert (Hhead : forall t, head_is B (drop_before P Q t) = true -> head_is B t = true).
  { intros [|c t]; [discriminate|]. rewrite drop_before_cons.
    destruct (P c && head_is Q (drop_before P Q t)) eqn:E; [|auto].
    apply andb_prop in E. destruct E as [_ E].
    destruct (drop_before P Q t) as [|d t']; [discriminate E|].
    cbn [head_is] in *. intros H. now rewrite (HQB d E) in H. }
  induction s as [|c s IH]; [reflexivity|].
  intros H. rewrite no_pair_cons in H. apply andb_prop in H. destruct H as [H1 H2].
  rewrite drop_before_cons.
  destruct (P c && head_is Q (drop_before P Q s)); [now apply IH|].
  rewrite no_pair_cons, (IH H2), andb_true_r.
  destruct (A c) eqn:Ea; [|reflexivity]. cbn [andb] in H1 |- *.
  destruct (head_is B (drop_before P Q s)) eqn:Hd; [|reflexivity].
  apply Hhead in Hd. now rewrite Hd in H1.
Qed.

Lemma match_at_spaces_punct pre s :
  match_at (Seq re_spaces (Grp 1 (Chr is_stop_punct))) pre s =
  if (1 <=? run_length is_space s)%nat &&
     head_is is_stop_punct (skipn (run_length is_space s) s)
  then Some (S (run_length is_space s), [(1%nat, firstn 1 (skipn (run_length is_space s) s))])
  else None.
Proof.
  destruct (run_split is_space s) as (Hs & Hall & Hhd & Hlen).
  set (n := run_length is_space s) in *.
  set (run := firstn n s) in *. set (rest := skipn n s) in *.
  destruct ((1 <=? n)%nat && head_is is_stop_punct rest) eqn:E.
  - apply andb_prop in E. destruct E as [E1 E2]. apply Nat.leb_le in E1.
    destruct rest as [|d rest'] eqn:Er; [discriminate E2|]. simpl in E2.
    unfold match_at, re_spaces. rewrite rmatch_seq, rmatch_rep. cbn [after].
    rewrite Hs at 2.
    rewrite (@iterate_run_success is_space 1
               (fun st' => rmatch (Grp 1 (Chr is_stop_punct)) st' (fun st => Some st))
               run (d :: rest') pre [] O (S (List.length s))
               (mkMstate (d :: rev run ++ pre) rest' [(1%nat, [d])])); auto.
    + cbn [after groups firstn]. f_equal. f_equal.
      apply (f_equal (@List.length ascii)) in Hs. rewrite length_app in Hs.
      cbn [List.length] in Hs. lia.
    + lia.
    + apply (f_equal (@List.length ascii)) in Hs. rewrite length_app in Hs. lia.
    + rewrite rmatch_grp, rmatch_chr. unfold after_run. cbn [after]. rewrite E2.
      unfold advance. cbn [before after groups List.length].
      rewrite sub_S_self. reflexivity.
  - apply match_at_none. unfold re_spaces. rewrite rmatch_seq, rmatch_rep. cbn [after].
    destruct (1 <=? n)%nat eqn:E1.
    + simpl in E. rewrite Hs at 2.
      apply iterate_run_failure; auto.
      intros m Hm. rewrite rmatch_grp, rmatch_chr. unfold after_run. cbn [after].
      destruct (skipn m run ++ rest) as [|d t] eqn:Et; [reflexivity|].
      assert (Hd : is_stop_punct d = false).
      { destruct (skipn m run) as [|d' t'] eqn:Em.
        - simpl in Et. rewrite Et in E. exact E.
        - simpl in Et. inversion Et; subst d'.
          assert (Hin : In d run).
          { rewrite <- (firstn_skipn m run). apply in_or_app. right.
            rewrite Em. now left. }
          rewrite Forall_forall in Hall. apply space_not_stop_punct. now apply Hall. }
      now rewrite Hd.
    + apply Nat.leb_gt in E1.
      assert (Hn : n = O) by lia.
      apply iterate_fails_at_once; [|lia].
      intros k'. apply chr_fails. cbn [after].
      apply run_length_zero_head. exact Hn.
Qed.

Lemma sub_spaces_punct s :
  forall pre,
    (head_is is_stop_punct (skipn (run_length is_space s) s) = true ->
     firstn 1 (skipn (run_length is_space s) s) ++
     sub_from (Seq re_spaces (Grp 1 (Chr is_stop_punct))) (fun _ gs => group 1 gs) pre s
       (S (run_length is_space s)) =
     drop_before is_space is_stop_punct s) /\
    sub_from (Seq re_spaces (Grp 1 (Chr is_stop_punct))) (fun _ gs => group 1 gs) pre s O =
    drop_before is_space is_stop_punct s.
Proof.
  induction s as [|c s IH]; intros pre; [split; [discriminate|reflexivity]|].
  destruct (IH (c :: pre)) as (I1 & I2).
  split.
  - cbn [run_length]. rewrite drop_before_cons. destruct (is_space c) eqn:E.
    + cbn [skipn]. intros H. cbn [sub_from]. rewrite (I1 H).
      rewrite (drop_before_head is_space is_stop_punct s space_not_stop_punct), H.
      reflexivity.
    + cbn [skipn head_is firstn andb app]. intros H. cbn [sub_from]. now rewrite I2.
  - cbn [sub_from]. rewrite match_at_spaces_punct, drop_before_cons.
    cbn [run_length]. destruct (is_space c) eqn:E.
    + cbn [Nat.leb skipn andb].
      rewrite (drop_before_head is_space is_stop_punct s space_not_stop_punct).
      destruct (head_is is_stop_punct (skipn (run_length is_space s) s)) eqn:H.
      * cbn [group Nat.eqb]. now apply I1.
      * now rewrite I2.
    + cbn [Nat.leb andb]. now rewrite I2.
Qed.

Lemma fix_punctuation_refines text :
  _fix_punctuation text =
  drop_before is_space is_stop_punct (space_after_punct text).
Proof.
  unfold _fix_punctuation, re_sub.
  change (Chr (fun c => is_sep_punct c || is_char 46 c)) with (Chr is_stop_punct).
  rewrite sub_punct_letter. apply sub_spaces_punct.
Qed.

Lemma space_after_head s :
  head_is is_letter (space_after_punct s) = head_is is_letter s.
Proof.
  destruct s as [|c s]; [reflexivity|]. cbn [space_after_punct].
  destruct (is_sep_punct c && head_is is_letter s); reflexivity.
Qed.

Lemma space_after_no_pair s :
  no_pair is_sep_punct is_letter (space_after_punct s) = true.
Proof.
  induction s as [|c s IH]; [reflexivity|]. cbn [space_after_punct].
  destruct (is_sep_punct c && head_is is_letter s) eqn:E.
  - rewrite !no_pair_cons, IH. cbn [head_is].
    change (is_letter SP) with false. change (is_sep_punct SP) with false.
    now rewrite andb_false_r.
  - now rewrite no_pair_cons, space_after_head, E, IH.
Qed.

Lemma stop_not_letter c : is_stop_punct c = true -> is_letter c = false.
Proof. destruct c as [[] [] [] [] [] [] [] []]; intros H; try reflexivity; discriminate H. Qed.

(** X26.  The punctuation pass puts a space between one of [, ; :]
    and a letter that follows it, then drops the white space that
    stands directly before one of [, ; : .].  In its result no
    white-space character is followed by one of [, ; : .], and none of
    [, ; :] is followed by a letter. *)
Theorem punctuation_pass_guarantees :
  forall (text : str),
    let out := _fix_punctuation text in
    out = drop_before is_space is_stop_punct (space_after_punct text) /\
    no_pair is_space is_stop_punct out = true /\
    no_pair is_sep_punct is_letter out = true.
Proof.
  intros text out. unfold out. rewrite fix_punctuation_refines.
  split; [reflexivity|]. split.
  - apply drop_before_no_pair.
  - apply drop_before_keeps; [apply stop_not_letter|apply space_after_no_pair].
Qed.

(** ** The reserved label *)

(** X27.  The label [_UNBOXED_] is reserved.  When a box bears it and
    some word of the page lies outside every box, the words outside the
    boxes take the bucket of that label over: the words that the box
    had received are in no bucket any more, neither as they were read
    nor with the label recorded on them, and the box is rendered from
    the words outside the boxes. *)
Theorem reserved_label_loses_text :
  forall (words : list Word) (boxes : list Box) (e outside : TextElement),
    let text_elements := _extract_all_text_elements words in
    let box_assignments := _assign_text_to_boxes text_elements boxes in
    In e text_elements ->
    assign_element e boxes = Some UNBOXED ->
    In outside text_elements ->
    assign_element outside boxes = None ->
    dict_get str_eqb box_assignments UNBOXED = Some (left_over boxes text_elements) /\
    (forall L l x,
       dict_get str_eqb box_assignments L = Some l -> In x l ->
       x <> e /\ x <> set_box_assignment e UNBOXED).
Proof.
  intros words boxes e outside els ba He Hbox Hout Hnone.
  assert (Hu : left_over boxes els <> []).
  { intros H. assert (Hin : In outside (left_over boxes els)).
    { unfold left_over. apply filter_In. split; [exact Hout|]. now rewrite Hnone. }
    rewrite H in Hin. destruct Hin. }
  destruct (assign_result els boxes) as (R1 & R2 & R3).
  specialize (R1 Hu). fold ba in R1, R2, R3.
  split; [exact R1|].
  assert (Hraw : forall x, In x els -> box_assignment x = None).
  { intros x Hx. unfold els, _extract_all_text_elements in Hx.
    apply in_map_iff in Hx. destruct Hx as ([[[[a b] c] d] t] & <- & _). reflexivity. }
  intros L l x Hget Hx.
  destruct (str_eqb L UNBOXED) eqn:EL.
  - apply str_eqb_eq in EL. subst L.
    assert (Hl : l = left_over boxes els) by congruence. subst l.
    unfold left_over in Hx. apply filter_In in Hx. destruct Hx as [Hx1 Hx2].
    split.
    + intros ->. rewrite Hbox in Hx2. discriminate.
    + intros ->. apply Hraw in Hx1. discriminate.
  - assert (HL : L <> UNBOXED).
    { intros ->. rewrite str_eqb_refl in EL. discriminate. }
    destruct (in_dec (list_eq_dec ascii_dec) L (map box_label boxes)) as [Hin|Hin].
    + rewrite (R2 L (or_introl HL) Hin) in Hget. inversion Hget; subst l.
      apply in_map_iff in Hx. destruct Hx as (x0 & <- & Hx0).
      apply filter_In in Hx0. destruct Hx0 as [Hx0 _].
      split.
      * intros H. apply Hraw in He. rewrite <- H in He. discriminate.
      * intros H. apply (f_equal box_assignment) in H. simpl in H. congruence.
    + rewrite (R3 L (or_introl HL) Hin) in Hget. discriminate.
Qed.

Definition reserved_zone : Box :=
  mkBox (Some UNBOXED) (Some [0; 0; 100; 50]) (Some 1%Z) (Some general) None.

(** The hypotheses of X27 at a page of two words, one inside a box of
    the reserved label and one outside. *)
Lemma reserved_label_loses_text_witness :
  dict_get str_eqb
    (_assign_text_to_boxes (_extract_all_text_elements sample_words) [reserved_zone])
    UNBOXED =
  Some (left_over [reserved_zone] (_extract_all_text_elements sample_words)).
Proof.
  apply (@reserved_label_loses_text sample_words [reserved_zone]
           (mkTextElement (txt "ACME") 10 10 30 20 (Qmid 10 30) (Qmid 10 20) None)
           (mkTextElement (txt "PAGE") 200 10 230 20 (Qmid 200 230) (Qmid 10 20) None)).
  - left. reflexivity.
  - reflexivity.
  - right. left. reflexivity.
  - reflexivity.
Defined.

(** X28.  The label of a box is the key of its bucket, so boxes that
    bear the same label share one bucket: when two boxes of a page have
    the same label, other than the reserved [_UNBOXED_], the same type
    and the same grid, and a word of the page is filed under that
    label, both boxes yield a block, each at its own anchor, and both
    blocks have the same text, which is made of all the words filed
    under the label. *)
Theorem boxes_sharing_a_label_share_text :
  forall (template_data : Template) (words : list Word) (boxes : list Box)
         (b1 b2 : Box) (e : TextElement),
    let text_elements := _extract_all_text_elements words in
    In b1 boxes -> In b2 boxes ->
    box_label b1 = box_label b2 ->
    box_type b1 = box_type b2 ->
    table_cells b1 = table_cells b2 ->
    box_label b1 <> UNBOXED ->
    In e text_elements ->
    assign_element e boxes = Some (box_label b1) ->
    let text :=
      _post_process_text
        (_process_box_elements
           (map (fun x => set_box_assignment x (box_label b1))
              (filter (filed_under boxes (box_label b1)) text_elements))
           b1) in
    In (mkBlock text (fst (box_anchor b1)) (snd (box_anchor b1)))
       (page_content_blocks template_data boxes words) /\
    In (mkBlock text (fst (box_anchor b2)) (snd (box_anchor b2)))
       (page_content_blocks template_data boxes words).
Proof.
  intros td words boxes b1 b2 e els H1 H2 Hl Ht Hc Hu He Ha text.
  destruct (assign_result els boxes) as (_ & R2 & _).
  assert (Hin1 : In (box_label b1) (map box_label boxes)) by now apply in_map.
  specialize (R2 (box_label b1) (or_introl Hu) Hin1).
  set (l := map (fun x => set_box_assignment x (box_label b1))
              (filter (filed_under boxes (box_label b1)) els)) in *.
  assert (Hne : exists x xs, l = x :: xs).
  { assert (Hi : In (set_box_assignment e (box_label b1)) l).
    { unfold l. apply in_map_iff. exists e. split; [reflexivity|].
      apply filter_In. split; [exact He|]. now apply filed_under_true. }
    destruct l as [|x xs]; [destruct Hi|eauto]. }
  destruct Hne as (x & xs & Hl0).
  assert (Hsame : _process_box_elements l b2 = _process_box_elements l b1).
  { unfold _process_box_elements, _extract_table_text_from_elements.
    now rewrite Ht, Hc. }
  assert (Hblock : forall b, In b boxes -> box_label b = box_label b1 ->
            _process_box_elements l b = _process_box_elements l b1 ->
            In (mkBlock text (fst (box_anchor b)) (snd (box_anchor b)))
               (page_content_blocks td boxes words)).
  { intros b Hb Hlb Hpb. unfold page_content_blocks.
    apply sort_by_in. apply in_or_app. left.
    unfold box_blocks. apply in_flat_map. exists b. split; [exact Hb|].
    fold els. rewrite Hlb.
    match goal with
    | |- context [dict_get str_eqb ?d ?k] =>
        change (dict_get str_eqb d k)
          with (dict_get str_eqb (_assign_text_to_boxes els boxes) (box_label b1))
    end.
    rewrite R2, Hl0. left. unfold text. rewrite <- Hpb, Hl0. reflexivity. }
  split.
  - apply Hblock; auto.
  - apply Hblock; auto.
Qed.

Definition twin_zone : Box :=
  mkBox (Some (txt "Shipper")) (Some [150; 0; 250; 50]) (Some 2%Z) (Some general) None.

(** The hypotheses of X28 at a page of two boxes labelled alike, with
    one word in each. *)
Lemma boxes_sharing_a_label_share_text_witness :
  exists text,
    In (mkBlock text 0 0)
       (page_content_blocks sample_template [sample_zone; twin_zone] sample_words) /\
    In (mkBlock text 0 150)
       (page_content_blocks sample_template [sample_zone; twin_zone] sample_words).
Proof.
  eexists.
  apply (@boxes_sharing_a_label_share_text sample_template sample_words
           [sample_zone; twin_zone] sample_zone twin_zone
           (mkTextElement (txt "ACME") 10 10 30 20 (Qmid 10 30) (Qmid 10 20) None)).
  - left. reflexivity.
  - right. left. reflexivity.
  - reflexivity.
  - reflexivity.
  - reflexivity.
  - vm_compute. discriminate.
  - left. reflexivity.
  - reflexivity.
Defined.

(** ** The template page of a document page *)

(** The separator that opens the part of a page in the report. *)
Definition page_separator (page_num : nat) : str :=
  [NL] ++ txt "---" ++ [NL] ++ txt "**Page " ++ str_of_nat page_num ++ txt "**" ++
  [NL] ++ txt "---" ++ [NL].

(** The parts of consecutive pages, numbered from [page_num], when
    every page is extracted with the same boxes. *)
Fixpoint parts_with (template_data : Template) (boxes : list Box)
    (page_num : nat) (pages_words : list (list Word)) : list str :=
  match pages_words with
  | [] => []
  | words :: rest =>
      (page_separator page_num :: page_parts template_data boxes words) ++
      parts_with template_data boxes (S page_num) rest
  end.

Lemma extract_pages_clamped template_data doc pages_words :
  Forall2 (fun page words => get_text_words page = Return words) doc pages_words ->
  forall page_num tr,
    (snd (unified_pages template_data) <= page_num)%nat ->
    extract_pages template_data (snd (unified_pages template_data)) page_num doc tr =
    (Return
       (parts_with template_data
          (sorted_boxes
             (dict_get str_eqb (fst (unified_pages template_data))
                (str_of_nat (snd (unified_pages template_data)))))
          page_num pages_words),
     tr).
Proof.
  induction 1 as [|page words doc pages_words Hp _ IH]; intros page_num tr Hn.
  - reflexivity.
  - cbn [extract_pages parts_with]. unfold bind at 1. unfold extract_page.
    rewrite Nat.min_r by exact Hn.
    unfold bind, lift, ret. rewrite Hp. cbv beta iota.
    rewrite IH by lia. reflexivity.
Qed.

(** X29.  Which page of the template a page of the document is read
    with.  The pages of the document from the last page of the template
    onwards are all read with the boxes of that last page, sorted by
    extraction order; with a template of the legacy single-page form,
    every page of the document is read with the boxes at the top level
    of the template. *)
Theorem last_template_page_is_reused :
  forall (template_data : Template) (doc : Document) (pages_words : list (list Word))
         (page_num : nat) (tr : list event),
    Forall2 (fun page words => get_text_words page = Return words) doc pages_words ->
    let total_template_pages := snd (unified_pages template_data) in
    (total_template_pages <= page_num ->
     extract_pages template_data total_template_pages page_num doc tr =
     (Return
        (parts_with template_data
           (sorted_boxes
              (dict_get str_eqb (fst (unified_pages template_data))
                 (str_of_nat total_template_pages)))
           page_num pages_words),
      tr))%nat /\
    (pages template_data = None ->
     extract_pages template_data total_template_pages 1 doc tr =
     (Return
        (parts_with template_data
           (sort_by (fun a b => Z.leb (box_order a) (box_order b))
              (match legacy_boxes template_data with Some l => l | None => [] end))
           1 pages_words),
      tr)).
Proof.
  intros td doc pages_words page_num tr Hread n. split.
  - intros Hn. now apply extract_pages_clamped.
  - intros Hlegacy.
    assert (Hone : n = 1%nat) by (unfold n, unified_pages; now rewrite Hlegacy).
    unfold n in *.
    rewrite (@extract_pages_clamped td doc pages_words Hread 1%nat tr) by lia.
    rewrite Hone. unfold unified_pages. rewrite Hlegacy. reflexivity.
Qed.

(** The hypotheses of X29 at a legacy template and a document of two
    pages. *)
Lemma last_template_page_is_reused_witness :
  extract_pages sample_template 1 1
    [ mkPage (Return []) (Return sample_words); mkPage (Return []) (Return []) ] [] =
  (Return (parts_with sample_template [sample_zone] 1 [sample_words; []]), []).
Proof.
  assert (Hread : Forall2 (fun page words => get_text_words page = Return words)
            [ mkPage (Return []) (Return sample_words); mkPage (Return []) (Return []) ]
            [sample_words; []]).
  { constructor; [reflexivity|]. constructor; [reflexivity|]. constructor. }
  apply (proj2 (@last_template_page_is_reused sample_template _ _ 1%nat [] Hread)).
  reflexivity.
Defined.
